(** * react-state-form: the parent/child propagation protocol of [form.ts]

    A shallow embedding of [src/form.ts] (classes [FormState] and
    [ChildFormState]) and the properties of its propagation protocol.

    Modelling decisions, all taken from the source:
    - JavaScript values are a tree type [value].  Objects and arrays carry
      a reference number, because [setError] compares with [===], which is
      identity on objects.  Only the containers a node owns ([values],
      [defaultValues], [errorMap], [dirtyMap], the listener maps) are ever
      mutated in place and each of them is created by the node itself, so a
      functional value per node is exact.
    - Numbers are integers ([Z]); [NaN] and fractions do not occur.
    - A property lookup sees own properties only.  At a key that names a
      member of a built-in prototype ([toString], [constructor], ...) the
      code finds the inherited member; [ordinary] singles out the other
      keys, and a statement that is made for them only says so.
    - Form nodes live in an arena (a list); a node handle is its position
      (it is [formId - 1] as long as no constructor has failed).
    - A call ends normally, raises an error or runs out of fuel.  Arrays
      with holes and array properties other than indices are outside the
      model: a write that would make one raises [OutsideModel].
    - Listener callbacks are external code.  Calling one is recorded as an
      event of the trace; callbacks are assumed not to call back into the
      form.  Entering [setValues], [setErrors] and [setState] is recorded
      as well, so that statements about re-invocation can be made.
    - [console.log] and [console.warn] have no model.
    - Recursion between nodes goes through the arena, so the interpreter
      takes fuel, which bounds the depth of the call stack. *)

From Stdlib Require Import List String Ascii ZArith NArith Bool Arith Lia.
From Stdlib Require Import DecimalString.
Import ListNotations.
Local Open Scope string_scope.
Set Warnings "-register-all".

(** ** JavaScript values *)

Inductive value : Type :=
| VUndef
| VNull
| VBool (b : bool)
| VNum (n : Z)
| VStr (s : string)
| VObj (ref : nat) (fields : list (string * value))
| VArr (ref : nat) (elems : list value).

(** [typeof value === "object"]: arrays, objects and [null]. *)
Definition typeof_object (v : value) : bool :=
  match v with
  | VNull | VObj _ _ | VArr _ _ => true
  | _ => false
  end.

(** [Array.isArray(value)] *)
Definition isArray (v : value) : bool :=
  match v with VArr _ _ => true | _ => false end.

(** [a === b]: by value on primitives, by reference on objects. *)
Definition strict_eq (a b : value) : bool :=
  match a, b with
  | VUndef, VUndef => true
  | VNull, VNull => true
  | VBool x, VBool y => Bool.eqb x y
  | VNum x, VNum y => Z.eqb x y
  | VStr x, VStr y => String.eqb x y
  | VObj r _, VObj r' _ => Nat.eqb r r'
  | VArr r _, VArr r' _ => Nat.eqb r r'
  | _, _ => false
  end.

(** JavaScript truthiness, as used by [!error], [if (child)] and [some]. *)
Definition truthy (v : value) : bool :=
  match v with
  | VUndef | VNull => false
  | VBool b => b
  | VNum n => negb (Z.eqb n 0)
  | VStr s => negb (String.eqb s "")
  | VObj _ _ | VArr _ _ => true
  end.

(** ** Property keys

    Keys are strings.  An array index is a canonical decimal numeral below
    [2^32 - 1]; [Object.keys] lists array indices first, in ascending
    order, then the other keys in insertion order. *)

Definition index_string (n : N) : string :=
  NilZero.string_of_uint (N.to_uint n).

Definition array_index (k : string) : option N :=
  match NilZero.uint_of_string k with
  | Some u =>
      let n := N.of_uint u in
      if (String.eqb (index_string n) k && N.ltb n 4294967295)%bool
      then Some n else None
  | None => None
  end.

Fixpoint insert_index (n : N) (k : string) (l : list (N * string))
  : list (N * string) :=
  match l with
  | [] => [(n, k)]
  | (m, k') :: t =>
      if N.leb n m then (n, k) :: l else (m, k') :: insert_index n k t
  end.

Fixpoint index_keys (ks : list string) : list (N * string) :=
  match ks with
  | [] => []
  | k :: t =>
      match array_index k with
      | Some n => insert_index n k (index_keys t)
      | None => index_keys t
      end
  end.

Definition is_index (k : string) : bool :=
  match array_index k with Some _ => true | None => false end.

(** The order of [Object.keys] over the own keys in insertion order. *)
Definition key_order (ks : list string) : list string :=
  map snd (index_keys ks) ++ filter (fun k => negb (is_index k)) ks.

(** ** Keyed containers in insertion order *)

Section Assoc.
Context {A : Type}.

Fixpoint assoc_get (k : string) (l : list (string * A)) : option A :=
  match l with
  | [] => None
  | (k', v) :: t => if String.eqb k k' then Some v else assoc_get k t
  end.

(** [o[k] = v]: overwrite in place, or append a new property. *)
Fixpoint assoc_set (k : string) (v : A) (l : list (string * A))
  : list (string * A) :=
  match l with
  | [] => [(k, v)]
  | (k', v') :: t =>
      if String.eqb k k' then (k, v) :: t else (k', v') :: assoc_set k v t
  end.

(** [delete o[k]] *)
Fixpoint assoc_del (k : string) (l : list (string * A))
  : list (string * A) :=
  match l with
  | [] => []
  | (k', v') :: t =>
      if String.eqb k k' then assoc_del k t else (k', v') :: assoc_del k t
  end.

Definition assoc_keys (l : list (string * A)) : list string :=
  key_order (map fst l).
End Assoc.

Fixpoint seq_keys (start : N) (n : nat) : list string :=
  match n with
  | O => []
  | S n' => index_string start :: seq_keys (N.succ start) n'
  end.

Fixpoint string_chars (s : string) : list value :=
  match s with
  | EmptyString => []
  | String c t => VStr (String c EmptyString) :: string_chars t
  end.

(** Errors a call can raise. *)
Inductive exn : Type :=
| TypeError            (* [Object.keys(undefined)] and the like *)
| CopyError            (* "Can only memberCopy() arrays and objects." *)
| OutsideModel.        (* an array used with a key that is not an index *)

(** [Object.keys(v)]; it throws on [undefined] and [null]. *)
Definition object_keys (v : value) : option (list string) :=
  match v with
  | VUndef | VNull => None
  | VBool _ | VNum _ => Some []
  | VStr s => Some (seq_keys 0 (String.length s))
  | VObj _ fs => Some (assoc_keys fs)
  | VArr _ es => Some (seq_keys 0 (List.length es))
  end.

(** [v[k]] for a [v] that is neither [undefined] nor [null].  Inherited
    properties (such as [toString]) are not modelled. *)
Definition get (v : value) (k : string) : value :=
  match v with
  | VObj _ fs => match assoc_get k fs with Some x => x | None => VUndef end
  | VArr _ es =>
      match array_index k with
      | Some i => nth (N.to_nat i) es VUndef
      | None =>
          if String.eqb k "length" then VNum (Z.of_nat (List.length es))
          else VUndef
      end
  | VStr s =>
      match array_index k with
      | Some i => nth (N.to_nat i) (string_chars s) VUndef
      | None =>
          if String.eqb k "length" then VNum (Z.of_nat (String.length s))
          else VUndef
      end
  | _ => VUndef
  end.

(** ** Keys that reach a prototype

    [get], and the lookups in the maps of a node, see own properties
    only.  In the code a lookup that finds no own property goes on to the
    prototype: [Object.prototype] for the plain objects ([values],
    [childMap], [errorMap], the listener maps), [Array.prototype],
    [String.prototype], [Number.prototype] and [Boolean.prototype] for
    arrays and primitives.  The names below are the string-keyed members
    of these prototypes (ECMAScript 2024 with its Annex B).  A key is
    [ordinary] when it is none of them: then a lookup finds an own
    property or [undefined], as the model has it.  A statement that is
    made for ordinary keys only has [ordinary] among its hypotheses. *)
Definition object_prototype : list string :=
  ["constructor"; "hasOwnProperty"; "isPrototypeOf"; "propertyIsEnumerable";
   "toLocaleString"; "toString"; "valueOf"; "__proto__";
   "__defineGetter__"; "__defineSetter__"; "__lookupGetter__";
   "__lookupSetter__"].

Definition array_prototype : list string :=
  ["at"; "concat"; "copyWithin"; "entries"; "every"; "fill"; "filter";
   "find"; "findIndex"; "findLast"; "findLastIndex"; "flat"; "flatMap";
   "forEach"; "includes"; "indexOf"; "join"; "keys"; "lastIndexOf"; "map";
   "pop"; "push"; "reduce"; "reduceRight"; "reverse"; "shift"; "slice";
   "some"; "sort"; "splice"; "toReversed"; "toSorted"; "toSpliced";
   "unshift"; "values"; "with"].

Definition string_prototype : list string :=
  ["charAt"; "charCodeAt"; "codePointAt"; "endsWith"; "isWellFormed";
   "localeCompare"; "match"; "matchAll"; "normalize"; "padEnd"; "padStart";
   "repeat"; "replace"; "replaceAll"; "search"; "split"; "startsWith";
   "substring"; "toLocaleLowerCase"; "toLocaleUpperCase"; "toLowerCase";
   "toUpperCase"; "toWellFormed"; "trim"; "trimEnd"; "trimStart";
   "substr"; "anchor"; "big"; "blink"; "bold"; "fixed"; "fontcolor";
   "fontsize"; "italics"; "link"; "small"; "strike"; "sub"; "sup";
   "trimLeft"; "trimRight"].

Definition number_prototype : list string :=
  ["toExponential"; "toFixed"; "toPrecision"].

Definition builtin_names : list string :=
  (object_prototype ++ array_prototype ++ string_prototype
   ++ number_prototype)%list.

Definition ordinary (k : string) : bool :=
  negb (existsb (String.eqb k) builtin_names).

(** No key inside the value, at any depth, reaches a prototype. *)
Fixpoint ordinary_value (v : value) : bool :=
  match v with
  | VObj _ fs =>
      forallb (fun kv => (ordinary (fst kv) && ordinary_value (snd kv))%bool) fs
  | VArr _ es => forallb ordinary_value es
  | _ => true
  end.

(** ** Results of a call *)

Inductive outcome (A : Type) : Type :=
| Ok (a : A)
| Throw (e : exn)
| OutOfFuel.
Arguments Ok {A} a.
Arguments Throw {A} e.
Arguments OutOfFuel {A}.

(** [map[key] = value] on a container a node owns. *)
Definition set (m : value) (k : string) (v : value) : outcome value :=
  match m with
  | VObj r fs => Ok (VObj r (assoc_set k v fs))
  | VArr r es =>
      match array_index k with
      | Some i =>
          let i := N.to_nat i in
          if Nat.ltb i (List.length es)
          then Ok (VArr r (firstn i es ++ v :: skipn (S i) es))
          else if Nat.eqb i (List.length es) then Ok (VArr r (es ++ [v]))
          else Throw OutsideModel          (* would leave holes *)
      | None => Throw OutsideModel
      end
  | _ => Throw TypeError
  end.

(** [if (Array.isArray(map)) map.splice(key, 1); else delete map[key];] *)
Definition remove (m : value) (k : string) : outcome value :=
  match m with
  | VObj r fs => Ok (VObj r (assoc_del k fs))
  | VArr r es =>
      match array_index k with
      | Some i =>
          let i := N.to_nat i in
          Ok (VArr r (firstn i es ++ skipn (S i) es))
      | None => Throw OutsideModel
      end
  | _ => Throw TypeError
  end.

(** The own enumerable properties in the order a spread visits them. *)
Definition spread_fields (fs : list (string * value))
  : list (string * value) :=
  map (fun k => (k, match assoc_get k fs with Some x => x | None => VUndef end))
      (assoc_keys fs).

(** [memberCopy(value)] with [ref] the reference of the new container:
    [[...value]] for an array, [{ ...value }] when [typeof value] is
    ["object"], an error otherwise. *)
Definition memberCopy (ref : nat) (v : value) : outcome value :=
  match v with
  | VArr _ es => Ok (VArr ref es)
  | VObj _ fs => Ok (VObj ref (spread_fields fs))
  | VNull => Ok (VObj ref [])
  | _ => Throw CopyError
  end.

(** [a ?? {}] with [ref] the reference of the new object. *)
Definition or_empty (ref : nat) (v : value) : value :=
  match v with
  | VUndef | VNull => VObj ref []
  | _ => v
  end.

(** The largest reference inside a value; a validator may create
    objects, which take references from the one it is given on. *)
Fixpoint max_ref (v : value) : nat :=
  match v with
  | VObj r fs =>
      fold_right (fun kv m => Nat.max (max_ref (snd kv)) m) r fs
  | VArr r es => fold_right (fun x m => Nat.max (max_ref x) m) r es
  | _ => 0
  end.

(** ** Form nodes *)

Record node : Type := mkNode {
  formId : nat;
  validator : option (nat -> value -> value);
  validateOnChange : bool;
  values : value;
  defaultValues : value;
  childMap : list (string * nat);
  dirtyMap : list (string * bool);
  errorMap : list (string * value);
  state : value;
  listeners : list (string * list nat);
  anyListeners : list nat;
  counter : nat;
  parent : option (nat * string)        (* [ChildFormState]: parent, name *)
}.

Inductive method : Type := MSetValues | MSetErrors | MSetState.

Inductive event : Type :=
| FieldListener (form : nat) (key : string) (id : nat) (setValuesWasUsed : bool)
| AnyListener (form : nat) (id : nat) (setValuesWasUsed : bool)
| Enter (form : nat) (m : method).

Record world : Type := mkWorld {
  nodes : list node;
  formCounter : nat;
  nextRef : nat;
  trace : list event
}.

Definition empty_world : world := mkWorld [] 0 0 [].

(** [get dirty()] and [get error()] *)
Definition dirty (n : node) : bool :=
  existsb (fun k => match assoc_get k (dirtyMap n) with
                    | Some b => b | None => false end)
          (assoc_keys (dirtyMap n)).

Definition error (n : node) : bool :=
  existsb (fun k => match assoc_get k (errorMap n) with
                    | Some e => truthy e | None => false end)
          (assoc_keys (errorMap n)).

(** ** The state-and-error monad of a call *)

Definition M (A : Type) : Type := world -> outcome (A * world).

Definition ret {A} (a : A) : M A := fun w => Ok (a, w).

Definition bind {A B} (m : M A) (k : A -> M B) : M B :=
  fun w => match m w with
           | Ok (a, w') => k a w'
           | Throw e => Throw e
           | OutOfFuel => OutOfFuel
           end.

Notation "x <- m ;; k" := (bind m (fun x => k))
  (at level 61, m at next level, right associativity).
Notation "m ;;; k" := (bind m (fun _ => k))
  (at level 61, right associativity).

Definition throw {A} (e : exn) : M A := fun _ => Throw e.

Definition lift {A} (o : outcome A) : M A :=
  fun w => match o with
           | Ok a => Ok (a, w)
           | Throw e => Throw e
           | OutOfFuel => OutOfFuel
           end.

Definition when (b : bool) (m : M unit) : M unit :=
  if b then m else ret tt.

Fixpoint for_each {A} (l : list A) (body : A -> M unit) : M unit :=
  match l with
  | [] => ret tt
  | x :: t => body x ;;; for_each t body
  end.

(** [this]: the node behind a handle. *)
Definition the_node (f : nat) : M node :=
  fun w => match nth_error (nodes w) f with
           | Some n => Ok (n, w)
           | None => Throw TypeError
           end.

Fixpoint list_update {A} (i : nat) (g : A -> A) (l : list A) : list A :=
  match l, i with
  | [], _ => []
  | x :: t, O => g x :: t
  | x :: t, S j => x :: list_update j g t
  end.

Definition set_nodes (l : list node) (w : world) : world :=
  mkWorld l (formCounter w) (nextRef w) (trace w).

Definition add_event (e : event) (w : world) : world :=
  mkWorld (nodes w) (formCounter w) (nextRef w) (trace w ++ [e]).

Definition update_node (f : nat) (g : node -> node) : M unit :=
  fun w => Ok (tt, set_nodes (list_update f g (nodes w)) w).

Definition emit (e : event) : M unit :=
  fun w => Ok (tt, add_event e w).

(** A reference for a new object. *)
Definition fresh : M nat :=
  fun w => Ok (nextRef w, mkWorld (nodes w) (formCounter w)
                                  (S (nextRef w)) (trace w)).

Definition reserve_refs (v : value) : M unit :=
  fun w => Ok (tt, mkWorld (nodes w) (formCounter w)
                           (Nat.max (nextRef w) (S (max_ref v))) (trace w)).

Definition copy (v : value) : M value :=
  r <- fresh ;; lift (memberCopy r v).

(** Field setters of the node record. *)
Definition with_values (isDefault : bool) (m : value) (n : node) : node :=
  if isDefault
  then mkNode (formId n) (validator n) (validateOnChange n) (values n) m
              (childMap n) (dirtyMap n) (errorMap n) (state n)
              (listeners n) (anyListeners n) (counter n) (parent n)
  else mkNode (formId n) (validator n) (validateOnChange n) m
              (defaultValues n) (childMap n) (dirtyMap n) (errorMap n)
              (state n) (listeners n) (anyListeners n) (counter n) (parent n).

Definition with_dirtyMap (d : list (string * bool)) (n : node) : node :=
  mkNode (formId n) (validator n) (validateOnChange n) (values n)
         (defaultValues n) (childMap n) d (errorMap n) (state n)
         (listeners n) (anyListeners n) (counter n) (parent n).

Definition with_errorMap (e : list (string * value)) (n : node) : node :=
  mkNode (formId n) (validator n) (validateOnChange n) (values n)
         (defaultValues n) (childMap n) (dirtyMap n) e (state n)
         (listeners n) (anyListeners n) (counter n) (parent n).

Definition with_state (s : value) (n : node) : node :=
  mkNode (formId n) (validator n) (validateOnChange n) (values n)
         (defaultValues n) (childMap n) (dirtyMap n) (errorMap n) s
         (listeners n) (anyListeners n) (counter n) (parent n).

Definition with_childMap (c : list (string * nat)) (n : node) : node :=
  mkNode (formId n) (validator n) (validateOnChange n) (values n)
         (defaultValues n) c (dirtyMap n) (errorMap n) (state n)
         (listeners n) (anyListeners n) (counter n) (parent n).

Definition with_listeners (l : list (string * list nat)) (a : list nat)
    (c : nat) (n : node) : node :=
  mkNode (formId n) (validator n) (validateOnChange n) (values n)
         (defaultValues n) (childMap n) (dirtyMap n) (errorMap n) (state n)
         l a c (parent n).

Definition with_validator (v : option (nat -> value -> value)) (n : node)
  : node :=
  mkNode (formId n) v (validateOnChange n) (values n)
         (defaultValues n) (childMap n) (dirtyMap n) (errorMap n) (state n)
         (listeners n) (anyListeners n) (counter n) (parent n).

Definition side (isDefault : bool) (n : node) : value :=
  if isDefault then defaultValues n else values n.

(** [fireListeners(key, setValuesWasUsed)] *)
Definition fireListeners (f : nat) (key : string) (flag : bool) : M unit :=
  me <- the_node f ;;
  match assoc_get key (listeners me) with
  | Some ids => for_each ids (fun id => emit (FieldListener f key id flag))
  | None => ret tt
  end.

(** [fireAnyListeners(setValuesWasUsed)] *)
Definition fireAnyListeners (f : nat) (flag : bool) : M unit :=
  me <- the_node f ;;
  for_each (anyListeners me) (fun id => emit (AnyListener f id flag)).

(** ** The methods of [FormState] and [ChildFormState] *)

Inductive call : Type :=
| SetValueInternal (f : nat) (key : string) (v : value) (dirty : option bool)
    (validate isDefault notifyChild notifyParent fireAny : bool)
| SetValue (f : nat) (key : string) (v : value)
    (validate isDefault notifyChild notifyParent fireAny : bool)
| SetValues (f : nat) (vs : value) (isDefault notifyChild notifyParent : bool)
| Validate (f : nat)
| SetError (f : nat) (key : string) (e : value)
    (notifyChild notifyParent fireAny : bool)
| SetErrors (f : nat) (es : value) (notifyChild notifyParent : bool)
| SetState (f : nat) (s : value) (notifyChild notifyParent : bool)
| UpdateParentValues (f : nat) (isDefault : bool)
| UpdateParentErrors (f : nat)
| UpdateParentState (f : nat).

(** What a method returns: [setValue] a boolean, the others nothing. *)
Inductive retval : Type := RVoid | RBool (b : bool).

(** [newKeys.length > localKeys.length ? newKeys : localKeys] *)
Definition mostKeys (newKeys localKeys : list string) : list string :=
  if Nat.ltb (List.length localKeys) (List.length newKeys)
  then newKeys else localKeys.

Definition keys_of (v : value) : M (list string) :=
  match object_keys v with
  | Some ks => ret ks
  | None => throw TypeError
  end.

Definition void (m : M unit) : M retval := m ;;; ret RVoid.

(** The bodies of the methods.  [run c] stands for a nested method call;
    [exec] below ties the knot. *)
Section Methods.
Variable run : call -> M unit.

Definition setValueInternal_body (f : nat) (key : string) (v : value)
    (dirty_arg : option bool)
    (validate isDefault notifyChild notifyParent fireAny : bool) : M unit :=
  me <- the_node f ;;
  m <- lift (match v with
             | VUndef => remove (side isDefault me) key
             | _ => set (side isDefault me) key v
             end) ;;
  update_node f (with_values isDefault m) ;;;
  match dirty_arg with
  | Some d =>
      update_node f (fun n => with_dirtyMap (assoc_set key d (dirtyMap n)) n)
  | None => ret tt
  end ;;;
  when (notifyChild && negb (strict_eq v VUndef))
    (me <- the_node f ;;
     match assoc_get key (childMap me) with
     | Some child =>
         run (SetValues child v isDefault true false) ;;;
         ch <- the_node child ;;
         update_node f (fun n =>
           with_dirtyMap (assoc_set key (dirty ch) (dirtyMap n)) n)
     | None => ret tt
     end) ;;;
  fireListeners f key false ;;;
  when fireAny
    (when notifyParent (run (UpdateParentValues f isDefault)) ;;;
     fireAnyListeners f false) ;;;
  me <- the_node f ;;
  match validator me with
  | Some _ => when validate (run (Validate f))
  | None => ret tt
  end.

Definition updateParentValues_body (f : nat) (isDefault : bool) : M unit :=
  me <- the_node f ;;
  match parent me with
  | Some (p, name) =>
      c <- copy (side isDefault me) ;;
      run (SetValueInternal p name c (Some (dirty me)) true isDefault
                            false true true)
  | None => ret tt          (* the root form has no parent *)
  end.

Definition setValue_body (f : nat) (key : string) (v : value)
    (validate isDefault notifyChild notifyParent fireAny : bool) : M bool :=
  me <- the_node f ;;
  if typeof_object v then
    run (SetValueInternal f key v None validate isDefault notifyChild
                          notifyParent fireAny) ;;;
    ret true
  else if strict_eq (get (side isDefault me) key) v then
    ret false
  else
    run (SetValueInternal f key v
           (Some (negb (strict_eq v (get (side (negb isDefault) me) key))))
           validate isDefault notifyChild notifyParent fireAny) ;;;
    ret true.

Definition setValues_body (f : nat) (vs : value)
    (isDefault notifyChild notifyParent : bool) : M unit :=
  emit (Enter f MSetValues) ;;;
  me <- the_node f ;;
  newKeys <- keys_of (side isDefault me) ;;
  localKeys <- keys_of vs ;;
  for_each (mostKeys newKeys localKeys) (fun key =>
    run (SetValue f key (get vs key) false isDefault notifyChild
                  notifyParent false)) ;;;
  when notifyParent (run (UpdateParentValues f isDefault)) ;;;
  fireAnyListeners f true ;;;
  me <- the_node f ;;
  match validator me with
  | Some _ => run (Validate f)
  | None => ret tt
  end.

Definition validate_body (f : nat) : M unit :=
  me <- the_node f ;;
  match validator me with
  | None => ret tt
  | Some check =>
      r <- fresh ;;
      let es := check r (values me) in
      reserve_refs es ;;;
      run (SetErrors f es true true)
  end.

Definition setError_body (f : nat) (key : string) (e : value)
    (notifyChild notifyParent fireAny : bool) : M unit :=
  me <- the_node f ;;
  if strict_eq (match assoc_get key (errorMap me) with
                | Some x => x | None => VUndef end) e
  then ret tt
  else
    update_node f (fun n =>
      with_errorMap (if truthy e then assoc_set key e (errorMap n)
                     else assoc_del key (errorMap n)) n) ;;;
    when notifyChild
      (match assoc_get key (childMap me) with
       | Some child =>
           r <- fresh ;;
           run (SetErrors child (or_empty r e) true true)
       | None => ret tt
       end) ;;;
    fireListeners f key false ;;;
    when fireAny
      (when notifyParent (run (UpdateParentErrors f)) ;;;
       fireAnyListeners f false).

Definition setErrors_body (f : nat) (es : value)
    (notifyChild notifyParent : bool) : M unit :=
  emit (Enter f MSetErrors) ;;;
  me <- the_node f ;;
  let localKeys := assoc_keys (errorMap me) in
  newKeys <- keys_of es ;;
  for_each (mostKeys newKeys localKeys) (fun key =>
    run (SetError f key (get es key) notifyChild notifyParent false)) ;;;
  when notifyParent (run (UpdateParentErrors f)) ;;;
  fireAnyListeners f false.

Definition updateParentErrors_body (f : nat) : M unit :=
  me <- the_node f ;;
  match parent me with
  | Some (p, name) =>
      e <- (if error me
            then r <- fresh ;; ret (VObj r (spread_fields (errorMap me)))
            else ret VUndef) ;;
      run (SetError p name e false true true)
  | None => ret tt
  end.

Definition setState_body (f : nat) (s : value)
    (notifyChild notifyParent : bool) : M unit :=
  emit (Enter f MSetState) ;;;
  update_node f (with_state s) ;;;
  me <- the_node f ;;
  c <- keys_of (values me) ;;
  when notifyChild
    (for_each c (fun e =>
       me <- the_node f ;;
       match assoc_get e (childMap me) with
       | Some child => run (SetState child s notifyChild notifyParent)
       | None => ret tt
       end)) ;;;
  for_each c (fun e => fireListeners f e false) ;;;
  when notifyParent (run (UpdateParentState f)) ;;;
  fireAnyListeners f false.

Definition updateParentState_body (f : nat) : M unit :=
  me <- the_node f ;;
  match parent me with
  | Some (p, name) =>
      c <- copy (state me) ;;
      run (SetState p c false true)
  | None => ret tt
  end.

Definition body (c : call) : M retval :=
  match c with
  | SetValueInternal f key v d validate isDefault nc np fa =>
      void (setValueInternal_body f key v d validate isDefault nc np fa)
  | SetValue f key v validate isDefault nc np fa =>
      b <- setValue_body f key v validate isDefault nc np fa ;; ret (RBool b)
  | SetValues f vs isDefault nc np =>
      void (setValues_body f vs isDefault nc np)
  | Validate f => void (validate_body f)
  | SetError f key e nc np fa => void (setError_body f key e nc np fa)
  | SetErrors f es nc np => void (setErrors_body f es nc np)
  | SetState f s nc np => void (setState_body f s nc np)
  | UpdateParentValues f isDefault => void (updateParentValues_body f isDefault)
  | UpdateParentErrors f => void (updateParentErrors_body f)
  | UpdateParentState f => void (updateParentState_body f)
  end.
End Methods.

(** A nested call, its result dropped. *)
Definition nested (exec : call -> M retval) (c : call) : M unit :=
  exec c ;;; ret tt.

Fixpoint exec (fuel : nat) (c : call) {struct fuel} : M retval :=
  match fuel with
  | O => fun _ => OutOfFuel
  | S fuel => body (nested (exec fuel)) c
  end.

(** ** Construction and the listener registry *)

Definition next_formId : M nat :=
  fun w => Ok (S (formCounter w),
               mkWorld (nodes w) (S (formCounter w)) (nextRef w) (trace w)).

Definition push_node (n : node) : M nat :=
  fun w => Ok (List.length (nodes w),
               mkWorld (nodes w ++ [n]) (formCounter w) (nextRef w) (trace w)).

(** The constructor of [FormState]; it returns the handle of the node. *)
Definition construct (vals defaults defaultState : value)
    (check : option (nat -> value -> value)) (onChange : bool)
    (up : option (nat * string)) : M nat :=
  id <- next_formId ;;
  v <- copy vals ;;
  d <- copy defaults ;;
  s <- copy defaultState ;;
  push_node (mkNode id check onChange v d [] [] [] s [] [] 0 up).

Definition new_FormState (vals defaults defaultState : value)
    (check : option (nat -> value -> value)) : M nat :=
  construct vals defaults defaultState check true None.

(** The constructor of [ChildFormState]. *)
Definition new_ChildFormState (p : nat) (name : string) : M nat :=
  pn <- the_node p ;;
  r1 <- fresh ;;
  r2 <- fresh ;;
  me <- construct (or_empty r1 (get (values pn) name))
                  (or_empty r2 (get (defaultValues pn) name))
                  (state pn) None true (Some (p, name)) ;;
  update_node p (fun n => with_childMap (assoc_set name me (childMap n)) n) ;;;
  ret me.

(** [listen(key, listener)]; the identifier is returned. *)
Definition listen (f : nat) (key : string) : M nat :=
  me <- the_node f ;;
  let setters := match assoc_get key (listeners me) with
                 | Some ids => ids | None => [] end in
  update_node f (fun n =>
    with_listeners (assoc_set key (setters ++ [counter n])%list (listeners n))
                   (anyListeners n) (S (counter n)) n) ;;;
  ret (counter me).

Definition listenAny (f : nat) : M nat :=
  me <- the_node f ;;
  update_node f (fun n =>
    with_listeners (listeners n) (anyListeners n ++ [counter n])
                   (S (counter n)) n) ;;;
  ret (counter me).

Definition remove_id (id : nat) (ids : list nat) : list nat :=
  filter (fun i => negb (Nat.eqb i id)) ids.

Definition ignoreAny (f : nat) (id : nat) : M unit :=
  update_node f (fun n =>
    with_listeners (listeners n) (remove_id id (anyListeners n)) (counter n) n).

Definition ignore (f : nat) (key : string) (id : nat) : M unit :=
  me <- the_node f ;;
  match assoc_get key (listeners me) with
  | Some ids =>
      update_node f (fun n =>
        with_listeners (assoc_set key (remove_id id ids) (listeners n))
                       (anyListeners n) (counter n) n)
  | None => ret tt
  end.

(** [resetAll()] and [reset(key)] *)
Definition resetAll (fuel : nat) (f : nat) : M retval :=
  me <- the_node f ;;
  exec fuel (SetValues f (defaultValues me) false true true).

Definition reset (fuel : nat) (f : nat) (key : string) : M retval :=
  me <- the_node f ;;
  exec fuel (SetValue f key (get (defaultValues me) key) true false true true true) ;;;
  ret RVoid.

(** The public calls with their default flags. *)
Definition setValue (fuel f : nat) (key : string) (v : value) : M retval :=
  exec fuel (SetValue f key v true false true true true).

Definition setValues (fuel f : nat) (vs : value) : M retval :=
  exec fuel (SetValues f vs false true true).

Definition setError (fuel f : nat) (key : string) (e : value) : M retval :=
  exec fuel (SetError f key e true true true).

Definition setErrors (fuel f : nat) (es : value) : M retval :=
  exec fuel (SetErrors f es true true).

Definition setState (fuel f : nat) (s : value) : M retval :=
  exec fuel (SetState f s true true).

(** ** Trees and calls with ordinary keys *)

Definition ordinary_keys {A} (l : list (string * A)) : bool :=
  forallb (fun kv => ordinary (fst kv)) l.

(** Every key the node holds is ordinary: the keys of its containers at
    every depth, of its maps, and the name it has in its parent. *)
Definition ordinary_node (n : node) : bool :=
  (ordinary_value (values n) && ordinary_value (defaultValues n)
   && ordinary_keys (childMap n) && ordinary_keys (dirtyMap n)
   && ordinary_value (VObj 0 (errorMap n)) && ordinary_keys (listeners n)
   && match parent n with Some (_, name) => ordinary name | None => true end)%bool.

Definition ordinary_world (w : world) : bool :=
  forallb ordinary_node (nodes w).

(** The keys a call brings in are ordinary. *)
Definition ordinary_call (c : call) : bool :=
  match c with
  | SetValueInternal _ key v _ _ _ _ _ _ | SetValue _ key v _ _ _ _ _ =>
      (ordinary key && ordinary_value v)%bool
  | SetValues _ vs _ _ _ => ordinary_value vs
  | SetError _ key e _ _ _ => (ordinary key && ordinary_value e)%bool
  | SetErrors _ es _ _ => ordinary_value es
  | _ => true
  end.

(** ** Observations on a world *)

Definition node_at (w : world) (f : nat) : option node := nth_error (nodes w) f.

Definition world_of {A} (o : outcome (A * world)) : option world :=
  match o with Ok (_, w) => Some w | _ => None end.

Definition result_of {A} (o : outcome (A * world)) : option A :=
  match o with Ok (a, _) => Some a | _ => None end.

Definition is_field_event (f : nat) (key : string) (e : event) : bool :=
  match e with
  | FieldListener f' k _ _ => (Nat.eqb f f' && String.eqb key k)%bool
  | _ => false
  end.

Definition is_any_event (f : nat) (e : event) : bool :=
  match e with AnyListener f' _ _ => Nat.eqb f f' | _ => false end.

Definition is_enter (f : nat) (e : event) : bool :=
  match e with Enter f' _ => Nat.eqb f f' | _ => false end.

Definition count (p : event -> bool) (t : list event) : nat :=
  List.length (filter p t).

(** * Reasoning about calls

    [wp oof m Q w]: started in [w], the call [m] ends normally in a world
    that satisfies [Q], or it raises an error; [oof] says whether running
    out of fuel is tolerated ([True]: partial correctness, [False]: the
    fuel is enough). *)

Definition wp (oof : Prop) {A} (m : M A) (Q : A -> world -> Prop)
    (w : world) : Prop :=
  match m w with
  | Ok (a, w') => Q a w'
  | Throw _ => True
  | OutOfFuel => oof
  end.

Section WpRules.
Variable oof : Prop.

Lemma wp_ret {A} (a : A) Q w : Q a w -> wp oof (ret a) Q w.
Proof. exact (fun H => H). Qed.

Lemma wp_bind {A B} (m : M A) (k : A -> M B) Q w :
  wp oof m (fun a w' => wp oof (k a) Q w') w -> wp oof (bind m k) Q w.
Proof.
  unfold wp, bind. destruct (m w) as [[a w']| |]; auto.
Qed.

Lemma wp_mono {A} (m : M A) (Q Q' : A -> world -> Prop) w :
  wp oof m Q w -> (forall a w', Q a w' -> Q' a w') -> wp oof m Q' w.
Proof.
  unfold wp. destruct (m w) as [[a w']| |]; auto.
Qed.

Lemma wp_throw {A} (e : exn) (Q : A -> world -> Prop) w :
  wp oof (throw e) Q w.
Proof. exact I. Qed.

Lemma wp_lift {A} (o : outcome A) (Q : A -> world -> Prop) w :
  o <> OutOfFuel -> (forall a, o = Ok a -> Q a w) -> wp oof (lift o) Q w.
Proof.
  unfold wp, lift. destruct o; auto. congruence.
Qed.

Lemma wp_when (b : bool) (m : M unit) Q w :
  (b = true -> wp oof m Q w) -> (b = false -> Q tt w) ->
  wp oof (when b m) Q w.
Proof. destruct b; cbn; auto. Qed.

Lemma wp_void (m : M unit) Q w :
  wp oof m (fun _ w' => Q RVoid w') w -> wp oof (void m) Q w.
Proof.
  intros H. unfold void. apply wp_bind.
  eapply wp_mono; [exact H|]. intros ? ? HQ. exact HQ.
Qed.

(** A loop keeps an invariant that each round keeps. *)
Lemma wp_for_each {A} (l : list A) (body : A -> M unit)
    (Inv : world -> Prop) w :
  Inv w ->
  (forall x w1, In x l -> Inv w1 -> wp oof (body x) (fun _ w2 => Inv w2) w1) ->
  wp oof (for_each l body) (fun _ w' => Inv w') w.
Proof.
  revert w. induction l as [|x t IH]; intros w Hw Hbody; cbn [for_each].
  - apply wp_ret. exact Hw.
  - apply wp_bind. eapply wp_mono.
    + apply Hbody; [left; reflexivity | exact Hw].
    + intros u w1 H1. cbn beta in *. apply IH; [exact H1|].
      intros y w2 Hy. apply Hbody. right; exact Hy.
Qed.

Lemma wp_the_node (f : nat) Q w :
  (forall n, nth_error (nodes w) f = Some n -> Q n w) ->
  wp oof (the_node f) Q w.
Proof.
  unfold wp, the_node. destruct (nth_error (nodes w) f); auto.
Qed.

Lemma wp_update_node (f : nat) g (Q : unit -> world -> Prop) w :
  Q tt (set_nodes (list_update f g (nodes w)) w) ->
  wp oof (update_node f g) Q w.
Proof. exact (fun H => H). Qed.

Lemma wp_emit (e : event) (Q : unit -> world -> Prop) w :
  Q tt (add_event e w) ->
  wp oof (emit e) Q w.
Proof. exact (fun H => H). Qed.

Lemma wp_fresh (Q : nat -> world -> Prop) w :
  Q (nextRef w) (mkWorld (nodes w) (formCounter w) (S (nextRef w)) (trace w)) ->
  wp oof fresh Q w.
Proof. exact (fun H => H). Qed.

Lemma wp_reserve_refs v (Q : unit -> world -> Prop) w :
  Q tt (mkWorld (nodes w) (formCounter w)
                (Nat.max (nextRef w) (S (max_ref v))) (trace w)) ->
  wp oof (reserve_refs v) Q w.
Proof. exact (fun H => H). Qed.

Lemma wp_keys_of v (Q : list string -> world -> Prop) w :
  (forall ks, object_keys v = Some ks -> Q ks w) ->
  wp oof (keys_of v) Q w.
Proof.
  unfold keys_of. destruct (object_keys v); intros H.
  - apply wp_ret. auto.
  - apply wp_throw.
Qed.

Lemma memberCopy_not_OutOfFuel r v : memberCopy r v <> OutOfFuel.
Proof. destruct v; discriminate. Qed.

Lemma wp_copy v (Q : value -> world -> Prop) w :
  (forall c, memberCopy (nextRef w) v = Ok c ->
     Q c (mkWorld (nodes w) (formCounter w) (S (nextRef w)) (trace w))) ->
  wp oof (copy v) Q w.
Proof.
  intros H. unfold copy. apply wp_bind, wp_fresh, wp_lift.
  - apply memberCopy_not_OutOfFuel.
  - exact H.
Qed.
End WpRules.

(** ** The tree of nodes

    No method changes [parent], [childMap], the validator or the listener
    maps of a node; [skel] keeps exactly these fields. *)

Definition skel (n : node) : node :=
  mkNode (formId n) (validator n) (validateOnChange n) VUndef VUndef
         (childMap n) [] [] VUndef (listeners n) (anyListeners n)
         (counter n) (parent n).

Definition shape (w : world) : list node := map skel (nodes w).

(** A child is constructed after its parent, so a parent has a smaller
    handle than its children. *)
Definition node_ok (i : nat) (n : node) : bool :=
  (match parent n with Some (p, _) => Nat.ltb p i | None => true end
   && forallb (fun kc => Nat.ltb i (snd kc)) (childMap n))%bool.

Fixpoint nodes_ok (i : nat) (l : list node) : bool :=
  match l with
  | [] => true
  | n :: t => (node_ok i n && nodes_ok (S i) t)%bool
  end.

Definition well_formed (w : world) : bool := nodes_ok 0 (nodes w).

(** A bound on the depth of the call stack of a call, in a tree of [N]
    nodes.  Calls into a child carry [notifyChild = true] and go to a
    larger handle; calls into the parent carry [notifyChild = false] and go
    to a smaller one; the value methods call the error methods, never the
    reverse. *)
Definition down (N f : nat) : nat := 3 * (N - f).
Definition up (N f : nat) : nat := 2 * Nat.min f N.

Definition rank (N : nat) (c : call) : nat :=
  match c with
  | UpdateParentErrors f => up N f + 1
  | SetError f _ _ nc _ _ => if nc then 2 * N + 3 + down N f else up N f + 2
  | SetErrors f _ nc _ => if nc then 2 * N + 4 + down N f else up N f + 3
  | UpdateParentState f => up N f + 1
  | SetState f _ nc _ => if nc then 2 * N + 3 + down N f else up N f + 2
  | Validate f => 5 * N + 5
  | UpdateParentValues f _ => 5 * N + 6 + up N f
  | SetValueInternal f _ _ _ _ _ nc _ _ =>
      if nc then 7 * N + 10 + down N f else 5 * N + 7 + up N f
  | SetValue f _ _ _ _ nc _ _ =>
      if nc then 7 * N + 11 + down N f else 5 * N + 8 + up N f
  | SetValues f _ _ nc _ =>
      if nc then 7 * N + 12 + down N f else 5 * N + 9 + up N f
  end.

(** Fuel that is enough for every call in a tree of [N] nodes. *)
Definition enough (N : nat) : nat := 10 * N + 12.

Lemma rank_enough N c : rank N c <= enough N.
Proof.
  unfold enough. destruct c; cbn [rank]; unfold down, up;
    try match goal with |- context [if ?b then _ else _] => destruct b end;
    lia.
Qed.

Lemma rank_pos N c : 0 < rank N c.
Proof.
  destruct c; cbn [rank]; unfold down, up;
    try match goal with |- context [if ?b then _ else _] => destruct b end;
    lia.
Qed.

(** *** Facts about [list_update] and [shape] *)

Lemma nth_error_list_update {A} (g : A -> A) l i j :
  nth_error (list_update i g l) j =
  if Nat.eqb i j then option_map g (nth_error l j) else nth_error l j.
Proof.
  revert i j. induction l as [|x t IH]; intros [|i] [|j]; cbn; auto.
  - destruct (Nat.eqb i j); reflexivity.
Qed.

Lemma length_list_update {A} (g : A -> A) l i :
  List.length (list_update i g l) = List.length l.
Proof.
  revert i. induction l as [|x t IH]; intros [|i]; cbn; auto.
Qed.

Lemma map_list_update {A B} (h : A -> B) (g : A -> A) l i :
  (forall x, h (g x) = h x) -> map h (list_update i g l) = map h l.
Proof.
  intros Hg. revert i. induction l as [|x t IH]; intros [|i]; cbn;
    rewrite ?Hg, ?IH; auto.
Qed.

Lemma skel_with_values b m n : skel (with_values b m n) = skel n.
Proof. destruct b; reflexivity. Qed.

Lemma nodes_ok_skel i l : nodes_ok i (map skel l) = nodes_ok i l.
Proof.
  revert i. induction l as [|n t IH]; intros i; cbn; [reflexivity|].
  rewrite IH. reflexivity.
Qed.

Lemma well_formed_shape w w' :
  shape w' = shape w -> well_formed w = true -> well_formed w' = true.
Proof.
  unfold well_formed, shape. intros Hs H.
  rewrite <- nodes_ok_skel, Hs, nodes_ok_skel. exact H.
Qed.

Lemma shape_length w w' :
  shape w' = shape w -> List.length (nodes w') = List.length (nodes w).
Proof.
  unfold shape. intros H.
  rewrite <- (length_map skel (nodes w')), H. apply length_map.
Qed.

Lemma nodes_ok_nth l : forall i j n,
  nodes_ok i l = true -> nth_error l j = Some n -> node_ok (i + j) n = true.
Proof.
  induction l as [|x t IH]; intros i [|j] n H Hn; cbn in *; try discriminate.
  - apply andb_prop in H as [H _]. injection Hn as <-.
    now rewrite Nat.add_0_r.
  - apply andb_prop in H as [_ H]. rewrite <- Nat.add_succ_comm.
    eapply IH; eauto.
Qed.

Lemma assoc_get_In {A} k (l : list (string * A)) v :
  assoc_get k l = Some v -> In (k, v) l.
Proof.
  induction l as [|[k' v'] t IH]; cbn; [discriminate|].
  destruct (String.eqb_spec k k') as [->|]; intros H.
  - injection H as ->. now left.
  - right. auto.
Qed.

Lemma parent_below w f n p name :
  well_formed w = true -> nth_error (nodes w) f = Some n ->
  parent n = Some (p, name) -> p < f.
Proof.
  intros H Hn Hp. apply (nodes_ok_nth _ 0 f n H) in Hn. cbn in Hn.
  unfold node_ok in Hn. rewrite Hp in Hn.
  apply andb_prop in Hn as [Hn _]. now apply Nat.ltb_lt.
Qed.

Lemma child_above w f n key c :
  well_formed w = true -> nth_error (nodes w) f = Some n ->
  assoc_get key (childMap n) = Some c -> f < c.
Proof.
  intros H Hn Hc. apply (nodes_ok_nth _ 0 f n H) in Hn. cbn in Hn.
  unfold node_ok in Hn. apply andb_prop in Hn as [_ Hn].
  rewrite forallb_forall in Hn. apply assoc_get_In in Hc.
  apply Hn in Hc. now apply Nat.ltb_lt.
Qed.

Lemma nth_error_shape w w' f n :
  shape w' = shape w -> nth_error (nodes w') f = Some n ->
  exists n0, nth_error (nodes w) f = Some n0 /\ skel n0 = skel n.
Proof.
  unfold shape. intros Hs Hn.
  assert (H : nth_error (map skel (nodes w')) f = Some (skel n))
    by (rewrite nth_error_map, Hn; reflexivity).
  rewrite Hs, nth_error_map in H.
  destruct (nth_error (nodes w) f) as [n0|]; [|discriminate].
  exists n0. split; [reflexivity|]. cbn [option_map] in H. congruence.
Qed.

(** ** Invariants of a call

    Rules for a property [Inv] of the world that does not depend on the
    reference counter.  Each rule hands the invariant on to the rest of
    the method body. *)

Lemma wp_end oof {A} (m : M A) Q w :
  wp oof (bind m (fun x => ret x)) Q w -> wp oof m Q w.
Proof. unfold wp, bind, ret. destruct (m w) as [[a w']| |]; auto. Qed.

Lemma wp_assoc oof {A B C} (m : M A) (k1 : A -> M B) (k2 : B -> M C) Q w :
  wp oof (bind m (fun x => bind (k1 x) k2)) Q w ->
  wp oof (bind (bind m k1) k2) Q w.
Proof. unfold wp, bind. destruct (m w) as [[a w']| |]; auto. Qed.

Lemma wp_conj {A} (m : M A) (Q1 Q2 : A -> world -> Prop) w :
  wp False m Q1 w -> wp True m Q2 w ->
  wp False m (fun a w' => Q1 a w' /\ Q2 a w') w.
Proof. unfold wp. destruct (m w) as [[a w']| |]; auto. Qed.

Lemma wp_weaken {A} (m : M A) (Q : A -> world -> Prop) w :
  wp False m Q w -> wp True m Q w.
Proof. unfold wp. destruct (m w) as [[a w']| |]; auto. Qed.

Lemma set_not_OutOfFuel m k v : set m k v <> OutOfFuel.
Proof.
  destruct m; cbn; try discriminate.
  destruct (array_index k); try discriminate.
  repeat match goal with |- context [if ?b then _ else _] => destruct b end;
    discriminate.
Qed.

Lemma remove_not_OutOfFuel m k : remove m k <> OutOfFuel.
Proof.
  destruct m; cbn; try discriminate.
  destruct (array_index k); discriminate.
Qed.

Section Invariants.
Variable oof : Prop.
Variable Inv : world -> Prop.
Hypothesis Inv_env : forall w w',
  nodes w' = nodes w -> trace w' = trace w -> Inv w -> Inv w'.

Lemma inv_update_node {B} f g (k : unit -> M B) Q w :
  Inv (set_nodes (list_update f g (nodes w)) w) ->
  (forall w', Inv w' -> wp oof (k tt) Q w') ->
  wp oof (bind (update_node f g) k) Q w.
Proof. intros H Hk. apply wp_bind, wp_update_node, Hk. exact H. Qed.

Lemma inv_emit {B} e (k : unit -> M B) Q w :
  Inv (add_event e w) ->
  (forall w', Inv w' -> wp oof (k tt) Q w') ->
  wp oof (bind (emit e) k) Q w.
Proof. intros H Hk. apply wp_bind, wp_emit, Hk. exact H. Qed.

Lemma inv_fresh {B} (k : nat -> M B) Q w :
  Inv w ->
  (forall r w', Inv w' -> wp oof (k r) Q w') ->
  wp oof (bind fresh k) Q w.
Proof.
  intros H Hk. apply wp_bind, wp_fresh, Hk.
  revert H. apply Inv_env; reflexivity.
Qed.

Lemma inv_reserve_refs {B} v (k : unit -> M B) Q w :
  Inv w ->
  (forall w', Inv w' -> wp oof (k tt) Q w') ->
  wp oof (bind (reserve_refs v) k) Q w.
Proof.
  intros H Hk. apply wp_bind, wp_reserve_refs, Hk.
  revert H. apply Inv_env; reflexivity.
Qed.

Lemma inv_copy {B} v (k : value -> M B) Q w :
  Inv w ->
  (forall r c w', memberCopy r v = Ok c -> Inv w' -> wp oof (k c) Q w') ->
  wp oof (bind (copy v) k) Q w.
Proof.
  intros H Hk. apply wp_bind, wp_copy. intros c Hc.
  eapply Hk; [exact Hc |]. revert H. apply Inv_env; reflexivity.
Qed.

Lemma inv_the_node {B} f (k : node -> M B) Q w :
  (forall n, nth_error (nodes w) f = Some n -> wp oof (k n) Q w) ->
  wp oof (bind (the_node f) k) Q w.
Proof. intros Hk. apply wp_bind, wp_the_node, Hk. Qed.

Lemma inv_keys_of {B} v (k : list string -> M B) Q w :
  (forall ks, object_keys v = Some ks -> wp oof (k ks) Q w) ->
  wp oof (bind (keys_of v) k) Q w.
Proof. intros Hk. apply wp_bind, wp_keys_of, Hk. Qed.

Lemma inv_for_each {A B} (l : list A) body (k : unit -> M B) Q w :
  Inv w ->
  (forall x w1, In x l -> Inv w1 -> wp oof (body x) (fun _ w2 => Inv w2) w1) ->
  (forall w', Inv w' -> wp oof (k tt) Q w') ->
  wp oof (bind (for_each l body) k) Q w.
Proof.
  intros H Hb Hk. apply wp_bind.
  eapply wp_mono.
  - apply (wp_for_each oof l body Inv); assumption.
  - intros [] w' Hw'. apply Hk, Hw'.
Qed.

Lemma inv_events {A} (l : list A) (ev : A -> event) w :
  Inv w ->
  (forall x w1, In x l -> Inv w1 -> Inv (add_event (ev x) w1)) ->
  wp oof (for_each l (fun x => emit (ev x))) (fun _ w' => Inv w') w.
Proof.
  intros H He. apply (wp_for_each oof l _ Inv); [exact H|].
  intros x w1 Hx H1. apply wp_emit. apply He; assumption.
Qed.

Lemma inv_fireListeners {B} f key flag (k : unit -> M B) Q w :
  Inv w ->
  (forall id w1, Inv w1 -> Inv (add_event (FieldListener f key id flag) w1)) ->
  (forall w', Inv w' -> wp oof (k tt) Q w') ->
  wp oof (bind (fireListeners f key flag) k) Q w.
Proof.
  intros H He Hk. apply wp_bind. unfold fireListeners.
  apply inv_the_node. intros n _.
  destruct (assoc_get key (listeners n)).
  - eapply wp_mono.
    + apply inv_events; [exact H|]. intros id w1 _ H1. apply He, H1.
    + intros [] w' Hw'. apply Hk, Hw'.
  - apply wp_ret, Hk, H.
Qed.

Lemma inv_fireAnyListeners {B} f flag (k : unit -> M B) Q w :
  Inv w ->
  (forall id w1, Inv w1 -> Inv (add_event (AnyListener f id flag) w1)) ->
  (forall w', Inv w' -> wp oof (k tt) Q w') ->
  wp oof (bind (fireAnyListeners f flag) k) Q w.
Proof.
  intros H He Hk. apply wp_bind. unfold fireAnyListeners.
  apply inv_the_node. intros n _.
  eapply wp_mono.
  - apply inv_events; [exact H|]. intros id w1 _ H1. apply He, H1.
  - intros [] w' Hw'. apply Hk, Hw'.
Qed.

Lemma inv_when {B} b m (k : unit -> M B) Q w :
  Inv w ->
  (b = true -> wp oof m (fun _ w' => Inv w') w) ->
  (forall w', Inv w' -> wp oof (k tt) Q w') ->
  wp oof (bind (when b m) k) Q w.
Proof.
  intros H Hm Hk. apply wp_bind. destruct b; cbn [when].
  - eapply wp_mono; [apply Hm; reflexivity|].
    intros [] w' Hw'. apply Hk, Hw'.
  - apply wp_ret, Hk, H.
Qed.

(** A nested call that keeps the invariant. *)
Lemma inv_call {B} (m : M unit) (k : unit -> M B) Q w :
  wp oof m (fun _ w' => Inv w') w ->
  (forall w', Inv w' -> wp oof (k tt) Q w') ->
  wp oof (bind m k) Q w.
Proof.
  intros Hm Hk. apply wp_bind. eapply wp_mono; [exact Hm|].
  intros [] w' Hw'. apply Hk, Hw'.
Qed.
End Invariants.

(** Walking through a method body with an invariant [I]: [env] proves
    that [I] ignores the reference counter, [upd] that a write keeps it,
    [ev] that an event keeps it, [call] that a nested call [run c] keeps
    it. *)
Ltac walk_with I run env upd ev call :=
  lazymatch goal with
  | |- wp _ (ret _) _ _ => apply wp_ret; try assumption
  | |- wp _ (void _) _ _ => apply wp_void; walk_with I run env upd ev call
  | |- wp _ (throw _) _ _ => apply wp_throw
  | |- wp _ (bind (ret _) _) _ _ =>
      apply wp_bind, wp_ret; walk_with I run env upd ev call
  | |- wp _ (bind (the_node _) _) _ _ =>
      apply inv_the_node; intros ? ?; walk_with I run env upd ev call
  | |- wp _ (bind (emit _) _) _ _ =>
      apply inv_emit with (Inv := I);
      [ev | intros ? ?; walk_with I run env upd ev call]
  | |- wp _ (bind (update_node _ _) _) _ _ =>
      apply inv_update_node with (Inv := I);
      [upd | intros ? ?; walk_with I run env upd ev call]
  | |- wp _ (bind fresh _) _ _ =>
      apply inv_fresh with (Inv := I);
      [env | assumption | intros ? ? ?; walk_with I run env upd ev call]
  | |- wp _ (bind (reserve_refs _) _) _ _ =>
      apply inv_reserve_refs with (Inv := I);
      [env | assumption | intros ? ?; walk_with I run env upd ev call]
  | |- wp _ (bind (copy _) _) _ _ =>
      apply inv_copy with (Inv := I);
      [env | assumption | intros ? ? ? ? ?; walk_with I run env upd ev call]
  | |- wp _ (bind (keys_of _) _) _ _ =>
      apply inv_keys_of; intros ? ?; walk_with I run env upd ev call
  | |- wp _ (bind (lift _) _) _ _ =>
      apply wp_bind, wp_lift;
      [first [apply set_not_OutOfFuel | apply remove_not_OutOfFuel
             | match goal with
               | |- context [match ?x with _ => _ end] => destruct x
               end;
               first [apply set_not_OutOfFuel | apply remove_not_OutOfFuel]]
      | intros ? ?; walk_with I run env upd ev call]
  | |- wp _ (bind (fireListeners _ _ _) _) _ _ =>
      apply inv_fireListeners with (Inv := I);
      [assumption | intros ? ? ?; ev
      | intros ? ?; walk_with I run env upd ev call]
  | |- wp _ (bind (fireAnyListeners _ _) _) _ _ =>
      apply inv_fireAnyListeners with (Inv := I);
      [assumption | intros ? ? ?; ev
      | intros ? ?; walk_with I run env upd ev call]
  | |- wp _ (bind (when _ _) _) _ _ =>
      apply inv_when with (Inv := I);
      [assumption | intros ?; walk_with I run env upd ev call
      | intros ? ?; walk_with I run env upd ev call]
  | |- wp _ (bind (for_each _ _) _) _ _ =>
      apply inv_for_each with (Inv := I);
      [assumption | intros ? ? ? ?; walk_with I run env upd ev call
      | intros ? ?; walk_with I run env upd ev call]
  | |- wp _ (bind (match ?x with _ => _ end) _) _ _ =>
      destruct x eqn:?; walk_with I run env upd ev call
  | |- wp _ (bind (bind _ _) _) _ _ =>
      apply wp_assoc; walk_with I run env upd ev call
  | |- wp _ (bind (?r _) _) _ _ =>
      first [ constr_eq r run;
              apply inv_call with (Inv := I);
              [call | intros ? ?; walk_with I run env upd ev call]
            | idtac ]
  | |- wp _ (match ?x with _ => _ end) _ _ =>
      destruct x eqn:?; walk_with I run env upd ev call
  | |- wp _ (bind _ _) _ _ => idtac
  | |- wp _ _ _ _ => apply wp_end; walk_with I run env upd ev call
  | |- _ => idtac
  end.

Ltac unfold_bodies :=
  unfold setValueInternal_body, updateParentValues_body, setValue_body,
    setValues_body, validate_body, setError_body, setErrors_body,
    updateParentErrors_body, setState_body, updateParentState_body.

(** ** What a call may write *)

Definition data (n : node) : value * value * list (string * bool) :=
  (values n, defaultValues n, dirtyMap n).

Definition data_at (w : world) (i : nat) :=
  option_map data (nth_error (nodes w) i).

(** The nodes whose [values], [defaultValues] or [dirtyMap] a call may
    write: the node itself, nodes below it when it notifies children,
    nodes above it when it notifies the parent. *)
Definition touch (c : call) (i : nat) : Prop :=
  match c with
  | SetValueInternal f _ _ _ _ _ nc np fa | SetValue f _ _ _ _ nc np fa =>
      i = f \/ (if nc then f < i else False)
      \/ (if np then if fa then i < f else False else False)
  | SetValues f _ _ nc np =>
      i = f \/ (if nc then f < i else False) \/ (if np then i < f else False)
  | UpdateParentValues f _ => i < f
  | _ => False
  end.

Definition extends (w w' : world) : Prop :=
  exists t, trace w' = (trace w ++ t)%list.

Definition rel (c : call) (w w' : world) : Prop :=
  shape w' = shape w /\
  (forall i, ~ touch c i -> data_at w' i = data_at w i) /\
  extends w w'.

Lemma extends_refl w : extends w w.
Proof. exists []. now rewrite app_nil_r. Qed.

Lemma extends_trans w1 w2 w3 : extends w1 w2 -> extends w2 w3 -> extends w1 w3.
Proof.
  intros [t1 H1] [t2 H2]. exists (t1 ++ t2)%list.
  now rewrite H2, H1, app_assoc.
Qed.

Lemma data_at_update w f g i :
  (i = f -> forall n, data (g n) = data n) ->
  data_at (set_nodes (list_update f g (nodes w)) w) i = data_at w i.
Proof.
  intros H. unfold data_at. cbn. rewrite nth_error_list_update.
  destruct (Nat.eqb_spec f i) as [->|]; [|reflexivity].
  destruct (nth_error (nodes w) i); cbn; [|reflexivity].
  now rewrite H.
Qed.

Section Sound.
Variable w0 : world.
Hypothesis Hwf : well_formed w0 = true.
Let N := List.length (nodes w0).

Variable c0 : call.
Let Inv (w : world) : Prop := rel c0 w0 w.

Lemma Inv_env : forall w w',
  nodes w' = nodes w -> trace w' = trace w -> Inv w -> Inv w'.
Proof.
  intros w w' Hn Ht (Hs & Hd & He). unfold Inv, rel, shape, data_at, extends.
  rewrite Hn, Ht. auto.
Qed.

Lemma Inv_event e w : Inv w -> Inv (add_event e w).
Proof.
  intros (Hs & Hd & He). split; [|split]; auto.
  eapply extends_trans; [exact He|]. now exists [e].
Qed.

Lemma Inv_update f g w :
  (forall n, skel (g n) = skel n) ->
  (touch c0 f \/ forall n, data (g n) = data n) ->
  Inv w -> Inv (set_nodes (list_update f g (nodes w)) w).
Proof.
  intros Hg Hf (Hs & Hd & He). split; [|split]; auto.
  - unfold shape. cbn. rewrite map_list_update; auto.
  - intros i Hi. rewrite data_at_update; auto.
    intros ->. destruct Hf; [contradiction | assumption].
Qed.

Lemma Inv_rel c w w' :
  (forall i, touch c i -> touch c0 i) -> Inv w -> rel c w w' -> Inv w'.
Proof.
  intros Hsub (Hs & Hd & He) (Hs' & Hd' & He'). split; [|split].
  - congruence.
  - intros i Hi. rewrite Hd', Hd; auto.
  - eapply extends_trans; eauto.
Qed.

Lemma Inv_lt w f n : Inv w -> nth_error (nodes w) f = Some n -> f < N.
Proof.
  intros [H _] Hn. unfold N. rewrite <- (shape_length w0 w H).
  apply nth_error_Some. congruence.
Qed.

Lemma Inv_parent w f n p name :
  Inv w -> nth_error (nodes w) f = Some n ->
  parent n = Some (p, name) -> p < f.
Proof.
  intros [H _] Hn. apply (parent_below w f n p name); auto.
  apply (well_formed_shape w0 w); auto.
Qed.

Lemma Inv_child w f n key c :
  Inv w -> nth_error (nodes w) f = Some n ->
  assoc_get key (childMap n) = Some c -> f < c.
Proof.
  intros [H _] Hn. apply (child_above w f n key c); auto.
  apply (well_formed_shape w0 w); auto.
Qed.

Lemma Inv_length w : Inv w -> List.length (nodes w) = N.
Proof. intros [H _]. apply shape_length, H. Qed.

Lemma Inv_wf w : Inv w -> well_formed w = true.
Proof. intros [H _]. apply (well_formed_shape w0 w); auto. Qed.
End Sound.

Ltac tree_facts :=
  repeat match goal with
  | Hwf : well_formed ?w0 = true, HI : rel ?c0 ?w0 ?w,
    Hn : nth_error (nodes ?w) ?f = Some ?n |- _ =>
      lazymatch goal with
      | _ : f < List.length (nodes w0) |- _ => fail
      | _ => pose proof (Inv_lt w0 c0 w f n HI Hn)
      end
  | Hwf : well_formed ?w0 = true, HI : rel ?c0 ?w0 ?w,
    Hn : nth_error (nodes ?w) ?f = Some ?n,
    Hp : parent ?n = Some (?p, _) |- _ =>
      lazymatch goal with
      | _ : p < f |- _ => fail
      | _ => pose proof (Inv_parent w0 Hwf c0 w f n p _ HI Hn Hp)
      end
  | Hwf : well_formed ?w0 = true, HI : rel ?c0 ?w0 ?w,
    Hn : nth_error (nodes ?w) ?f = Some ?n,
    Hc : assoc_get _ (childMap ?n) = Some ?c |- _ =>
      lazymatch goal with
      | _ : f < c |- _ => fail
      | _ => pose proof (Inv_child w0 Hwf c0 w f n _ c HI Hn Hc)
      end
  end.

Ltac split_flags :=
  repeat match goal with
  | H : (_ && _)%bool = true |- _ => apply andb_prop in H; destruct H
  end; subst.

Ltac case_flags :=
  repeat match goal with
  | |- context [if ?b then _ else _] => destruct b
  | H : context [if ?b then _ else _] |- _ => destruct b
  end; try discriminate.

Section SoundStep.
Variable w0 : world.
Hypothesis Hwf : well_formed w0 = true.
Variable c0 : call.
Variable fuel : nat.
Variable run : call -> M unit.
Hypothesis Hrun : forall c w,
  well_formed w = true -> rank (List.length (nodes w)) c <= fuel ->
  wp False (run c) (fun _ w' => rel c w w') w.

Lemma sound_step c w :
  c = c0 -> rel c0 w0 w -> rank (List.length (nodes w0)) c <= S fuel ->
  wp False (body run c) (fun _ w' => rel c0 w0 w') w.
Proof.
  intros Hc HI Hr. destruct c; cbn [body]; unfold_bodies.
  all: walk_with (rel c0 w0) run
         ltac:(apply Inv_env)
         ltac:(apply Inv_update;
               [intros; try apply skel_with_values; reflexivity
               | first [right; intros; reflexivity
                       | left; subst c0; cbn [touch]; left; reflexivity]
               | assumption])
         ltac:(apply Inv_event; assumption)
         ltac:(eapply wp_mono;
               [apply Hrun;
                [eapply Inv_wf; eassumption
                | erewrite Inv_length by eassumption;
                  tree_facts; subst c0; split_flags;
                  cbn [rank] in *; unfold down, up in *; case_flags; lia]
               | cbv beta; intros ? ? ?;
                 eapply Inv_rel; [ | eassumption | eassumption];
                 intros ?; tree_facts; subst c0; split_flags;
                 cbn [touch andb]; case_flags; lia]).
Qed.
End SoundStep.

(** Every call on a well-formed tree ends, with fuel [rank], and writes
    [values], [defaultValues] and [dirtyMap] only where [touch] allows. *)
Theorem exec_sound fuel : forall c w,
  well_formed w = true -> rank (List.length (nodes w)) c <= fuel ->
  wp False (exec fuel c) (fun _ w' => rel c w w') w.
Proof.
  induction fuel as [|fuel IH]; intros c w Hwf Hr.
  { pose proof (rank_pos (List.length (nodes w)) c). lia. }
  cbn [exec].
  apply (sound_step w Hwf c fuel (nested (exec fuel))); auto.
  - intros c' w' Hwf' Hr'. unfold nested. apply wp_bind.
    eapply wp_mono; [apply IH; assumption|].
    intros r w2 H2. apply wp_ret, H2.
  - split; [|split]; auto using extends_refl.
Qed.

(** ** Facts about containers *)

Lemma assoc_get_set_same {A} k (v : A) l : assoc_get k (assoc_set k v l) = Some v.
Proof.
  induction l as [|[k' v'] t IH]; cbn.
  - now rewrite String.eqb_refl.
  - destruct (String.eqb_spec k k') as [->|Hne]; cbn.
    + now rewrite String.eqb_refl.
    + destruct (String.eqb_spec k k'); [contradiction | exact IH].
Qed.

Lemma assoc_get_set_other {A} k k' (v : A) l :
  k' <> k -> assoc_get k' (assoc_set k v l) = assoc_get k' l.
Proof.
  intros Hne. induction l as [|[k2 v2] t IH]; cbn.
  - destruct (String.eqb_spec k' k); [contradiction | reflexivity].
  - destruct (String.eqb_spec k k2) as [->|]; cbn.
    + destruct (String.eqb_spec k' k2); [contradiction | reflexivity].
    + destruct (String.eqb_spec k' k2); [reflexivity | exact IH].
Qed.

Lemma assoc_get_del_same {A} k (l : list (string * A)) :
  assoc_get k (assoc_del k l) = None.
Proof.
  induction l as [|[k' v'] t IH]; cbn; [reflexivity|].
  destruct (String.eqb_spec k k') as [->|Hne]; [exact IH|].
  cbn. destruct (String.eqb_spec k k'); [contradiction | exact IH].
Qed.

Lemma assoc_get_del_other {A} k k' (l : list (string * A)) :
  k' <> k -> assoc_get k' (assoc_del k l) = assoc_get k' l.
Proof.
  intros Hne. induction l as [|[k2 v2] t IH]; cbn; [reflexivity|].
  destruct (String.eqb_spec k k2) as [->|]; cbn.
  - destruct (String.eqb_spec k' k2); [contradiction | exact IH].
  - destruct (String.eqb_spec k' k2); [reflexivity | exact IH].
Qed.

Lemma In_insert_index n k l x :
  In x (insert_index n k l) <-> x = (n, k) \/ In x l.
Proof.
  induction l as [|[m k'] t IH]; cbn.
  - intuition.
  - destruct (N.leb n m); cbn; [intuition|]. rewrite IH. intuition.
Qed.

Lemma In_index_keys ks k :
  In k (map snd (index_keys ks)) <-> In k ks /\ is_index k = true.
Proof.
  unfold is_index. induction ks as [|k' t IH]; cbn.
  - intuition.
  - destruct (array_index k') as [n|] eqn:Hk'.
    + rewrite in_map_iff. split.
      * intros [[m x] [<- Hx]]. cbn [snd].
        apply In_insert_index in Hx as [Hx|Hx].
        -- injection Hx as -> ->. rewrite Hk'. auto.
        -- cbn. assert (In x (map snd (index_keys t)))
             by (apply in_map_iff; exists (m, x); auto).
           apply IH in H. intuition.
      * intros [[->|Hin] Hidx].
        -- exists (n, k). split; [reflexivity|].
           apply In_insert_index. now left.
        -- assert (In k (map snd (index_keys t))) by (apply IH; auto).
           apply in_map_iff in H as [[m x] [<- Hx]].
           exists (m, x). split; [reflexivity|].
           apply In_insert_index. now right.
    + rewrite IH. split.
      * intuition.
      * intros [[->|Hin] Hidx]; [|auto].
        rewrite Hk' in Hidx. discriminate.
Qed.

(** [Object.keys] lists exactly the own keys. *)
Lemma In_key_order ks k : In k (key_order ks) <-> In k ks.
Proof.
  unfold key_order. rewrite in_app_iff, In_index_keys, filter_In.
  destruct (is_index k); cbn; intuition discriminate.
Qed.

Lemma assoc_get_None {A} k (l : list (string * A)) :
  assoc_get k l = None <-> ~ In k (map fst l).
Proof.
  induction l as [|[k' v'] t IH]; cbn; [intuition|].
  destruct (String.eqb_spec k k') as [->|Hne].
  - split; [discriminate | intros H; exfalso; apply H; now left].
  - rewrite IH. intuition congruence.
Qed.

Lemma assoc_get_map_keys_in {A} (h : string -> A) ks k :
  In k ks -> assoc_get k (map (fun k => (k, h k)) ks) = Some (h k).
Proof.
  induction ks as [|k' t IH]; cbn; [contradiction|].
  destruct (String.eqb_spec k k') as [->|Hne]; [reflexivity|].
  intros [->|Hin]; [contradiction | auto].
Qed.

Lemma assoc_get_map_keys_out {A} (h : string -> A) ks k :
  ~ In k ks -> assoc_get k (map (fun k => (k, h k)) ks) = None.
Proof.
  intros Hnin. apply assoc_get_None. rewrite map_map. cbn.
  now rewrite map_id.
Qed.

(** A spread copy has the same properties. *)
Lemma assoc_get_spread_fields fs k :
  assoc_get k (spread_fields fs) = assoc_get k fs.
Proof.
  unfold spread_fields.
  destruct (in_dec string_dec k (assoc_keys fs)) as [Hin|Hnin].
  - rewrite assoc_get_map_keys_in by exact Hin.
    unfold assoc_keys in Hin. apply (proj1 (In_key_order _ _)) in Hin.
    destruct (assoc_get k fs) eqn:Hk; [reflexivity|].
    exfalso. apply (proj1 (assoc_get_None k fs) Hk). exact Hin.
  - rewrite assoc_get_map_keys_out by exact Hnin.
    symmetry. apply assoc_get_None. intros Hin. apply Hnin.
    unfold assoc_keys. apply (proj2 (In_key_order _ _)), Hin.
Qed.

Lemma get_memberCopy r v c k :
  memberCopy r v = Ok c -> get c k = get v k.
Proof.
  destruct v; cbn; try discriminate; intros H; injection H as <-; cbn.
  - reflexivity.
  - now rewrite assoc_get_spread_fields.
  - reflexivity.
Qed.

Lemma get_set_same m k v m' : set m k v = Ok m' -> get m' k = v.
Proof.
  intros H. destruct m; cbn [set remove] in H; try discriminate H.
  - injection H as <-. cbn. now rewrite assoc_get_set_same.
  - destruct (array_index k) as [i|] eqn:Hi; [|discriminate].
    revert H.
    destruct (Nat.ltb_spec (N.to_nat i) (List.length elems)) as [Hlt|Hge].
    + intros H. injection H as <-. cbn. rewrite Hi.
      rewrite app_nth2; rewrite length_firstn, Nat.min_l by lia; [|lia].
      now rewrite Nat.sub_diag.
    + destruct (Nat.eqb_spec (N.to_nat i) (List.length elems)) as [He|];
        [|discriminate].
      intros H. injection H as <-. cbn. rewrite Hi, He.
      rewrite app_nth2 by lia. now rewrite Nat.sub_diag.
Qed.

Lemma get_set_other m k v m' k' :
  set m k v = Ok m' -> isArray m = false -> k' <> k -> get m' k' = get m k'.
Proof.
  intros H Ha Hne. destruct m; cbn [set remove] in H; try discriminate.
  injection H as <-. cbn. now rewrite assoc_get_set_other.
Qed.

Lemma get_remove_same m k m' :
  remove m k = Ok m' -> isArray m = false -> get m' k = VUndef.
Proof.
  intros H Ha. destruct m; cbn [set remove] in H; try discriminate.
  injection H as <-. cbn. now rewrite assoc_get_del_same.
Qed.

Lemma get_remove_other m k m' k' :
  remove m k = Ok m' -> isArray m = false -> k' <> k ->
  get m' k' = get m k'.
Proof.
  intros H Ha Hne. destruct m; cbn [set remove] in H; try discriminate.
  injection H as <-. cbn. now rewrite assoc_get_del_other.
Qed.

Lemma set_isArray m k v m' : set m k v = Ok m' -> isArray m' = isArray m.
Proof.
  intros H. destruct m; cbn [set remove] in H; try discriminate.
  - now injection H as <-.
  - destruct (array_index k); [|discriminate].
    repeat match type of H with context [if ?b then _ else _] => destruct b end;
      try discriminate; now injection H as <-.
Qed.

Lemma remove_isArray m k m' : remove m k = Ok m' -> isArray m' = isArray m.
Proof.
  intros H. destruct m; cbn [set remove] in H; try discriminate.
  - now injection H as <-.
  - destruct (array_index k); [|discriminate]. now injection H as <-.
Qed.

(** ** Exact effect of the listener fan-out *)

Definition add_events (t : list event) (w : world) : world :=
  mkWorld (nodes w) (formCounter w) (nextRef w) (trace w ++ t).

Definition ids_of (n : node) (key : string) : list nat :=
  match assoc_get key (listeners n) with Some ids => ids | None => [] end.

Definition field_events (f : nat) (key : string) (flag : bool) (n : node)
  : list event :=
  map (fun id => FieldListener f key id flag) (ids_of n key).

Definition any_events (f : nat) (flag : bool) (n : node) : list event :=
  map (fun id => AnyListener f id flag) (anyListeners n).

Lemma add_events_nil w : add_events [] w = w.
Proof. destruct w. unfold add_events. cbn. now rewrite app_nil_r. Qed.

Lemma for_each_emit {A} (l : list A) (ev : A -> event) w :
  for_each l (fun x => emit (ev x)) w = Ok (tt, add_events (map ev l) w).
Proof.
  revert w. induction l as [|x t IH]; intros w; cbn [for_each map].
  - unfold ret. now rewrite add_events_nil.
  - unfold bind. cbn [emit]. unfold emit. rewrite IH. unfold add_events. cbn.
    now rewrite <- app_assoc.
Qed.

Lemma fireListeners_eq f key flag w n :
  nth_error (nodes w) f = Some n ->
  fireListeners f key flag w = Ok (tt, add_events (field_events f key flag n) w).
Proof.
  intros Hn. unfold fireListeners, bind, the_node. rewrite Hn.
  unfold field_events, ids_of. destruct (assoc_get key (listeners n)).
  - apply for_each_emit.
  - unfold ret. cbn. now rewrite add_events_nil.
Qed.

Lemma fireAnyListeners_eq f flag w n :
  nth_error (nodes w) f = Some n ->
  fireAnyListeners f flag w = Ok (tt, add_events (any_events f flag n) w).
Proof.
  intros Hn. unfold fireAnyListeners, bind, the_node. rewrite Hn.
  apply for_each_emit.
Qed.

Lemma wp_fireListeners oof f key flag (Q : unit -> world -> Prop) w :
  (forall n, nth_error (nodes w) f = Some n ->
     Q tt (add_events (field_events f key flag n) w)) ->
  wp oof (fireListeners f key flag) Q w.
Proof.
  intros H. unfold wp. destruct (nth_error (nodes w) f) as [n|] eqn:Hn.
  - rewrite (fireListeners_eq f key flag w n Hn). auto.
  - unfold fireListeners, bind, the_node. now rewrite Hn.
Qed.

Lemma wp_fireAnyListeners oof f flag (Q : unit -> world -> Prop) w :
  (forall n, nth_error (nodes w) f = Some n ->
     Q tt (add_events (any_events f flag n) w)) ->
  wp oof (fireAnyListeners f flag) Q w.
Proof.
  intros H. unfold wp. destruct (nth_error (nodes w) f) as [n|] eqn:Hn.
  - rewrite (fireAnyListeners_eq f flag w n Hn). auto.
  - unfold fireAnyListeners, bind, the_node. now rewrite Hn.
Qed.

(** ** The write of [setValueInternal] *)

Definition written (isDefault : bool) (m : value) (D : list (string * bool))
    (me : node) : value * value * list (string * bool) :=
  if isDefault then (values me, m, D) else (m, defaultValues me, D).

Definition base_dirty (d : option bool) (key : string)
    (dm : list (string * bool)) : list (string * bool) :=
  match d with Some b => assoc_set key b dm | None => dm end.

Lemma rel_add_events c w0 w t : rel c w0 w -> rel c w0 (add_events t w).
Proof.
  intros (Hs & Hd & He). split; [|split]; auto.
  eapply extends_trans; [exact He|]. now exists t.
Qed.

Lemma rel_refl c w : rel c w w.
Proof. split; [|split]; auto using extends_refl. Qed.

Lemma data_at_add_events t w i : data_at (add_events t w) i = data_at w i.
Proof. reflexivity. Qed.

Lemma data_at_update_same w f g n :
  nth_error (nodes w) f = Some n ->
  data_at (set_nodes (list_update f g (nodes w)) w) f = Some (data (g n)).
Proof.
  intros Hn. unfold data_at. cbn. rewrite nth_error_list_update.
  now rewrite Nat.eqb_refl, Hn.
Qed.

Lemma data_at_update_other w f g i :
  i <> f -> data_at (set_nodes (list_update f g (nodes w)) w) i = data_at w i.
Proof. intros H. apply data_at_update. intros. contradiction. Qed.

Lemma data_at_Some w i n :
  nth_error (nodes w) i = Some n -> data_at w i = Some (data n).
Proof. intros H. unfold data_at. now rewrite H. Qed.

Lemma data_at_inv w i D :
  data_at w i = Some D -> exists n, nth_error (nodes w) i = Some n /\ data n = D.
Proof.
  unfold data_at. destruct (nth_error (nodes w) i) as [n|]; cbn; [|discriminate].
  intros H. exists n. split; congruence.
Qed.

Lemma shape_update w f g :
  (forall n, skel (g n) = skel n) ->
  shape (set_nodes (list_update f g (nodes w)) w) = shape w.
Proof. intros H. unfold shape. cbn. now apply map_list_update. Qed.

Lemma skel_eq_at w w' i n n' :
  shape w' = shape w -> nth_error (nodes w) i = Some n ->
  nth_error (nodes w') i = Some n' -> skel n' = skel n.
Proof.
  intros Hs Hn Hn'. destruct (nth_error_shape w w' i n' Hs Hn') as (n0 & H0 & He).
  congruence.
Qed.

Lemma shape_node_exists w w' i n :
  shape w' = shape w -> nth_error (nodes w) i = Some n ->
  exists n', nth_error (nodes w') i = Some n'.
Proof.
  intros Hs Hn. destruct (nth_error (nodes w') i) as [n'|] eqn:H'; eauto.
  exfalso. apply nth_error_None in H'.
  rewrite (shape_length w w' Hs) in H'.
  assert (i < List.length (nodes w)) by (apply nth_error_Some; congruence). lia.
Qed.

Lemma data_with_values isDefault m n :
  data (with_values isDefault m n) = written isDefault m (dirtyMap n) n.
Proof. destruct isDefault; reflexivity. Qed.

(** The events of one nested call [c], made from a world shaped like [w]. *)
Definition segment (extra : call -> world -> world -> Prop) (c : call)
    (w : world) (t : list event) : Prop :=
  exists wa wb, extra c wa wb /\ shape wa = shape w /\
                trace wb = (trace wa ++ t)%list.

Definition svi_post (extra : call -> world -> world -> Prop)
    (f : nat) (key : string) (v : value) (d : option bool)
    (isDefault nc np fa : bool) (c : call) (w : world) (me : node)
    (w' : world) : Prop :=
  exists m me' t1 t2 t3,
    match v with
    | VUndef => remove (side isDefault me) key
    | _ => set (side isDefault me) key v
    end = Ok m /\
    nth_error (nodes w') f = Some me' /\
    match (if (nc && negb (strict_eq v VUndef))%bool
           then assoc_get key (childMap me) else None) with
    | Some ch =>
        (exists chn, nth_error (nodes w') ch = Some chn /\
           data me' = written isDefault m
                        (assoc_set key (dirty chn)
                                   (base_dirty d key (dirtyMap me))) me) /\
        segment extra (SetValues ch v isDefault true false) w t1
    | None =>
        data me' = written isDefault m (base_dirty d key (dirtyMap me)) me /\
        t1 = []
    end /\
    rel c w w' /\
    trace w' = (trace w ++ t1 ++ field_events f key false me ++ t2
                ++ (if fa then any_events f false me else []) ++ t3)%list /\
    (if (fa && np)%bool
     then segment extra (UpdateParentValues f isDefault) w t2 else t2 = []) /\
    (segment extra (Validate f) w t3 \/ t3 = []) /\
    (fa = true -> np = true ->
       exists w5 w6, extra (UpdateParentValues f isDefault) w5 w6 /\
         shape w5 = shape w /\ data_at w5 f = data_at w' f /\
         (forall i, data_at w6 i = data_at w' i)).

Section ValueWrite.
Variable fuel : nat.
Variable run : call -> M unit.
Variable extra : call -> world -> world -> Prop.
Hypothesis Hrun : forall c w,
  well_formed w = true -> rank (List.length (nodes w)) c <= fuel ->
  wp False (run c) (fun _ w' => rel c w w' /\ extra c w w') w.

Lemma use_run c wa (Q : unit -> world -> Prop) :
  well_formed wa = true -> rank (List.length (nodes wa)) c <= fuel ->
  (forall wb, rel c wa wb -> extra c wa wb -> Q tt wb) ->
  wp False (run c) Q wa.
Proof.
  intros Hwf Hr HQ. eapply wp_mono; [apply Hrun; assumption|].
  intros [] wb [H1 H2]. auto.
Qed.

(** After the write and the update of [dirtyMap]. *)
Lemma svi_stage_dirty c f key d isDefault me m w w1 :
  touch c f -> rel c w w1 ->
  data_at w1 f = Some (written isDefault m (dirtyMap me) me) ->
  wp False
    (match d with
     | Some b =>
         update_node f (fun n => with_dirtyMap (assoc_set key b (dirtyMap n)) n)
     | None => ret tt
     end)
    (fun _ w2 => rel c w w2 /\ trace w2 = trace w1 /\
       data_at w2 f = Some (written isDefault m (base_dirty d key (dirtyMap me)) me))
    w1.
Proof.
  intros Ht R1 D1. destruct d as [b|]; cbn [base_dirty].
  - apply wp_update_node. split; [|split; [reflexivity|]].
    + apply Inv_update; auto.
    + apply data_at_inv in D1 as (n1 & H1 & E1).
      rewrite (data_at_update_same _ _ _ _ H1).
      unfold data, written in *. cbn.
      destruct isDefault; injection E1 as -> -> ->; reflexivity.
  - apply wp_ret. auto.
Qed.

(** After the child, if any, has taken the value. *)
Lemma svi_stage_child c (f : nat) key v isDefault (nc : bool) me D m w w2 :
  well_formed w = true ->
  (forall i, (if nc then f < i else False) -> touch c i) -> touch c f ->
  (if nc then 7 * List.length (nodes w) + 12 + down (List.length (nodes w)) (S f)
              <= fuel else True) ->
  nth_error (nodes w) f = Some me ->
  rel c w w2 ->
  data_at w2 f = Some (written isDefault m D me) ->
  wp False
    (when (nc && negb (strict_eq v VUndef))
       (me <- the_node f ;;
        match assoc_get key (childMap me) with
        | Some child =>
            run (SetValues child v isDefault true false) ;;;
            ch <- the_node child ;;
            update_node f (fun n =>
              with_dirtyMap (assoc_set key (dirty ch) (dirtyMap n)) n)
        | None => ret tt
        end))
    (fun _ w4 => rel c w w4 /\
       exists t1, trace w4 = (trace w2 ++ t1)%list /\
       match (if (nc && negb (strict_eq v VUndef))%bool
              then assoc_get key (childMap me) else None) with
       | Some ch =>
           f < ch /\
           (exists chn, data_at w4 ch = Some (data chn) /\
              data_at w4 f
              = Some (written isDefault m (assoc_set key (dirty chn) D) me)) /\
           segment extra (SetValues ch v isDefault true false) w t1
       | None => data_at w4 f = Some (written isDefault m D me) /\ t1 = []
       end)
    w2.
Proof.
  intros Hwf Hsub Hself Hfuel Hme R2 D2.
  destruct (nc && negb (strict_eq v VUndef))%bool eqn:Hcond; cbn [when].
  2:{ apply wp_ret. split; [exact R2|]. exists []. rewrite app_nil_r. auto. }
  apply andb_prop in Hcond as [-> Hv].
  apply wp_bind, wp_the_node. intros n2 H2.
  assert (Hsk : skel n2 = skel me).
  { apply (skel_eq_at w w2 f); auto. apply R2. }
  assert (Hcm : childMap n2 = childMap me) by (injection Hsk; auto).
  rewrite Hcm.
  destruct (assoc_get key (childMap me)) as [ch|] eqn:Hch.
  2:{ apply wp_ret. split; [exact R2|]. exists []. rewrite app_nil_r. auto. }
  assert (Hlt : f < ch) by (eapply child_above; eauto).
  assert (HN : List.length (nodes w2) = List.length (nodes w))
    by (apply shape_length, R2).
  apply wp_bind. apply use_run.
  - eapply Inv_wf; eauto.
  - rewrite HN. cbn [rank]. unfold down in *. lia.
  - intros w3 R3 E3.
    apply wp_bind, wp_the_node. intros chn Hchn.
    apply wp_update_node.
    assert (R3' : rel c w w3).
    { eapply Inv_rel; [|exact R2|exact R3].
      intros i Hi. cbn [touch] in Hi. apply Hsub.
      destruct Hi as [->|[Hi|[]]]; lia. }
    assert (D3 : data_at w3 f = Some (written isDefault m D me)).
    { destruct R3 as (_ & Hd & _). rewrite Hd; auto.
      cbn [touch]. lia. }
    split.
    + apply Inv_update; auto.
    + destruct R3 as (_ & _ & t1 & Ht1). exists t1. split; [exact Ht1|].
      split; [exact Hlt|]. split.
      * exists chn. split.
        -- rewrite data_at_update_other by lia. now apply data_at_Some.
        -- apply data_at_inv in D3 as (n3 & H3 & E3').
           rewrite (data_at_update_same _ _ _ _ H3).
           unfold data, written in *. cbn.
           destruct isDefault; injection E3' as -> -> ->; reflexivity.
      * exists w2, w3. split; [exact E3|]. split; [apply R2 | exact Ht1].
Qed.

(** The upward propagation and the "any" fan-out. *)
Lemma svi_stage_up c (f : nat) isDefault (np fa : bool) w w5 me :
  well_formed w = true ->
  (forall i, (if np then if fa then i < f else False else False) -> touch c i) ->
  5 * List.length (nodes w) + 6 + up (List.length (nodes w)) f <= fuel ->
  nth_error (nodes w) f = Some me ->
  rel c w w5 ->
  wp False
    (when fa
       (when np (run (UpdateParentValues f isDefault)) ;;;
        fireAnyListeners f false))
    (fun _ w7 => rel c w w7 /\
       (forall i, ~ i < f -> data_at w7 i = data_at w5 i) /\
       (exists t2,
          trace w7 = (trace w5 ++ t2
                      ++ (if fa then any_events f false me else []))%list /\
          if (fa && np)%bool
          then segment extra (UpdateParentValues f isDefault) w t2
          else t2 = []) /\
       (fa = true -> np = true ->
          exists w6, extra (UpdateParentValues f isDefault) w5 w6 /\
            forall i, data_at w6 i = data_at w7 i))
    w5.
Proof.
  intros Hwf Hsub Hfuel Hme R5.
  assert (HN : List.length (nodes w5) = List.length (nodes w))
    by (apply shape_length, R5).
  assert (Hany : forall w6 n6, shape w6 = shape w ->
            nth_error (nodes w6) f = Some n6 ->
            any_events f false n6 = any_events f false me).
  { intros w6 n6 Hs H6. pose proof (skel_eq_at w w6 f me n6 Hs Hme H6) as Hsk.
    unfold any_events. injection Hsk as _ _ _ _ _ -> _ _. reflexivity. }
  destruct fa; cbn [when andb].
  2:{ apply wp_ret. split; [|split; [|split]]; auto.
      - exists []. now rewrite !app_nil_r.
      - intros; discriminate. }
  apply wp_bind. destruct np; cbn [when].
  - apply use_run.
    + eapply Inv_wf; eauto.
    + rewrite HN. cbn [rank]. lia.
    + intros w6 R6 E6. apply wp_fireAnyListeners. intros n6 H6.
      assert (R6' : rel c w w6).
      { eapply Inv_rel; [|exact R5|exact R6]. intros i Hi. apply Hsub, Hi. }
      rewrite (Hany w6 n6 (proj1 R6') H6).
      split; [|split; [|split]].
      * apply rel_add_events, R6'.
      * intros i Hi. rewrite data_at_add_events.
        destruct R6 as (_ & Hd & _). apply Hd. exact Hi.
      * destruct R6 as (_ & _ & t2 & Ht2). exists t2. split.
        -- cbn [trace add_events]. rewrite Ht2. now rewrite <- app_assoc.
        -- exists w5, w6. split; [exact E6|]. split; [apply R5 | exact Ht2].
      * intros _ _. exists w6. split; [exact E6|]. intros i. reflexivity.
  - apply wp_ret. apply wp_fireAnyListeners. intros n6 H6.
    rewrite (Hany w5 n6 (proj1 R5) H6).
    split; [|split; [|split]].
    + apply rel_add_events, R5.
    + intros i _. reflexivity.
    + exists []. split; reflexivity.
    + intros; discriminate.
Qed.

(** The validation that ends the method writes no value. *)
Lemma svi_stage_validate c (f : nat) (validate : bool) w w7 :
  well_formed w = true ->
  5 * List.length (nodes w) + 5 <= fuel ->
  rel c w w7 ->
  wp False
    (me <- the_node f ;;
     match validator me with
     | Some _ => when validate (run (Validate f))
     | None => ret tt
     end)
    (fun _ w' => rel c w w' /\ (forall i, data_at w' i = data_at w7 i) /\
       exists t3, trace w' = (trace w7 ++ t3)%list /\
                  (segment extra (Validate f) w t3 \/ t3 = []))
    w7.
Proof.
  intros Hwf Hfuel R7.
  assert (HN : List.length (nodes w7) = List.length (nodes w))
    by (apply shape_length, R7).
  apply wp_bind, wp_the_node. intros n7 H7.
  destruct (validator n7);
    [destruct validate; cbn [when]|];
    try (apply wp_ret; split; [|split]; auto;
         exists []; rewrite app_nil_r; auto).
  apply use_run.
  - eapply Inv_wf; eauto.
  - rewrite HN. cbn [rank]. lia.
  - intros w8 R8 E8. split; [|split].
    + eapply Inv_rel; [|exact R7|exact R8]. intros i [].
    + intros i. destruct R8 as (_ & Hd & _). apply Hd. intros [].
    + destruct R8 as (_ & _ & t3 & Ht3). exists t3. split; [exact Ht3|].
      left. exists w7, w8. split; [exact E8|]. split; [apply R7 | exact Ht3].
Qed.

Lemma dirty_data n n' : data n = data n' -> dirty n = dirty n'.
Proof. unfold data, dirty. intros H. injection H as _ _ ->. reflexivity. Qed.

Lemma svi_spec f key v d validate isDefault nc np fa w me :
  let c := SetValueInternal f key v d validate isDefault nc np fa in
  well_formed w = true ->
  rank (List.length (nodes w)) c <= S fuel ->
  nth_error (nodes w) f = Some me ->
  wp False (setValueInternal_body run f key v d validate isDefault nc np fa)
     (fun _ w' => svi_post extra f key v d isDefault nc np fa c w me w') w.
Proof.
  intros c Hwf Hr Hme. unfold setValueInternal_body.
  assert (Hlt : f < List.length (nodes w))
    by (apply nth_error_Some; congruence).
  assert (Hself : touch c f) by (left; reflexivity).
  assert (Hfuel : 5 * List.length (nodes w) + 6 + up (List.length (nodes w)) f
                  <= fuel).
  { subst c. cbn [rank] in Hr. unfold up, down in *. destruct nc; lia. }
  apply wp_bind, wp_the_node. intros n Hn.
  assert (n = me) by congruence. subst n. clear Hn.
  apply wp_bind, wp_lift.
  { destruct v; first [apply set_not_OutOfFuel | apply remove_not_OutOfFuel]. }
  intros m Hm.
  apply wp_bind, wp_update_node.
  set (w1 := set_nodes (list_update f (with_values isDefault m) (nodes w)) w).
  assert (R1 : rel c w w1).
  { apply Inv_update; [intros; apply skel_with_values | now left | apply rel_refl]. }
  assert (D1 : data_at w1 f = Some (written isDefault m (dirtyMap me) me)).
  { unfold w1. rewrite (data_at_update_same _ _ _ _ Hme).
    now rewrite data_with_values. }
  apply wp_bind. eapply wp_mono.
  { apply (svi_stage_dirty c f key d isDefault me m w w1); auto. }
  intros [] w2 (R2 & Htr2' & D2). cbv beta.
  apply wp_bind. eapply wp_mono.
  { apply (svi_stage_child c f key v isDefault nc me
             (base_dirty d key (dirtyMap me)) m w w2); auto.
    - intros i Hi. subst c. cbn [touch]. destruct nc; [|contradiction]. auto.
    - subst c. cbn [rank] in Hr. unfold down in *. destruct nc; [lia|exact I]. }
  intros [] w4 (R4 & t1 & Ht1 & C4). cbv beta.
  apply wp_bind, wp_fireListeners. intros n4 H4.
  assert (Hev : field_events f key false n4 = field_events f key false me).
  { assert (Hsk : skel n4 = skel me) by (apply (skel_eq_at w w4 f); auto; apply R4).
    unfold field_events, ids_of. injection Hsk as _ _ _ _ -> _ _ _. reflexivity. }
  rewrite Hev. clear Hev n4 H4.
  set (w5 := add_events (field_events f key false me) w4).
  assert (R5 : rel c w w5) by (apply rel_add_events, R4).
  apply wp_bind. eapply wp_mono.
  { apply (svi_stage_up c f isDefault np fa w w5 me); auto.
    intros i Hi. subst c. cbn [touch]. auto. }
  intros [] w7 (R7 & D7 & (t2 & Ht2 & S2) & X7). cbv beta.
  eapply wp_mono.
  { apply (svi_stage_validate c f validate w w7); auto. lia. }
  intros [] w' (R' & D' & t3 & Ht3 & S3). cbv beta.
  destruct (shape_node_exists w w' f me (proj1 R') Hme) as [me' Hme'].
  assert (Dff : forall i, ~ i < f -> data_at w' i = data_at w4 i).
  { intros i Hi. rewrite D', D7 by exact Hi. reflexivity. }
  assert (Htr2 : trace w2 = trace w) by exact Htr2'.
  exists m, me', t1, t2, t3. split; [exact Hm|]. split; [exact Hme'|].
  split; [|split; [exact R'|split; [|split; [exact S2|split; [exact S3|]]]]].
  - destruct (if (nc && negb (strict_eq v VUndef))%bool
              then assoc_get key (childMap me) else None) as [ch|].
    + destruct C4 as (Hch & (chn & Dch & Df) & Hseg). split; [|exact Hseg].
      assert (Hch' : data_at w' ch = Some (data chn))
        by (rewrite Dff by lia; exact Dch).
      apply data_at_inv in Hch' as (chn' & Hn' & En').
      exists chn'. split; [exact Hn'|].
      rewrite (dirty_data _ _ En').
      assert (H : data_at w' f = Some (data me')) by now apply data_at_Some.
      rewrite Dff, Df in H by lia. now injection H.
    + destruct C4 as [C4 ->]. split; [|reflexivity].
      assert (H : data_at w' f = Some (data me')) by now apply data_at_Some.
      rewrite Dff, C4 in H by lia. now injection H.
  - rewrite Ht3, Ht2. unfold w5. cbn [trace add_events]. rewrite Ht1, Htr2.
    now rewrite <- !app_assoc.
  - intros Hfa Hnp. destruct (X7 Hfa Hnp) as (w6 & E6 & D6).
    exists w5, w6. split; [exact E6|]. split; [apply R5|]. split.
    + rewrite D', D7 by lia. reflexivity.
    + intros i. rewrite D6, D'. reflexivity.
Qed.
End ValueWrite.

(** ** The write, for [exec] *)

Definition no_extra (c : call) (w w' : world) : Prop := True.

Lemma nested_sound fuel c w :
  well_formed w = true -> rank (List.length (nodes w)) c <= fuel ->
  wp False (nested (exec fuel) c) (fun _ w' => rel c w w' /\ no_extra c w w') w.
Proof.
  intros Hwf Hr. unfold nested. apply wp_bind.
  eapply wp_mono; [apply exec_sound; assumption|].
  intros r w' H. apply wp_ret. split; [exact H | exact I].
Qed.

Lemma exec_svi fuel f key v d validate isDefault nc np fa w me :
  let c := SetValueInternal f key v d validate isDefault nc np fa in
  well_formed w = true ->
  rank (List.length (nodes w)) c <= fuel ->
  nth_error (nodes w) f = Some me ->
  wp False (exec fuel c)
     (fun _ w' => svi_post no_extra f key v d isDefault nc np fa c w me w') w.
Proof.
  intros c Hwf Hr Hme. destruct fuel as [|fuel].
  { pose proof (rank_pos (List.length (nodes w)) c). lia. }
  cbn [exec body]. apply wp_void.
  apply (svi_spec fuel (nested (exec fuel)) no_extra (nested_sound fuel));
    assumption.
Qed.

(** What [updateParentValues] leaves in the parent: a copy of the
    child's container under the child's name, and the child's [dirty]. *)
Definition synced (isDefault : bool) (child : node) (name : string)
    (p : node) : Prop :=
  (forall k, get (get (side isDefault p) name) k = get (side isDefault child) k)
  /\ assoc_get name (dirtyMap p) = Some (dirty child).

Definition upv_extra (c : call) (w w' : world) : Prop :=
  match c with
  | UpdateParentValues f isDefault =>
      forall n p name,
        nth_error (nodes w) f = Some n -> parent n = Some (p, name) ->
        exists pn, nth_error (nodes w') p = Some pn /\ synced isDefault n name pn
  | _ => True
  end.

Lemma memberCopy_defined r v c : memberCopy r v = Ok c -> c <> VUndef.
Proof. destruct v; cbn; intros H; try discriminate; injection H as <-; discriminate. Qed.

Lemma side_written isDefault m D me n :
  data n = written isDefault m D me -> side isDefault n = m /\ dirtyMap n = D.
Proof.
  unfold data, written, side. destruct isDefault; intros H; injection H; auto.
Qed.

(** What the write leaves in the node itself. *)
Lemma svi_post_side extra f key v d isDefault nc np fa c w me w' :
  svi_post extra f key v d isDefault nc np fa c w me w' ->
  exists m me',
    match v with
    | VUndef => remove (side isDefault me) key
    | _ => set (side isDefault me) key v
    end = Ok m /\
    nth_error (nodes w') f = Some me' /\
    side isDefault me' = m /\
    match (if (nc && negb (strict_eq v VUndef))%bool
           then assoc_get key (childMap me) else None) with
    | Some ch =>
        exists chn, nth_error (nodes w') ch = Some chn /\
          dirtyMap me' = assoc_set key (dirty chn) (base_dirty d key (dirtyMap me))
    | None => dirtyMap me' = base_dirty d key (dirtyMap me)
    end.
Proof.
  intros (m & me' & t1 & t2 & t3 & Hm & Hme' & Hd & _).
  exists m, me'. split; [exact Hm|]. split; [exact Hme'|].
  destruct (if (nc && negb (strict_eq v VUndef))%bool
            then assoc_get key (childMap me) else None) as [ch|].
  - destruct Hd as [(chn & Hchn & Hd) _]. apply side_written in Hd as [Hs Hdm].
    split; [exact Hs|]. exists chn. auto.
  - destruct Hd as [Hd _]. apply side_written in Hd as [Hs Hdm]. auto.
Qed.

Lemma exec_upv fuel c w :
  well_formed w = true -> rank (List.length (nodes w)) c <= fuel ->
  wp False (exec fuel c) (fun _ w' => rel c w w' /\ upv_extra c w w') w.
Proof.
  intros Hwf Hr.
  apply wp_conj; [apply exec_sound; assumption|].
  destruct c; try (unfold wp; destruct (exec _ _ _) as [[? ?]| |]; exact I).
  apply wp_weaken.
  destruct fuel as [|fuel].
  { pose proof (rank_pos (List.length (nodes w)) (UpdateParentValues f isDefault)). lia. }
  cbn [exec body]. apply wp_void. unfold updateParentValues_body.
  apply wp_bind, wp_the_node. intros n Hn.
  destruct (parent n) as [[p name]|] eqn:Hp.
  2:{ apply wp_ret. cbn. intros n' p name Hn' Hp'. congruence. }
  assert (Hpf : p < f) by (eapply parent_below; eauto).
  assert (Hlt : f < List.length (nodes w)) by (apply nth_error_Some; congruence).
  apply wp_bind, wp_copy. intros cpy Hcpy.
  set (w1 := mkWorld _ _ _ _).
  destruct (nth_error (nodes w) p) as [pme|] eqn:Hpme.
  2:{ apply nth_error_None in Hpme. lia. }
  unfold nested. apply wp_bind. eapply wp_mono.
  { apply (exec_svi fuel p name cpy (Some (dirty n)) true isDefault false true true
             w1 pme); auto.
    cbn [rank] in *. unfold up in *. cbn [nodes w1]. lia. }
  intros r w' (m & pn & t1 & t2 & t3 & Hm & Hpn & Hd & _). cbv beta.
  apply wp_ret.
  cbn [upv_extra]. intros n' p' name' Hn' Hp'.
  assert (n' = n) by congruence. subst n'.
  assert (p' = p /\ name' = name) as [-> ->] by (split; congruence).
  exists pn. split; [exact Hpn|].
  cbn [andb] in Hd. destruct Hd as [Hd _].
  apply side_written in Hd as [Hs Hdm].
  assert (Hset : set (side isDefault pme) name cpy = Ok m).
  { pose proof (memberCopy_defined _ _ _ Hcpy). destruct cpy; congruence. }
  split.
  - intros k. rewrite Hs, (get_set_same _ _ _ _ Hset).
    apply (get_memberCopy _ _ _ _ Hcpy).
  - rewrite Hdm. cbn [base_dirty]. apply assoc_get_set_same.
Qed.

Lemma nested_upv fuel c w :
  well_formed w = true -> rank (List.length (nodes w)) c <= fuel ->
  wp False (nested (exec fuel) c) (fun _ w' => rel c w w' /\ upv_extra c w w') w.
Proof.
  intros Hwf Hr. unfold nested. apply wp_bind.
  eapply wp_mono; [apply exec_upv; assumption|].
  intros r w' H. apply wp_ret. exact H.
Qed.

Lemma exec_svi_upv fuel f key v d validate isDefault nc np fa w me :
  let c := SetValueInternal f key v d validate isDefault nc np fa in
  well_formed w = true ->
  rank (List.length (nodes w)) c <= fuel ->
  nth_error (nodes w) f = Some me ->
  wp False (exec fuel c)
     (fun _ w' => svi_post upv_extra f key v d isDefault nc np fa c w me w') w.
Proof.
  intros c Hwf Hr Hme. destruct fuel as [|fuel].
  { pose proof (rank_pos (List.length (nodes w)) c). lia. }
  cbn [exec body]. apply wp_void.
  apply (svi_spec fuel (nested (exec fuel)) upv_extra (nested_upv fuel));
    assumption.
Qed.

(** ** [setValue] *)

(** The [dirty] argument [setValue] passes on. *)
Definition dirty_of_write (isDefault : bool) (me : node) (key : string)
    (v : value) : option bool :=
  if typeof_object v then None
  else Some (negb (strict_eq v (get (side (negb isDefault) me) key))).

(** The scalar short-circuit. *)
Definition short_circuit (isDefault : bool) (me : node) (key : string)
    (v : value) : bool :=
  (negb (typeof_object v) && strict_eq (get (side isDefault me) key) v)%bool.

Lemma exec_setValue fuel f key v validate isDefault nc np fa w me :
  well_formed w = true ->
  rank (List.length (nodes w))
       (SetValue f key v validate isDefault nc np fa) <= fuel ->
  nth_error (nodes w) f = Some me ->
  wp False (exec fuel (SetValue f key v validate isDefault nc np fa))
    (fun r w' =>
       if short_circuit isDefault me key v
       then r = RBool false /\ w' = w
       else r = RBool true /\
            svi_post upv_extra f key v (dirty_of_write isDefault me key v)
              isDefault nc np fa
              (SetValueInternal f key v (dirty_of_write isDefault me key v)
                 validate isDefault nc np fa) w me w')
    w.
Proof.
  intros Hwf Hr Hme. destruct fuel as [|fuel].
  { cbn [rank] in Hr. destruct nc; lia. }
  cbn [exec body]. unfold setValue_body, short_circuit, dirty_of_write.
  apply wp_bind, wp_bind, wp_the_node. intros n Hn.
  assert (n = me) by congruence. subst n.
  assert (Hr' : forall d, rank (List.length (nodes w))
            (SetValueInternal f key v d validate isDefault nc np fa) <= fuel).
  { intros d. cbn [rank] in *. destruct nc; lia. }
  destruct (typeof_object v); cbn [negb andb].
  - apply wp_bind. unfold nested at 1. apply wp_bind. eapply wp_mono.
    { apply exec_svi_upv; eauto. }
    intros r w' H. cbv beta. apply wp_ret, wp_ret, wp_ret. auto.
  - destruct (strict_eq (get (side isDefault me) key) v).
    + apply wp_ret, wp_ret. auto.
    + apply wp_bind. unfold nested at 1. apply wp_bind. eapply wp_mono.
      { apply exec_svi_upv; eauto. }
      intros r w' H. cbv beta. apply wp_ret, wp_ret, wp_ret. auto.
Qed.

(** * Properties of the protocol *)

Lemma enough_rank w c fuel :
  enough (List.length (nodes w)) <= fuel ->
  rank (List.length (nodes w)) c <= fuel.
Proof. intros H. pose proof (rank_enough (List.length (nodes w)) c). lia. Qed.

Lemma side_data isDefault n n' : data n = data n' -> side isDefault n = side isDefault n'.
Proof. unfold data, side. intros H. injection H as -> -> _. reflexivity. Qed.

Lemma synced_data isDefault n n' name q q' :
  data n = data n' -> data q = data q' ->
  synced isDefault n name q -> synced isDefault n' name q'.
Proof.
  intros Hn Hq [H1 H2]. unfold synced.
  rewrite <- (side_data isDefault _ _ Hn), <- (side_data isDefault _ _ Hq).
  rewrite <- (dirty_data _ _ Hn).
  assert (dirtyMap q = dirtyMap q') as <- by (unfold data in Hq; congruence).
  auto.
Qed.

Lemma strict_eq_scalar_refl v : typeof_object v = false -> strict_eq v v = true.
Proof.
  destruct v; cbn; try discriminate; intros _; auto.
  - apply Bool.eqb_reflx.
  - apply Z.eqb_refl.
  - apply String.eqb_refl.
Qed.

(** The value a write leaves under its key. *)
Lemma get_written_key (m0 : value) key v m :
  match v with VUndef => remove m0 key | _ => set m0 key v end = Ok m ->
  v <> VUndef \/ isArray m0 = false ->
  get m key = v.
Proof.
  intros Hm Hv. destruct v; try (eapply get_set_same; eassumption).
  destruct Hv as [Hv|Hv]; [congruence|].
  eapply get_remove_same; eassumption.
Qed.

(** After a child-side [setValue] that notifies the parent and applies a
    change, the parent holds a copy of the child's container and the
    child's [dirty] flag. *)
Lemma child_setValue_syncs fuel f key v validate isDefault nc w me p name :
  well_formed w = true -> enough (List.length (nodes w)) <= fuel ->
  node_at w f = Some me -> parent me = Some (p, name) ->
  wp False (exec fuel (SetValue f key v validate isDefault nc true true))
    (fun r w' => r = RBool true ->
       exists me' pn, node_at w' f = Some me' /\ node_at w' p = Some pn /\
         synced isDefault me' name pn /\
         (v <> VUndef \/ isArray (side isDefault me) = false ->
          get (side isDefault me') key = v))
    w.
Proof.
  intros Hwf Hfuel Hme Hp. unfold node_at in *.
  eapply wp_mono.
  { apply exec_setValue; eauto using enough_rank. }
  intros r w' H Hr. cbv beta in H.
  destruct (short_circuit isDefault me key v).
  { destruct H as [-> _]. discriminate. }
  destruct H as [_ H].
  destruct (svi_post_side _ _ _ _ _ _ _ _ _ _ _ _ _ H)
    as (m & me' & Hm & Hme' & Hside & _).
  destruct H as (_ & _ & _ & _ & _ & _ & _ & _ & _ & _ & _ & _ & Hx).
  destruct (Hx eq_refl eq_refl) as (w5 & w6 & E & Hs5 & D5 & D6).
  destruct (shape_node_exists w w5 f me Hs5 Hme) as [n5 Hn5].
  assert (Hsk : skel n5 = skel me) by (apply (skel_eq_at w w5 f); auto).
  assert (Hp5 : parent n5 = Some (p, name)).
  { injection Hsk as _ _ _ _ _ _ _ ->. exact Hp. }
  destruct (E n5 p name Hn5 Hp5) as (pn & Hpn & Hsync).
  assert (E5 : data n5 = data me').
  { rewrite (data_at_Some _ _ _ Hn5), (data_at_Some _ _ _ Hme') in D5.
    congruence. }
  assert (Hpn' : data_at w' p = Some (data pn)).
  { rewrite <- D6. now apply data_at_Some. }
  apply data_at_inv in Hpn' as (pn' & Hpn' & Epn).
  exists me', pn'. split; [exact Hme'|]. split; [exact Hpn'|]. split.
  - apply (synced_data isDefault n5 me' name pn pn'); auto.
  - intros Hv. rewrite Hside. eapply get_written_key; eauto.
Qed.

(** After a child-side [setValues] that notifies the parent, the parent
    holds a copy of the child's container and the child's [dirty] flag,
    whatever the key loop has written. *)
Lemma child_setValues_syncs fuel f vs isDefault nc w me p name :
  well_formed w = true -> enough (List.length (nodes w)) <= fuel ->
  node_at w f = Some me -> parent me = Some (p, name) ->
  wp False (exec fuel (SetValues f vs isDefault nc true))
    (fun _ w' =>
       exists me' pn, node_at w' f = Some me' /\ node_at w' p = Some pn /\
         synced isDefault me' name pn)
    w.
Proof.
  intros Hwf Hfuel Hme Hp. unfold node_at in *.
  assert (Hpf : p < f) by (eapply parent_below; eauto).
  destruct fuel as [|fuel]; [unfold enough in Hfuel; lia|].
  cbn [exec body]. apply wp_void. unfold setValues_body.
  apply wp_bind, wp_emit.
  apply wp_bind, wp_the_node. intros n Hn. cbn [nodes add_event] in Hn.
  apply wp_bind, wp_keys_of. intros nk Hnk.
  apply wp_bind, wp_keys_of. intros lk Hlk.
  apply wp_bind. eapply wp_mono.
  { apply (wp_for_each False (mostKeys nk lk) _
             (fun w1 => shape w1 = shape w)); [reflexivity|].
    intros x w1 _ H1. unfold nested. apply wp_bind. eapply wp_mono.
    { apply (exec_sound fuel _ w1).
      - apply (well_formed_shape w w1); auto.
      - rewrite (shape_length w w1 H1). unfold enough in Hfuel.
        cbn [rank]. unfold down, up. destruct nc; lia. }
    cbv beta. intros r w2 (Hs2 & _). apply wp_ret. congruence. }
  cbv beta. intros [] w3 Hs3.
  assert (Hwf3 : well_formed w3 = true) by (apply (well_formed_shape w w3); auto).
  assert (HN : List.length (nodes w3) = List.length (nodes w))
    by (apply shape_length, Hs3).
  destruct (shape_node_exists w w3 f me Hs3 Hme) as [n3 Hn3].
  assert (Hp3 : parent n3 = Some (p, name)).
  { pose proof (skel_eq_at w w3 f me n3 Hs3 Hme Hn3) as E.
    apply (f_equal parent) in E. cbn in E. congruence. }
  apply wp_bind. cbn [when]. eapply wp_mono.
  { apply (nested_upv fuel (UpdateParentValues f isDefault) w3 Hwf3).
    rewrite HN. unfold enough in Hfuel. cbn [rank]. unfold up. lia. }
  cbv beta. intros [] w4 ((Hs4 & Hd4 & _) & Hx).
  destruct (Hx n3 p name Hn3 Hp3) as (pn & Hpn & Hsync).
  assert (Hn4 : data_at w4 f = Some (data n3)).
  { rewrite Hd4 by (cbn [touch]; lia). now apply data_at_Some. }
  apply wp_bind, wp_fireAnyListeners. intros n4 Hn4'.
  apply wp_bind, wp_the_node. intros n5 Hn5. cbn [nodes add_events] in Hn5.
  assert (n5 = n4) by congruence. subst n5.
  assert (E4 : data n4 = data n3).
  { rewrite (data_at_Some _ _ _ Hn4') in Hn4. congruence. }
  assert (Hend : forall w5,
            data_at w5 f = Some (data n4) -> data_at w5 p = Some (data pn) ->
            exists me' pn', nth_error (nodes w5) f = Some me' /\
              nth_error (nodes w5) p = Some pn' /\ synced isDefault me' name pn').
  { intros w5 D1 D2.
    apply data_at_inv in D1 as (me' & Hme' & E1).
    apply data_at_inv in D2 as (pn' & Hpn' & E2).
    exists me', pn'. split; [exact Hme'|]. split; [exact Hpn'|].
    apply (synced_data isDefault n3 me' name pn pn'); congruence. }
  destruct (validator n4).
  - unfold nested. apply wp_bind. eapply wp_mono.
    { apply (exec_sound fuel (Validate f)).
      - apply (well_formed_shape w3); [|exact Hwf3].
        unfold shape. cbn [nodes add_events]. exact Hs4.
      - cbn [nodes add_events]. rewrite (shape_length w3 w4 Hs4), HN.
        unfold enough in Hfuel. cbn [rank]. lia. }
    intros r w5 (Hs5 & Hd5 & _). cbv beta. apply wp_ret.
    apply Hend.
    + rewrite Hd5 by (cbn [touch]; tauto). now apply data_at_Some.
    + rewrite Hd5 by (cbn [touch]; tauto). now apply data_at_Some.
  - apply wp_ret. apply Hend; now apply data_at_Some.
Qed.

(** ** Reading a node *)

Definition blank : node :=
  mkNode 0 None true VUndef VUndef [] [] [] VUndef [] [] 0 None.

Definition node_of (w : world) (f : nat) : node := nth f (nodes w) blank.

Lemma node_at_of w f :
  f < List.length (nodes w) -> node_at w f = Some (node_of w f).
Proof. intros H. unfold node_at, node_of. now apply nth_error_nth'. Qed.

Lemma node_of_at w f n : node_at w f = Some n -> node_of w f = n.
Proof. intros H. unfold node_at, node_of in *. now apply nth_error_nth. Qed.

(** The world a construction script leaves. *)
Definition after {A} (m : M A) (w : world) : world :=
  match m w with Ok (_, w') => w' | _ => w end.

Definition initial : world := mkWorld [] 0 100 [].

(** ** Claim C2: upward sync *)

Definition address_form : world := Eval vm_compute in
  after (root <- new_FormState
                   (VObj 0 [("address", VObj 1 [("city", VStr "Paris")])])
                   (VObj 2 []) (VObj 3 []) None ;;
         new_ChildFormState root "address") initial.

Definition cleared_address_form : world := Eval vm_compute in
  after (root <- new_FormState
                   (VObj 0 [("address", VObj 1 [("city", VStr "Paris")])])
                   (VObj 2 [("address", VObj 3 [("city", VStr "Paris")])])
                   (VObj 4 []) None ;;
         _ <- new_ChildFormState root "address" ;;
         setValue 32 root "address" VUndef) initial.




(** ** Claim C4: the dirty flag of a write *)

Definition nested_value_form : world := Eval vm_compute in
  after (new_FormState (VObj 0 [("a", VObj 1 [("x", VNum 1)])])
                       (VObj 2 [("a", VObj 1 [("x", VNum 1)])])
                       (VObj 3 []) None) initial.

(** C4, as stated, fails: a composite write changes [values.a], which then
    differs from [defaultValues.a], and no dirty flag is stored. *)
Lemma C4_counterexample :
  let op := setValue 32 0 "a" (VObj 4 [("x", VNum 2)]) in
  let me' := node_of (after op nested_value_form) 0 in
  result_of (op nested_value_form) = Some (RBool true) /\
  get (values me') "a" = VObj 4 [("x", VNum 2)] /\
  get (defaultValues me') "a" = VObj 1 [("x", VNum 1)] /\
  assoc_get "a" (dirtyMap me') = None.
Proof. vm_compute. repeat split. Qed.

(** C4, amended: a [setValue] at an ordinary key that is not
    short-circuited returns [true]; for a scalar value it stores in
    [dirtyMap[key]] whether the value differs ([!==]) from the other
    side's entry; for a composite value it leaves [dirtyMap] as it was; in
    both cases, when [notifyChild] is set, the value is not [undefined]
    and a child node exists at [key], [dirtyMap[key]] ends as that child's
    [dirty].  (At a key that names a prototype member the other side's
    entry is the inherited member.) *)
Theorem C4_dirty_of_write fuel f key v validate isDefault nc np fa w :
  well_formed w = true ->
  enough (List.length (nodes w)) <= fuel ->
  f < List.length (nodes w) ->
  ordinary key = true ->
  short_circuit isDefault (node_of w f) key v = false ->
  wp False (exec fuel (SetValue f key v validate isDefault nc np fa))
    (fun r w' =>
       r = RBool true /\
       match (if (nc && negb (strict_eq v VUndef))%bool
              then assoc_get key (childMap (node_of w f)) else None) with
       | Some ch =>
           assoc_get key (dirtyMap (node_of w' f)) = Some (dirty (node_of w' ch))
       | None =>
           if typeof_object v
           then dirtyMap (node_of w' f) = dirtyMap (node_of w f)
           else assoc_get key (dirtyMap (node_of w' f))
                = Some (negb (strict_eq v
                         (get (side (negb isDefault) (node_of w f)) key)))
       end)
    w.
Proof.
  intros Hwf Hfuel Hf _ Hsc.
  eapply wp_mono.
  { apply exec_setValue; eauto using enough_rank, node_at_of. }
  intros r w' H. cbv beta in H. rewrite Hsc in H.
  destruct H as [-> H].
  destruct (svi_post_side _ _ _ _ _ _ _ _ _ _ _ _ _ H)
    as (m & me' & Hm & Hme' & _ & Hd).
  split; [reflexivity|].
  rewrite (node_of_at w' f me' Hme').
  destruct (if (nc && negb (strict_eq v VUndef))%bool
            then assoc_get key (childMap (node_of w f)) else None) as [ch|].
  - destruct Hd as (chn & Hchn & ->). rewrite (node_of_at w' ch chn Hchn).
    apply assoc_get_set_same.
  - rewrite Hd. unfold dirty_of_write.
    destruct (typeof_object v); cbn [base_dirty]; [reflexivity|].
    apply assoc_get_set_same.
Qed.

Definition scalar_form : world := Eval vm_compute in
  after (root <- new_FormState (VObj 0 [("a", VNum 1)]) (VObj 1 [("a", VNum 1)])
                   (VObj 2 []) None ;;
         listen root "a") initial.

Lemma C4_witness :
  result_of (exec 32 (SetValue 0 "a" (VNum 2) true false true true true)
               scalar_form) = Some (RBool true) /\
  wp False (exec 32 (SetValue 0 "a" (VNum 2) true false true true true))
    (fun r w' =>
       r = RBool true /\
       assoc_get "a" (dirtyMap (node_of w' 0)) = Some true)
    scalar_form.
Proof.
  split; [vm_compute; reflexivity|].
  apply (C4_dirty_of_write 32 0 "a" (VNum 2) true false true true true
           scalar_form).
  - vm_compute. reflexivity.
  - vm_compute. lia.
  - vm_compute. lia.
  - reflexivity.
  - reflexivity.
Defined.

(** ** Claim C5: the scalar short-circuit *)

Definition list_form : world := Eval vm_compute in
  after (root <- new_FormState (VArr 0 [VNum 1; VNum 2]) (VArr 1 [])
                   (VObj 2 []) None ;;
         listen root "0") initial.

(** C5, as stated, fails: [undefined] is a scalar for [setValue], and on an
    array each call removes another element, returns [true] and notifies. *)
Lemma C5_counterexample :
  let op := setValue 32 0 "0" VUndef in
  let w1 := after op list_form in
  result_of (op list_form) = Some (RBool true) /\
  result_of (op w1) = Some (RBool true) /\
  count (is_field_event 0 "0") (trace w1) = 1 /\
  count (is_field_event 0 "0") (trace (after op w1)) = 2.
Proof. vm_compute. repeat split. Qed.

(** C5, amended: for a scalar [v] (not object-typed, and not [NaN],
    which the integers of the model leave out and which differs from
    itself) equal to the entry under an ordinary [key] on the side being
    written, [setValue] returns [false], changes nothing and fires
    nothing; a second [setValue(key, v)] right after a first one is such a
    no-op, unless [v] is [undefined] and the container is an array; an
    object-typed value is never short-circuited: when the call completes
    it returns [true]. *)
Theorem C5_scalar_short_circuit fuel f key v validate isDefault nc np fa w :
  well_formed w = true ->
  enough (List.length (nodes w)) <= fuel ->
  f < List.length (nodes w) ->
  typeof_object v = false ->
  let op := SetValue f key v validate isDefault nc np fa in
  (ordinary key = true ->
   strict_eq (get (side isDefault (node_of w f)) key) v = true ->
   exec fuel op w = Ok (RBool false, w)) /\
  (ordinary key = true ->
   v <> VUndef \/ isArray (side isDefault (node_of w f)) = false ->
   wp False (exec fuel op)
      (fun _ w1 => exec fuel op w1 = Ok (RBool false, w1)) w) /\
  (forall v', typeof_object v' = true ->
   wp False (exec fuel (SetValue f key v' validate isDefault nc np fa))
      (fun r _ => r = RBool true) w).
Proof.
  intros Hwf Hfuel Hf Hv op.
  assert (Hno : forall w1 n,
            node_at w1 f = Some n ->
            strict_eq (get (side isDefault n) key) v = true ->
            exec fuel op w1 = Ok (RBool false, w1)).
  { intros w1 n Hn Heq. subst op.
    destruct fuel as [|fuel']; [unfold enough in Hfuel; lia|].
    cbn [exec body]. unfold setValue_body, bind, the_node.
    unfold node_at in Hn. rewrite Hn, Hv, Heq. reflexivity. }
  split; [|split].
  - intros _ Heq. eapply Hno; eauto using node_at_of.
  - intros _ Harr. eapply wp_mono.
    { apply exec_setValue; eauto using enough_rank, node_at_of. }
    intros r w1 H. cbv beta in H.
    unfold short_circuit in H. rewrite Hv in H. cbn [negb andb] in H.
    destruct (strict_eq (get (side isDefault (node_of w f)) key) v) eqn:Heq.
    + destruct H as [_ ->]. eapply Hno; eauto using node_at_of.
    + destruct H as [_ H].
      destruct (svi_post_side _ _ _ _ _ _ _ _ _ _ _ _ _ H)
        as (m & me' & Hm & Hme' & Hside & _).
      apply (Hno w1 me' Hme').
      rewrite Hside, (get_written_key _ _ _ _ Hm Harr).
      now apply strict_eq_scalar_refl.
  - intros v' Hv'. eapply wp_mono.
    { apply exec_setValue; eauto using enough_rank, node_at_of. }
    intros r w1 H. cbv beta in H.
    unfold short_circuit in H. rewrite Hv' in H. cbn [negb andb] in H.
    apply H.
Qed.

Lemma C5_witness :
  exec 32 (SetValue 0 "a" (VNum 1) true false true true true) scalar_form
    = Ok (RBool false, scalar_form) /\
  wp False (exec 32 (SetValue 0 "a" (VNum 1) true false true true true))
     (fun _ w1 =>
        exec 32 (SetValue 0 "a" (VNum 1) true false true true true) w1
          = Ok (RBool false, w1)) scalar_form /\
  wp False (exec 32 (SetValue 0 "a" (VArr 7 []) true false true true true))
     (fun r _ => r = RBool true) scalar_form.
Proof.
  destruct (C5_scalar_short_circuit 32 0 "a" (VNum 1) true false true true true
              scalar_form) as (H1 & H2 & H3).
  - vm_compute. reflexivity.
  - vm_compute. lia.
  - vm_compute. lia.
  - reflexivity.
  - split; [apply H1; reflexivity|].
    split; [apply H2; [reflexivity | left; discriminate]|].
    apply H3. reflexivity.
Defined.

(** ** Where the events of a value call happen, without validators *)

Definition ev_node (e : event) : nat :=
  match e with
  | FieldListener f _ _ _ | AnyListener f _ _ | Enter f _ => f
  end.

Definition no_validators (w : world) : bool :=
  forallb (fun n => match validator n with None => true | Some _ => false end)
          (nodes w).

Definition value_call (c : call) : bool :=
  match c with
  | SetValueInternal _ _ _ _ _ _ _ _ _ | SetValue _ _ _ _ _ _ _ _
  | SetValues _ _ _ _ _ | UpdateParentValues _ _ | Validate _ => true
  | _ => false
  end.

(** Calls that stay on one side of their node: the value calls, and the
    error and state calls that do not notify children. *)
Definition local_call (c : call) : bool :=
  match c with
  | SetError _ _ _ nc _ _ | SetErrors _ _ nc _ | SetState _ _ nc _ => negb nc
  | _ => true
  end.

(** The nodes at which a local call may fire listeners. *)
Definition region (c : call) (i : nat) : Prop :=
  match c with
  | SetError f _ _ _ np fa =>
      i = f \/ (if np then if fa then i < f else False else False)
  | SetErrors f _ _ np | SetState f _ _ np =>
      i = f \/ (if np then i < f else False)
  | UpdateParentErrors f | UpdateParentState f => i < f
  | _ => touch c i
  end.

(** The nodes whose [setValues], [setErrors] or [setState] a local call
    may enter. *)
Definition enter_ok (c : call) (i : nat) : Prop :=
  match c with
  | SetValues f _ _ nc _ => i = f \/ (if nc then f < i else False)
  | SetValueInternal f _ _ _ _ _ nc _ _ | SetValue f _ _ _ _ nc _ _ =>
      if nc then f < i else False
  | SetErrors f _ _ _ => i = f
  | SetState f _ _ np => i = f \/ (if np then i < f else False)
  | UpdateParentState f => i < f
  | _ => False
  end.

Definition allowed (c : call) (e : event) : Prop :=
  match e with
  | Enter i _ => enter_ok c i
  | _ => region c (ev_node e)
  end.

Definition located (c : call) (w w' : world) : Prop :=
  shape w' = shape w /\
  exists t, trace w' = (trace w ++ t)%list /\ Forall (allowed c) t.

Lemma no_validators_shape w w' :
  shape w' = shape w -> no_validators w = true -> no_validators w' = true.
Proof.
  unfold no_validators, shape. intros Hs H.
  rewrite forallb_forall in *. intros n Hn.
  assert (Hin : In (skel n) (map skel (nodes w'))) by now apply in_map.
  rewrite Hs in Hin. apply in_map_iff in Hin as (n0 & He & Hn0).
  apply H in Hn0. injection He as _ Hv _ _ _ _ _ _. now rewrite <- Hv.
Qed.

Lemma no_validators_at w f n :
  no_validators w = true -> nth_error (nodes w) f = Some n -> validator n = None.
Proof.
  unfold no_validators. rewrite forallb_forall. intros H Hn.
  apply nth_error_In in Hn. apply H in Hn. destruct (validator n); congruence.
Qed.

Section Located.
Variable w0 : world.
Hypothesis Hwf : well_formed w0 = true.
Variable c0 : call.
Hypothesis Hnv : value_call c0 = true -> no_validators w0 = true.

Lemma located_env : forall w w',
  nodes w' = nodes w -> trace w' = trace w -> located c0 w0 w -> located c0 w0 w'.
Proof.
  intros w w' Hn Ht (Hs & He). unfold located, shape. rewrite Hn, Ht. auto.
Qed.

Lemma located_refl : located c0 w0 w0.
Proof. split; [reflexivity|]. exists []. now rewrite app_nil_r. Qed.

Lemma located_event e w :
  allowed c0 e -> located c0 w0 w -> located c0 w0 (add_event e w).
Proof.
  intros Ha (Hs & t & Ht & Hall). split; [exact Hs|].
  exists (t ++ [e])%list. split.
  - cbn. now rewrite Ht, app_assoc.
  - apply Forall_app. auto.
Qed.

Lemma located_update f g w :
  (forall n, skel (g n) = skel n) ->
  located c0 w0 w -> located c0 w0 (set_nodes (list_update f g (nodes w)) w).
Proof.
  intros Hg (Hs & He). split; [|exact He].
  rewrite shape_update; auto.
Qed.

Lemma located_call c w w' :
  (forall e, allowed c e -> allowed c0 e) ->
  located c0 w0 w -> located c w w' -> located c0 w0 w'.
Proof.
  intros Hsub (Hs & t & Ht & Hall) (Hs' & t' & Ht' & Hall'). split.
  - congruence.
  - exists (t ++ t')%list. split.
    + now rewrite Ht', Ht, app_assoc.
    + apply Forall_app. split; [exact Hall|].
      eapply Forall_impl; [|exact Hall']. exact Hsub.
Qed.

Lemma located_wf w : located c0 w0 w -> well_formed w = true.
Proof. intros [H _]. apply (well_formed_shape w0 w); auto. Qed.

Lemma located_nv w :
  value_call c0 = true -> located c0 w0 w -> no_validators w = true.
Proof. intros Hv [H _]. apply (no_validators_shape w0 w); auto. Qed.

Lemma located_parent w f n p name :
  located c0 w0 w -> nth_error (nodes w) f = Some n ->
  parent n = Some (p, name) -> p < f.
Proof.
  intros H Hn. apply (parent_below w f n p name); auto.
  now apply located_wf.
Qed.

Lemma located_child w f n key c :
  located c0 w0 w -> nth_error (nodes w) f = Some n ->
  assoc_get key (childMap n) = Some c -> f < c.
Proof.
  intros H Hn. apply (child_above w f n key c); auto.
  now apply located_wf.
Qed.

Lemma located_no_validator w f n x :
  value_call c0 = true ->
  located c0 w0 w -> nth_error (nodes w) f = Some n ->
  validator n = Some x -> False.
Proof.
  intros Hc H Hn Hv. rewrite (no_validators_at w f n) in Hv; auto.
  - discriminate.
  - now apply located_nv.
Qed.
End Located.

Ltac located_facts :=
  repeat match goal with
  | HI : located ?c0 ?w0 ?w, Hn : nth_error (nodes ?w) ?f = Some ?n,
    Hp : parent ?n = Some (?p, _) |- _ =>
      lazymatch goal with
      | _ : p < f |- _ => fail
      | Hwf : well_formed w0 = true |- _ =>
          pose proof (located_parent w0 Hwf c0 w f n p _ HI Hn Hp)
      end
  | HI : located ?c0 ?w0 ?w, Hn : nth_error (nodes ?w) ?f = Some ?n,
    Hc : assoc_get _ (childMap ?n) = Some ?c |- _ =>
      lazymatch goal with
      | _ : f < c |- _ => fail
      | Hwf : well_formed w0 = true |- _ =>
          pose proof (located_child w0 Hwf c0 w f n _ c HI Hn Hc)
      end
  end.

Ltac no_validator_here :=
  match goal with
  | Hnv : value_call ?c0 = true -> no_validators ?w0 = true,
    HI : located ?c0 ?w0 ?w, Hn : nth_error (nodes ?w) ?f = Some ?n,
    Hv : validator ?n = Some _ |- _ =>
      exfalso;
      refine (located_no_validator w0 c0 Hnv w f n _ _ HI Hn Hv);
      subst c0; reflexivity
  end.

Section LocatedStep.
Variable w0 : world.
Hypothesis Hwf : well_formed w0 = true.
Variable c0 : call.
Hypothesis Hnv : value_call c0 = true -> no_validators w0 = true.
Variable run : call -> M unit.
Hypothesis Hrun : forall c w,
  well_formed w = true -> (value_call c = true -> no_validators w = true) ->
  local_call c = true ->
  wp True (run c) (fun _ w' => located c w w') w.

Lemma located_step c w :
  c = c0 -> local_call c = true -> located c0 w0 w ->
  wp True (body run c) (fun _ w' => located c0 w0 w') w.
Proof.
  intros Hc Hvc HI. destruct c; cbn [body]; unfold_bodies.
  all: walk_with (located c0 w0) run
         ltac:(apply located_env)
         ltac:(apply located_update;
               [intros; try apply skel_with_values; reflexivity | assumption])
         ltac:(apply located_event;
               [subst c0; cbn [allowed ev_node enter_ok region touch]; auto
               | assumption])
         ltac:(first
           [ no_validator_here
           | exfalso; subst; cbn [local_call negb] in *; discriminate
           | eapply wp_mono;
             [apply Hrun;
              [eapply located_wf; eassumption
              | first [ intros ?; discriminate
                      | intros _; eapply located_nv;
                        [eassumption | subst c0; reflexivity | eassumption] ]
              | subst; cbn [local_call negb] in *; auto]
             | cbv beta; intros ? ? ?;
               eapply located_call; [ | eassumption | eassumption];
               intros [] ; located_facts; subst c0; split_flags;
               cbn [allowed ev_node enter_ok region touch];
               case_flags; lia] ]).
Qed.
End LocatedStep.

Lemma events_located fuel : forall c w,
  well_formed w = true -> (value_call c = true -> no_validators w = true) ->
  local_call c = true ->
  wp True (exec fuel c) (fun _ w' => located c w w') w.
Proof.
  induction fuel as [|fuel IH]; intros c w Hwf Hnv Hvc; [exact I|].
  cbn [exec].
  apply (located_step w Hwf c Hnv (nested (exec fuel))); auto.
  - intros c' w' Hwf' Hnv' Hvc'. unfold nested. apply wp_bind.
    eapply wp_mono; [apply IH; assumption|].
    intros r w2 H2. apply wp_ret, H2.
  - apply located_refl.
Qed.

(** ** [setValue] with any account of the nested calls *)

Section WithExtra.
Variable extra : call -> world -> world -> Prop.
Hypothesis exec_extra : forall fuel c w,
  well_formed w = true -> rank (List.length (nodes w)) c <= fuel ->
  wp False (exec fuel c) (fun _ w' => rel c w w' /\ extra c w w') w.

Lemma nested_extra fuel c w :
  well_formed w = true -> rank (List.length (nodes w)) c <= fuel ->
  wp False (nested (exec fuel) c) (fun _ w' => rel c w w' /\ extra c w w') w.
Proof.
  intros Hwf Hr. unfold nested. apply wp_bind.
  eapply wp_mono; [apply exec_extra; assumption|].
  intros r w' H. apply wp_ret. exact H.
Qed.

Lemma exec_svi_with fuel f key v d validate isDefault nc np fa w me :
  let c := SetValueInternal f key v d validate isDefault nc np fa in
  well_formed w = true ->
  rank (List.length (nodes w)) c <= fuel ->
  nth_error (nodes w) f = Some me ->
  wp False (exec fuel c)
     (fun _ w' => svi_post extra f key v d isDefault nc np fa c w me w') w.
Proof.
  intros c Hwf Hr Hme. destruct fuel as [|fuel].
  { pose proof (rank_pos (List.length (nodes w)) c). lia. }
  cbn [exec body]. apply wp_void.
  apply (svi_spec fuel (nested (exec fuel)) extra (nested_extra fuel));
    assumption.
Qed.

Lemma exec_setValue_with fuel f key v validate isDefault nc np fa w me :
  well_formed w = true ->
  rank (List.length (nodes w))
       (SetValue f key v validate isDefault nc np fa) <= fuel ->
  nth_error (nodes w) f = Some me ->
  wp False (exec fuel (SetValue f key v validate isDefault nc np fa))
    (fun r w' =>
       if short_circuit isDefault me key v
       then r = RBool false /\ w' = w
       else r = RBool true /\
            svi_post extra f key v (dirty_of_write isDefault me key v)
              isDefault nc np fa
              (SetValueInternal f key v (dirty_of_write isDefault me key v)
                 validate isDefault nc np fa) w me w')
    w.
Proof.
  intros Hwf Hr Hme. destruct fuel as [|fuel].
  { cbn [rank] in Hr. destruct nc; lia. }
  cbn [exec body]. unfold setValue_body, short_circuit, dirty_of_write.
  apply wp_bind, wp_bind, wp_the_node. intros n Hn.
  assert (n = me) by congruence. subst n.
  assert (Hr' : forall d, rank (List.length (nodes w))
            (SetValueInternal f key v d validate isDefault nc np fa) <= fuel).
  { intros d. cbn [rank] in *. destruct nc; lia. }
  destruct (typeof_object v); cbn [negb andb].
  - apply wp_bind. unfold nested at 1. apply wp_bind. eapply wp_mono.
    { apply exec_svi_with; eauto. }
    intros r w' H. cbv beta. apply wp_ret, wp_ret, wp_ret. auto.
  - destruct (strict_eq (get (side isDefault me) key) v).
    + apply wp_ret, wp_ret. auto.
    + apply wp_bind. unfold nested at 1. apply wp_bind. eapply wp_mono.
      { apply exec_svi_with; eauto. }
      intros r w' H. cbv beta. apply wp_ret, wp_ret, wp_ret. auto.
Qed.
End WithExtra.

(** ** The events of the upward propagation, without validators *)

Definition loc_extra (c : call) (w w' : world) : Prop :=
  well_formed w = true -> (value_call c = true -> no_validators w = true) ->
  local_call c = true -> located c w w'.

Lemma wp_True_any {A} (m : M A) w : wp True m (fun _ _ => True) w.
Proof. unfold wp. destruct (m w) as [[? ?]| |]; exact I. Qed.

Lemma exec_loc fuel c w :
  well_formed w = true -> rank (List.length (nodes w)) c <= fuel ->
  wp False (exec fuel c) (fun _ w' => rel c w w' /\ loc_extra c w w') w.
Proof.
  intros Hwf Hr. apply wp_conj; [apply exec_sound; assumption|].
  unfold loc_extra.
  destruct (local_call c) eqn:Hlc.
  2:{ eapply wp_mono; [apply wp_True_any|]. intros ? ? _ _ _ H. discriminate H. }
  destruct (value_call c) eqn:Hvc.
  - destruct (no_validators w) eqn:Hnv.
    + eapply wp_mono; [apply events_located; auto|]. auto.
    + eapply wp_mono; [apply wp_True_any|]. intros ? ? _ _ H.
      specialize (H eq_refl). discriminate.
  - eapply wp_mono; [apply events_located; auto; intros; congruence|]. auto.
Qed.

(** Events that are neither a listener of a field of [p] or below, nor a
    call entered. *)
Definition quiet (p : nat) (e : event) : Prop :=
  match e with
  | FieldListener i _ _ _ => i < p
  | AnyListener i _ _ => i <= p
  | Enter _ _ => False
  end.

Definition upv_trace (c : call) (w w' : world) : Prop :=
  match c with
  | UpdateParentValues f isDefault =>
      well_formed w = true -> no_validators w = true ->
      forall n p name,
        nth_error (nodes w) f = Some n -> parent n = Some (p, name) ->
        exists pn t,
          nth_error (nodes w) p = Some pn /\
          trace w' = (trace w ++ field_events p name false pn ++ t)%list /\
          Forall (quiet p) t
  | _ => True
  end.

Definition c1_extra (c : call) (w w' : world) : Prop :=
  loc_extra c w w' /\ upv_trace c w w'.

Lemma segment_located c w t :
  well_formed w = true -> (value_call c = true -> no_validators w = true) ->
  local_call c = true ->
  segment loc_extra c w t -> Forall (allowed c) t.
Proof.
  intros Hwf Hnv Hvc (wa & wb & E & Hs & Ht).
  destruct E as (_ & t' & Ht' & Hall).
  - apply (well_formed_shape w wa); auto.
  - intros H. apply (no_validators_shape w wa); auto.
  - exact Hvc.
  - rewrite Ht in Ht'. apply app_inv_head in Ht'. now subst t'.
Qed.

Lemma any_events_quiet p n : Forall (quiet p) (any_events p false n).
Proof.
  unfold any_events. apply Forall_forall. intros e He.
  apply in_map_iff in He as (id & <- & _). cbn. lia.
Qed.

Lemma exec_c1 fuel c w :
  well_formed w = true -> rank (List.length (nodes w)) c <= fuel ->
  wp False (exec fuel c) (fun _ w' => rel c w w' /\ c1_extra c w w') w.
Proof.
  intros Hwf Hr.
  eapply wp_mono.
  { apply wp_conj; [apply exec_loc; eassumption|].
    instantiate (1 := fun _ w' => upv_trace c w w').
    destruct c; try (eapply wp_mono; [apply wp_True_any|]; intros; exact I).
    destruct (no_validators w) eqn:Hnv.
    2:{ eapply wp_mono; [apply wp_True_any|]. cbn. intros; congruence. }
    apply wp_weaken.
    destruct fuel as [|fuel].
    { pose proof (rank_pos (List.length (nodes w))
                    (UpdateParentValues f isDefault)). lia. }
    cbn [exec body]. apply wp_void. unfold updateParentValues_body.
    apply wp_bind, wp_the_node. intros n Hn.
    destruct (parent n) as [[p name]|] eqn:Hp.
    2:{ apply wp_ret. cbn. intros _ _ n' p name Hn' Hp'. congruence. }
    assert (Hpf : p < f) by (eapply parent_below; eauto).
    assert (Hlt : f < List.length (nodes w)) by (apply nth_error_Some; congruence).
    apply wp_bind, wp_copy. intros cpy Hcpy.
    set (w1 := mkWorld _ _ _ _).
    destruct (nth_error (nodes w) p) as [pme|] eqn:Hpme.
    2:{ apply nth_error_None in Hpme. lia. }
    unfold nested. apply wp_bind. eapply wp_mono.
    { apply (exec_svi_with loc_extra exec_loc fuel p name cpy (Some (dirty n))
               true isDefault false true true w1 pme); auto.
      cbn [rank] in *. unfold up in *. cbn [nodes w1]. lia. }
    intros r w' (m & pn & t1 & t2 & t3 & _ & _ & Hd & _ & Ht & S2 & S3 & _).
    cbv beta. apply wp_ret.
    cbn [upv_trace]. intros _ _ n' p' name' Hn' Hp'.
    assert (n' = n) by congruence. subst n'.
    assert (p' = p /\ name' = name) as [-> ->] by (split; congruence).
    cbn [andb] in Hd, S2. destruct Hd as [_ ->].
    exists pme, (t2 ++ any_events p false pme ++ t3)%list.
    split; [exact Hpme|]. split; [exact Ht|].
    assert (Hwf1 : well_formed w1 = true) by exact Hwf.
    assert (Hnv1 : forall c', value_call c' = true -> no_validators w1 = true)
      by (intros; exact Hnv).
    apply Forall_app. split; [|apply Forall_app; split].
    - eapply Forall_impl; [|apply (segment_located (UpdateParentValues p isDefault) w1 t2 Hwf1 (Hnv1 _) eq_refl S2)].
      intros [i k id b|i id b|i mth]; cbn; lia.
    - apply any_events_quiet.
    - destruct S3 as [S3| ->]; [|constructor].
      eapply Forall_impl; [|apply (segment_located (Validate p) w1 t3 Hwf1 (Hnv1 _) eq_refl S3)].
      intros [i k id b|i id b|i mth]; cbn; tauto. }
  cbv beta. intros r w' [[H1 H2] H3]. split; [exact H1|]. split; assumption.
Qed.

(** ** Claim C1: no propagation loop *)

Lemma count_app p t1 t2 : count p (t1 ++ t2) = count p t1 + count p t2.
Proof. unfold count. now rewrite filter_app, length_app. Qed.

Lemma count_none p t : Forall (fun e => p e = false) t -> count p t = 0.
Proof.
  unfold count. induction 1 as [|e t He _ IH]; cbn; [reflexivity|].
  now rewrite He.
Qed.

Lemma count_field_events p name flag n :
  count (is_field_event p name) (field_events p name flag n)
  = List.length (ids_of n name).
Proof.
  unfold count, field_events. induction (ids_of n name) as [|id l IH]; cbn.
  - reflexivity.
  - rewrite Nat.eqb_refl, String.eqb_refl. cbn. now rewrite IH.
Qed.

Lemma ids_of_skel n n' name : skel n = skel n' -> ids_of n name = ids_of n' name.
Proof. unfold ids_of. intros H. injection H as _ _ _ _ -> _ _ _. reflexivity. Qed.

(** Events that say nothing about a re-entry into [c] or about the
    observers of [name] in [p]. *)
Definition harmless (c p : nat) (name : string) (e : event) : Prop :=
  is_enter c e = false /\ is_field_event p name e = false.

Lemma harmless_counts c p name t :
  Forall (harmless c p name) t ->
  count (is_enter c) t = 0 /\ count (is_field_event p name) t = 0.
Proof.
  intros H. split; apply count_none; eapply Forall_impl; try exact H;
    intros e [H1 H2]; assumption.
Qed.

Lemma quiet_harmless c p name e : p < c -> quiet p e -> harmless c p name e.
Proof.
  intros Hpc. destruct e as [i k id b|i id b|i m]; cbn; intros H; split;
    try reflexivity; try contradiction.
  apply andb_false_iff. left. apply Nat.eqb_neq. lia.
Qed.

Lemma below_harmless c p name ch vs b e :
  p < c -> c < ch -> allowed (SetValues ch vs b true false) e ->
  harmless c p name e.
Proof.
  intros Hpc Hch. destruct e as [i k id fl|i id fl|i m]; cbn; intros H; split;
    try reflexivity.
  - apply andb_false_iff. left. apply Nat.eqb_neq. lia.
  - apply Nat.eqb_neq. lia.
Qed.

Lemma own_field_harmless c p name key flag n :
  p < c -> Forall (harmless c p name) (field_events c key flag n).
Proof.
  intros Hpc. apply Forall_forall. intros e He.
  apply in_map_iff in He as (id & <- & _). split; cbn; [reflexivity|].
  apply andb_false_iff. left. apply Nat.eqb_neq. lia.
Qed.

Lemma own_any_harmless c p name flag n :
  Forall (harmless c p name) (any_events c flag n).
Proof.
  apply Forall_forall. intros e He.
  apply in_map_iff in He as (id & <- & _). split; reflexivity.
Qed.

Lemma hook_no_reentry fuel hook c w :
  well_formed w = true -> enough (List.length (nodes w)) <= fuel ->
  (value_call hook = true -> no_validators w = true) ->
  hook = UpdateParentErrors c \/ hook = UpdateParentState c
  \/ (exists b, hook = UpdateParentValues c b) ->
  wp False (exec fuel hook)
    (fun _ w' => exists t, trace w' = (trace w ++ t)%list /\
                           count (is_enter c) t = 0) w.
Proof.
  intros Hwf Hfuel Hnv Hhook.
  eapply wp_mono; [apply exec_loc; eauto using enough_rank|].
  intros r w' [_ Hloc]. cbv beta.
  assert (Hlc : local_call hook = true)
    by (destruct Hhook as [->|[->|[b ->]]]; reflexivity).
  destruct (Hloc Hwf Hnv Hlc) as (_ & t & Ht & Hall).
  exists t. split; [exact Ht|]. apply count_none.
  eapply Forall_impl; [|exact Hall].
  intros [i k id b|i id b|i m]; cbn; try reflexivity.
  destruct Hhook as [->|[->|[b' ->]]]; cbn; intros H; try contradiction.
  apply Nat.eqb_neq. lia.
Qed.

Lemma child_setValue_events fuel c key v w p name :
  well_formed w = true -> no_validators w = true ->
  enough (List.length (nodes w)) <= fuel ->
  c < List.length (nodes w) ->
  parent (node_of w c) = Some (p, name) ->
  wp False (setValue fuel c key v)
    (fun r w' => exists t,
       trace w' = (trace w ++ t)%list /\
       count (is_enter c) t = 0 /\
       count (is_field_event p name) t
       = match r with
         | RBool true => List.length (ids_of (node_of w p) name)
         | _ => 0
         end) w.
Proof.
  intros Hwf Hnv Hfuel Hc Hp. unfold setValue.
  pose proof (node_at_of w c Hc) as Hme. unfold node_at in Hme.
  set (me := node_of w c) in *.
  assert (Hpc : p < c) by (eapply parent_below; eauto).
  eapply wp_mono.
  { apply (exec_setValue_with c1_extra exec_c1); eauto using enough_rank. }
  intros r w' H. cbv beta in H.
  destruct (short_circuit false me key v).
  { destruct H as [-> ->]. exists []. rewrite app_nil_r. auto. }
  destruct H as (-> & m & me' & t1 & t2 & t3 & _ & _ & Hd & _ & Ht & S2 & S3 & _).
  cbn [andb] in S2.
  assert (Hnvc : forall c', value_call c' = true -> no_validators w = true)
    by auto.
  (* the child's part *)
  assert (H1 : Forall (harmless c p name) t1).
  { destruct (if (true && negb (strict_eq v VUndef))%bool
              then assoc_get key (childMap me) else None) as [ch|] eqn:Hch.
    - destruct Hd as [_ (wa & wb & [E _] & Hs & Hta)].
      assert (Hlt : c < ch).
      { destruct (true && negb (strict_eq v VUndef))%bool; [|discriminate].
        eapply child_above; eauto. }
      destruct E as (_ & t' & Ht' & Hall).
      + apply (well_formed_shape w wa); auto.
      + intros _. apply (no_validators_shape w wa); auto.
      + reflexivity.
      + rewrite Hta in Ht'. apply app_inv_head in Ht'. subst t'.
        eapply Forall_impl; [|exact Hall].
        intros e. apply below_harmless; assumption.
    - destruct Hd as [_ ->]. constructor. }
  (* the parent's part *)
  destruct S2 as (wa & wb & [_ E] & Hs & Hta).
  destruct (shape_node_exists w wa c me Hs Hme) as [n Hn].
  assert (Hsk : skel n = skel me) by (apply (skel_eq_at w wa c); auto).
  assert (Hpn : parent n = Some (p, name)).
  { injection Hsk as _ _ _ _ _ _ _ ->. exact Hp. }
  destruct (E (well_formed_shape w wa Hs Hwf) (no_validators_shape w wa Hs Hnv)
              n p name Hn Hpn) as (pn & t & Hpn' & Ht' & Hq).
  rewrite Hta in Ht'. apply app_inv_head in Ht'. subst t2.
  assert (Hids : ids_of pn name = ids_of (node_of w p) name).
  { apply ids_of_skel.
    assert (Hp0 : nth_error (nodes w) p = Some (node_of w p))
      by (apply node_at_of; lia).
    symmetry. apply (skel_eq_at wa w p pn (node_of w p)); auto. }
  assert (H2 : Forall (harmless c p name) t).
  { eapply Forall_impl; [|exact Hq]. intros e. now apply quiet_harmless. }
  (* the validation *)
  assert (H3 : Forall (harmless c p name) t3).
  { destruct S3 as [S3| ->]; [|constructor].
    destruct S3 as (wa3 & wb3 & [E3 _] & Hs3 & Hta3).
    destruct E3 as (_ & t' & Ht3' & Hall).
    - apply (well_formed_shape w wa3); auto.
    - intros _. apply (no_validators_shape w wa3); auto.
    - reflexivity.
    - rewrite Hta3 in Ht3'. apply app_inv_head in Ht3'. subst t'.
      eapply Forall_impl; [|exact Hall].
      intros [i k id b|i id b|i mth]; cbn; tauto. }
  eexists. split; [exact Ht|].
  destruct (harmless_counts _ _ _ _ H1) as [A1 B1].
  destruct (harmless_counts _ _ _ _ H2) as [A2 B2].
  destruct (harmless_counts _ _ _ _ H3) as [A3 B3].
  destruct (harmless_counts _ _ _ _ (own_field_harmless c p name key false me Hpc))
    as [A4 B4].
  destruct (harmless_counts _ _ _ _ (own_any_harmless c p name false me))
    as [A5 B5].
  assert (A6 : count (is_enter c) (field_events p name false pn) = 0).
  { apply count_none, Forall_forall. intros e He.
    apply in_map_iff in He as (id & <- & _). reflexivity. }
  rewrite !count_app, A1, A2, A3, A4, A5, A6, B1, B2, B3, B4, B5.
  rewrite count_field_events, Hids. split; lia.
Qed.

Definition always_bad (r : nat) (_ : value) : value :=
  VObj r [("a", VObj (S r) [("b", VObj (S (S r)) [("x", VStr "bad")])])].

Definition validated_form : world := Eval vm_compute in
  after (root <- new_FormState
                   (VObj 0 [("a", VObj 1 [("b", VObj 2 [("x", VNum 0)])])])
                   (VObj 3 []) (VObj 4 []) (Some always_bad) ;;
         p <- new_ChildFormState root "a" ;;
         c <- new_ChildFormState p "b" ;;
         listen p "b") initial.



Definition listened_address_form : world := Eval vm_compute in
  after (root <- new_FormState
                   (VObj 0 [("address", VObj 1 [("city", VStr "Paris")])])
                   (VObj 2 []) (VObj 3 []) None ;;
         _ <- new_ChildFormState root "address" ;;
         _ <- listen root "address" ;;
         listen root "address") initial.


(** ** Claim C9: what [memberCopy] refuses *)

(** [memberCopy] raises its error exactly on the values whose [typeof] is
    not ["object"]. *)
Lemma memberCopy_throws r v :
  memberCopy r v = Throw CopyError <-> typeof_object v = false.
Proof. destruct v; cbn; split; intros H; congruence. Qed.

(** C9, where the code departs from it: the claim holds for every value
    but [null]; [null] is neither an array nor a
    keyed object, [typeof null] is ["object"], and [memberCopy(null)]
    returns a new empty object instead of raising; so a form can be
    constructed from [null] values, defaults and state. *)
Theorem C9_null_is_copied :
  (forall r, isArray VNull = false /\ memberCopy r VNull = Ok (VObj r [])) /\
  result_of (new_FormState VNull VNull VNull None initial) = Some 0 /\
  values (node_of (after (new_FormState VNull VNull VNull None) initial) 0)
  = VObj 100 [].
Proof. split; [intros r; split; reflexivity|]. vm_compute. split; reflexivity. Qed.

(** ** Claim C3: the keys a bulk replace visits *)

(** The loop of [setValues] and [setErrors] runs over the longer of two
    key lists, which is one of them and not their union. *)
Lemma mostKeys_is_one_list newKeys localKeys :
  mostKeys newKeys localKeys = newKeys \/ mostKeys newKeys localKeys = localKeys.
Proof. unfold mostKeys. destruct (Nat.ltb _ _); auto. Qed.

Definition two_field_form : world := Eval vm_compute in
  after (root <- new_FormState (VObj 0 [("a", VNum 1); ("b", VNum 2)])
                   (VObj 1 []) (VObj 2 []) None ;;
         _ <- listen root "c" ;;
         setErrors 32 root (VObj 3 [("a", VStr "x"); ("b", VStr "y")]))
        initial.

(** C3, where the code departs from it: with [{a: 1, b: 2}] stored and
    [{c: 3}] coming in, [setValues] visits
    [a] and [b] only: both are removed and [c] is never set, nor are its
    observers notified.  With [{c: 3, d: 4}] coming in, it visits [c] and
    [d] only, and [a] and [b] stay.  [setErrors] does the same with the
    error keys. *)
Theorem C3_bulk_replace_misses_keys :
  let op := setValues 32 0 (VObj 4 [("c", VNum 3)]) in
  let op2 := setValues 32 0 (VObj 4 [("c", VNum 3); ("d", VNum 4)]) in
  let ep := setErrors 32 0 (VObj 5 [("c", VStr "z")]) in
  values (node_of two_field_form 0) = VObj 100 [("a", VNum 1); ("b", VNum 2)] /\
  result_of (op two_field_form) = Some RVoid /\
  values (node_of (after op two_field_form) 0) = VObj 100 [] /\
  count (is_field_event 0 "c") (trace (after op two_field_form)) = 0 /\
  values (node_of (after op2 two_field_form) 0)
  = VObj 100 [("a", VNum 1); ("b", VNum 2); ("c", VNum 3); ("d", VNum 4)] /\
  errorMap (node_of two_field_form 0) = [("a", VStr "x"); ("b", VStr "y")] /\
  result_of (ep two_field_form) = Some RVoid /\
  errorMap (node_of (after ep two_field_form) 0) = [].
Proof. vm_compute. repeat split. Qed.

(** ** Claim C6: the flag observers receive *)

Definition any_observed_form : world := Eval vm_compute in
  after (root <- new_FormState (VObj 0 []) (VObj 1 []) (VObj 2 []) None ;;
         _ <- listenAny root ;;
         listen root "a") initial.


(** *** The flags of all events *)

Definition flag_ok (c : call) (e : event) : Prop :=
  match e with
  | FieldListener _ _ _ b => b = false
  | AnyListener _ _ b => value_call c = false -> b = false
  | Enter _ _ => True
  end.

Definition flagged (c : call) (w w' : world) : Prop :=
  exists t, trace w' = (trace w ++ t)%list /\ Forall (flag_ok c) t.

Section Flags.
Variable w0 : world.
Variable c0 : call.

Lemma flagged_env : forall w w',
  nodes w' = nodes w -> trace w' = trace w -> flagged c0 w0 w -> flagged c0 w0 w'.
Proof. intros w w' _ Ht H. unfold flagged. now rewrite Ht. Qed.

Lemma flagged_refl : flagged c0 w0 w0.
Proof. exists []. now rewrite app_nil_r. Qed.

Lemma flagged_event e w :
  flag_ok c0 e -> flagged c0 w0 w -> flagged c0 w0 (add_event e w).
Proof.
  intros Ha (t & Ht & Hall). exists (t ++ [e])%list. split.
  - cbn. now rewrite Ht, app_assoc.
  - apply Forall_app. auto.
Qed.

Lemma flagged_update f g w :
  flagged c0 w0 w -> flagged c0 w0 (set_nodes (list_update f g (nodes w)) w).
Proof. exact (fun H => H). Qed.

Lemma flagged_call c w w' :
  (value_call c0 = false -> value_call c = false) ->
  flagged c0 w0 w -> flagged c w w' -> flagged c0 w0 w'.
Proof.
  intros Hsub (t & Ht & Hall) (t' & Ht' & Hall').
  exists (t ++ t')%list. split.
  - now rewrite Ht', Ht, app_assoc.
  - apply Forall_app. split; [exact Hall|].
    eapply Forall_impl; [|exact Hall'].
    intros [i k id b|i id b|i m]; cbn; auto.
Qed.

Variable run : call -> M unit.
Hypothesis Hrun : forall c w, wp True (run c) (fun _ w' => flagged c w w') w.

Lemma flags_step c w :
  c = c0 -> flagged c0 w0 w ->
  wp True (body run c) (fun _ w' => flagged c0 w0 w') w.
Proof.
  intros Hc HI. destruct c; cbn [body]; unfold_bodies.
  all: walk_with (flagged c0 w0) run
         ltac:(apply flagged_env)
         ltac:(apply flagged_update; assumption)
         ltac:(apply flagged_event;
               [subst c0; cbn [flag_ok value_call]; first [reflexivity | discriminate | auto]
               | assumption])
         ltac:(eapply wp_mono;
               [apply Hrun
               | cbv beta; intros ? ? ?;
                 eapply flagged_call; [ | eassumption | eassumption];
                 subst c0; cbn [value_call]; auto]).
Qed.
End Flags.

Lemma event_flags fuel : forall c w,
  wp True (exec fuel c) (fun _ w' => flagged c w w') w.
Proof.
  induction fuel as [|fuel IH]; intros c w; [exact I|].
  cbn [exec]. apply (flags_step w c (nested (exec fuel))); auto.
  - intros c' w'. unfold nested. apply wp_bind.
    eapply wp_mono; [apply IH|]. intros r w2 H2. apply wp_ret, H2.
  - apply flagged_refl.
Qed.

(** *** Where the flag [true] comes from *)

(** The nodes whose [setValues] has been entered. *)
Definition enters (e : event) (seen : list nat) : list nat :=
  match e with Enter i MSetValues => i :: seen | _ => seen end.

Fixpoint seen_after (seen : list nat) (t : list event) : list nat :=
  match t with
  | [] => seen
  | e :: t' => seen_after (enters e seen) t'
  end.

Definition sourced_event (seen : list nat) (e : event) : bool :=
  match e with
  | AnyListener i _ true => existsb (Nat.eqb i) seen
  | _ => true
  end.

(** Every "any" observer called with [true] is called at a node in
    [seen] or at one whose [setValues] was entered earlier in [t]. *)
Fixpoint sourced (seen : list nat) (t : list event) : bool :=
  match t with
  | [] => true
  | e :: t' => (sourced_event seen e && sourced (enters e seen) t')%bool
  end.

Lemma sourced_app seen t1 t2 :
  sourced seen (t1 ++ t2)
  = (sourced seen t1 && sourced (seen_after seen t1) t2)%bool.
Proof.
  revert seen. induction t1 as [|e t1 IH]; intros seen; cbn; [reflexivity|].
  now rewrite IH, andb_assoc.
Qed.

Lemma sourced_event_mono seen seen' e :
  (forall i, In i seen -> In i seen') ->
  sourced_event seen e = true -> sourced_event seen' e = true.
Proof.
  intros Hsub. destruct e as [i k id b|i id [|]|i m]; cbn; auto.
  rewrite !existsb_exists. intros (x & Hx & E). exists x. auto.
Qed.

Lemma sourced_mono t : forall seen seen',
  (forall i, In i seen -> In i seen') ->
  sourced seen t = true -> sourced seen' t = true.
Proof.
  induction t as [|e t IH]; intros seen seen' Hsub; cbn; [reflexivity|].
  rewrite !andb_true_iff. intros [H1 H2]. split.
  - eapply sourced_event_mono; eauto.
  - apply (IH (enters e seen)); [|exact H2].
    intros i. destruct e as [? ? ? ?|? ? ?|j []]; cbn; auto.
    intros [->|Hi]; auto.
Qed.

Lemma seen_after_keeps t : forall seen i, In i seen -> In i (seen_after seen t).
Proof.
  induction t as [|e t IH]; intros seen i Hi; cbn; [exact Hi|].
  apply IH. destruct e as [? ? ? ?|? ? ?|j []]; cbn; auto.
Qed.

Lemma seen_after_inv t : forall seen i,
  In i (seen_after seen t) -> In i seen \/ In (Enter i MSetValues) t.
Proof.
  induction t as [|e t IH]; intros seen i Hi; cbn in *; [now left|].
  destruct (IH _ _ Hi) as [H|H]; [|now right; right].
  destruct e as [? ? ? ?|? ? ?|j []]; cbn in H; auto.
  destruct H as [->|H]; auto.
Qed.

(** What [sourced] says, in words of the trace. *)
Lemma sourced_spec t pre i id post :
  sourced [] t = true -> t = (pre ++ AnyListener i id true :: post)%list ->
  In (Enter i MSetValues) pre.
Proof.
  intros H ->. rewrite sourced_app in H. apply andb_true_iff in H as [_ H].
  cbn in H. apply andb_true_iff in H as [H _].
  apply existsb_exists in H as (x & Hx & E). apply Nat.eqb_eq in E. subst x.
  destruct (seen_after_inv pre [] i Hx) as [[]|Hin]. exact Hin.
Qed.

(** The trace since [w0] is [pre] and then a sourced [t]. *)
Definition from_setValues (seen : list nat) (pre : list event)
    (w0 w : world) : Prop :=
  exists t, trace w = (trace w0 ++ pre ++ t)%list /\ sourced seen t = true.

Section Sourced.
Variable seen : list nat.
Variable pre : list event.
Variable w0 : world.

Lemma src_env : forall w w',
  nodes w' = nodes w -> trace w' = trace w ->
  from_setValues seen pre w0 w -> from_setValues seen pre w0 w'.
Proof. intros w w' _ Ht H. unfold from_setValues. now rewrite Ht. Qed.

Lemma src_update f g w :
  from_setValues seen pre w0 w ->
  from_setValues seen pre w0 (set_nodes (list_update f g (nodes w)) w).
Proof. exact (fun H => H). Qed.

Lemma src_event e w :
  (forall s, sourced_event (seen ++ s) e = true) ->
  from_setValues seen pre w0 w -> from_setValues seen pre w0 (add_event e w).
Proof.
  intros He (t & Ht & Hs). exists (t ++ [e])%list. split.
  - cbn. now rewrite Ht, <- !app_assoc.
  - rewrite sourced_app, Hs. cbn. rewrite andb_true_r.
    apply (sourced_event_mono (seen ++ [])); [|apply He].
    intros i Hi. rewrite app_nil_r in Hi. now apply seen_after_keeps.
Qed.

Lemma src_call w w' :
  from_setValues seen pre w0 w -> from_setValues [] [] w w' ->
  from_setValues seen pre w0 w'.
Proof.
  intros (t & Ht & Hs) (t' & Ht' & Hs'). exists (t ++ t')%list. split.
  - rewrite Ht', Ht. cbn. now rewrite <- !app_assoc.
  - rewrite sourced_app, Hs. cbn.
    apply (sourced_mono t' []); [intros i []|exact Hs'].
Qed.
End Sourced.

Section SourcedStep.
Variable run : call -> M unit.
Hypothesis Hrun : forall c w,
  wp True (run c) (fun _ w' => from_setValues [] [] w w') w.

Lemma sourced_step c w0 :
  wp True (body run c) (fun _ w' => from_setValues [] [] w0 w') w0.
Proof.
  assert (H0 : from_setValues [] [] w0 w0).
  { exists []. split; [cbn; now rewrite app_nil_r | reflexivity]. }
  assert (Hend : forall f w,
            from_setValues [f] [Enter f MSetValues] w0 w ->
            from_setValues [] [] w0 w).
  { intros f w (t & Ht & Hs). exists (Enter f MSetValues :: t). split.
    - exact Ht.
    - cbn. exact Hs. }
  destruct c; cbn [body]; unfold_bodies.
  3:{ apply wp_void. apply wp_bind, wp_emit.
      assert (HI : from_setValues [f] [Enter f MSetValues] w0
                     (add_event (Enter f MSetValues) w0)).
      { exists []. split; [reflexivity | reflexivity]. }
      revert HI. generalize (add_event (Enter f MSetValues) w0). intros w HI.
      eapply wp_mono with
        (Q := fun _ w' => from_setValues [f] [Enter f MSetValues] w0 w');
        [|intros ? ? H; eapply Hend; exact H].
      walk_with (from_setValues [f] [Enter f MSetValues] w0) run
         ltac:(apply src_env)
         ltac:(apply src_update; assumption)
         ltac:(apply src_event;
               [intros ?; cbn [sourced_event app existsb];
                first [reflexivity | now rewrite Nat.eqb_refl]
               | assumption])
         ltac:(eapply wp_mono;
               [apply Hrun
               | cbv beta; intros ? ? ?;
                 match goal with
                 | Hc : from_setValues [] [] ?w1 ?w2
                   |- from_setValues _ _ _ ?w2 =>
                     apply (src_call _ _ _ w1 w2); [assumption | exact Hc]
                 end]). }
  all: walk_with (from_setValues [] [] w0) run
         ltac:(apply src_env)
         ltac:(apply src_update; assumption)
         ltac:(apply src_event;
               [intros ?; cbn [sourced_event]; reflexivity | assumption])
         ltac:(eapply wp_mono;
               [apply Hrun
               | cbv beta; intros ? ? ?;
                 match goal with
                 | Hc : from_setValues [] [] ?w1 ?w2
                   |- from_setValues _ _ _ ?w2 =>
                     apply (src_call _ _ _ w1 w2); [assumption | exact Hc]
                 end]).
Qed.
End SourcedStep.

Lemma exec_sourced fuel : forall c w,
  wp True (exec fuel c) (fun _ w' => from_setValues [] [] w w') w.
Proof.
  induction fuel as [|fuel IH]; intros c w; [exact I|].
  cbn [exec]. apply (sourced_step (nested (exec fuel))).
  intros c' w'. unfold nested. apply wp_bind.
  eapply wp_mono; [apply IH|]. intros r w2 H2. apply wp_ret, H2.
Qed.

(** *** One round of [true] for each [setValues] *)

Definition is_true_any (i : nat) (e : event) : bool :=
  match e with AnyListener i' _ true => Nat.eqb i i' | _ => false end.

Definition is_setValues_entry (i : nat) (e : event) : bool :=
  match e with Enter i' MSetValues => Nat.eqb i i' | _ => false end.

(** In [t], the "any" observers of every node have been called with
    [true] once for each [setValues] that the node has entered. *)
Definition rounds (w : world) (t : list event) : Prop :=
  forall i, count (is_true_any i) t
            = List.length (anyListeners (node_of w i))
              * count (is_setValues_entry i) t.

Definition paid (w0 w : world) : Prop :=
  shape w = shape w0 /\
  exists t, trace w = (trace w0 ++ t)%list /\ rounds w0 t.

(** [setValues] has been entered at [f], and its round is due. *)
Definition opened (f : nat) (w0 w : world) : Prop :=
  shape w = shape w0 /\
  exists t, trace w = (trace w0 ++ Enter f MSetValues :: t)%list /\
            rounds w0 t.

Lemma anyListeners_shape w w' i :
  shape w' = shape w ->
  anyListeners (node_of w' i) = anyListeners (node_of w i).
Proof.
  intros Hs. unfold node_of.
  change (anyListeners (nth i (nodes w') blank))
    with (anyListeners (skel (nth i (nodes w') blank))).
  change (anyListeners (nth i (nodes w) blank))
    with (anyListeners (skel (nth i (nodes w) blank))).
  rewrite <- !(map_nth skel). fold (shape w') (shape w). now rewrite Hs.
Qed.

Lemma rounds_shape w w' t : shape w' = shape w -> rounds w t -> rounds w' t.
Proof.
  intros Hs H i. rewrite (anyListeners_shape w w' i Hs). apply H.
Qed.

Lemma rounds_nil w : rounds w [].
Proof. intros i. cbn. lia. Qed.

Lemma rounds_app w t1 t2 : rounds w t1 -> rounds w t2 -> rounds w (t1 ++ t2).
Proof. intros H1 H2 i. rewrite !count_app, H1, H2. lia. Qed.

Lemma rounds_quiet w e :
  (forall i, is_true_any i e = false) ->
  (forall i, is_setValues_entry i e = false) -> rounds w [e].
Proof.
  intros H1 H2 i. unfold count. cbn. rewrite H1, H2. cbn. lia.
Qed.

Lemma paid_refl w : paid w w.
Proof.
  split; [reflexivity|]. exists []. split; [now rewrite app_nil_r|].
  apply rounds_nil.
Qed.

Lemma paid_trans w0 w w' : paid w0 w -> paid w w' -> paid w0 w'.
Proof.
  intros (S & t & T & R) (S' & t' & T' & R'). split; [congruence|].
  exists (t ++ t')%list. split; [rewrite T', T; now rewrite app_assoc|].
  apply rounds_app; [exact R|]. exact (rounds_shape w w0 t' (eq_sym S) R').
Qed.

Lemma opened_trans f w0 w w' : opened f w0 w -> paid w w' -> opened f w0 w'.
Proof.
  intros (S & t & T & R) (S' & t' & T' & R'). split; [congruence|].
  exists (t ++ t')%list. split.
  - rewrite T', T. now rewrite <- app_assoc.
  - apply rounds_app; [exact R|]. exact (rounds_shape w w0 t' (eq_sym S) R').
Qed.

Lemma count_true_round i f l :
  count (is_true_any i) (map (fun id => AnyListener f id true) l)
  = if Nat.eqb i f then List.length l else 0.
Proof.
  unfold count. induction l as [|id l IH]; simpl.
  - now destruct (Nat.eqb i f).
  - destruct (Nat.eqb i f); simpl; [now rewrite IH | exact IH].
Qed.

(** The round that ends [setValues] settles what its entry opened. *)
Lemma opened_round f w0 w n :
  opened f w0 w -> nth_error (nodes w) f = Some n ->
  paid w0 (add_events (any_events f true n) w).
Proof.
  intros (S & t & T & R) Hn. split; [exact S|].
  exists (Enter f MSetValues :: t ++ any_events f true n)%list. split.
  - cbn [trace add_events]. rewrite T. now rewrite <- app_assoc.
  - intros i.
    change (Enter f MSetValues :: t ++ any_events f true n)%list
      with ([Enter f MSetValues] ++ t ++ any_events f true n)%list.
    rewrite !count_app, R.
    assert (En : anyListeners n = anyListeners (node_of w0 f)).
    { rewrite <- (anyListeners_shape w0 w f S).
      now rewrite (node_of_at w f n Hn). }
    assert (C1 : count (is_true_any i) [Enter f MSetValues] = 0) by reflexivity.
    assert (C2 : count (is_setValues_entry i) (any_events f true n) = 0).
    { apply count_none. apply Forall_forall. intros e He.
      unfold any_events in He. apply in_map_iff in He as (id & <- & _).
      reflexivity. }
    assert (C3 : count (is_setValues_entry i) [Enter f MSetValues]
                 = if Nat.eqb i f then 1 else 0).
    { unfold count. cbn [filter is_setValues_entry].
      now destruct (Nat.eqb i f). }
    assert (C4 : count (is_true_any i) (any_events f true n)
                 = if Nat.eqb i f then List.length (anyListeners n) else 0)
      by apply count_true_round.
    rewrite C1, C2, C3, C4.
    destruct (Nat.eqb_spec i f) as [->|_]; [rewrite En|]; lia.
Qed.

Lemma paid_env w0 : forall w w',
  nodes w' = nodes w -> trace w' = trace w -> paid w0 w -> paid w0 w'.
Proof.
  intros w w' Hn Ht [S H]. unfold paid, shape in *. now rewrite Hn, Ht.
Qed.

Lemma paid_update w0 w f g :
  (forall n, skel (g n) = skel n) ->
  paid w0 w -> paid w0 (set_nodes (list_update f g (nodes w)) w).
Proof.
  intros Hg [S H]. split; [|exact H]. now rewrite shape_update.
Qed.

Lemma paid_event w0 w e :
  (forall i, is_true_any i e = false) ->
  (forall i, is_setValues_entry i e = false) ->
  paid w0 w -> paid w0 (add_event e w).
Proof.
  intros H1 H2 (S & t & T & R). split; [exact S|].
  exists (t ++ [e])%list. split; [cbn; now rewrite T, <- app_assoc|].
  apply rounds_app; [exact R | now apply rounds_quiet].
Qed.

Section Rounds.
Variable run : call -> M unit.
Hypothesis Hrun : forall c w, wp True (run c) (fun _ w' => paid w w') w.

Lemma setValues_rounds f vs isDefault nc np w0 :
  wp True (setValues_body run f vs isDefault nc np)
    (fun _ w' => paid w0 w') w0.
Proof.
  unfold setValues_body.
  apply wp_bind, wp_emit.
  assert (HI : opened f w0 (add_event (Enter f MSetValues) w0)).
  { split; [reflexivity|]. exists []. split; [reflexivity | apply rounds_nil]. }
  revert HI. generalize (add_event (Enter f MSetValues) w0). intros w HI.
  apply wp_bind, wp_the_node. intros me Hme.
  apply wp_bind, wp_keys_of. intros newKeys _.
  apply wp_bind, wp_keys_of. intros localKeys _.
  apply wp_bind.
  eapply wp_mono.
  { apply (wp_for_each True _ _ (opened f w0)); [exact HI|].
    intros key w1 _ H1. eapply wp_mono; [apply Hrun|].
    cbv beta. intros _ w2 H2. exact (opened_trans f w0 w1 w2 H1 H2). }
  cbv beta. intros [] w3 H3.
  apply wp_bind.
  apply (wp_mono True _ (fun _ w4 => opened f w0 w4)).
  { destruct np; cbn [when]; [|apply wp_ret; exact H3].
    eapply wp_mono; [apply Hrun|].
    cbv beta. intros _ w4 H4. exact (opened_trans f w0 w3 w4 H3 H4). }
  cbv beta. intros [] w4 H4.
  apply wp_bind, wp_fireAnyListeners. intros n Hn.
  pose proof (opened_round f w0 w4 n H4 Hn) as H5.
  revert H5. generalize (add_events (any_events f true n) w4). intros w5 H5.
  apply wp_bind, wp_the_node. intros me' _.
  destruct (validator me'); [|apply wp_ret; exact H5].
  eapply wp_mono; [apply Hrun|].
  cbv beta. intros _ w6 H6. exact (paid_trans w0 w5 w6 H5 H6).
Qed.

Lemma rounds_step c w0 :
  wp True (body run c) (fun _ w' => paid w0 w') w0.
Proof.
  pose proof (paid_refl w0) as H0.
  destruct c; cbn [body].
  3:{ apply wp_void. apply setValues_rounds. }
  all: unfold_bodies.
  all: walk_with (paid w0) run
         ltac:(apply paid_env)
         ltac:(apply paid_update; [|assumption];
               intros ?; first [apply skel_with_values | reflexivity])
         ltac:(apply paid_event;
               [intros ?; reflexivity | intros ?; reflexivity | assumption])
         ltac:(eapply wp_mono;
               [apply Hrun
               | cbv beta; intros ? ? ?;
                 match goal with
                 | Hc : paid ?w1 ?w2 |- paid _ ?w2 =>
                     apply (paid_trans _ w1 w2); [assumption | exact Hc]
                 end]).
Qed.
End Rounds.

Lemma exec_rounds fuel : forall c w,
  wp True (exec fuel c) (fun _ w' => paid w w') w.
Proof.
  induction fuel as [|fuel IH]; intros c w; [exact I|].
  cbn [exec]. apply (rounds_step (nested (exec fuel))).
  intros c' w'. unfold nested. apply wp_bind.
  eapply wp_mono; [apply IH|]. intros r w2 H2. apply wp_ret, H2.
Qed.

(** *** A bulk replace notifies once *)

Lemma wp_for_each_indexed oof {A} (l : list A) (body : A -> M unit)
    (Inv : list A -> world -> Prop) :
  forall done w,
  Inv done w ->
  (forall d x w1, (exists rest, (done ++ l = d ++ x :: rest)%list) ->
     Inv d w1 -> wp oof (body x) (fun _ w2 => Inv (d ++ [x])%list w2) w1) ->
  wp oof (for_each l body) (fun _ w' => Inv (done ++ l)%list w') w.
Proof.
  induction l as [|x t IH]; intros done w Hw Hbody; cbn [for_each].
  - apply wp_ret. now rewrite app_nil_r.
  - apply wp_bind. eapply wp_mono.
    + apply (Hbody done x w); [exists t; reflexivity | exact Hw].
    + intros u w1 H1. cbv beta in *.
      replace (done ++ x :: t)%list with ((done ++ [x]) ++ t)%list
        by (now rewrite <- app_assoc).
      apply IH; [exact H1|].
      intros d y w2 [rest Hrest] Hd. apply Hbody; [|exact Hd].
      exists rest. now rewrite <- Hrest, <- app_assoc.
Qed.

(** Events that are no listener call at [f]. *)
Definition away (f : nat) (e : event) : Prop :=
  is_any_event f e = false /\ forall k, is_field_event f k e = false.

Lemma away_counts f t :
  Forall (away f) t ->
  count (is_any_event f) t = 0 /\ forall k, count (is_field_event f k) t = 0.
Proof.
  intros H. split; [|intros k]; apply count_none; eapply Forall_impl;
    try exact H; intros e [H1 H2]; auto.
Qed.

Lemma below_away f ch vs b e :
  f < ch -> allowed (SetValues ch vs b true false) e -> away f e.
Proof.
  intros Hch. destruct e as [i k id fl|i id fl|i m]; cbn; intros H; split;
    try reflexivity; intros; try reflexivity.
  - apply andb_false_iff. left. apply Nat.eqb_neq. lia.
  - apply Nat.eqb_neq. lia.
Qed.

Lemma above_away f b e : allowed (UpdateParentValues f b) e -> away f e.
Proof.
  destruct e as [i k id fl|i id fl|i m]; cbn; intros H; split;
    try reflexivity; intros; try reflexivity; try contradiction.
  - apply andb_false_iff. left. apply Nat.eqb_neq. lia.
  - apply Nat.eqb_neq. lia.
Qed.

Lemma validate_away f g e : allowed (Validate g) e -> away f e.
Proof. destruct e; cbn; tauto. Qed.

Lemma segment_away c w f t :
  well_formed w = true -> no_validators w = true ->
  value_call c = true -> local_call c = true ->
  (forall e, allowed c e -> away f e) ->
  segment c1_extra c w t -> Forall (away f) t.
Proof.
  intros Hwf Hnv Hvc Hlc Hsub (wa & wb & [E _] & Hs & Ht).
  destruct E as (_ & t' & Ht' & Hall).
  - apply (well_formed_shape w wa); auto.
  - intros _. apply (no_validators_shape w wa); auto.
  - exact Hlc.
  - rewrite Ht in Ht'. apply app_inv_head in Ht'. subst t'.
    eapply Forall_impl; [|exact Hall]. exact Hsub.
Qed.

Lemma count_field_events_other f k x flag n :
  k <> x -> count (is_field_event f k) (field_events f x flag n) = 0.
Proof.
  intros Hne. apply count_none, Forall_forall. intros e He.
  apply in_map_iff in He as (id & <- & _). cbn.
  apply andb_false_iff. right. now apply String.eqb_neq.
Qed.

Lemma count_any_field_events f x flag n :
  count (is_any_event f) (field_events f x flag n) = 0.
Proof.
  apply count_none, Forall_forall. intros e He.
  apply in_map_iff in He as (id & <- & _). reflexivity.
Qed.

Lemma count_any_events f flag n :
  count (is_any_event f) (any_events f flag n) = List.length (anyListeners n).
Proof.
  unfold count, any_events. induction (anyListeners n) as [|id l IH]; cbn.
  - reflexivity.
  - rewrite Nat.eqb_refl. cbn. now rewrite IH.
Qed.

Lemma count_field_any_events f k flag n :
  count (is_field_event f k) (any_events f flag n) = 0.
Proof.
  apply count_none, Forall_forall. intros e He.
  apply in_map_iff in He as (id & <- & _). reflexivity.
Qed.

Definition changed (isDefault : bool) (me : node) (vs : value) (k : string)
  : bool :=
  negb (short_circuit isDefault me k (get vs k)).

(** How often the observers of [k] are called by a bulk replace that
    visits [keys]. *)
Definition notified (isDefault : bool) (me : node) (vs : value)
    (keys : list string) (k : string) : nat :=
  if (existsb (String.eqb k) keys && changed isDefault me vs k)%bool
  then List.length (ids_of me k) else 0.

Definition bulk_inv (f : nat) (isDefault : bool) (me : node) (vs : value)
    (w : world) (done : list string) (w1 : world) : Prop :=
  shape w1 = shape w /\
  (exists me1, nth_error (nodes w1) f = Some me1 /\
     isArray (side isDefault me1) = false /\
     forall k, ~ In k done ->
       get (side isDefault me1) k = get (side isDefault me) k) /\
  exists t, trace w1 = (trace w ++ [Enter f MSetValues] ++ t)%list /\
    count (is_any_event f) t = 0 /\
    forall k, count (is_field_event f k) t = notified isDefault me vs done k.

Lemma existsb_eqb_In k l : existsb (String.eqb k) l = true <-> In k l.
Proof.
  rewrite existsb_exists. split.
  - intros (x & Hx & He). apply String.eqb_eq in He. now subst.
  - intros H. exists k. split; [exact H | apply String.eqb_refl].
Qed.

Lemma notified_skip isDefault me vs d x k :
  k <> x \/ changed isDefault me vs x = false ->
  notified isDefault me vs (d ++ [x]) k = notified isDefault me vs d k.
Proof.
  intros H. unfold notified. rewrite existsb_app. cbn [existsb].
  rewrite orb_false_r.
  destruct (String.eqb_spec k x) as [->|Hne].
  - destruct H as [H|H]; [contradiction|]. rewrite H.
    now rewrite !andb_false_r.
  - now rewrite orb_false_r.
Qed.

Lemma notified_new isDefault me vs d x :
  ~ In x d -> changed isDefault me vs x = true ->
  notified isDefault me vs d x = 0 /\
  notified isDefault me vs (d ++ [x]) x = List.length (ids_of me x).
Proof.
  intros Hx Hc. unfold notified. rewrite existsb_app. cbn [existsb].
  rewrite String.eqb_refl, Hc, orb_true_r. cbn.
  split; [|reflexivity].
  destruct (existsb (String.eqb x) d) eqn:He; [|reflexivity].
  apply existsb_eqb_In in He. contradiction.
Qed.

Lemma short_circuit_same isDefault n n' k v :
  get (side isDefault n) k = get (side isDefault n') k ->
  short_circuit isDefault n k v = short_circuit isDefault n' k v.
Proof. unfold short_circuit. now intros ->. Qed.

Lemma written_other (m0 : value) x v m k :
  match v with VUndef => remove m0 x | _ => set m0 x v end = Ok m ->
  isArray m0 = false -> k <> x ->
  isArray m = false /\ get m k = get m0 k.
Proof.
  intros Hm Ha Hne. destruct v.
  1: { split; [now rewrite (remove_isArray _ _ _ Hm)|].
       eapply get_remove_other; eauto. }
  all: split; [now rewrite (set_isArray _ _ _ _ Hm)|];
       eapply get_set_other; eauto.
Qed.

Lemma written_isArray (m0 : value) x v m :
  match v with VUndef => remove m0 x | _ => set m0 x v end = Ok m ->
  isArray m = isArray m0.
Proof.
  intros Hm. destruct v.
  1: eapply remove_isArray; eauto.
  all: eapply set_isArray; eauto.
Qed.

Lemma anyListeners_skel n n' : skel n = skel n' -> anyListeners n = anyListeners n'.
Proof. intros H. now injection H. Qed.

(** One round of the loop of [setValues]. *)
Lemma bulk_step fuel f vs isDefault nc np w me d x w1 :
  well_formed w = true -> no_validators w = true ->
  enough (List.length (nodes w)) <= S fuel ->
  nth_error (nodes w) f = Some me ->
  ~ In x d ->
  bulk_inv f isDefault me vs w d w1 ->
  wp False
    (nested (exec fuel)
       (SetValue f x (get vs x) false isDefault nc np false))
    (fun _ w2 => bulk_inv f isDefault me vs w (d ++ [x]) w2) w1.
Proof.
  intros Hwf Hnv Hfuel Hme Hx (Hs & (me1 & Hme1 & Harr & Hsame) & t & Ht & Hany & Hcnt).
  assert (Hwf1 : well_formed w1 = true) by (apply (well_formed_shape w w1); auto).
  assert (Hnv1 : no_validators w1 = true)
    by (apply (no_validators_shape w w1); auto).
  assert (HN : List.length (nodes w1) = List.length (nodes w))
    by (apply shape_length, Hs).
  assert (Hsk : skel me1 = skel me) by (apply (skel_eq_at w w1 f); auto).
  unfold nested. apply wp_bind. eapply wp_mono.
  { apply (exec_setValue_with c1_extra exec_c1 fuel f x (get vs x) false
             isDefault nc np false w1 me1); auto.
    rewrite HN. unfold enough in Hfuel. cbn [rank]. unfold down, up.
    destruct nc; lia. }
  intros r w2 H. cbv beta in H. apply wp_ret.
  rewrite (short_circuit_same isDefault me1 me x (get vs x) (Hsame x Hx)) in H.
  destruct (short_circuit isDefault me x (get vs x)) eqn:Hsc.
  - destruct H as [_ ->]. split; [exact Hs|]. split.
    + exists me1. split; [exact Hme1|]. split; [exact Harr|].
      intros k Hk. apply Hsame. intros Hin. apply Hk, in_or_app. now left.
    + exists t. split; [exact Ht|]. split; [exact Hany|].
      intros k. rewrite Hcnt. symmetry. apply notified_skip. right.
      unfold changed. now rewrite Hsc.
  - destruct H as (_ & H).
    destruct (svi_post_side _ _ _ _ _ _ _ _ _ _ _ _ _ H)
      as (m & me' & Hm & Hme' & Hside & _).
    destruct H as (m0 & me0 & t1 & t2 & t3 & _ & _ & Hd & Hrel & Htr & S2 & S3 & _).
    cbn [andb] in S2. subst t2.
    assert (H1 : Forall (away f) t1).
    { destruct (if (nc && negb (strict_eq (get vs x) VUndef))%bool
                then assoc_get x (childMap me1) else None) as [ch|] eqn:Hch.
      - destruct Hd as [_ Hseg].
        assert (Hlt : f < ch).
        { destruct (nc && negb (strict_eq (get vs x) VUndef))%bool;
            [|discriminate]. eapply child_above; eauto. }
        eapply (segment_away _ w1 f t1 Hwf1 Hnv1); [| | |exact Hseg];
          try reflexivity.
        intros e. now apply below_away.
      - destruct Hd as [_ ->]. constructor. }
    assert (H3 : Forall (away f) t3).
    { destruct S3 as [S3| ->]; [|constructor].
      eapply (segment_away _ w1 f t3 Hwf1 Hnv1); [| | |exact S3];
        try reflexivity.
      intros e. apply validate_away. }
    destruct (away_counts f t1 H1) as [A1 B1].
    destruct (away_counts f t3 H3) as [A3 B3].
    split; [destruct Hrel as [Hs2 _]; congruence|]. split.
    + exists me'. split; [exact Hme'|]. rewrite Hside.
      split; [rewrite (written_isArray _ _ _ _ Hm); exact Harr|].
      intros k Hk.
      assert (Hkx : k <> x) by (intros ->; apply Hk, in_or_app; right; now left).
      destruct (written_other _ _ _ _ k Hm Harr Hkx) as [_ ->].
      apply Hsame. intros Hin. apply Hk, in_or_app. now left.
    + exists (t ++ t1 ++ field_events f x false me1 ++ t3)%list. split.
      { rewrite Htr, Ht. cbn [app]. rewrite <- !app_assoc. cbn [app].
        reflexivity. }
      split.
      { rewrite !count_app, Hany, A1, A3, count_any_field_events. reflexivity. }
      intros k. rewrite !count_app, Hcnt, B1, B3.
      assert (Hch : changed isDefault me vs x = true)
        by (unfold changed; now rewrite Hsc).
      destruct (String.eqb_spec k x) as [->|Hne].
      * destruct (notified_new isDefault me vs d x Hx Hch) as [-> ->].
        rewrite count_field_events, (ids_of_skel me1 me x Hsk). lia.
      * rewrite (count_field_events_other f k x false me1 Hne).
        rewrite notified_skip by (left; exact Hne). lia.
Qed.

(** A bulk replace, in a tree without validators and on a keyed container:
    the "any" observers are called once, last, with [true]; the observers
    of a key are called once if the key is visited and its value is not
    short-circuited, and not at all otherwise. *)
Lemma bulk_replace_events fuel f vs isDefault nc np w me nk lk :
  well_formed w = true -> no_validators w = true ->
  enough (List.length (nodes w)) <= fuel ->
  nth_error (nodes w) f = Some me ->
  isArray (side isDefault me) = false ->
  object_keys (side isDefault me) = Some nk ->
  object_keys vs = Some lk ->
  NoDup (mostKeys nk lk) ->
  wp False (exec fuel (SetValues f vs isDefault nc np))
    (fun _ w' => exists t,
       trace w' = (trace w ++ [Enter f MSetValues] ++ t
                   ++ any_events f true me)%list /\
       count (is_any_event f) t = 0 /\
       forall k, count (is_field_event f k) t
                 = notified isDefault me vs (mostKeys nk lk) k) w.
Proof.
  intros Hwf Hnv Hfuel Hme Harr Hnk Hlk Hnd.
  destruct fuel as [|fuel]; [unfold enough in Hfuel; lia|].
  cbn [exec body]. apply wp_void. unfold setValues_body.
  apply wp_bind, wp_emit.
  apply wp_bind, wp_the_node. intros n Hn. cbn [nodes add_event] in Hn.
  assert (n = me) by congruence. subst n. clear Hn.
  unfold keys_of at 1. rewrite Hnk. apply wp_bind, wp_ret.
  unfold keys_of at 1. rewrite Hlk. apply wp_bind, wp_ret.
  apply wp_bind. eapply wp_mono.
  { apply (wp_for_each_indexed False (mostKeys nk lk) _
             (bulk_inv f isDefault me vs w) []).
    - split; [reflexivity|]. split.
      + exists me. auto.
      + exists []. repeat split.
    - intros d x w1 [rest Hrest] Hinv. cbn [app] in Hrest.
      apply (bulk_step fuel f vs isDefault nc np w me d x w1); auto.
      rewrite Hrest in Hnd. apply NoDup_remove_2 in Hnd.
      intros Hin. apply Hnd, in_or_app. now left. }
  cbn [app]. intros [] w3 (Hs3 & _ & t & Ht & Hany & Hcnt). cbv beta.
  assert (Hwf3 : well_formed w3 = true) by (apply (well_formed_shape w w3); auto).
  assert (Hnv3 : no_validators w3 = true)
    by (apply (no_validators_shape w w3); auto).
  assert (HN : List.length (nodes w3) = List.length (nodes w))
    by (apply shape_length, Hs3).
  apply wp_bind.
  eapply wp_mono with
    (Q := fun _ w4 => shape w4 = shape w /\
            exists t', trace w4 = (trace w3 ++ t')%list /\ Forall (away f) t').
  { destruct np; cbn [when].
    - unfold nested. apply wp_bind. eapply wp_mono.
      { apply (exec_c1 fuel); auto.
        rewrite HN. unfold enough in Hfuel. cbn [rank]. unfold up. lia. }
      intros r w4 [Hrel [Hloc _]]. cbv beta. apply wp_ret.
      split; [destruct Hrel; congruence|].
      destruct (Hloc Hwf3 (fun _ => Hnv3) eq_refl) as (_ & t' & Ht' & Hall).
      exists t'. split; [exact Ht'|].
      eapply Forall_impl; [|exact Hall]. intros e. apply above_away.
    - apply wp_ret. split; [exact Hs3|]. exists []. rewrite app_nil_r. auto. }
  intros [] w4 (Hs4 & t' & Ht' & Haway). cbv beta.
  apply wp_bind, wp_fireAnyListeners. intros n4 Hn4.
  assert (Hsk4 : skel n4 = skel me) by (apply (skel_eq_at w w4 f); auto).
  apply wp_bind, wp_the_node. intros n5 Hn5. cbn [nodes add_events] in Hn5.
  assert (n5 = n4) by congruence. subst n5.
  rewrite (no_validators_at w4 f n4); auto.
  2:{ apply (no_validators_shape w w4); auto. }
  apply wp_ret.
  destruct (away_counts f t' Haway) as [A B].
  exists (t ++ t')%list. split; [|split].
  - cbn [trace add_events]. rewrite Ht', Ht.
    unfold any_events. rewrite (anyListeners_skel n4 me Hsk4).
    cbn [app]. now rewrite <- !app_assoc.
  - rewrite count_app, Hany, A. reflexivity.
  - intros k. rewrite count_app, Hcnt, B. lia.
Qed.


Definition three_fields : value :=
  VObj 4 [("a", VNum 1); ("b", VNum 2); ("c", VNum 3)].

Definition observed_form : world := Eval vm_compute in
  after (root <- new_FormState (VObj 0 []) (VObj 1 []) (VObj 2 []) None ;;
         _ <- listenAny root ;;
         _ <- listen root "a" ;;
         _ <- listen root "b" ;;
         listen root "c") initial.


(** ** Claim C8: the state fan-out *)

(** Two states with the same properties; [updateParentState] hands a copy
    of the state to the parent, which is a new object with the properties
    of the old one. *)
Definition same_props (a b : value) : Prop := forall k, get a k = get b k.

(** A node without its state: [setState] changes nothing else. *)
Definition stateless (n : node) : node := with_state VUndef n.

(** [c] is the child of [f] under a key that [f.values] has: the children
    [setState] visits. *)
Definition child_at (w : world) (f : nat) (k : string) (c : nat) : Prop :=
  exists n ks, nth_error (nodes w) f = Some n /\
               object_keys (values n) = Some ks /\ In k ks /\
               assoc_get k (childMap n) = Some c.

Inductive reach (w : world) : nat -> nat -> Prop :=
| reach_child f k c : child_at w f k c -> reach w f c
| reach_more f k c d : child_at w f k c -> reach w c d -> reach w f d.

Definition state_is (s : value) (w : world) (i : nat) : Prop :=
  forall n, nth_error (nodes w) i = Some n -> same_props (state n) s.

(** What the state methods do to a tree: every state is as it was or has
    the properties of [s], and nothing but states changes. *)
Definition state_rel (s : value) (w w' : world) : Prop :=
  map stateless (nodes w') = map stateless (nodes w) /\
  extends w w' /\
  forall i n', nth_error (nodes w') i = Some n' ->
    same_props (state n') s \/
    exists n, nth_error (nodes w) i = Some n /\ state n' = state n.

Definition state_target (s : value) (c : call) (w : world) : Prop :=
  match c with
  | SetState _ s' _ _ => same_props s' s
  | UpdateParentState f => state_is s w f
  | _ => False
  end.

Definition state_post (s : value) (c : call) (w w' : world) : Prop :=
  state_rel s w w' /\
  match c with
  | SetState f _ nc np =>
      state_is s w' f /\
      (nc = true -> forall d, reach w f d -> state_is s w' d) /\
      (np = true -> forall n p name,
         nth_error (nodes w) f = Some n -> parent n = Some (p, name) ->
         state_is s w' p) /\
      (forall n, nth_error (nodes w) f = Some n ->
         exists t,
           trace w' = (trace w ++ Enter f MSetState :: t
                       ++ any_events f false n)%list /\
           forall ks k id, object_keys (values n) = Some ks -> In k ks ->
             In id (ids_of n k) -> In (FieldListener f k id false) t)
  | UpdateParentState f =>
      forall n p name,
        nth_error (nodes w) f = Some n -> parent n = Some (p, name) ->
        state_is s w' p
  | _ => True
  end.

Lemma same_props_trans a b c :
  same_props a b -> same_props b c -> same_props a c.
Proof. intros H1 H2 k. now rewrite H1. Qed.

Lemma stateless_at w w' i n :
  map stateless (nodes w') = map stateless (nodes w) ->
  nth_error (nodes w) i = Some n ->
  exists n', nth_error (nodes w') i = Some n' /\ stateless n' = stateless n.
Proof.
  intros Hs Hn.
  assert (H : nth_error (map stateless (nodes w)) i = Some (stateless n))
    by (rewrite nth_error_map, Hn; reflexivity).
  rewrite <- Hs, nth_error_map in H.
  destruct (nth_error (nodes w') i) as [n'|]; [|discriminate].
  exists n'. split; [reflexivity|]. cbn [option_map] in H. congruence.
Qed.

Lemma stateless_fields n n' :
  stateless n' = stateless n ->
  values n' = values n /\ childMap n' = childMap n /\
  listeners n' = listeners n /\ anyListeners n' = anyListeners n /\
  parent n' = parent n.
Proof. unfold stateless, with_state. intros H. injection H. intuition. Qed.

Lemma child_at_stateless w w' f k c :
  map stateless (nodes w') = map stateless (nodes w) ->
  child_at w f k c -> child_at w' f k c.
Proof.
  intros Hs (n & ks & Hn & Hks & Hk & Hc).
  destruct (stateless_at w w' f n Hs Hn) as (n' & Hn' & E).
  apply stateless_fields in E as (Ev & Ec & _).
  exists n', ks. rewrite Ev, Ec. auto.
Qed.

Lemma reach_stateless w w' a b :
  map stateless (nodes w') = map stateless (nodes w) ->
  reach w a b -> reach w' a b.
Proof.
  intros Hs H. induction H.
  - eapply reach_child, child_at_stateless; eauto.
  - eapply reach_more; [eapply child_at_stateless; eauto | assumption].
Qed.

Lemma state_rel_refl s w : state_rel s w w.
Proof. split; [reflexivity|]. split; [apply extends_refl|]. eauto. Qed.

Lemma state_rel_trans s w1 w2 w3 :
  state_rel s w1 w2 -> state_rel s w2 w3 -> state_rel s w1 w3.
Proof.
  intros (S1 & E1 & H1) (S2 & E2 & H2). split; [congruence|].
  split; [eapply extends_trans; eauto|].
  intros i n3 Hn3. destruct (H2 i n3 Hn3) as [H|(n2 & Hn2 & E)]; auto.
  destruct (H1 i n2 Hn2) as [H|(n1 & Hn1 & E')].
  - left. now rewrite E.
  - right. exists n1. split; congruence.
Qed.

Lemma state_is_rel s w w' i :
  state_rel s w w' -> state_is s w i -> state_is s w' i.
Proof.
  intros (_ & _ & H) Hi n' Hn'.
  destruct (H i n' Hn') as [H'|(n & Hn & E)]; auto.
  rewrite E. auto.
Qed.

Lemma state_rel_env s w w' :
  nodes w' = nodes w -> extends w w' -> state_rel s w w'.
Proof.
  intros Hn He. split; [now rewrite Hn|]. split; [exact He|].
  intros i n' H. right. exists n'. rewrite <- Hn. auto.
Qed.

Lemma map_stateless_update f s l :
  map stateless (list_update f (with_state s) l) = map stateless l.
Proof.
  revert f. induction l as [|x t IH]; intros [|f]; cbn; auto.
  - now rewrite IH.
Qed.

Lemma state_rel_update s s' f w :
  same_props s' s ->
  state_rel s w (set_nodes (list_update f (with_state s') (nodes w)) w).
Proof.
  intros Hs. split; [apply map_stateless_update|].
  split; [exists []; cbn; now rewrite app_nil_r|].
  intros i n'. cbn [nodes set_nodes]. rewrite nth_error_list_update.
  destruct (Nat.eqb f i) eqn:E.
  - destruct (nth_error (nodes w) i); [|discriminate].
    cbn. intros H. injection H as <-. left. exact Hs.
  - intros H. right. eauto.
Qed.

Lemma stateless_with_state s n : stateless (with_state s n) = stateless n.
Proof. reflexivity. Qed.

Lemma ids_of_stateless a b k : stateless a = stateless b -> ids_of a k = ids_of b k.
Proof.
  intros H. apply stateless_fields in H as (_ & _ & H & _).
  unfold ids_of. now rewrite H.
Qed.

Lemma any_events_stateless f b n n' :
  stateless n' = stateless n -> any_events f b n' = any_events f b n.
Proof.
  intros H. apply stateless_fields in H as (_ & _ & _ & H & _).
  unfold any_events. now rewrite H.
Qed.

Lemma stateless_same w w' i n n' :
  map stateless (nodes w') = map stateless (nodes w) ->
  nth_error (nodes w) i = Some n -> nth_error (nodes w') i = Some n' ->
  stateless n' = stateless n.
Proof.
  intros Hs Hn Hn'. destruct (stateless_at w w' i n Hs Hn) as (n2 & H2 & E).
  congruence.
Qed.

(** The child a later round of the loop finds under [k] is the child the
    tree had there at the start. *)
Lemma child_at_found w wk f k c mek :
  map stateless (nodes wk) = map stateless (nodes w) ->
  nth_error (nodes wk) f = Some mek ->
  child_at w f k c -> assoc_get k (childMap mek) = Some c.
Proof.
  intros Hs Hmek (n & ks & Hn & _ & _ & Hc).
  pose proof (stateless_same w wk f n mek Hs Hn Hmek) as E.
  apply stateless_fields in E as (_ & E & _). now rewrite E.
Qed.

Definition covered (s : value) (w wk : world) (c : nat) : Prop :=
  state_is s wk c /\ forall d, reach w c d -> state_is s wk d.

Lemma covered_rel s w wk wk' c :
  state_rel s wk wk' -> covered s w wk c -> covered s w wk' c.
Proof.
  intros R [A B]. split; [|intros d Hd]; eapply state_is_rel; eauto.
Qed.

Lemma state_is_env s w w' i : nodes w' = nodes w -> state_is s w i -> state_is s w' i.
Proof. unfold state_is. intros ->. auto. Qed.

(** The second loop of [setState]: the field observers of every key. *)
Lemma fire_all f ks me : forall w,
  nth_error (nodes w) f = Some me ->
  wp True (for_each ks (fun e => fireListeners f e false))
    (fun _ w' => nodes w' = nodes w /\
       exists t, trace w' = (trace w ++ t)%list /\
         forall k id, In k ks -> In id (ids_of me k) ->
                      In (FieldListener f k id false) t) w.
Proof.
  induction ks as [|x ks IH]; intros w Hme; cbn [for_each].
  - apply wp_ret. split; [reflexivity|]. exists []. rewrite app_nil_r.
    split; [reflexivity|]. intros k id [].
  - apply wp_bind, wp_fireListeners. intros n Hn.
    assert (n = me) by congruence. subst n.
    eapply wp_mono; [apply IH; exact Hme|].
    cbv beta. intros _ w' (Hn' & t & Ht & Hin). split; [exact Hn'|].
    exists (field_events f x false me ++ t)%list. split.
    + rewrite Ht. cbn. now rewrite app_assoc.
    + intros k id [<-|Hk] Hid; apply in_or_app.
      * left. unfold field_events.
        apply (in_map (fun i => FieldListener f x i false)). exact Hid.
      * right. auto.
Qed.

Section StateStep.
Variable s : value.
Variable run : call -> M unit.
Hypothesis Hrun : forall c w, state_target s c w ->
  wp True (run c) (fun _ w' => state_post s c w w') w.

Lemma updateParentState_step f w :
  state_is s w f ->
  wp True (updateParentState_body run f)
    (fun _ w' => state_post s (UpdateParentState f) w w') w.
Proof.
  intros Hf. unfold updateParentState_body.
  apply wp_bind, wp_the_node. intros me Hme.
  destruct (parent me) as [[p name]|] eqn:Hp.
  - apply wp_bind, wp_copy. intros c Hc.
    set (w1 := mkWorld _ _ _ _).
    assert (R1 : state_rel s w w1).
    { apply state_rel_env; [reflexivity|]. exists []. cbn. now rewrite app_nil_r. }
    eapply wp_mono.
    + apply Hrun. cbn. intros k. rewrite (get_memberCopy _ _ _ k Hc).
      apply Hf; auto.
    + cbv beta. intros _ w' (Hrel & Hp' & _). split.
      * exact (state_rel_trans s w w1 w' R1 Hrel).
      * intros n p0 name0 Hn Hpar. assert (n = me) by congruence. subst n.
        rewrite Hp in Hpar. injection Hpar as <- <-. exact Hp'.
  - apply wp_ret. split; [apply state_rel_refl|].
    intros n p name Hn Hpar. congruence.
Qed.

(** The round of the first loop of [setState] for the key [x]. *)
Lemma setState_child_round f s' nc np w wk d x :
  same_props s' s -> nc = true ->
  map stateless (nodes wk) = map stateless (nodes w) ->
  (forall k c, In k d -> child_at w f k c -> covered s w wk c) ->
  wp True
    (me <- the_node f ;;
     match assoc_get x (childMap me) with
     | Some child => run (SetState child s' nc np)
     | None => ret tt
     end)
    (fun _ wk' => state_rel s wk wk' /\
       forall k c, In k (d ++ [x])%list -> child_at w f k c ->
                   covered s w wk' c) wk.
Proof.
  intros Hs Hnc Sk Ck.
  apply wp_bind, wp_the_node. intros mek Hmek.
  destruct (assoc_get x (childMap mek)) as [child|] eqn:Hch.
  - eapply wp_mono; [apply Hrun; exact Hs|].
    cbv beta. intros _ wk' (Rk' & Hc1 & Hc2 & _).
    split; [exact Rk'|].
    intros k c Hin Hcat. apply in_app_or in Hin as [Hin|[<-|[]]].
    + exact (covered_rel s w wk wk' c Rk' (Ck k c Hin Hcat)).
    + pose proof (child_at_found w wk f x c mek Sk Hmek Hcat) as E.
      assert (c = child) by congruence. subst c.
      split; [exact Hc1|]. intros d0 Hd. apply Hc2; [exact Hnc|].
      eapply reach_stateless; [|exact Hd]. exact Sk.
  - apply wp_ret. split; [apply state_rel_refl|].
    intros k c Hin Hcat. apply in_app_or in Hin as [Hin|[<-|[]]].
    + exact (Ck k c Hin Hcat).
    + pose proof (child_at_found w wk f x c mek Sk Hmek Hcat) as E. congruence.
Qed.

Lemma setState_step f s' nc np w :
  same_props s' s ->
  wp True (setState_body run f s' nc np)
    (fun _ w' => state_post s (SetState f s' nc np) w w') w.
Proof.
  intros Hs. unfold setState_body.
  apply wp_bind, wp_emit. apply wp_bind, wp_update_node.
  set (w1 := set_nodes _ _).
  assert (T1 : trace w1 = (trace w ++ [Enter f MSetState])%list) by reflexivity.
  assert (R01 : state_rel s w w1).
  { apply (state_rel_trans s w (add_event (Enter f MSetState) w)).
    - apply state_rel_env; [reflexivity | exists [Enter f MSetState]; reflexivity].
    - apply state_rel_update; exact Hs. }
  apply wp_bind, wp_the_node. intros me1 Hme1.
  assert (exists n, nth_error (nodes w) f = Some n /\ me1 = with_state s' n)
    as (n & Hn & ->).
  { subst w1. cbn [nodes set_nodes add_event] in Hme1.
    rewrite nth_error_list_update, Nat.eqb_refl in Hme1.
    destruct (nth_error (nodes w) f) as [n|]; [|discriminate].
    exists n. cbn in Hme1. split; congruence. }
  assert (F1 : state_is s w1 f).
  { intros n1 Hn1. assert (n1 = with_state s' n) by congruence. subst. exact Hs. }
  apply wp_bind, wp_keys_of. intros ks Hks. cbn [values with_state] in Hks.
  apply wp_bind.
  apply (wp_mono True _
           (fun _ w2 => state_rel s w1 w2 /\
              (nc = true -> forall k c, In k ks -> child_at w f k c ->
                            covered s w w2 c))).
  { apply wp_when; intros Hnc.
    - pose (Inv := fun (done : list string) wk =>
                     state_rel s w1 wk /\
                     forall k c, In k done -> child_at w f k c ->
                                 covered s w wk c).
      eapply wp_mono.
      + apply (wp_for_each_indexed True ks _ Inv [] w1).
        * split; [apply state_rel_refl|]. intros k c [].
        * intros d x wk _ [Rk Ck]. eapply wp_mono.
          -- apply (setState_child_round f s' nc np w wk d x Hs Hnc); [|exact Ck].
             destruct R01 as [S01 _], Rk as [Sk _]. congruence.
          -- cbv beta. intros _ wk' [Rk' Ck'].
             split; [exact (state_rel_trans s w1 wk wk' Rk Rk')|exact Ck'].
      + cbv beta. intros _ w2 [R C]. split; [exact R|]. intros _. exact C.
    - split; [apply state_rel_refl|]. congruence. }
  cbv beta. intros _ w2 [R12 C2].
  assert (S02 : map stateless (nodes w2) = map stateless (nodes w)).
  { destruct R01 as [S01 _], R12 as [S12 _]. congruence. }
  destruct (stateless_at w w2 f n S02 Hn) as (n2 & Hn2 & E2).
  apply wp_bind.
  eapply wp_mono; [apply (fire_all f ks n2 w2 Hn2)|].
  cbv beta. intros _ w3 (N3 & t23 & T3 & In3).
  assert (R23 : state_rel s w2 w3).
  { apply state_rel_env; [exact N3 | exists t23; exact T3]. }
  apply wp_bind.
  apply (wp_mono True _
           (fun _ w4 => state_rel s w3 w4 /\
              (np = true -> forall p name, parent n = Some (p, name) ->
                            state_is s w4 p))).
  { apply wp_when; intros Hnp.
    - eapply wp_mono.
      + apply Hrun. cbn [state_target].
        apply (state_is_rel s w2 w3 f R23), (state_is_rel s w1 w2 f R12), F1.
      + cbv beta. intros _ w4 [R H]. split; [exact R|].
        intros _ p name Hp. apply (H n2 p name); [now rewrite N3|].
        apply stateless_fields in E2 as (_ & _ & _ & _ & E2). congruence.
    - split; [apply state_rel_refl|congruence]. }
  cbv beta. intros _ w4 [R34 P4].
  apply wp_fireAnyListeners. intros n4 Hn4.
  set (w' := add_events _ w4).
  assert (R4 : state_rel s w4 w').
  { apply state_rel_env; [reflexivity|]. eexists. reflexivity. }
  assert (R2 : state_rel s w2 w').
  { exact (state_rel_trans s w2 w3 w' R23 (state_rel_trans s w3 w4 w' R34 R4)). }
  assert (R1 : state_rel s w1 w') by exact (state_rel_trans s w1 w2 w' R12 R2).
  split; [exact (state_rel_trans s w w1 w' R01 R1)|].
  split; [exact (state_is_rel s w1 w' f R1 F1)|].
  split; [|split].
  - intros Hnc d Hd.
    assert (Hfirst : forall k c, child_at w f k c -> covered s w w2 c).
    { intros k c Hc. apply (C2 Hnc k c); [|exact Hc].
      destruct Hc as (n0 & ks0 & Hn0 & Hks0 & Hk & _).
      assert (n0 = n) by congruence. subst n0. congruence. }
    inversion Hd as [f0 k c Hc|f0 k c d0 Hc Hr]; subst.
    + destruct (Hfirst k d Hc) as [A _]. exact (state_is_rel s w2 w' d R2 A).
    + destruct (Hfirst k c Hc) as [_ B]. exact (state_is_rel s w2 w' d R2 (B d Hr)).
  - intros Hnp n0 p name Hn0 Hp. assert (n0 = n) by congruence. subst n0.
    exact (state_is_rel s w4 w' p R4 (P4 Hnp p name Hp)).
  - intros n0 Hn0. assert (n0 = n) by congruence. subst n0.
    destruct R12 as (_ & [t12 T2] & _). destruct R34 as (S34 & [t34 T4] & _).
    exists (t12 ++ t23 ++ t34)%list. split.
    + assert (E4 : any_events f false n4 = any_events f false n).
      { apply any_events_stateless.
        apply (stateless_same w w4 f n n4); [|exact Hn|exact Hn4].
        rewrite S34, N3. exact S02. }
      subst w'. cbn [trace add_events]. rewrite E4, T4, T3, T2, T1.
      repeat rewrite <- app_assoc. reflexivity.
    + intros ks0 k id Hks0 Hk Hid. assert (ks0 = ks) by congruence. subst ks0.
      apply in_or_app. right. apply in_or_app. left.
      apply In3; [exact Hk|]. now rewrite (ids_of_stateless n2 n k E2).
Qed.

Lemma state_step c w :
  state_target s c w ->
  wp True (body run c) (fun _ w' => state_post s c w w') w.
Proof.
  destruct c; cbn [state_target]; try contradiction; intros Ht; cbn [body].
  - apply wp_void. now apply setState_step.
  - apply wp_void. now apply updateParentState_step.
Qed.
End StateStep.

Lemma state_exec s fuel : forall c w,
  state_target s c w ->
  wp True (exec fuel c) (fun _ w' => state_post s c w w') w.
Proof.
  induction fuel as [|fuel IH]; intros c w Ht; [exact I|].
  cbn [exec]. apply (state_step s (nested (exec fuel))); auto.
  intros c' w' Ht'. unfold nested. apply wp_bind.
  eapply wp_mono; [apply IH; exact Ht'|]. intros r w2 H2. apply wp_ret, H2.
Qed.

(** *** What [setState] leaves alone *)

(** A child map entry leads to a node whose [parent] and [name] lead
    back. *)
Definition child_links (w : world) : Prop :=
  forall f n k c,
    nth_error (nodes w) f = Some n -> assoc_get k (childMap n) = Some c ->
    exists cn, nth_error (nodes w) c = Some cn /\ parent cn = Some (f, k).

(** [values] of node [i] has the key [k]. *)
Definition has_key (w : world) (i : nat) (k : string) : Prop :=
  exists n ks, nth_error (nodes w) i = Some n /\
               object_keys (values n) = Some ks /\ In k ks.

(** [a] is an ancestor of [i]. *)
Inductive above (w : world) : nat -> nat -> Prop :=
| above_parent i n p name :
    nth_error (nodes w) i = Some n -> parent n = Some (p, name) -> above w i p
| above_more i n p name a :
    nth_error (nodes w) i = Some n -> parent n = Some (p, name) ->
    above w p a -> above w i a.

(** The nodes a state call visits: the node, with [notifyChild] the nodes
    reached through keys their parent's [values] has, with [notifyParent]
    the ancestors. *)
Definition state_region (w : world) (c : call) (i : nat) : Prop :=
  match c with
  | SetState f _ nc np =>
      i = f \/ (nc = true /\ reach w f i) \/ (np = true /\ above w f i)
  | UpdateParentState f => above w f i
  | _ => False
  end.

(** The events of a state call: observers of the nodes it visits, field
    observers only of keys that [values] has, and no method entered but
    [setState]. *)
Definition state_event (w : world) (c : call) (e : event) : Prop :=
  state_region w c (ev_node e) /\
  match e with
  | FieldListener i k _ _ => has_key w i k
  | AnyListener _ _ _ => True
  | Enter _ m => m = MSetState
  end.

Definition bounded (c : call) (w w' : world) : Prop :=
  map stateless (nodes w') = map stateless (nodes w) /\
  (forall i, ~ state_region w c i ->
             nth_error (nodes w') i = nth_error (nodes w) i) /\
  exists t, trace w' = (trace w ++ t)%list /\ Forall (state_event w c) t.

Lemma has_key_stateless w w' i k :
  map stateless (nodes w') = map stateless (nodes w) ->
  has_key w' i k -> has_key w i k.
Proof.
  intros Hs (n' & ks & Hn' & Hks & Hk).
  destruct (stateless_at w' w i n' (eq_sym Hs) Hn') as (n & Hn & E).
  apply stateless_fields in E as (Ev & _).
  exists n, ks. rewrite Ev. auto.
Qed.

Lemma above_stateless w w' a b :
  map stateless (nodes w') = map stateless (nodes w) ->
  above w' a b -> above w a b.
Proof.
  intros Hs H. induction H as [i n' p name Hn' Hp|i n' p name a Hn' Hp _ IH];
    destruct (stateless_at w' w i n' (eq_sym Hs) Hn') as (n & Hn & E);
    apply stateless_fields in E as (_ & _ & _ & _ & Ep);
    rewrite <- Ep in Hp.
  - eapply above_parent; eauto.
  - eapply above_more; eauto.
Qed.

Lemma child_links_stateless w w' :
  map stateless (nodes w') = map stateless (nodes w) ->
  child_links w -> child_links w'.
Proof.
  intros Hs H f n' k c Hn' Hc.
  destruct (stateless_at w' w f n' (eq_sym Hs) Hn') as (n & Hn & E).
  apply stateless_fields in E as (_ & Ec & _).
  rewrite <- Ec in Hc. destruct (H f n k c Hn Hc) as (cn & Hcn & Hp).
  destruct (stateless_at w w' c cn Hs Hcn) as (cn' & Hcn' & E').
  apply stateless_fields in E' as (_ & _ & _ & _ & Ep).
  exists cn'. split; [exact Hcn' | congruence].
Qed.

Lemma reach_trans w a b c : reach w a b -> reach w b c -> reach w a c.
Proof.
  intros H1 H2. induction H1.
  - eapply reach_more; eauto.
  - eapply reach_more; eauto.
Qed.

Lemma above_trans w a b c : above w a b -> above w b c -> above w a c.
Proof.
  intros H1 H2. induction H1.
  - eapply above_more; eauto.
  - eapply above_more; eauto.
Qed.

(** The ancestors of a child are its parent and the parent's. *)
Lemma above_child w f k c i :
  child_links w -> child_at w f k c -> above w c i -> i = f \/ above w f i.
Proof.
  intros Hl (n & ks & Hn & _ & _ & Hc) H.
  destruct (Hl f n k c Hn Hc) as (cn & Hcn & Hp).
  inversion H as [? n1 p name Hn1 Hp1|? n1 p name a Hn1 Hp1 Hab]; subst.
  - left. congruence.
  - right. assert (p = f) by congruence. subst p. exact Hab.
Qed.

Lemma bounded_refl c w : bounded c w w.
Proof.
  split; [reflexivity|]. split; [reflexivity|].
  exists []. split; [now rewrite app_nil_r | constructor].
Qed.

(** A nested call that stays in the region keeps the bounds. *)
Lemma bounded_into c0 w0 w c w' :
  (forall i, state_region w c i -> state_region w0 c0 i) ->
  bounded c0 w0 w -> bounded c w w' -> bounded c0 w0 w'.
Proof.
  intros Hsub (S1 & U1 & t1 & T1 & F1) (S2 & U2 & t2 & T2 & F2).
  split; [congruence|]. split.
  - intros i Hi. rewrite U2, U1; auto.
  - exists (t1 ++ t2)%list. split; [now rewrite T2, T1, app_assoc|].
    apply Forall_app. split; [exact F1|].
    eapply Forall_impl; [|exact F2].
    intros e [Hr He]. split; [now apply Hsub|].
    destruct e as [i k id b|i id b|i m]; auto.
    now apply (has_key_stateless w0 w).
Qed.

Lemma bounded_event c0 w0 w e :
  state_event w0 c0 e -> bounded c0 w0 w -> bounded c0 w0 (add_event e w).
Proof.
  intros He (S1 & U1 & t1 & T1 & F1). split; [exact S1|].
  split; [exact U1|]. exists (t1 ++ [e])%list. split.
  - cbn. now rewrite T1, app_assoc.
  - apply Forall_app. auto.
Qed.

Lemma bounded_events c0 w0 w t :
  Forall (state_event w0 c0) t -> bounded c0 w0 w ->
  bounded c0 w0 (add_events t w).
Proof.
  intros He (S1 & U1 & t1 & T1 & F1). split; [exact S1|].
  split; [exact U1|]. exists (t1 ++ t)%list. split.
  - cbn. now rewrite T1, app_assoc.
  - apply Forall_app. auto.
Qed.

Lemma bounded_env c0 w0 w w' :
  nodes w' = nodes w -> trace w' = trace w ->
  bounded c0 w0 w -> bounded c0 w0 w'.
Proof. intros Hn Ht H. unfold bounded. now rewrite Hn, Ht. Qed.

Lemma bounded_with_state c0 w0 w f s :
  state_region w0 c0 f -> bounded c0 w0 w ->
  bounded c0 w0 (set_nodes (list_update f (with_state s) (nodes w)) w).
Proof.
  intros Hf (S1 & U1 & T1). split; [|split; [|exact T1]].
  - cbn [nodes set_nodes]. now rewrite map_stateless_update.
  - intros i Hi. cbn [nodes set_nodes]. rewrite nth_error_list_update.
    destruct (Nat.eqb_spec f i) as [->|_]; [contradiction|]. now apply U1.
Qed.

(** The trace of [setState]: the round below, the observers of the keys
    of [values] in order, the round above, and the "any" observers. *)
Definition state_trace (c : call) (w w' : world) : Prop :=
  match c with
  | SetState f _ nc np =>
      forall n ks, nth_error (nodes w) f = Some n ->
        object_keys (values n) = Some ks ->
        exists below up,
          trace w' = (trace w ++ Enter f MSetState :: below
                      ++ flat_map (fun k => field_events f k false n) ks
                      ++ up ++ any_events f false n)%list /\
          (nc = false -> below = []) /\
          ((forall k, In k ks -> assoc_get k (childMap n) = None) ->
           below = []) /\
          (np = false -> up = []) /\
          Forall (fun e => above w f (ev_node e)) up
  | _ => True
  end.

Definition state_call_of (c : call) : bool :=
  match c with
  | SetState _ _ _ _ | UpdateParentState _ => true
  | _ => false
  end.

Lemma field_events_stateless f k b n n' :
  stateless n' = stateless n -> field_events f k b n' = field_events f k b n.
Proof.
  intros H. unfold field_events. now rewrite (ids_of_stateless n' n k H).
Qed.

Lemma wp_fire_keys oof f n ks (Q : unit -> world -> Prop) : forall w,
  nth_error (nodes w) f = Some n ->
  Q tt (add_events (flat_map (fun k => field_events f k false n) ks) w) ->
  wp oof (for_each ks (fun e => fireListeners f e false)) Q w.
Proof.
  induction ks as [|x ks IH]; intros w Hn H; cbn [for_each].
  - apply wp_ret. cbn in H. now rewrite add_events_nil in H.
  - apply wp_bind, wp_fireListeners. intros n' Hn'.
    assert (n' = n) by congruence. subst n'.
    apply IH; [exact Hn|].
    cbn [flat_map] in H. unfold add_events in *. cbn in *.
    now rewrite <- app_assoc.
Qed.

Lemma nodes_env_stateless w w' :
  nodes w' = nodes w -> map stateless (nodes w') = map stateless (nodes w).
Proof. now intros ->. Qed.

Section StateBounds.
Variable run : call -> M unit.
Hypothesis Hrun : forall c w, child_links w -> state_call_of c = true ->
  wp True (run c) (fun _ w' => bounded c w w' /\ state_trace c w w') w.

Lemma updateParentState_bounded f w :
  child_links w ->
  wp True (updateParentState_body run f)
    (fun _ w' => bounded (UpdateParentState f) w w') w.
Proof.
  intros Hl. unfold updateParentState_body.
  apply wp_bind, wp_the_node. intros n Hn.
  destruct (parent n) as [[p name]|] eqn:Hp; [|apply wp_ret, bounded_refl].
  apply wp_bind, wp_copy. intros c Hc.
  set (w1 := mkWorld _ _ _ _).
  assert (S1 : map stateless (nodes w1) = map stateless (nodes w)) by reflexivity.
  eapply wp_mono.
  { apply (Hrun (SetState p c false true) w1); [|reflexivity].
    exact (child_links_stateless w w1 S1 Hl). }
  cbv beta. intros [] w' [B _].
  apply (bounded_into _ w w1 (SetState p c false true) w'); [| |exact B].
  - intros i [->|[[E _]|[_ H]]]; [| discriminate E |].
    + eapply above_parent; eauto.
    + eapply above_more; eauto. exact (above_stateless w w1 p i S1 H).
  - apply (bounded_env _ w w w1); [reflexivity | reflexivity | apply bounded_refl].
Qed.

Lemma field_round_bounded c0 w f n ks :
  state_region w c0 f ->
  nth_error (nodes w) f = Some n -> object_keys (values n) = Some ks ->
  forall n', Forall (state_event w c0)
               (flat_map (fun k => field_events f k false n') ks).
Proof.
  intros Hf Hn Hks n'. apply Forall_flat_map. apply Forall_forall.
  intros k Hk. apply Forall_forall. intros e He.
  unfold field_events in He. apply in_map_iff in He as (id & <- & _).
  split; [exact Hf|]. exists n, ks. auto.
Qed.

Lemma any_round_bounded c0 w f n' :
  state_region w c0 f -> Forall (state_event w c0) (any_events f false n').
Proof.
  intros Hf. apply Forall_forall. intros e He.
  unfold any_events in He. apply in_map_iff in He as (id & <- & _).
  split; [exact Hf | exact I].
Qed.

Lemma setState_bounded f s nc np w :
  child_links w ->
  wp True (setState_body run f s nc np)
    (fun _ w' => bounded (SetState f s nc np) w w'
                 /\ state_trace (SetState f s nc np) w w') w.
Proof.
  intros Hl. set (c0 := SetState f s nc np).
  assert (Hf : state_region w c0 f) by (left; reflexivity).
  unfold setState_body.
  apply wp_bind, wp_emit. apply wp_bind, wp_update_node.
  set (w2 := set_nodes _ _).
  assert (B2 : bounded c0 w w2).
  { apply bounded_with_state; [exact Hf|].
    apply bounded_event; [split; [exact Hf | reflexivity]|apply bounded_refl]. }
  assert (T2 : trace w2 = (trace w ++ [Enter f MSetState])%list) by reflexivity.
  apply wp_bind, wp_the_node. intros me Hme.
  assert (Hn0 : exists n0, nth_error (nodes w) f = Some n0
                           /\ stateless me = stateless n0).
  { destruct B2 as (S2 & _).
    destruct (stateless_at w2 w f me (eq_sym S2) Hme) as (n0 & Hn0 & E).
    exists n0. split; [exact Hn0 | now symmetry]. }
  destruct Hn0 as (n0 & Hn0 & E0).
  pose proof (stateless_fields _ _ E0) as (Ev0 & _).
  apply wp_bind, wp_keys_of. intros ks Hks. rewrite Ev0 in Hks.
  set (Inv1 := fun wk : world =>
         bounded c0 w wk /\
         exists below, trace wk = (trace w ++ Enter f MSetState :: below)%list
                       /\ (nc = false -> below = [])
                       /\ ((forall k, In k ks ->
                              assoc_get k (childMap n0) = None) ->
                           below = [])).
  assert (I2 : Inv1 w2).
  { split; [exact B2|]. exists []. split; [exact T2 | split; reflexivity]. }
  apply wp_bind. apply (wp_mono True _ (fun _ wk => Inv1 wk)).
  { destruct nc eqn:Hnc; cbn [when]; [|apply wp_ret; exact I2].
    apply (wp_for_each True ks _ Inv1); [exact I2|].
    intros x wk Hx [B (below & Tk & _ & Hnone)].
    apply wp_bind, wp_the_node. intros mk Hmk.
    destruct (assoc_get x (childMap mk)) as [child|] eqn:Hch.
    2:{ apply wp_ret. split; [exact B|]. exists below.
        split; [exact Tk | split; [discriminate | exact Hnone]]. }
    pose proof B as (Sk & _).
    pose proof (stateless_same w wk f n0 mk Sk Hn0 Hmk) as Ek.
    apply stateless_fields in Ek as (_ & Ekc & _).
    assert (Hca_some : assoc_get x (childMap n0) = Some child)
      by now rewrite <- Ekc.
    assert (Hca : child_at w f x child).
    { exists n0, ks. auto. }
    eapply wp_mono.
    { apply (Hrun (SetState child s true np) wk); [|reflexivity].
      exact (child_links_stateless w wk Sk Hl). }
    cbv beta. intros [] wk' [Bk _]. split.
    - apply (bounded_into c0 w wk (SetState child s true np) wk');
        [|exact B|exact Bk].
      intros i [->|[[_ H]|[Hnp H]]].
      + right. left. split; [reflexivity|]. eapply reach_child; eauto.
      + right. left. split; [reflexivity|].
        eapply reach_more; [exact Hca|].
        exact (reach_stateless wk w child i (eq_sym Sk) H).
      + destruct (above_child w f x child i Hl Hca
                    (above_stateless w wk child i Sk H)) as [->|Ha].
        * left. reflexivity.
        * right. right. auto.
    - destruct Bk as (_ & _ & t & Tt & _). exists (below ++ t)%list.
      split; [rewrite Tt, Tk; now rewrite <- app_assoc|].
      split; [discriminate|]. intros Hno.
      rewrite (Hno x Hx) in Hca_some. discriminate Hca_some. }
  cbv beta. intros [] w3 [B3 (below & T3 & Hb & Hb')].
  pose proof B3 as (S3 & _).
  destruct (stateless_at w w3 f n0 S3 Hn0) as (n3 & Hn3 & E3).
  apply wp_bind. apply (wp_fire_keys True f n3 ks); [exact Hn3|].
  set (own := flat_map (fun k => field_events f k false n3) ks).
  set (w4 := add_events own w3).
  assert (B4 : bounded c0 w w4).
  { apply bounded_events; [|exact B3].
    apply (field_round_bounded c0 w f n0 ks); auto. }
  apply wp_bind.
  apply (wp_mono True _
           (fun _ w5 => bounded c0 w w5 /\
              exists up, trace w5 = (trace w4 ++ up)%list /\
                         (np = false -> up = []) /\
                         Forall (fun e => above w f (ev_node e)) up)).
  { destruct np eqn:Hnp; cbn [when].
    - eapply wp_mono.
      { apply (Hrun (UpdateParentState f) w4); [|reflexivity].
        exact (child_links_stateless w w4 (proj1 B4) Hl). }
      cbv beta. intros [] w5 [B5 _]. split.
      + apply (bounded_into c0 w w4 (UpdateParentState f) w5);
          [|exact B4|exact B5].
        intros i H. right. right. split; [reflexivity|].
        exact (above_stateless w w4 f i (proj1 B4) H).
      + destruct B5 as (_ & _ & up & T5 & F5). exists up.
        split; [exact T5|]. split; [discriminate|].
        eapply Forall_impl; [|exact F5]. intros e [H _].
        exact (above_stateless w w4 f _ (proj1 B4) H).
    - apply wp_ret. split; [exact B4|]. exists [].
      split; [now rewrite app_nil_r|]. split; [reflexivity | constructor]. }
  cbv beta. intros [] w5 [B5 (up & T5 & Hu & Fu)].
  apply wp_fireAnyListeners. intros n5 Hn5.
  pose proof (stateless_same w w5 f n0 n5 (proj1 B5) Hn0 Hn5) as E5.
  split.
  - apply bounded_events; [|exact B5]. now apply any_round_bounded.
  - cbn [state_trace c0]. intros n ks' Hn Hks'.
    assert (n = n0) by congruence. subst n.
    assert (ks' = ks) by congruence. subst ks'.
    exists below, up.
    split; [|split; [exact Hb|split; [exact Hb'|split; [exact Hu | exact Fu]]]].
    cbn [trace add_events]. rewrite T5. unfold w4. cbn [trace add_events].
    rewrite T3. unfold own.
    rewrite (any_events_stateless f false n0 n5 E5).
    assert (Eo : flat_map (fun k => field_events f k false n3) ks
                 = flat_map (fun k => field_events f k false n0) ks).
    { apply flat_map_ext. intros k.
      apply field_events_stateless. exact E3. }
    rewrite Eo. rewrite <- !app_assoc. reflexivity.
Qed.

Lemma state_bounds_step c w :
  child_links w -> state_call_of c = true ->
  wp True (body run c)
    (fun _ w' => bounded c w w' /\ state_trace c w w') w.
Proof.
  intros Hl Hc. destruct c; try discriminate Hc; cbn [body]; apply wp_void.
  - now apply setState_bounded.
  - eapply wp_mono; [now apply updateParentState_bounded|].
    cbv beta. intros _ w' B. split; [exact B | exact I].
Qed.
End StateBounds.

Lemma exec_state_bounds fuel : forall c w,
  child_links w -> state_call_of c = true ->
  wp True (exec fuel c)
    (fun _ w' => bounded c w w' /\ state_trace c w w') w.
Proof.
  induction fuel as [|fuel IH]; intros c w Hl Hc; [exact I|].
  cbn [exec]. apply (state_bounds_step (nested (exec fuel))); auto.
  intros c' w' Hl' Hc'. unfold nested. apply wp_bind.
  eapply wp_mono; [apply IH; assumption|].
  intros r w2 H2. apply wp_ret, H2.
Qed.

(** A postcondition under an assumption. *)
Lemma wp_assuming {A} (P : Prop) (m : M A) (Q : A -> world -> Prop) w :
  (P -> wp True m Q w) -> wp True m (fun a w' => P -> Q a w') w.
Proof. unfold wp. destruct (m w) as [[a w']| |]; auto. Qed.

Definition detached_child_form : world := Eval vm_compute in
  after (root <- new_FormState (VObj 0 []) (VObj 1 [])
                   (VObj 2 [("isSubmitting", VBool false)]) None ;;
         _ <- listen root "address" ;;
         new_ChildFormState root "address") initial.

(** C8, as stated, fails: [setState] walks the keys of [values].  A root
    whose [values] is empty, with an observer and a child node under
    ["address"], notifies no field observer, and the child keeps its old
    state. *)
Lemma C8_counterexample :
  let op := setState 32 0 (VObj 4 [("isSubmitting", VBool true)]) in
  values (node_of detached_child_form 0) = VObj 100 [] /\
  assoc_get "address" (childMap (node_of detached_child_form 0)) = Some 1 /\
  ids_of (node_of detached_child_form 0) "address" = [0] /\
  result_of (op detached_child_form) = Some RVoid /\
  count (is_field_event 0 "address") (trace (after op detached_child_form)) = 0 /\
  get (state (node_of (after op detached_child_form) 0)) "isSubmitting"
  = VBool true /\
  get (state (node_of (after op detached_child_form) 1)) "isSubmitting"
  = VBool false.
Proof. vm_compute. repeat split. Qed.

(** C8, amended: in a form whose keys are ordinary, [setState] stores
    the state; with [notifyChild] it first hands the state to the child
    node of every key of [Object.keys(values)] that has one (a child node
    under a key that [values] does not have is skipped);
    it then calls the field observers of exactly the keys of
    [Object.keys(values)], in that order and each in the order of
    registration (observers of any other key are not called), then with
    [notifyParent] propagates upward, and calls the "any" observers last,
    all with [false].  With [notifyChild], every child node reachable
    through keys that the [values] of its parent has ends with a state that
    has the properties of the given one; with [notifyParent] so does the
    parent (it receives a copy).  In a tree whose child maps and parents
    agree, nothing else happens: every event is an observer call or an
    entry of [setState] at the node, at a node reachable from it (with
    [notifyChild]) or at an ancestor (with [notifyParent]), a field
    observer is called only at a key its node's [values] has, the round
    below is empty without [notifyChild] or when no key of [values] has a
    child node, the round above is empty without [notifyParent], and every
    node outside that region is left as it was. *)
Theorem C8_state_fan_out fuel f s nc np w :
  well_formed w = true ->
  ordinary_world w = true ->
  enough (List.length (nodes w)) <= fuel ->
  f < List.length (nodes w) ->
  wp False (exec fuel (SetState f s nc np))
    (fun _ w' =>
       same_props (state (node_of w' f)) s /\
       (nc = true -> forall d, reach w f d -> state_is s w' d) /\
       (np = true -> forall p name,
          parent (node_of w f) = Some (p, name) -> state_is s w' p) /\
       (exists t,
         trace w' = (trace w ++ Enter f MSetState :: t
                     ++ any_events f false (node_of w f))%list /\
         forall ks k id,
           object_keys (values (node_of w f)) = Some ks -> In k ks ->
           In id (ids_of (node_of w f) k) ->
           In (FieldListener f k id false) t) /\
       (child_links w ->
        (forall ks, object_keys (values (node_of w f)) = Some ks ->
           exists below up,
             trace w' = (trace w ++ Enter f MSetState :: below
                         ++ flat_map (fun k => field_events f k false
                                                 (node_of w f)) ks
                         ++ up ++ any_events f false (node_of w f))%list /\
             (nc = false -> below = []) /\
             ((forall k, In k ks ->
                 assoc_get k (childMap (node_of w f)) = None) ->
              below = []) /\
             (np = false -> up = []) /\
             Forall (fun e => above w f (ev_node e)) up) /\
        (exists t, trace w' = (trace w ++ t)%list /\
                   Forall (state_event w (SetState f s nc np)) t) /\
        (forall d, ~ state_region w (SetState f s nc np) d ->
                   nth_error (nodes w') d = nth_error (nodes w) d))) w.
Proof.
  intros Hwf _ Hfuel Hf.
  pose proof (node_at_of w f Hf) as Hn. unfold node_at in Hn.
  eapply wp_mono.
  { apply wp_conj;
      [apply wp_conj; [apply exec_sound; eauto using enough_rank|];
       apply (state_exec s fuel (SetState f s nc np) w); intros k; reflexivity|].
    apply (wp_assuming (child_links w)). intros Hl.
    apply (exec_state_bounds fuel (SetState f s nc np) w Hl eq_refl). }
  cbv beta. intros _ w' [[_ (R & Hself & Hdown & Hup & Hev)] Hb].
  split; [|split; [exact Hdown|split; [|split]]].
  - destruct R as (S & _).
    destruct (stateless_at w w' f _ S Hn) as (n' & Hn' & _).
    rewrite (node_of_at w' f n' Hn'). exact (Hself n' Hn').
  - intros Hnp p name Hp. exact (Hup Hnp _ p name Hn Hp).
  - exact (Hev _ Hn).
  - intros Hl. destruct (Hb Hl) as [(_ & U & T) Ht].
    split; [|split; [exact T | exact U]].
    intros ks Hks. exact (Ht _ ks Hn Hks).
Qed.

Definition submitting : value := VObj 9 [("isSubmitting", VBool true)].

Definition family_form : world := Eval vm_compute in
  after (root <- new_FormState
                   (VObj 0 [("address", VObj 1 [("geo", VObj 2 [("lat", VNum 1)])])])
                   (VObj 3 []) (VObj 4 [("isSubmitting", VBool false)]) None ;;
         _ <- listen root "address" ;;
         address <- new_ChildFormState root "address" ;;
         new_ChildFormState address "geo") initial.

(** The links of a given form, by cases on the node and the key. *)
Ltac links_by_cases :=
  let Hn := fresh in let Hc := fresh in
  intros ? ? ? ? Hn Hc;
  repeat match type of Hn with
  | nth_error _ ?f = _ => is_var f; destruct f; cbn in Hn
  end;
  try discriminate Hn; injection Hn as <-; cbn in Hc;
  repeat match type of Hc with
  | context [String.eqb ?k ?s] =>
      destruct (String.eqb_spec k s) as [->|_]
  end;
  try discriminate Hc; injection Hc as <-;
  eexists; split; reflexivity.

Lemma detached_child_form_links : child_links detached_child_form.
Proof. links_by_cases. Qed.

Lemma C8_witness :
  result_of (setState 64 0 submitting family_form) = Some RVoid /\
  wp False (exec 64 (SetState 0 submitting true true))
    (fun _ w' =>
       same_props (state (node_of w' 0)) submitting /\
       state_is submitting w' 1 /\ state_is submitting w' 2 /\
       In (FieldListener 0 "address" 0 false) (trace w'))
    family_form /\
  result_of (setState 64 0 submitting detached_child_form) = Some RVoid /\
  wp False (exec 64 (SetState 0 submitting true true))
    (fun _ w' =>
       trace w' = (trace detached_child_form ++ [Enter 0 MSetState])%list /\
       nth_error (nodes w') 1 = nth_error (nodes detached_child_form) 1)
    detached_child_form.
Proof.
  split; [vm_compute; reflexivity|]. split.
  { eapply wp_mono.
    - apply (C8_state_fan_out 64 0 submitting true true family_form).
      + vm_compute. reflexivity.
      + vm_compute. reflexivity.
      + vm_compute. lia.
      + vm_compute. lia.
    - cbv beta. intros _ w' (H0 & Hdown & _ & (t & Ht & Hin) & _).
      assert (C01 : child_at family_form 0 "address" 1).
      { eexists _, _. repeat split; try reflexivity. cbn. auto. }
      assert (C12 : child_at family_form 1 "geo" 2).
      { eexists _, _. repeat split; try reflexivity. cbn. auto. }
      split; [exact H0|]. split; [|split].
      + apply (Hdown eq_refl). eapply reach_child. exact C01.
      + apply (Hdown eq_refl). eapply reach_more; [exact C01|].
        eapply reach_child. exact C12.
      + rewrite Ht. apply in_or_app. right. right. apply in_or_app. left.
        apply (Hin ["address"] "address" 0); cbn; auto. }
  split; [vm_compute; reflexivity|].
  eapply wp_mono.
  - apply (C8_state_fan_out 64 0 submitting true true detached_child_form).
    + vm_compute. reflexivity.
    + vm_compute. reflexivity.
    + vm_compute. lia.
    + vm_compute. lia.
  - cbv beta. intros _ w' (_ & _ & _ & _ & Hb).
    destruct (Hb detached_child_form_links) as (Ht & _ & Hu).
    destruct (Ht [] eq_refl) as (below & up & T & _ & Hb0 & _ & Fu).
    rewrite (Hb0 (fun k (H : In k []) => match H with end)) in T.
    assert (Hnone : forall d, ~ above detached_child_form 0 d /\
                              ~ reach detached_child_form 0 d).
    { intros d. split.
      - intros H. inversion H as [? n p name E Ep|? n p name a E Ep _];
          cbn in E; injection E as <-; discriminate Ep.
      - intros H. inversion H as [? k c (n & ks & E & Ek & Hin & _)
                                  |? k c d' (n & ks & E & Ek & Hin & _) _];
          cbn in E; injection E as <-; cbn in Ek; injection Ek as <-;
          destruct Hin. }
    split.
    + destruct up as [|e up].
      * exact T.
      * inversion Fu as [|? ? He _]. exfalso.
        exact (proj1 (Hnone _) He).
    + apply Hu. intros [E|[[_ H]|[_ H]]]; [discriminate E| |].
      * exact (proj2 (Hnone 1) H).
      * exact (proj1 (Hnone 1) H).
Defined.

(** ** Claim C7: a child node is a copy of its field *)

(** What the constructor of a child node accepts under the field key: an
    array, an object, or nothing. *)
Definition copyable (v : value) : Prop :=
  typeof_object v = true \/ v = VUndef.

Lemma memberCopy_or_empty v r r' :
  copyable v -> exists c, memberCopy r' (or_empty r v) = Ok c.
Proof.
  intros [H| ->]; [|cbn; eauto].
  destruct v; try discriminate; cbn; eauto.
Qed.

Lemma memberCopy_object v r :
  typeof_object v = true -> exists c, memberCopy r v = Ok c.
Proof. destruct v; try discriminate; cbn; eauto. Qed.

Lemma nodes_ok_iff l : forall i,
  nodes_ok i l = true <->
  forall j n, nth_error l j = Some n -> node_ok (i + j) n = true.
Proof.
  induction l as [|x t IH]; intros i; cbn [nodes_ok].
  - split; [intros _ [|j] n H; discriminate | reflexivity].
  - rewrite andb_true_iff, IH. split.
    + intros [H1 H2] [|j] n H; cbn in H.
      * injection H as <-. now rewrite Nat.add_0_r.
      * rewrite Nat.add_succ_r. apply (H2 j n H).
    + intros H. split.
      * specialize (H 0 x eq_refl). now rewrite Nat.add_0_r in H.
      * intros j n Hj. specialize (H (S j) n Hj).
        now rewrite Nat.add_succ_r in H.
Qed.

Lemma forallb_assoc_set {A} (P : string * A -> bool) k v l :
  (forall k1 k2 x, P (k1, x) = P (k2, x)) ->
  forallb P l = true -> P (k, v) = true ->
  forallb P (assoc_set k v l) = true.
Proof.
  intros Hk Hl Hv. induction l as [|[k' v'] t IH]; cbn in *.
  - now rewrite Hv.
  - apply andb_true_iff in Hl as [H1 H2].
    destruct (String.eqb k k'); cbn; rewrite ?Hv, ?H1; auto.
Qed.

(** The tree after a child node is attached to the node [p]. *)
Definition attach (p : nat) (name : string) (child : node) (l : list node)
  : list node :=
  list_update p
    (fun n => with_childMap (assoc_set name (List.length l) (childMap n)) n)
    (l ++ [child]).

Lemma attach_well_formed p name child l pn :
  nodes_ok 0 l = true -> nth_error l p = Some pn ->
  parent child = Some (p, name) -> childMap child = [] ->
  nodes_ok 0 (attach p name child l) = true.
Proof.
  intros Hl Hp Hpar Hcm. rewrite nodes_ok_iff in Hl |- *. cbn [Nat.add] in *.
  assert (Hlt : p < List.length l) by (apply nth_error_Some; congruence).
  intros j n. unfold attach. rewrite nth_error_list_update.
  destruct (Nat.eqb_spec p j) as [<-|Hne].
  - rewrite nth_error_app1, Hp by exact Hlt. cbn. intros H. injection H as <-.
    pose proof (Hl p pn Hp) as Hok. unfold node_ok in *.
    cbn [parent childMap with_childMap].
    apply andb_true_iff in Hok as [H1 H2]. rewrite H1. cbn [andb].
    apply forallb_assoc_set; auto. cbn [snd]. now apply Nat.ltb_lt.
  - destruct (Nat.lt_ge_cases j (List.length l)) as [Hj|Hj].
    + rewrite nth_error_app1 by exact Hj. apply Hl.
    + rewrite nth_error_app2 by exact Hj.
      destruct (j - List.length l) as [|[|d]] eqn:E; cbn; try discriminate.
      intros H. injection H as <-. unfold node_ok. rewrite Hpar, Hcm. cbn.
      rewrite andb_true_r. apply Nat.ltb_lt. lia.
Qed.

Lemma new_ChildFormState_eq w p name pn v d s :
  nth_error (nodes w) p = Some pn ->
  memberCopy (S (S (nextRef w)))
    (or_empty (nextRef w) (get (values pn) name)) = Ok v ->
  memberCopy (S (S (S (nextRef w))))
    (or_empty (S (nextRef w)) (get (defaultValues pn) name)) = Ok d ->
  memberCopy (S (S (S (S (nextRef w))))) (state pn) = Ok s ->
  new_ChildFormState p name w
  = Ok (List.length (nodes w),
        mkWorld (attach p name
                   (mkNode (S (formCounter w)) None true v d [] [] [] s [] [] 0
                           (Some (p, name)))
                   (nodes w))
                (S (formCounter w)) (S (S (S (S (S (nextRef w)))))) (trace w)).
Proof.
  intros Hp Hv Hd Hs.
  unfold new_ChildFormState, construct, copy, bind, the_node, fresh,
    next_formId, lift, push_node, update_node, ret, set_nodes.
  rewrite Hp. cbn. rewrite Hv. cbn. rewrite Hd. cbn. rewrite Hs. cbn.
  reflexivity.
Qed.

(** The node [c] of [w'] is the child that [new ChildFormState(p, name)]
    makes of the parent [pn]: registered under [name], holding member
    copies of the parent's entries (of [{}] where the parent has none) and
    of the parent's state. *)
Definition is_child_copy (w' : world) (p : nat) (name : string) (pn : node)
    (c : nat) : Prop :=
  assoc_get name (childMap (node_of w' p)) = Some c /\
  parent (node_of w' c) = Some (p, name) /\
  data (node_of w' p) = data pn /\
  (exists r r', memberCopy r' (or_empty r (get (values pn) name))
                = Ok (values (node_of w' c))) /\
  (exists r r', memberCopy r' (or_empty r (get (defaultValues pn) name))
                = Ok (defaultValues (node_of w' c))) /\
  (exists r, memberCopy r (state pn) = Ok (state (node_of w' c))).

Lemma node_of_attach_parent p name child l fc nr t pn :
  nth_error l p = Some pn ->
  node_of (mkWorld (attach p name child l) fc nr t) p
  = with_childMap (assoc_set name (List.length l) (childMap pn)) pn.
Proof.
  intros Hp. apply node_of_at. unfold node_at, attach. cbn [nodes].
  assert (Hlt : p < List.length l) by (apply nth_error_Some; congruence).
  rewrite nth_error_list_update, Nat.eqb_refl, nth_error_app1, Hp by exact Hlt.
  reflexivity.
Qed.

Lemma node_of_attach_child p name child l fc nr t :
  p < List.length l ->
  node_of (mkWorld (attach p name child l) fc nr t) (List.length l) = child.
Proof.
  intros Hlt. apply node_of_at. unfold node_at, attach. cbn [nodes].
  rewrite nth_error_list_update.
  destruct (Nat.eqb_spec p (List.length l)) as [E|_]; [lia|].
  rewrite nth_error_app2, Nat.sub_diag by lia. reflexivity.
Qed.

Definition seeded_form : world := Eval vm_compute in
  after (new_FormState
           (VObj 0 [("address", VObj 1 [("city", VStr "Paris")])])
           (VObj 2 []) (VObj 3 []) None) initial.




(** ** Calls that complete *)

(** [runs m Q w]: started in [w], the call [m] raises no error; when it
    ends, [Q] holds.  Running out of fuel is tolerated here, [exec_sound]
    excludes it. *)
Definition runs {A} (m : M A) (Q : A -> world -> Prop) (w : world) : Prop :=
  match m w with
  | Ok (a, w') => Q a w'
  | Throw _ => False
  | OutOfFuel => True
  end.

Lemma runs_ret {A} (a : A) (Q : A -> world -> Prop) w : Q a w -> runs (ret a) Q w.
Proof. exact (fun H => H). Qed.

Lemma runs_bind {A B} (m : M A) (k : A -> M B) Q w :
  runs m (fun a w' => runs (k a) Q w') w -> runs (bind m k) Q w.
Proof. unfold runs, bind. destruct (m w) as [[a w']| |]; auto. Qed.

Lemma runs_mono {A} (m : M A) (Q Q' : A -> world -> Prop) w :
  runs m Q w -> (forall a w', Q a w' -> Q' a w') -> runs m Q' w.
Proof. unfold runs. destruct (m w) as [[a w']| |]; auto. Qed.

Lemma runs_lift {A} (o : outcome A) (a : A) (Q : A -> world -> Prop) w :
  o = Ok a -> Q a w -> runs (lift o) Q w.
Proof. intros ->. exact (fun H => H). Qed.

Lemma runs_the_node f n (Q : node -> world -> Prop) w :
  nth_error (nodes w) f = Some n -> Q n w -> runs (the_node f) Q w.
Proof. intros Hn H. unfold runs, the_node. now rewrite Hn. Qed.

Lemma runs_update_node f g (Q : unit -> world -> Prop) w :
  Q tt (set_nodes (list_update f g (nodes w)) w) -> runs (update_node f g) Q w.
Proof. exact (fun H => H). Qed.

Lemma runs_copy v c (Q : value -> world -> Prop) w :
  memberCopy (nextRef w) v = Ok c ->
  Q c (mkWorld (nodes w) (formCounter w) (S (nextRef w)) (trace w)) ->
  runs (copy v) Q w.
Proof.
  intros Hc H. unfold runs, copy, bind, fresh, lift. cbn. now rewrite Hc.
Qed.

Lemma runs_fireListeners f key flag n (Q : unit -> world -> Prop) w :
  nth_error (nodes w) f = Some n ->
  Q tt (add_events (field_events f key flag n) w) ->
  runs (fireListeners f key flag) Q w.
Proof.
  intros Hn H. unfold runs. now rewrite (fireListeners_eq f key flag w n Hn).
Qed.

Lemma runs_fireAnyListeners f flag n (Q : unit -> world -> Prop) w :
  nth_error (nodes w) f = Some n ->
  Q tt (add_events (any_events f flag n) w) ->
  runs (fireAnyListeners f flag) Q w.
Proof.
  intros Hn H. unfold runs. now rewrite (fireAnyListeners_eq f flag w n Hn).
Qed.

(** With no out-of-fuel and no error, a call returns. *)
Lemma runs_returns {A} (m : M A) (Q Q' : A -> world -> Prop) w :
  wp False m Q w -> runs m Q' w ->
  exists a w', m w = Ok (a, w') /\ Q a w' /\ Q' a w'.
Proof.
  unfold wp, runs. destruct (m w) as [[a w']| |]; try contradiction.
  intros H H'. eauto.
Qed.

(** Forms whose values and default values are keyed objects. *)
Definition keyed (v : value) : bool :=
  match v with VObj _ _ => true | _ => false end.

Definition plain (w : world) : bool :=
  forallb (fun n => (keyed (values n) && keyed (defaultValues n))%bool) (nodes w).

Definition sane (w : world) : Prop :=
  well_formed w = true /\ no_validators w = true /\ plain w = true.

Definition kept (w w' : world) : Prop :=
  shape w' = shape w /\ plain w' = true.

(** The calls of a write that goes up only: no child node is entered. *)
Definition upward (c : call) (w : world) : Prop :=
  match c with
  | SetValueInternal f key v _ _ _ nc _ _ | SetValue f key v _ _ nc _ _ =>
      f < List.length (nodes w) /\
      (nc = false \/ v = VUndef \/
       forall n, nth_error (nodes w) f = Some n ->
                 assoc_get key (childMap n) = None)
  | UpdateParentValues f _ => f < List.length (nodes w)
  | _ => False
  end.

Lemma keyed_side isDefault n :
  (keyed (values n) && keyed (defaultValues n))%bool = true ->
  keyed (side isDefault n) = true.
Proof.
  intros H. apply andb_true_iff in H as [H1 H2]. destruct isDefault; assumption.
Qed.

Lemma plain_at w f n isDefault :
  plain w = true -> nth_error (nodes w) f = Some n ->
  keyed (side isDefault n) = true.
Proof.
  unfold plain. rewrite forallb_forall. intros H Hn.
  apply keyed_side, H. eapply nth_error_In; eauto.
Qed.

Lemma write_keyed m key v :
  keyed m = true ->
  exists m', match v with VUndef => remove m key | _ => set m key v end = Ok m'
             /\ keyed m' = true.
Proof.
  destruct m; try discriminate. intros _.
  destruct v; cbn; eauto.
Qed.

Lemma plain_update w f g :
  plain w = true ->
  (forall n, (keyed (values n) && keyed (defaultValues n))%bool = true ->
             (keyed (values (g n)) && keyed (defaultValues (g n)))%bool = true) ->
  plain (set_nodes (list_update f g (nodes w)) w) = true.
Proof.
  unfold plain. cbn [nodes set_nodes]. rewrite !forallb_forall.
  intros H Hg n Hn. apply In_nth_error in Hn as [j Hj].
  rewrite nth_error_list_update in Hj.
  destruct (Nat.eqb f j).
  - destruct (nth_error (nodes w) j) as [n0|] eqn:E; [|discriminate].
    cbn in Hj. injection Hj as <-. apply Hg, H. eapply nth_error_In; eauto.
  - apply H. eapply nth_error_In; eauto.
Qed.

Lemma sane_kept w w' : sane w -> kept w w' -> sane w'.
Proof.
  intros (H1 & H2 & _) [Hs Hp]. split; [|split]; auto.
  - eapply well_formed_shape; eauto.
  - eapply no_validators_shape; eauto.
Qed.

Lemma kept_trans w1 w2 w3 : kept w1 w2 -> kept w2 w3 -> kept w1 w3.
Proof. intros [S1 _] [S2 P]. split; [congruence|exact P]. Qed.

Lemma kept_env w w' : nodes w' = nodes w -> plain w = true -> kept w w'.
Proof. intros H Hp. unfold kept, shape, plain. rewrite H. auto. Qed.

Lemma kept_node w w' f :
  kept w w' -> f < List.length (nodes w) ->
  exists n', nth_error (nodes w') f = Some n'.
Proof.
  intros [Hs _] Hf. destruct (nth_error (nodes w') f) as [n'|] eqn:E; eauto.
  apply nth_error_None in E. rewrite (shape_length w w' Hs) in E. lia.
Qed.

Lemma kept_length w w' : kept w w' -> List.length (nodes w') = List.length (nodes w).
Proof. intros [Hs _]. now apply shape_length. Qed.

Lemma kept_events w t : plain w = true -> kept w (add_events t w).
Proof. intros H. now apply kept_env. Qed.

Lemma kept_childMap w w' f n n' :
  kept w w' -> nth_error (nodes w) f = Some n ->
  nth_error (nodes w') f = Some n' -> childMap n' = childMap n.
Proof.
  intros [Hs _] Hn Hn'. pose proof (skel_eq_at w w' f n n' Hs Hn Hn') as E.
  now apply (f_equal childMap) in E.
Qed.

Section Upward.
Variable run : call -> M unit.
Hypothesis Hrun : forall c w, sane w -> upward c w ->
  runs (run c) (fun _ w' => kept w w') w.

Lemma updateParentValues_runs f isDefault w :
  sane w -> f < List.length (nodes w) ->
  runs (updateParentValues_body run f isDefault) (fun _ w' => kept w w') w.
Proof.
  intros Hs Hf. pose proof Hs as (Hwf & Hnv & Hpl).
  destruct (nth_error (nodes w) f) as [me|] eqn:Hme;
    [|apply nth_error_None in Hme; lia].
  unfold updateParentValues_body.
  apply runs_bind, (runs_the_node f me); [exact Hme|].
  destruct (parent me) as [[p name]|] eqn:Hp.
  - pose proof (plain_at w f me isDefault Hpl Hme) as Hk.
    destruct (side isDefault me) as [| | | | |r fs|] eqn:Hside; try discriminate.
    apply runs_bind, (runs_copy _ (VObj (nextRef w) (spread_fields fs)));
      [reflexivity|].
    set (w1 := mkWorld _ _ _ _).
    assert (K1 : kept w w1) by (apply kept_env; auto).
    eapply runs_mono.
    + apply Hrun; [exact (sane_kept w w1 Hs K1)|]. cbn.
      split; [|left; reflexivity].
      pose proof (parent_below w f me p name Hwf Hme Hp). lia.
    + cbv beta. intros _ w' K. exact (kept_trans w w1 w' K1 K).
  - apply runs_ret. apply kept_env; [reflexivity | exact Hpl].
Qed.

Lemma setValueInternal_runs f key v d validate isDefault nc np fa w :
  sane w -> upward (SetValueInternal f key v d validate isDefault nc np fa) w ->
  runs (setValueInternal_body run f key v d validate isDefault nc np fa)
    (fun _ w' => kept w w') w.
Proof.
  intros Hs [Hf Hdown]. pose proof Hs as (Hwf & Hnv & Hpl).
  destruct (nth_error (nodes w) f) as [me|] eqn:Hme;
    [|apply nth_error_None in Hme; lia].
  unfold setValueInternal_body.
  apply runs_bind, (runs_the_node f me); [exact Hme|].
  destruct (write_keyed (side isDefault me) key v
              (plain_at w f me isDefault Hpl Hme)) as (m & Hm & Hkm).
  apply runs_bind, (runs_lift _ m); [exact Hm|].
  apply runs_bind, runs_update_node.
  set (w1 := set_nodes _ w).
  assert (K1 : kept w w1).
  { split; [apply shape_update; intros n; apply skel_with_values|].
    apply plain_update; [exact Hpl|]. intros n Hn.
    apply andb_true_iff in Hn as [A B].
    destruct isDefault; cbn; rewrite ?A, ?B, ?Hkm; reflexivity. }
  apply runs_bind.
  apply (runs_mono _ (fun _ w2 => kept w w2)).
  { destruct d as [d|].
    - apply runs_update_node. eapply kept_trans; [exact K1|].
      split; [apply shape_update; reflexivity|].
      apply plain_update; [apply K1|]. intros n Hn; exact Hn.
    - apply runs_ret. exact K1. }
  cbv beta. intros _ w2 K2.
  destruct (kept_node w w2 f K2 Hf) as [me2 Hme2].
  apply runs_bind.
  apply (runs_mono _ (fun _ w3 => w3 = w2)).
  { destruct (nc && negb (strict_eq v VUndef))%bool eqn:Hc; cbn [when];
      [|apply runs_ret; reflexivity].
    apply andb_true_iff in Hc as [-> Hv].
    apply runs_bind, (runs_the_node f me2); [exact Hme2|].
    assert (assoc_get key (childMap me2) = None) as ->.
    { destruct Hdown as [H|[H|H]]; [discriminate | subst v; discriminate Hv | ].
      rewrite (kept_childMap w w2 f me me2 K2 Hme Hme2). now apply H. }
    apply runs_ret. reflexivity. }
  cbv beta. intros _ w3 ->.
  apply runs_bind, (runs_fireListeners f key false me2); [exact Hme2|].
  set (w4 := add_events _ w2).
  assert (K4 : kept w w4).
  { eapply kept_trans; [exact K2|apply kept_events, K2]. }
  apply runs_bind.
  apply (runs_mono _ (fun _ w5 => kept w w5)).
  { destruct fa; cbn [when]; [|apply runs_ret; exact K4].
    apply runs_bind.
    apply (runs_mono _ (fun _ w5 => kept w w5)).
    { destruct np; cbn [when]; [|apply runs_ret; exact K4].
      eapply runs_mono.
      - apply Hrun; [exact (sane_kept w w4 Hs K4)|]. cbn [upward].
        rewrite (kept_length w w4 K4). exact Hf.
      - cbv beta. intros _ w5 K. exact (kept_trans w w4 w5 K4 K). }
    cbv beta. intros _ w5 K5.
    destruct (kept_node w w5 f K5 Hf) as [me5 Hme5].
    apply (runs_fireAnyListeners f false me5); [exact Hme5|].
    eapply kept_trans; [exact K5|apply kept_events, K5]. }
  cbv beta. intros _ w6 K6.
  destruct (kept_node w w6 f K6 Hf) as [me6 Hme6].
  apply runs_bind, (runs_the_node f me6); [exact Hme6|].
  destruct (sane_kept w w6 Hs K6) as (_ & Hnv6 & _).
  rewrite (no_validators_at w6 f me6 Hnv6 Hme6). apply runs_ret. exact K6.
Qed.

Lemma setValue_runs f key v validate isDefault nc np fa w :
  sane w -> upward (SetValue f key v validate isDefault nc np fa) w ->
  runs (setValue_body run f key v validate isDefault nc np fa)
    (fun _ w' => kept w w') w.
Proof.
  intros Hs [Hf Hdown]. pose proof Hs as (Hwf & Hnv & Hpl).
  assert (Hcall : forall d,
            runs (run (SetValueInternal f key v d validate isDefault nc np fa) ;;;
                  ret true)
              (fun _ w' => kept w w') w).
  { intros d. apply runs_bind. eapply runs_mono.
    - apply Hrun; [exact Hs|]. split; assumption.
    - cbv beta. intros _ w' K. apply runs_ret. exact K. }
  destruct (nth_error (nodes w) f) as [me|] eqn:Hme;
    [|apply nth_error_None in Hme; lia].
  unfold setValue_body.
  apply runs_bind, (runs_the_node f me); [exact Hme|].
  destruct (typeof_object v); [apply Hcall|].
  destruct (strict_eq (get (side isDefault me) key) v); [|apply Hcall].
  apply runs_ret. apply kept_env; [reflexivity|exact Hpl].
Qed.

Lemma upward_step c w :
  sane w -> upward c w ->
  runs (body run c) (fun _ w' => kept w w') w.
Proof.
  intros Hs Hu. destruct c; cbn [upward] in Hu; try contradiction; cbn [body].
  - unfold void. apply runs_bind. eapply runs_mono.
    + now apply setValueInternal_runs.
    + cbv beta. intros _ w' K. apply runs_ret. exact K.
  - apply runs_bind. eapply runs_mono.
    + now apply setValue_runs.
    + cbv beta. intros b w' K. apply runs_ret. exact K.
  - unfold void. apply runs_bind. eapply runs_mono.
    + now apply updateParentValues_runs.
    + cbv beta. intros _ w' K. apply runs_ret. exact K.
Qed.
End Upward.

(** A write that enters no child node raises no error, in a tree of keyed
    forms without validators. *)
Lemma upward_runs fuel : forall c w,
  sane w -> upward c w -> runs (exec fuel c) (fun _ w' => kept w w') w.
Proof.
  induction fuel as [|fuel IH]; intros c w Hs Hu; [exact I|].
  cbn [exec]. apply (upward_step (nested (exec fuel))); auto.
  intros c' w' Hs' Hu'. unfold nested. apply runs_bind.
  eapply runs_mono; [apply IH; assumption|].
  cbv beta. intros r w2 K. apply runs_ret. exact K.
Qed.

(** ** Claim C10: [null] is written as a composite *)

Definition null_child_form : world := Eval vm_compute in
  after (root <- new_FormState (VObj 0 [("a", VNull)]) (VObj 1 []) (VObj 2 [])
                   None ;;
         _ <- listen root "a" ;;
         new_ChildFormState root "a") initial.

Definition null_form : world := Eval vm_compute in
  after (root <- new_FormState (VObj 0 [("a", VNull)]) (VObj 1 []) (VObj 2 [])
                   None ;;
         listen root "a") initial.

(** At a key with no child node, or with [notifyChild] false,
    [setValue(key, null)] is a composite write: the scalar short-circuit is
    skipped whatever is stored, and when the call completes it has written
    [null], called the observers of [key] and returned [true]; in a tree of
    keyed forms without validators it does complete. *)
Lemma null_write_without_child fuel f key validate isDefault nc np fa w :
  well_formed w = true ->
  enough (List.length (nodes w)) <= fuel ->
  f < List.length (nodes w) ->
  nc = false \/ assoc_get key (childMap (node_of w f)) = None ->
  let op := SetValue f key VNull validate isDefault nc np fa in
  wp False (exec fuel op)
    (fun r w' =>
       r = RBool true /\
       get (side isDefault (node_of w' f)) key = VNull /\
       exists t1 t2,
         trace w' = (trace w ++ t1
                     ++ field_events f key false (node_of w f) ++ t2)%list)
    w /\
  (no_validators w = true -> plain w = true ->
   exists w', exec fuel op w = Ok (RBool true, w')).
Proof.
  intros Hwf Hfuel Hf Hchild op.
  assert (Hwp : wp False (exec fuel op)
    (fun r w' =>
       r = RBool true /\
       get (side isDefault (node_of w' f)) key = VNull /\
       exists t1 t2,
         trace w' = (trace w ++ t1
                     ++ field_events f key false (node_of w f) ++ t2)%list) w).
  { eapply wp_mono.
    { apply exec_setValue; eauto using enough_rank, node_at_of. }
    intros r w' H. cbv beta in H.
    cbn [short_circuit typeof_object negb andb] in H.
    destruct H as [-> H].
    destruct (svi_post_side _ _ _ _ _ _ _ _ _ _ _ _ _ H)
      as (m & me' & Hm & Hme' & Hside & _).
    destruct H as (_ & _ & t1 & t2 & t3 & _ & _ & _ & _ & Ht & _).
    split; [reflexivity|]. split.
    - rewrite (node_of_at w' f me' Hme'), Hside. eapply get_set_same. exact Hm.
    - exists t1. eexists. exact Ht. }
  split; [exact Hwp|]. intros Hnv Hpl.
  assert (Hup : upward op w).
  { split; [exact Hf|]. destruct Hchild as [H|H]; [now left|].
    right. right. intros n Hn.
    rewrite <- (node_of_at w f n Hn). exact H. }
  destruct (runs_returns _ _ _ w Hwp
              (upward_runs fuel op w (conj Hwf (conj Hnv Hpl)) Hup))
    as (r & w' & E & (-> & _) & _).
  exists w'. exact E.
Qed.

(** With a child node under [key], the write of [null] ends in the
    child's [setValues], at [Object.keys(null)]. *)
Lemma null_write_with_child_throws fuel f key validate isDefault np fa w me m
    ch chn ks :
  3 <= fuel ->
  nth_error (nodes w) f = Some me ->
  set (side isDefault me) key VNull = Ok m ->
  assoc_get key (childMap me) = Some ch ->
  ch <> f ->
  nth_error (nodes w) ch = Some chn ->
  object_keys (side isDefault chn) = Some ks ->
  exec fuel (SetValue f key VNull validate isDefault true np fa) w
  = Throw TypeError.
Proof.
  intros Hfuel Hme Hm Hch Hne Hchn Hks.
  destruct fuel as [|[|[|fuel]]]; try lia.
  cbn [exec body]. unfold setValue_body, bind at 1 2.
  unfold the_node at 1. rewrite Hme. cbn [typeof_object].
  unfold nested at 1, bind at 1 2.
  cbn [exec body]. unfold void, setValueInternal_body.
  unfold bind at 1 2 3. unfold the_node at 1. rewrite Hme.
  unfold bind at 1, lift. rewrite Hm.
  unfold bind at 1, update_node.
  unfold bind at 1, ret at 1.
  cbn [andb negb strict_eq when].
  unfold bind at 1 2. unfold the_node at 1.
  cbn [nodes set_nodes]. rewrite nth_error_list_update, Nat.eqb_refl, Hme.
  cbn [option_map]. 
  assert (Ecm : childMap (with_values isDefault m me) = childMap me)
    by (destruct isDefault; reflexivity).
  rewrite Ecm, Hch.
  unfold bind at 1. unfold nested at 1, bind at 1.
  cbn [exec body]. unfold void, setValues_body.
  unfold bind at 1 2 3, emit. unfold the_node at 1.
  cbn [nodes set_nodes add_event].
  rewrite nth_error_list_update.
  destruct (Nat.eqb_spec f ch) as [E|_]; [congruence|].
  rewrite Hchn. unfold bind at 1, keys_of at 1. rewrite Hks.
  reflexivity.
Qed.

(** C10, where the code departs from it: at a key that has a child node,
    [setValue(key, null)] stores [null] and then hands it to the child's
    [setValues], where [Object.keys(null)] raises a [TypeError], so the
    call returns nothing.  The guard before the child call excludes
    [undefined] only, while [setError] and the constructor of the child
    replace [null] by [{}] at the same place. *)
Theorem C10_null_write_reaches_child fuel f key validate isDefault np fa w
    me ch chn :
  well_formed w = true ->
  3 <= fuel ->
  node_at w f = Some me ->
  keyed (side isDefault me) = true ->
  assoc_get key (childMap me) = Some ch ->
  node_at w ch = Some chn ->
  keyed (side isDefault chn) = true ->
  exec fuel (SetValue f key VNull validate isDefault true np fa) w
  = Throw TypeError.
Proof.
  intros Hwf Hfuel Hme Hk Hch Hchn Hkc. unfold node_at in *.
  pose proof (child_above w f me key ch Hwf Hme Hch) as Hlt.
  destruct (side isDefault me) as [| | | | |r fs|] eqn:Hside; try discriminate.
  destruct (side isDefault chn) as [| | | | |r' fs'|] eqn:Hside'; try discriminate.
  apply (null_write_with_child_throws fuel f key validate isDefault np fa w me
           (VObj r (assoc_set key VNull fs)) ch chn (assoc_keys fs')); auto.
  - rewrite Hside. reflexivity.
  - lia.
  - rewrite Hside'. reflexivity.
Qed.

Lemma C10_witness :
  setValue 32 0 "a" VNull null_child_form = Throw TypeError.
Proof.
  apply (C10_null_write_reaches_child 32 0 "a" true false true true
           null_child_form (node_of null_child_form 0) 1
           (node_of null_child_form 1)).
  - vm_compute. reflexivity.
  - lia.
  - reflexivity.
  - reflexivity.
  - reflexivity.
  - reflexivity.
  - reflexivity.
Defined.

(** * Further properties of the code *)

(** ** Every call ends *)

(** [m'] does what [m] does wherever [m] has fuel enough. *)
Definition refines {A} (m m' : M A) : Prop :=
  forall w, m w <> OutOfFuel -> m' w = m w.

Lemma refines_refl {A} (m : M A) : refines m m.
Proof. intros w _. reflexivity. Qed.

Lemma refines_trans {A} (m1 m2 m3 : M A) :
  refines m1 m2 -> refines m2 m3 -> refines m1 m3.
Proof.
  intros H12 H23 w H. rewrite <- (H12 w H). apply H23. now rewrite (H12 w H).
Qed.

Lemma refines_bind {A B} (m m' : M A) (k k' : A -> M B) :
  refines m m' -> (forall a, refines (k a) (k' a)) ->
  refines (bind m k) (bind m' k').
Proof.
  intros Hm Hk w H. unfold bind in *.
  destruct (m w) as [[a w1]| |] eqn:E.
  - rewrite (Hm w), E by (rewrite E; discriminate). now apply Hk.
  - rewrite (Hm w), E by (rewrite E; discriminate). reflexivity.
  - contradiction.
Qed.

Lemma refines_for_each {A} (l : list A) (b b' : A -> M unit) :
  (forall x, refines (b x) (b' x)) -> refines (for_each l b) (for_each l b').
Proof.
  intros H. induction l as [|x t IH]; cbn [for_each].
  - apply refines_refl.
  - apply refines_bind; [apply H | intros _; exact IH].
Qed.

Lemma refines_when b (m m' : M unit) :
  refines m m' -> refines (when b m) (when b m').
Proof. destruct b; cbn [when]; [auto | intros _; apply refines_refl]. Qed.

Ltac refine_body H :=
  repeat first
    [ apply refines_refl
    | apply H
    | apply refines_when
    | apply refines_for_each; intros ?
    | apply refines_bind; [|intros ?]
    | match goal with
      | |- refines (match ?x with _ => _ end) _ => destruct x
      end ].

Lemma refines_body (run run' : call -> M unit) :
  (forall c, refines (run c) (run' c)) ->
  forall c, refines (body run c) (body run' c).
Proof.
  intros H c. destruct c; cbn [body]; unfold void; unfold_bodies;
    refine_body H.
Qed.

Lemma exec_more_fuel fuel : forall c, refines (exec fuel c) (exec (S fuel) c).
Proof.
  induction fuel as [|fuel IH]; intros c.
  - intros w H. now contradiction H.
  - change (refines (body (nested (exec fuel)) c)
                    (body (nested (exec (S fuel))) c)).
    apply refines_body. intros c'. unfold nested.
    apply refines_bind; [apply IH | intros _; apply refines_refl].
Qed.

Lemma exec_fuel_le fuel fuel' c :
  fuel <= fuel' -> refines (exec fuel c) (exec fuel' c).
Proof.
  induction 1 as [|n Hle IH]; [apply refines_refl|].
  eapply refines_trans; [exact IH | apply exec_more_fuel].
Qed.

Lemma wp_False_not_OutOfFuel {A} (m : M A) Q w : wp False m Q w -> m w <> OutOfFuel.
Proof. unfold wp. destruct (m w) as [[a w']| |]; [discriminate .. | contradiction]. Qed.

Lemma wp_result oof {A} (m : M A) Q w a w' : wp oof m Q w -> m w = Ok (a, w') -> Q a w'.
Proof. unfold wp. intros H E. rewrite E in H. exact H. Qed.

(** X1: in a well-formed tree of [N] nodes every method call ends,
    normally or with an error: the mutual recursion between a node, its
    children and its parent needs a call stack of depth [10 * N + 12] at
    most, and a larger bound gives the same outcome. *)
Theorem X1_calls_end fuel c w :
  well_formed w = true ->
  enough (List.length (nodes w)) <= fuel ->
  exec fuel c w <> OutOfFuel /\
  forall fuel', fuel <= fuel' -> exec fuel' c w = exec fuel c w.
Proof.
  intros Hwf Hfuel.
  assert (H : exec fuel c w <> OutOfFuel).
  { eapply wp_False_not_OutOfFuel. apply exec_sound; eauto using enough_rank. }
  split; [exact H|]. intros fuel' Hle. now apply exec_fuel_le.
Qed.

Lemma X1_witness :
  exec 42 (SetState 0 (VObj 9 [("isSubmitting", VBool true)]) true true)
       family_form <> OutOfFuel /\
  forall fuel', 42 <= fuel' ->
    exec fuel' (SetState 0 (VObj 9 [("isSubmitting", VBool true)]) true true)
         family_form
    = exec 42 (SetState 0 (VObj 9 [("isSubmitting", VBool true)]) true true)
           family_form.
Proof.
  apply X1_calls_end.
  - vm_compute. reflexivity.
  - vm_compute. lia.
Defined.

(** ** What a call leaves alone *)

(** X2: a method call changes no registry: the [formId], validator,
    child map, observer maps, observer counter and parent of every node
    stay as they are, no node appears or disappears, and the log of
    observer calls only grows.  It writes the values, default values and
    dirty flags of the nodes in [touch] only: the node itself, later nodes
    when it notifies children, earlier nodes when it notifies the parent;
    the error and state methods write none of them. *)
Theorem X2_call_frame fuel c w r w' :
  well_formed w = true ->
  enough (List.length (nodes w)) <= fuel ->
  exec fuel c w = Ok (r, w') ->
  shape w' = shape w /\
  well_formed w' = true /\
  List.length (nodes w') = List.length (nodes w) /\
  extends w w' /\
  forall i, ~ touch c i -> data_at w' i = data_at w i.
Proof.
  intros Hwf Hfuel E.
  pose proof (wp_result _ _ _ _ _ _
                (exec_sound fuel c w Hwf (enough_rank w c fuel Hfuel)) E)
    as (Hs & Hd & He).
  split; [exact Hs|]. split; [eapply well_formed_shape; eauto|].
  split; [now apply shape_length|]. split; assumption.
Qed.

Lemma X2_witness :
  let c := SetError 1 "city" (VStr "unknown") true true true in
  exists r w',
    exec 32 c address_form = Ok (r, w') /\
    shape w' = shape address_form /\
    well_formed w' = true /\
    List.length (nodes w') = List.length (nodes address_form) /\
    extends address_form w' /\
    forall i, ~ touch c i -> data_at w' i = data_at address_form i.
Proof.
  intros c.
  destruct (exec 32 c address_form) as [[r w']| |] eqn:E;
    [|vm_compute in E; discriminate E ..].
  exists r, w'. split; [reflexivity|].
  apply (X2_call_frame 32 c address_form r w').
  - vm_compute. reflexivity.
  - vm_compute. lia.
  - exact E.
Defined.

(** ** The observer registry *)

(** Every identifier handed out so far is below the node's counter. *)
Definition ids_fresh (n : node) : Prop :=
  (forall k id, In id (ids_of n k) -> id < counter n) /\
  (forall id, In id (anyListeners n) -> id < counter n).

(** A node with its registry replaced. *)
Definition registered_as (l : list (string * list nat)) (a : list nat)
    (c : nat) (f : nat) (w : world) : world :=
  set_nodes (list_update f (with_listeners l a c) (nodes w)) w.

Lemma list_update_ext {A} (g h : A -> A) i l x :
  nth_error l i = Some x -> g x = h x -> list_update i g l = list_update i h l.
Proof.
  revert i. induction l as [|y t IH]; intros [|i] Hx E; cbn in *;
    try discriminate; try reflexivity.
  - injection Hx as ->. now rewrite E.
  - f_equal. eauto.
Qed.

Lemma listen_eq f key w me :
  nth_error (nodes w) f = Some me ->
  listen f key w
  = Ok (counter me,
        registered_as (assoc_set key (ids_of me key ++ [counter me])%list
                                 (listeners me))
                      (anyListeners me) (S (counter me)) f w).
Proof.
  intros Hme. unfold listen, bind, the_node, update_node, ret, registered_as.
  rewrite Hme. do 3 f_equal.
  apply (list_update_ext _ _ f (nodes w) me Hme). reflexivity.
Qed.

Lemma listenAny_eq f w me :
  nth_error (nodes w) f = Some me ->
  listenAny f w
  = Ok (counter me,
        registered_as (listeners me) (anyListeners me ++ [counter me])%list
                      (S (counter me)) f w).
Proof.
  intros Hme. unfold listenAny, bind, the_node, update_node, ret, registered_as.
  rewrite Hme. do 3 f_equal.
  apply (list_update_ext _ _ f (nodes w) me Hme). reflexivity.
Qed.

Lemma ignore_eq f key id w me :
  nth_error (nodes w) f = Some me ->
  ignore f key id w
  = Ok (tt, match assoc_get key (listeners me) with
            | Some ids =>
                registered_as (assoc_set key (remove_id id ids) (listeners me))
                              (anyListeners me) (counter me) f w
            | None => w
            end).
Proof.
  intros Hme. unfold ignore, bind, the_node, update_node, ret, registered_as.
  rewrite Hme. destruct (assoc_get key (listeners me)); [|reflexivity].
  do 3 f_equal. apply (list_update_ext _ _ f (nodes w) me Hme). reflexivity.
Qed.

Lemma ignoreAny_eq f id w me :
  nth_error (nodes w) f = Some me ->
  ignoreAny f id w
  = Ok (tt, registered_as (listeners me) (remove_id id (anyListeners me))
                          (counter me) f w).
Proof.
  intros Hme. unfold ignoreAny, update_node, registered_as.
  do 3 f_equal. apply (list_update_ext _ _ f (nodes w) me Hme). reflexivity.
Qed.

Lemma node_of_registered_as l a c f w me :
  nth_error (nodes w) f = Some me ->
  node_of (registered_as l a c f w) f = with_listeners l a c me.
Proof.
  intros Hme. apply node_of_at. unfold node_at, registered_as.
  cbn [nodes set_nodes]. now rewrite nth_error_list_update, Nat.eqb_refl, Hme.
Qed.

Lemma registered_as_other l a c f w i :
  i <> f ->
  nth_error (nodes (registered_as l a c f w)) i = nth_error (nodes w) i.
Proof.
  intros Hne. unfold registered_as. cbn [nodes set_nodes].
  rewrite nth_error_list_update.
  destruct (Nat.eqb_spec f i); [congruence | reflexivity].
Qed.

Lemma ids_of_with_listeners_same l a c n key ids :
  ids_of (with_listeners (assoc_set key ids l) a c n) key = ids.
Proof. unfold ids_of. cbn. now rewrite assoc_get_set_same. Qed.

Lemma ids_of_with_listeners_other a c n key ids k :
  k <> key ->
  ids_of (with_listeners (assoc_set key ids (listeners n)) a c n) k = ids_of n k.
Proof. intros H. unfold ids_of. cbn. now rewrite assoc_get_set_other. Qed.

Lemma fresh_not_registered n :
  ids_fresh n ->
  (forall k, ~ In (counter n) (ids_of n k)) /\ ~ In (counter n) (anyListeners n).
Proof.
  intros [H1 H2]. split.
  - intros k H. apply H1 in H. lia.
  - intros H. apply H2 in H. lia.
Qed.

Lemma remove_id_absent id ids : ~ In id ids -> remove_id id ids = ids.
Proof.
  intros H. unfold remove_id. induction ids as [|x t IH]; cbn; [reflexivity|].
  destruct (Nat.eqb_spec x id) as [->|_]; cbn.
  - contradiction H. now left.
  - f_equal. apply IH. intros Hin. apply H. now right.
Qed.

Lemma remove_id_app_new id ids :
  ~ In id ids -> remove_id id (ids ++ [id]) = ids.
Proof.
  intros H. unfold remove_id. rewrite filter_app. cbn.
  rewrite Nat.eqb_refl. cbn. rewrite app_nil_r. now apply remove_id_absent.
Qed.

Lemma remove_id_gone id ids : ~ In id (remove_id id ids).
Proof.
  unfold remove_id. rewrite filter_In. intros [_ H].
  now rewrite Nat.eqb_refl in H.
Qed.

Lemma remove_id_keeps id ids x : x <> id -> In x ids -> In x (remove_id id ids).
Proof.
  intros Hne Hin. unfold remove_id. apply filter_In. split; [exact Hin|].
  apply negb_true_iff, Nat.eqb_neq, Hne.
Qed.

(** X3: [listen] at an ordinary key and [listenAny] hand out the node's
    counter and advance it, so the identifier returned was never handed out
    before on this node and is registered nowhere; it is appended to the
    observers of the key (to the "any" observers), and no other observer
    list and no other node changes.  (At a key that names a member of
    [Object.prototype], [this.listeners[key]] is the inherited member, and
    the observer is stored on it.) *)
Theorem X3_listen_returns_fresh_id f key w me :
  node_at w f = Some me -> ids_fresh me ->
  (~ In (counter me) (anyListeners me) /\
   forall k, ~ In (counter me) (ids_of me k)) /\
  (ordinary key = true ->
   exists w',
     listen f key w = Ok (counter me, w') /\
     ids_of (node_of w' f) key = (ids_of me key ++ [counter me])%list /\
     (forall k, k <> key -> ids_of (node_of w' f) k = ids_of me k) /\
     anyListeners (node_of w' f) = anyListeners me /\
     ids_fresh (node_of w' f) /\
     forall i, i <> f -> nth_error (nodes w') i = nth_error (nodes w) i) /\
  (exists w',
     listenAny f w = Ok (counter me, w') /\
     anyListeners (node_of w' f) = (anyListeners me ++ [counter me])%list /\
     (forall k, ids_of (node_of w' f) k = ids_of me k) /\
     ids_fresh (node_of w' f) /\
     forall i, i <> f -> nth_error (nodes w') i = nth_error (nodes w) i).
Proof.
  intros Hme Hfresh. unfold node_at in Hme.
  destruct (fresh_not_registered me Hfresh) as [Hk Hany].
  destruct Hfresh as [F1 F2].
  split; [split; assumption|]. split.
  - intros _.
    eexists. split; [apply (listen_eq f key w me Hme)|].
    rewrite (node_of_registered_as _ _ _ f w me Hme).
    split; [apply ids_of_with_listeners_same|].
    split; [intros k Hne; now apply ids_of_with_listeners_other|].
    split; [reflexivity|]. split.
    + split; cbn [counter with_listeners anyListeners].
      * intros k id. destruct (String.eqb_spec k key) as [->|Hne].
        -- rewrite ids_of_with_listeners_same. intros Hin.
           apply in_app_or in Hin as [Hin|[<-|[]]]; [|lia].
           apply F1 in Hin. lia.
        -- rewrite ids_of_with_listeners_other by exact Hne.
           intros Hin. apply F1 in Hin. lia.
      * intros id Hin. apply F2 in Hin. lia.
    + intros i Hne. now apply registered_as_other.
  - eexists. split; [apply (listenAny_eq f w me Hme)|].
    rewrite (node_of_registered_as _ _ _ f w me Hme).
    split; [reflexivity|]. split; [reflexivity|]. split.
    + split; cbn [counter with_listeners anyListeners].
      * intros k id Hin. change (In id (ids_of me k)) in Hin.
        apply F1 in Hin. lia.
      * intros id Hin. apply in_app_or in Hin as [Hin|[<-|[]]]; [|lia].
        apply F2 in Hin. lia.
    + intros i Hne. now apply registered_as_other.
Qed.

(** A check of [ids_fresh] that computes. *)
Definition ids_fresh_check (n : node) : bool :=
  (forallb (fun kv => forallb (fun id => Nat.ltb id (counter n)) (snd kv))
           (listeners n)
   && forallb (fun id => Nat.ltb id (counter n)) (anyListeners n))%bool.

Lemma ids_fresh_checked n : ids_fresh_check n = true -> ids_fresh n.
Proof.
  unfold ids_fresh_check. intros H. apply andb_true_iff in H as [H1 H2].
  rewrite forallb_forall in H1, H2. split.
  - intros k id. unfold ids_of.
    destruct (assoc_get k (listeners n)) as [ids|] eqn:E; [|intros []].
    apply assoc_get_In in E. apply H1 in E. cbn in E.
    rewrite forallb_forall in E. intros Hin. now apply Nat.ltb_lt, E.
  - intros id Hin. now apply Nat.ltb_lt, H2.
Qed.

Lemma X3_witness :
  (exists w',
     listen 0 "a" scalar_form = Ok (1, w') /\
     ids_of (node_of w' 0) "a" = [0; 1]) /\
  (exists w',
     listenAny 0 scalar_form = Ok (1, w') /\
     anyListeners (node_of w' 0) = [1]).
Proof.
  destruct (X3_listen_returns_fresh_id 0 "a" scalar_form
              (node_of scalar_form 0)) as (_ & H1 & H2).
  - reflexivity.
  - apply ids_fresh_checked. reflexivity.
  - split.
    + destruct (H1 eq_refl) as (w' & E & Hids & _).
      exists w'. split; assumption.
    + destruct H2 as (w' & E & Hany & _). exists w'. split; assumption.
Defined.

Lemma nth_error_registered_as l a c f w me :
  nth_error (nodes w) f = Some me ->
  nth_error (nodes (registered_as l a c f w)) f = Some (with_listeners l a c me).
Proof.
  intros Hme. unfold registered_as. cbn [nodes set_nodes].
  now rewrite nth_error_list_update, Nat.eqb_refl, Hme.
Qed.

(** X4: [ignore] with the identifier that [listen] has just returned
    undoes the registration: every key has the observers it had, in the
    order they had, so [fireListeners] calls what it called before (an
    empty observer map may be left under a key that had none); the same
    holds for [listenAny] followed by [ignoreAny]. *)
Theorem X4_listen_then_ignore f key w me :
  node_at w f = Some me -> ids_fresh me ->
  (exists w2,
     (id <- listen f key ;; ignore f key id) w = Ok (tt, w2) /\
     (forall k, ids_of (node_of w2 f) k = ids_of me k) /\
     (forall k flag, field_events f k flag (node_of w2 f)
                     = field_events f k flag me) /\
     anyListeners (node_of w2 f) = anyListeners me /\
     forall i, i <> f -> nth_error (nodes w2) i = nth_error (nodes w) i) /\
  (exists w2,
     (id <- listenAny f ;; ignoreAny f id) w = Ok (tt, w2) /\
     anyListeners (node_of w2 f) = anyListeners me /\
     listeners (node_of w2 f) = listeners me /\
     forall i, i <> f -> nth_error (nodes w2) i = nth_error (nodes w) i).
Proof.
  intros Hme Hfresh. unfold node_at in Hme.
  destruct (fresh_not_registered me Hfresh) as [Hk Hany]. split.
  - unfold bind. rewrite (listen_eq f key w me Hme).
    set (l1 := assoc_set key _ (listeners me)).
    pose proof (nth_error_registered_as l1 (anyListeners me) (S (counter me))
                  f w me Hme) as H1.
    rewrite (ignore_eq f key (counter me) _ _ H1).
    cbn [listeners with_listeners anyListeners counter].
    unfold l1 at 1. rewrite assoc_get_set_same.
    rewrite (remove_id_app_new _ _ (Hk key)).
    eexists. split; [reflexivity|].
    rewrite (node_of_registered_as _ _ _ f _ _ H1).
    assert (Hids : forall k,
              ids_of (with_listeners (assoc_set key (ids_of me key) l1)
                        (anyListeners me) (S (counter me))
                        (with_listeners l1 (anyListeners me) (S (counter me)) me))
                     k = ids_of me k).
    { intros k. destruct (String.eqb_spec k key) as [->|Hne].
      - apply ids_of_with_listeners_same.
      - unfold ids_of. cbn [listeners with_listeners]. unfold l1.
        now rewrite !assoc_get_set_other by exact Hne. }
    split; [exact Hids|].
    split; [intros k flag; unfold field_events; now rewrite Hids|].
    split; [reflexivity|].
    intros i Hne. now rewrite !registered_as_other by exact Hne.
  - unfold bind. rewrite (listenAny_eq f w me Hme).
    pose proof (nth_error_registered_as (listeners me)
                  (anyListeners me ++ [counter me])%list (S (counter me))
                  f w me Hme) as H1.
    rewrite (ignoreAny_eq f (counter me) _ _ H1).
    cbn [listeners with_listeners anyListeners counter].
    rewrite (remove_id_app_new _ _ Hany).
    eexists. split; [reflexivity|].
    rewrite (node_of_registered_as _ _ _ f _ _ H1).
    split; [reflexivity|]. split; [reflexivity|].
    intros i Hne. now rewrite !registered_as_other by exact Hne.
Qed.

Lemma X4_witness :
  (exists w2,
     (id <- listen 0 "a" ;; ignore 0 "a" id) scalar_form = Ok (tt, w2) /\
     ids_of (node_of w2 0) "a" = [0]) /\
  (exists w2,
     (id <- listenAny 0 ;; ignoreAny 0 id) scalar_form = Ok (tt, w2) /\
     anyListeners (node_of w2 0) = []).
Proof.
  destruct (X4_listen_then_ignore 0 "a" scalar_form (node_of scalar_form 0))
    as (H1 & H2).
  - reflexivity.
  - apply ids_fresh_checked. reflexivity.
  - split.
    + destruct H1 as (w2 & E & Hids & _). exists w2. split; [exact E|].
      apply (Hids "a").
    + destruct H2 as (w2 & E & Hany & _). exists w2. split; assumption.
Defined.

(** ** Who is called *)

(** An observer call of the log goes to an observer registered in [w0]. *)
Definition registered (w0 : world) (e : event) : Prop :=
  match e with
  | FieldListener f k id _ =>
      exists n, nth_error (nodes w0) f = Some n /\ In id (ids_of n k)
  | AnyListener f id _ =>
      exists n, nth_error (nodes w0) f = Some n /\ In id (anyListeners n)
  | Enter _ _ => True
  end.

Definition calls_registered (w w' : world) : Prop :=
  shape w' = shape w /\
  exists t, trace w' = (trace w ++ t)%list /\ Forall (registered w) t.

Lemma anyListeners_of_skel n n' : skel n = skel n' -> anyListeners n = anyListeners n'.
Proof. intros H. now apply (f_equal anyListeners) in H. Qed.

Lemma registered_shape w w' e :
  shape w' = shape w -> registered w' e -> registered w e.
Proof.
  intros Hs. destruct e as [f k id b|f id b|f m]; cbn; auto.
  - intros (n' & Hn' & Hin).
    destruct (nth_error_shape w w' f n' Hs Hn') as (n & Hn & E).
    exists n. split; [exact Hn|]. now rewrite (ids_of_skel n n' k E).
  - intros (n' & Hn' & Hin).
    destruct (nth_error_shape w w' f n' Hs Hn') as (n & Hn & E).
    exists n. split; [exact Hn|]. now rewrite (anyListeners_of_skel n n' E).
Qed.

Section Registered.
Variable oof : Prop.
Variable w0 : world.

Lemma reg_refl : calls_registered w0 w0.
Proof. split; [reflexivity|]. exists []. now rewrite app_nil_r. Qed.

Lemma reg_env w w' :
  nodes w' = nodes w -> trace w' = trace w ->
  calls_registered w0 w -> calls_registered w0 w'.
Proof.
  intros Hn Ht [Hs H]. unfold calls_registered, shape. rewrite Hn, Ht. now split.
Qed.

Lemma reg_events w t :
  Forall (registered w) t ->
  calls_registered w0 w -> calls_registered w0 (add_events t w).
Proof.
  intros Ht [Hs (t0 & Ht0 & Hall)]. split; [exact Hs|].
  exists (t0 ++ t)%list. split.
  - cbn. now rewrite Ht0, app_assoc.
  - apply Forall_app. split; [exact Hall|].
    eapply Forall_impl; [|exact Ht]. intros e. now apply registered_shape.
Qed.

Lemma reg_enter w f m :
  calls_registered w0 w -> calls_registered w0 (add_event (Enter f m) w).
Proof.
  intros H. apply (reg_events w [Enter f m]); [|exact H].
  constructor; [exact I | constructor].
Qed.

Lemma reg_update w f g :
  (forall n, skel (g n) = skel n) ->
  calls_registered w0 w ->
  calls_registered w0 (set_nodes (list_update f g (nodes w)) w).
Proof.
  intros Hg [Hs H]. split; [|exact H].
  now rewrite (shape_update w f g Hg).
Qed.

Lemma reg_call w w' :
  calls_registered w0 w -> calls_registered w w' -> calls_registered w0 w'.
Proof.
  intros [Hs (t & Ht & Hall)] [Hs' (t' & Ht' & Hall')].
  split; [congruence|]. exists (t ++ t')%list. split.
  - now rewrite Ht', Ht, app_assoc.
  - apply Forall_app. split; [exact Hall|].
    eapply Forall_impl; [|exact Hall']. intros e. now apply registered_shape.
Qed.

Lemma reg_fireListeners {B} f key flag (k : unit -> M B) Q w :
  calls_registered w0 w ->
  (forall w', calls_registered w0 w' -> wp oof (k tt) Q w') ->
  wp oof (bind (fireListeners f key flag) k) Q w.
Proof.
  intros H Hk. apply wp_bind, wp_fireListeners. intros n Hn.
  apply Hk, reg_events; [|exact H].
  apply Forall_forall. intros e He. unfold field_events in He.
  apply in_map_iff in He as (id & <- & Hid). exists n. auto.
Qed.

Lemma reg_fireAnyListeners {B} f flag (k : unit -> M B) Q w :
  calls_registered w0 w ->
  (forall w', calls_registered w0 w' -> wp oof (k tt) Q w') ->
  wp oof (bind (fireAnyListeners f flag) k) Q w.
Proof.
  intros H Hk. apply wp_bind, wp_fireAnyListeners. intros n Hn.
  apply Hk, reg_events; [|exact H].
  apply Forall_forall. intros e He. unfold any_events in He.
  apply in_map_iff in He as (id & <- & Hid). exists n. auto.
Qed.
End Registered.

(** Walking through a method body with the exact events of the fan-out. *)
Ltac walk_reg w0 run call :=
  lazymatch goal with
  | |- wp _ (ret _) _ _ => apply wp_ret; try assumption
  | |- wp _ (void _) _ _ => apply wp_void; walk_reg w0 run call
  | |- wp _ (throw _) _ _ => apply wp_throw
  | |- wp _ (bind (ret _) _) _ _ => apply wp_bind, wp_ret; walk_reg w0 run call
  | |- wp _ (bind (the_node _) _) _ _ =>
      apply inv_the_node; intros ? ?; walk_reg w0 run call
  | |- wp _ (bind (emit _) _) _ _ =>
      apply inv_emit with (Inv := calls_registered w0);
      [apply reg_enter; assumption | intros ? ?; walk_reg w0 run call]
  | |- wp _ (bind (update_node _ _) _) _ _ =>
      apply inv_update_node with (Inv := calls_registered w0);
      [apply reg_update;
       [intros ?; first [apply skel_with_values | reflexivity] | assumption]
      | intros ? ?; walk_reg w0 run call]
  | |- wp _ (bind fresh _) _ _ =>
      apply inv_fresh with (Inv := calls_registered w0);
      [apply reg_env | assumption | intros ? ? ?; walk_reg w0 run call]
  | |- wp _ (bind (reserve_refs _) _) _ _ =>
      apply inv_reserve_refs with (Inv := calls_registered w0);
      [apply reg_env | assumption | intros ? ?; walk_reg w0 run call]
  | |- wp _ (bind (copy _) _) _ _ =>
      apply inv_copy with (Inv := calls_registered w0);
      [apply reg_env | assumption | intros ? ? ? ? ?; walk_reg w0 run call]
  | |- wp _ (bind (keys_of _) _) _ _ =>
      apply inv_keys_of; intros ? ?; walk_reg w0 run call
  | |- wp _ (bind (lift _) _) _ _ =>
      apply wp_bind, wp_lift;
      [first [apply set_not_OutOfFuel | apply remove_not_OutOfFuel
             | match goal with
               | |- context [match ?x with _ => _ end] => destruct x
               end;
               first [apply set_not_OutOfFuel | apply remove_not_OutOfFuel]]
      | intros ? ?; walk_reg w0 run call]
  | |- wp _ (bind (fireListeners _ _ _) _) _ _ =>
      apply reg_fireListeners with (w0 := w0);
      [assumption | intros ? ?; walk_reg w0 run call]
  | |- wp _ (bind (fireAnyListeners _ _) _) _ _ =>
      apply reg_fireAnyListeners with (w0 := w0);
      [assumption | intros ? ?; walk_reg w0 run call]
  | |- wp _ (bind (when _ _) _) _ _ =>
      apply inv_when with (Inv := calls_registered w0);
      [assumption | intros ?; walk_reg w0 run call
      | intros ? ?; walk_reg w0 run call]
  | |- wp _ (bind (for_each _ _) _) _ _ =>
      apply inv_for_each with (Inv := calls_registered w0);
      [assumption | intros ? ? ? ?; walk_reg w0 run call
      | intros ? ?; walk_reg w0 run call]
  | |- wp _ (bind (match ?x with _ => _ end) _) _ _ =>
      destruct x eqn:?; walk_reg w0 run call
  | |- wp _ (bind (bind _ _) _) _ _ => apply wp_assoc; walk_reg w0 run call
  | |- wp _ (bind (?r _) _) _ _ =>
      first [ constr_eq r run;
              apply inv_call with (Inv := calls_registered w0);
              [call | intros ? ?; walk_reg w0 run call]
            | idtac ]
  | |- wp _ (match ?x with _ => _ end) _ _ =>
      destruct x eqn:?; walk_reg w0 run call
  | |- wp _ (bind _ _) _ _ => idtac
  | |- wp _ _ _ _ => apply wp_end; walk_reg w0 run call
  | |- _ => idtac
  end.

Section RegisteredStep.
Variable w0 : world.
Variable run : call -> M unit.
Hypothesis Hrun : forall c w,
  wp True (run c) (fun _ w' => calls_registered w w') w.

Lemma registered_step c w :
  calls_registered w0 w ->
  wp True (body run c) (fun _ w' => calls_registered w0 w') w.
Proof.
  intros HI. destruct c; cbn [body]; unfold_bodies.
  all: walk_reg w0 run
         ltac:(eapply wp_mono;
               [apply Hrun
               | cbv beta; intros ? ? ?; eapply reg_call; eassumption]).
Qed.
End RegisteredStep.

Lemma events_registered fuel : forall c w,
  wp True (exec fuel c) (fun _ w' => calls_registered w w') w.
Proof.
  induction fuel as [|fuel IH]; intros c w; [exact I|].
  cbn [exec]. apply (registered_step w (nested (exec fuel))).
  - intros c' w'. unfold nested. apply wp_bind.
    eapply wp_mono; [apply IH|]. intros r w2 H2. apply wp_ret, H2.
  - apply reg_refl.
Qed.

Lemma calls_are_registered fuel c w r w' :
  exec fuel c w = Ok (r, w') ->
  exists t, trace w' = (trace w ++ t)%list /\ Forall (registered w) t.
Proof.
  intros E.
  exact (proj2 (wp_result _ _ _ _ _ _ (events_registered fuel c w) E)).
Qed.

(** X5: whatever a method call does, every observer it calls is
    registered at the node it is called for, under the key it is called
    for: no call goes to an identifier that [listen] or [listenAny] has not
    handed out there, or that has been removed. *)
Theorem X5_only_registered_observers fuel c w r w' :
  exec fuel c w = Ok (r, w') ->
  exists t, trace w' = (trace w ++ t)%list /\ Forall (registered w) t.
Proof.
  intros E. now apply (calls_are_registered fuel c w r w').
Qed.

Lemma X5_witness :
  exists t,
    trace (after (setValue 32 1 "city" (VStr "Lyon")) listened_address_form)
    = (trace listened_address_form ++ t)%list /\
    Forall (registered listened_address_form) t.
Proof.
  apply (X5_only_registered_observers 32
           (SetValue 1 "city" (VStr "Lyon") true false true true true)
           listened_address_form (RBool true)).
  vm_compute. reflexivity.
Defined.

(** A sequence of method calls, one after the other. *)
Definition sequence (fuel : nat) (cs : list call) : M unit :=
  for_each cs (nested (exec fuel)).

Lemma sequence_registered fuel cs : forall w w',
  sequence fuel cs w = Ok (tt, w') ->
  shape w' = shape w /\
  exists t, trace w' = (trace w ++ t)%list /\ Forall (registered w) t.
Proof.
  unfold sequence.
  induction cs as [|c cs IH]; intros w w' E; cbn [for_each] in E.
  - injection E as <-. split; [reflexivity|]. exists [].
    now rewrite app_nil_r.
  - unfold bind, nested in E. unfold bind in E.
    destruct (exec fuel c w) as [[r w1]| |] eqn:E1; try discriminate E.
    cbn [ret] in E.
    destruct (wp_result _ _ _ _ _ _ (events_registered fuel c w) E1)
      as (Hs1 & t1 & Ht1 & Hall1).
    destruct (IH w1 w' E) as (Hs2 & t2 & Ht2 & Hall2).
    split; [congruence|]. exists (t1 ++ t2)%list. split.
    + now rewrite Ht2, Ht1, app_assoc.
    + apply Forall_app. split; [exact Hall1|].
      eapply Forall_impl; [|exact Hall2].
      intros e. now apply registered_shape.
Qed.

(** X6: after [ignore(key, id)] no sequence of method calls ever calls
    the observer [id] of [key] again, and after [ignoreAny(id)] none calls
    the "any" observer [id]; [ignore] for a key that never had an observer
    changes nothing. *)
Theorem X6_ignored_is_never_called f key id w me :
  node_at w f = Some me ->
  (exists w1,
     ignore f key id w = Ok (tt, w1) /\
     (assoc_get key (listeners me) = None -> w1 = w) /\
     forall fuel cs w2, sequence fuel cs w1 = Ok (tt, w2) ->
       exists t, trace w2 = (trace w ++ t)%list /\
                 forall flag, ~ In (FieldListener f key id flag) t) /\
  (exists w1,
     ignoreAny f id w = Ok (tt, w1) /\
     forall fuel cs w2, sequence fuel cs w1 = Ok (tt, w2) ->
       exists t, trace w2 = (trace w ++ t)%list /\
                 forall flag, ~ In (AnyListener f id flag) t).
Proof.
  intros Hme. unfold node_at in Hme. split.
  - eexists. split; [apply (ignore_eq f key id w me Hme)|].
    split; [now intros ->|].
    intros fuel cs w2 E.
    destruct (sequence_registered fuel cs _ w2 E) as (_ & t & Ht & Hall).
    exists t. split.
    + rewrite Ht. destruct (assoc_get key (listeners me)); reflexivity.
    + intros flag Hin. rewrite Forall_forall in Hall.
      apply Hall in Hin. destruct Hin as (n & Hn & Hid).
      destruct (assoc_get key (listeners me)) as [ids|] eqn:Hk.
      * rewrite (nth_error_registered_as _ _ _ f w me Hme) in Hn.
        injection Hn as <-. rewrite ids_of_with_listeners_same in Hid.
        exact (remove_id_gone id ids Hid).
      * assert (n = me) by congruence. subst n.
        unfold ids_of in Hid. now rewrite Hk in Hid.
  - eexists. split; [apply (ignoreAny_eq f id w me Hme)|].
    intros fuel cs w2 E.
    destruct (sequence_registered fuel cs _ w2 E) as (_ & t & Ht & Hall).
    exists t. split; [exact Ht|].
    intros flag Hin. rewrite Forall_forall in Hall.
    apply Hall in Hin. destruct Hin as (n & Hn & Hid).
    rewrite (nth_error_registered_as _ _ _ f w me Hme) in Hn.
    injection Hn as <-. exact (remove_id_gone id _ Hid).
Qed.

Lemma X6_witness :
  exists w1,
    ignore 0 "a" 0 scalar_form = Ok (tt, w1) /\
    result_of (sequence 32 [SetValue 0 "a" (VNum 2) true false true true true;
                            SetValues 0 (VObj 9 [("a", VNum 3)]) false true true]
                 w1) = Some tt /\
    forall fuel cs w2, sequence fuel cs w1 = Ok (tt, w2) ->
      exists t, trace w2 = (trace scalar_form ++ t)%list /\
                forall flag, ~ In (FieldListener 0 "a" 0 flag) t.
Proof.
  destruct (X6_ignored_is_never_called 0 "a" 0 scalar_form
              (node_of scalar_form 0) eq_refl) as [(w1 & E & _ & H) _].
  exists w1. split; [exact E|]. split; [|exact H].
  vm_compute in E. injection E as <-. vm_compute. reflexivity.
Defined.

(** ** Invariants of every tree *)

(** [errorMap] holds truthy errors only: [setError] deletes the entry of a
    falsy error. *)
Definition error_ok (n : node) : Prop :=
  Forall (fun kv => truthy (snd kv) = true) (errorMap n).

Definition truthy_errors (w : world) : Prop :=
  forall f n, nth_error (nodes w) f = Some n -> error_ok n.

(** [values] and [defaultValues] are always an object or an array. *)
Definition container (v : value) : bool :=
  match v with VObj _ _ | VArr _ _ => true | _ => false end.

Definition holder (n : node) : Prop :=
  container (values n) = true /\ container (defaultValues n) = true.

Definition containers (w : world) : Prop :=
  forall f n, nth_error (nodes w) f = Some n -> holder n.

Lemma set_container m k v m' : set m k v = Ok m' -> container m' = true.
Proof.
  destruct m; cbn; try discriminate.
  - intros H. now injection H as <-.
  - destruct (array_index k); try discriminate.
    repeat match goal with |- context [if ?b then _ else _] => destruct b end;
      try discriminate; intros H; now injection H as <-.
Qed.

Lemma remove_container m k m' : remove m k = Ok m' -> container m' = true.
Proof.
  destruct m; cbn; try discriminate.
  - intros H. now injection H as <-.
  - destruct (array_index k); try discriminate.
    intros H. now injection H as <-.
Qed.

Lemma written_container m key v a :
  match v with VUndef => remove m key | _ => set m key v end = Ok a ->
  container a = true.
Proof.
  destruct v; first [apply remove_container | apply set_container].
Qed.

Lemma memberCopy_container r v c : memberCopy r v = Ok c -> container c = true.
Proof. destruct v; cbn; try discriminate; intros H; now injection H as <-. Qed.

Lemma Forall_assoc_set {A} (P : string * A -> Prop) k v l :
  (forall k', P (k', v)) -> Forall P l -> Forall P (assoc_set k v l).
Proof.
  intros Hv Hl. induction Hl as [|[k' v'] t Hx Ht IH]; cbn.
  - constructor; auto.
  - destruct (String.eqb k k'); constructor; auto.
Qed.

Lemma Forall_assoc_del {A} (P : string * A -> Prop) k l :
  Forall P l -> Forall P (assoc_del k l).
Proof.
  intros Hl. induction Hl as [|[k' v'] t Hx Ht IH]; cbn; [constructor|].
  destruct (String.eqb k k'); [exact IH | constructor; auto].
Qed.

(** A property of every node that a write keeps. *)
Lemma nodewise_update (P : node -> Prop) w f g :
  (forall n, nth_error (nodes w) f = Some n -> P n -> P (g n)) ->
  (forall i n, nth_error (nodes w) i = Some n -> P n) ->
  forall i n, nth_error (nodes (set_nodes (list_update f g (nodes w)) w)) i
              = Some n -> P n.
Proof.
  intros Hg H i n. cbn [nodes set_nodes]. rewrite nth_error_list_update.
  destruct (Nat.eqb_spec f i) as [<-|_]; [|apply H].
  destruct (nth_error (nodes w) f) as [n0|] eqn:E; [|discriminate].
  cbn. intros Hn. injection Hn as <-. apply Hg; [reflexivity|]. now apply (H f).
Qed.

Lemma holder_with_values b m n :
  container m = true -> holder n -> holder (with_values b m n).
Proof. intros Hm [H1 H2]. destruct b; split; assumption. Qed.

Section TreeInvariants.
Variable run : call -> M unit.
Hypothesis Hrun_err : forall c w, truthy_errors w ->
  wp True (run c) (fun _ w' => truthy_errors w') w.
Hypothesis Hrun_con : forall c w, containers w ->
  wp True (run c) (fun _ w' => containers w') w.

Lemma truthy_errors_step c w :
  truthy_errors w -> wp True (body run c) (fun _ w' => truthy_errors w') w.
Proof.
  intros HI. destruct c; cbn [body]; unfold_bodies.
  all: walk_with truthy_errors run
         ltac:(intros ? ? Hn _; unfold truthy_errors; rewrite Hn; auto)
         ltac:(unfold truthy_errors; apply (nodewise_update error_ok); [|assumption];
               intros ? _ Hok; unfold error_ok in *;
               first [ exact Hok
                     | destruct isDefault; exact Hok
                     | cbn [errorMap with_errorMap];
                       match goal with
                       | |- context [if truthy ?e then _ else _] =>
                           destruct (truthy e) eqn:?
                       end;
                       [apply Forall_assoc_set; [intros ?; assumption | exact Hok]
                       | apply Forall_assoc_del; exact Hok] ])
         ltac:(assumption)
         ltac:(apply Hrun_err; assumption).
Qed.

Lemma containers_step c w :
  containers w -> wp True (body run c) (fun _ w' => containers w') w.
Proof.
  intros HI. destruct c; cbn [body]; unfold_bodies.
  all: walk_with containers run
         ltac:(intros ? ? Hn _; unfold containers; rewrite Hn; auto)
         ltac:(unfold containers; apply (nodewise_update holder); [|assumption];
               intros ? _ Hok;
               first [ exact Hok
                     | apply holder_with_values; [|exact Hok];
                       eapply written_container; eassumption ])
         ltac:(assumption)
         ltac:(apply Hrun_con; assumption).
Qed.
End TreeInvariants.

Lemma exec_truthy_errors fuel : forall c w,
  truthy_errors w -> wp True (exec fuel c) (fun _ w' => truthy_errors w') w.
Proof.
  induction fuel as [|fuel IH]; intros c w H; [exact I|].
  cbn [exec]. apply truthy_errors_step; [|exact H].
  intros c' w' H'. unfold nested. apply wp_bind.
  eapply wp_mono; [apply IH; exact H'|]. intros r w2 H2. apply wp_ret, H2.
Qed.

Lemma exec_containers fuel : forall c w,
  containers w -> wp True (exec fuel c) (fun _ w' => containers w') w.
Proof.
  induction fuel as [|fuel IH]; intros c w H; [exact I|].
  cbn [exec]. apply containers_step; [|exact H].
  intros c' w' H'. unfold nested. apply wp_bind.
  eapply wp_mono; [apply IH; exact H'|]. intros r w2 H2. apply wp_ret, H2.
Qed.

(** The links of the tree: [parent] and [childMap]. *)
Definition links (n : node) : option (nat * string) * list (string * nat) :=
  (parent n, childMap n).

Definition fresh_ids (w : world) : Prop :=
  forall f n, nth_error (nodes w) f = Some n -> ids_fresh n.

Definition tree_ok (w : world) : Prop :=
  well_formed w = true /\ child_links w /\ fresh_ids w /\
  truthy_errors w /\ containers w.

Lemma skel_links n n' : skel n = skel n' -> links n = links n'.
Proof.
  intros H. unfold links.
  pose proof (f_equal parent H) as Hp. pose proof (f_equal childMap H) as Hc.
  cbn in Hp, Hc. congruence.
Qed.

Lemma nodes_ok_links l l' : forall i,
  map links l' = map links l -> nodes_ok i l' = nodes_ok i l.
Proof.
  revert l'. induction l as [|n t IH]; intros [|n' t'] i H; cbn in H;
    try discriminate; [reflexivity|].
  injection H as Hp Hc Ht. cbn [nodes_ok]. rewrite (IH t' (S i) Ht).
  f_equal. unfold node_ok. now rewrite Hp, Hc.
Qed.

Lemma links_at l l' i n :
  map links l' = map links l -> nth_error l i = Some n ->
  exists n', nth_error l' i = Some n' /\ links n' = links n.
Proof.
  intros Hs Hn.
  assert (H : nth_error (map links l) i = Some (links n))
    by (rewrite nth_error_map, Hn; reflexivity).
  rewrite <- Hs, nth_error_map in H.
  destruct (nth_error l' i) as [n'|]; [|discriminate].
  exists n'. split; [reflexivity|]. cbn in H. congruence.
Qed.

Lemma child_links_same w w' :
  map links (nodes w') = map links (nodes w) -> child_links w -> child_links w'.
Proof.
  intros Hs H f n' k c Hn' Hc.
  destruct (links_at _ _ f n' (eq_sym Hs) Hn') as (n & Hn & E).
  unfold links in E. injection E as Ep Ec.
  rewrite <- Ec in Hc.
  destruct (H f n k c Hn Hc) as (cn & Hcn & Hp).
  destruct (links_at _ _ c cn Hs Hcn) as (cn' & Hcn' & E').
  unfold links in E'. injection E' as Ep' _.
  exists cn'. split; [exact Hcn' | congruence].
Qed.

Lemma shape_links w w' :
  shape w' = shape w -> map links (nodes w') = map links (nodes w).
Proof.
  unfold shape. intros H.
  assert (E : forall l, map links l = map links (map skel l)).
  { intros l. rewrite map_map. apply map_ext. intros n.
    apply skel_links. reflexivity. }
  now rewrite (E (nodes w')), (E (nodes w)), H.
Qed.

Lemma ids_fresh_skel n n' : skel n = skel n' -> ids_fresh n -> ids_fresh n'.
Proof.
  intros E [H1 H2]. pose proof (f_equal counter E) as Ec. cbn in Ec.
  split.
  - intros k id. rewrite <- (ids_of_skel n n' k E), <- Ec. apply H1.
  - intros id. rewrite <- (anyListeners_of_skel n n' E), <- Ec. apply H2.
Qed.

Lemma fresh_ids_shape w w' : shape w' = shape w -> fresh_ids w -> fresh_ids w'.
Proof.
  intros Hs H f n' Hn'.
  destruct (nth_error_shape w w' f n' Hs Hn') as (n & Hn & E).
  exact (ids_fresh_skel n n' E (H f n Hn)).
Qed.

(** A method call keeps the invariants. *)
Lemma exec_tree_ok fuel c w r w' :
  tree_ok w -> exec fuel c w = Ok (r, w') -> tree_ok w'.
Proof.
  intros (Hwf & Hl & Hf & He & Hc) E.
  pose proof (wp_result _ _ _ _ _ _ (events_registered fuel c w) E)
    as (Hs & _).
  split; [eapply well_formed_shape; eauto|].
  split; [eapply child_links_same; [apply shape_links|]; eauto|].
  split; [eapply fresh_ids_shape; eauto|].
  split.
  - exact (wp_result _ _ _ _ _ _ (exec_truthy_errors fuel c w He) E).
  - exact (wp_result _ _ _ _ _ _ (exec_containers fuel c w Hc) E).
Qed.

(** *** The registry operations keep the invariants *)

Lemma registered_as_tree_ok l a c f w me :
  tree_ok w -> nth_error (nodes w) f = Some me ->
  ids_fresh (with_listeners l a c me) ->
  tree_ok (registered_as l a c f w).
Proof.
  intros (Hwf & Hl & Hf & He & Hc) Hme Hnew.
  assert (HL : map links (nodes (registered_as l a c f w)) = map links (nodes w)).
  { unfold registered_as. cbn [nodes set_nodes]. apply map_list_update.
    reflexivity. }
  split; [unfold well_formed; now rewrite (nodes_ok_links _ _ 0 HL)|].
  split; [now apply (child_links_same w)|].
  split; [|split].
  - intros i n. destruct (Nat.eq_dec i f) as [->|Hne].
    + rewrite (nth_error_registered_as l a c f w me Hme).
      intros H. now injection H as <-.
    + rewrite (registered_as_other l a c f w i Hne). apply Hf.
  - unfold truthy_errors, registered_as.
    apply (nodewise_update error_ok); [|exact He]. auto.
  - unfold containers, registered_as.
    apply (nodewise_update holder); [|exact Hc]. auto.
Qed.

Lemma ids_fresh_listen me key :
  ids_fresh me ->
  ids_fresh (with_listeners
               (assoc_set key (ids_of me key ++ [counter me])%list (listeners me))
               (anyListeners me) (S (counter me)) me).
Proof.
  intros [F1 F2]. split; cbn [counter with_listeners anyListeners].
  - intros k id. destruct (String.eqb_spec k key) as [->|Hne].
    + rewrite ids_of_with_listeners_same. intros Hin.
      apply in_app_or in Hin as [Hin|[<-|[]]]; [|lia].
      apply F1 in Hin. lia.
    + rewrite ids_of_with_listeners_other by exact Hne.
      intros Hin. apply F1 in Hin. lia.
  - intros id Hin. apply F2 in Hin. lia.
Qed.

Lemma ids_fresh_listenAny me :
  ids_fresh me ->
  ids_fresh (with_listeners (listeners me) (anyListeners me ++ [counter me])%list
                            (S (counter me)) me).
Proof.
  intros [F1 F2]. split; cbn [counter with_listeners anyListeners].
  - intros k id Hin. change (In id (ids_of me k)) in Hin.
    apply F1 in Hin. lia.
  - intros id Hin. apply in_app_or in Hin as [Hin|[<-|[]]]; [|lia].
    apply F2 in Hin. lia.
Qed.

Lemma In_remove_id x id ids : In x (remove_id id ids) -> In x ids.
Proof. unfold remove_id. rewrite filter_In. tauto. Qed.

Lemma ids_fresh_ignore me key id ids :
  assoc_get key (listeners me) = Some ids ->
  ids_fresh me ->
  ids_fresh (with_listeners (assoc_set key (remove_id id ids) (listeners me))
                            (anyListeners me) (counter me) me).
Proof.
  intros Hk [F1 F2]. split; cbn [counter with_listeners anyListeners]; [|exact F2].
  intros k x. destruct (String.eqb_spec k key) as [->|Hne].
  - rewrite ids_of_with_listeners_same. intros Hin. apply In_remove_id in Hin.
    apply (F1 key). unfold ids_of. now rewrite Hk.
  - rewrite ids_of_with_listeners_other by exact Hne. apply F1.
Qed.

Lemma ids_fresh_ignoreAny me id :
  ids_fresh me ->
  ids_fresh (with_listeners (listeners me) (remove_id id (anyListeners me))
                            (counter me) me).
Proof.
  intros [F1 F2]. split; cbn [counter with_listeners anyListeners].
  - intros k x Hin. change (In x (ids_of me k)) in Hin. now apply (F1 k).
  - intros x Hin. apply In_remove_id in Hin. now apply F2.
Qed.

(** *** The constructors keep the invariants *)

Definition blank_node (id : nat) (check : option (nat -> value -> value))
    (onChange : bool) (v d s : value) (up : option (nat * string)) : node :=
  mkNode id check onChange v d [] [] [] s [] [] 0 up.

Lemma construct_inv vals defaults st check onChange up w h w' :
  construct vals defaults st check onChange up w = Ok (h, w') ->
  exists v d s,
    memberCopy (nextRef w) vals = Ok v /\
    memberCopy (S (nextRef w)) defaults = Ok d /\
    memberCopy (S (S (nextRef w))) st = Ok s /\
    h = List.length (nodes w) /\
    w' = mkWorld (nodes w ++ [blank_node (S (formCounter w)) check onChange
                                         v d s up])%list
                 (S (formCounter w)) (S (S (S (nextRef w)))) (trace w).
Proof.
  unfold construct, copy, bind, next_formId, fresh, lift, push_node. cbn.
  destruct (memberCopy (nextRef w) vals) as [v| |]; try discriminate. cbn.
  destruct (memberCopy (S (nextRef w)) defaults) as [d| |]; try discriminate.
  cbn.
  destruct (memberCopy (S (S (nextRef w))) st) as [s| |]; try discriminate.
  cbn. intros H. injection H as <- <-. exists v, d, s. auto.
Qed.

Lemma blank_node_fresh id check onChange v d s up :
  ids_fresh (blank_node id check onChange v d s up).
Proof. split; [intros k x []|intros x []]. Qed.

Lemma append_tree_ok w n fc nr t :
  tree_ok w -> parent n = None -> childMap n = [] ->
  ids_fresh n -> error_ok n -> holder n ->
  tree_ok (mkWorld (nodes w ++ [n])%list fc nr t).
Proof.
  intros (Hwf & Hl & Hf & He & Hc) Hp Hcm Hn1 Hn2 Hn3.
  assert (Hnth : forall i x,
            nth_error (nodes w ++ [n]) i = Some x ->
            nth_error (nodes w) i = Some x \/ (i = List.length (nodes w) /\ x = n)).
  { intros i x. destruct (Nat.lt_ge_cases i (List.length (nodes w))) as [Hi|Hi].
    - rewrite nth_error_app1 by exact Hi. auto.
    - rewrite nth_error_app2 by exact Hi.
      destruct (i - List.length (nodes w)) as [|[|j]] eqn:E; cbn;
        try discriminate.
      intros H. injection H as <-. right. split; [lia|reflexivity]. }
  split; [|split; [|split; [|split]]].
  - unfold well_formed in *. cbn [nodes]. rewrite nodes_ok_iff in Hwf |- *.
    intros j x Hx. destruct (Hnth j x Hx) as [H|[-> ->]]; [now apply Hwf|].
    unfold node_ok. now rewrite Hp, Hcm.
  - intros f x k c Hx Hk. cbn [nodes] in *.
    destruct (Hnth f x Hx) as [H|[-> ->]].
    + destruct (Hl f x k c H Hk) as (cn & Hcn & Hpar). exists cn.
      split; [|exact Hpar]. rewrite nth_error_app1; [exact Hcn|].
      apply nth_error_Some. congruence.
    + rewrite Hcm in Hk. discriminate.
  - intros f x Hx. destruct (Hnth f x Hx) as [H|[-> ->]]; eauto.
  - intros f x Hx. destruct (Hnth f x Hx) as [H|[-> ->]]; eauto.
  - intros f x Hx. destruct (Hnth f x Hx) as [H|[-> ->]]; eauto.
Qed.

Lemma attach_nth p name child l pn i x :
  nth_error l p = Some pn ->
  nth_error (attach p name child l) i = Some x ->
  (i = p /\ x = with_childMap (assoc_set name (List.length l) (childMap pn)) pn)
  \/ (i <> p /\ nth_error l i = Some x)
  \/ (i = List.length l /\ x = child).
Proof.
  intros Hp. unfold attach. rewrite nth_error_list_update.
  assert (Hlt : p < List.length l) by (apply nth_error_Some; congruence).
  destruct (Nat.eqb_spec p i) as [<-|Hne].
  - rewrite nth_error_app1, Hp by exact Hlt. cbn. intros H.
    injection H as <-. now left.
  - destruct (Nat.lt_ge_cases i (List.length l)) as [Hi|Hi].
    + rewrite nth_error_app1 by exact Hi. intros H. right. left. split; auto.
    + rewrite nth_error_app2 by exact Hi.
      destruct (i - List.length l) as [|[|j]] eqn:E; cbn; try discriminate.
      intros H. injection H as <-. right. right. split; [lia|reflexivity].
Qed.

Lemma attach_keeps_parent p name child l c cn :
  nth_error l c = Some cn ->
  exists cn', nth_error (attach p name child l) c = Some cn' /\
              parent cn' = parent cn.
Proof.
  intros Hc. unfold attach. rewrite nth_error_list_update.
  assert (Hlt : c < List.length l) by (apply nth_error_Some; congruence).
  rewrite nth_error_app1, Hc by exact Hlt.
  destruct (Nat.eqb p c); cbn; eauto.
Qed.

Lemma attach_new p name child l :
  p < List.length l ->
  nth_error (attach p name child l) (List.length l) = Some child.
Proof.
  intros Hlt. unfold attach. rewrite nth_error_list_update.
  destruct (Nat.eqb_spec p (List.length l)) as [E|_]; [lia|].
  now rewrite nth_error_app2, Nat.sub_diag by lia.
Qed.

Lemma attach_tree_ok w p name child pn fc nr t :
  tree_ok w -> nth_error (nodes w) p = Some pn ->
  parent child = Some (p, name) -> childMap child = [] ->
  ids_fresh child -> error_ok child -> holder child ->
  tree_ok (mkWorld (attach p name child (nodes w)) fc nr t).
Proof.
  intros (Hwf & Hl & Hf & He & Hc) Hp Hpar Hcm Hn1 Hn2 Hn3.
  assert (Hlt : p < List.length (nodes w)) by (apply nth_error_Some; congruence).
  split; [|split; [|split; [|split]]].
  - unfold well_formed. cbn [nodes]. eapply attach_well_formed; eauto.
  - intros f x k c Hx Hk. cbn [nodes] in *.
    destruct (attach_nth p name child _ pn f x Hp Hx)
      as [[-> ->]|[[Hne H]|[-> ->]]].
    + cbn [childMap with_childMap] in Hk.
      destruct (String.eqb_spec k name) as [->|Hkn].
      * rewrite assoc_get_set_same in Hk. injection Hk as <-.
        exists child. split; [now apply attach_new | exact Hpar].
      * rewrite assoc_get_set_other in Hk by exact Hkn.
        destruct (Hl p pn k c Hp Hk) as (cn & Hcn & Hcp).
        destruct (attach_keeps_parent p name child _ c cn Hcn) as (cn' & H1 & H2).
        exists cn'. split; [exact H1 | congruence].
    + destruct (Hl f x k c H Hk) as (cn & Hcn & Hcp).
      destruct (attach_keeps_parent p name child _ c cn Hcn) as (cn' & H1 & H2).
      exists cn'. split; [exact H1 | congruence].
    + rewrite Hcm in Hk. discriminate.
  - intros f x Hx. cbn [nodes] in Hx.
    destruct (attach_nth p name child _ pn f x Hp Hx)
      as [[-> ->]|[[Hne H]|[-> ->]]]; eauto.
    exact (Hf p pn Hp).
  - intros f x Hx. cbn [nodes] in Hx.
    destruct (attach_nth p name child _ pn f x Hp Hx)
      as [[-> ->]|[[Hne H]|[-> ->]]]; eauto.
    exact (He p pn Hp).
  - intros f x Hx. cbn [nodes] in Hx.
    destruct (attach_nth p name child _ pn f x Hp Hx)
      as [[-> ->]|[[Hne H]|[-> ->]]]; eauto.
    exact (Hc p pn Hp).
Qed.

Lemma new_ChildFormState_inv p name w h w' :
  new_ChildFormState p name w = Ok (h, w') ->
  exists pn v d s,
    nth_error (nodes w) p = Some pn /\
    container v = true /\ container d = true /\
    h = List.length (nodes w) /\
    w' = mkWorld (attach p name
                    (blank_node (S (formCounter w)) None true v d s
                                (Some (p, name)))
                    (nodes w))
                 (S (formCounter w)) (S (S (S (S (S (nextRef w))))))
                 (trace w).
Proof.
  intros H.
  destruct (nth_error (nodes w) p) as [pn|] eqn:Hp.
  2:{ unfold new_ChildFormState, bind, the_node in H. rewrite Hp in H.
      discriminate. }
  destruct (memberCopy (S (S (nextRef w)))
              (or_empty (nextRef w) (get (values pn) name))) as [v| |] eqn:Ev.
  2,3: unfold new_ChildFormState, construct, copy, bind, the_node, fresh,
         next_formId, lift in H; rewrite Hp in H; cbn in H; rewrite Ev in H;
       discriminate.
  destruct (memberCopy (S (S (S (nextRef w))))
              (or_empty (S (nextRef w)) (get (defaultValues pn) name)))
    as [d| |] eqn:Ed.
  2,3: unfold new_ChildFormState, construct, copy, bind, the_node, fresh,
         next_formId, lift in H; rewrite Hp in H; cbn in H; rewrite Ev in H;
       cbn in H; rewrite Ed in H; discriminate.
  destruct (memberCopy (S (S (S (S (nextRef w))))) (state pn)) as [s| |] eqn:Es.
  2,3: unfold new_ChildFormState, construct, copy, bind, the_node, fresh,
         next_formId, lift in H; rewrite Hp in H; cbn in H; rewrite Ev in H;
       cbn in H; rewrite Ed in H; cbn in H; rewrite Es in H; discriminate.
  rewrite (new_ChildFormState_eq w p name pn v d s Hp Ev Ed Es) in H.
  injection H as <- <-. exists pn, v, d, s.
  split; [reflexivity|].
  split; [eapply memberCopy_container; eauto|].
  split; [eapply memberCopy_container; eauto|]. split; reflexivity.
Qed.

(** *** Every tree built through the interface *)

Inductive action : Type :=
| NewForm (vals defaults st : value) (check : option (nat -> value -> value))
| NewChild (p : nat) (name : string)
| Listen (f : nat) (key : string)
| ListenAny (f : nat)
| Ignore (f : nat) (key : string) (id : nat)
| IgnoreAny (f : nat) (id : nat)
| Call (fuel : nat) (c : call)
| Reset (fuel f : nat) (key : string)
| ResetAll (fuel f : nat).

Definition perform (a : action) : M unit :=
  match a with
  | NewForm v d s check => new_FormState v d s check ;;; ret tt
  | NewChild p name => new_ChildFormState p name ;;; ret tt
  | Listen f key => listen f key ;;; ret tt
  | ListenAny f => listenAny f ;;; ret tt
  | Ignore f key id => ignore f key id
  | IgnoreAny f id => ignoreAny f id
  | Call fuel c => exec fuel c ;;; ret tt
  | Reset fuel f key => reset fuel f key ;;; ret tt
  | ResetAll fuel f => resetAll fuel f ;;; ret tt
  end.

Lemma bind_ret_inv {A} (m : M A) w w' :
  (m ;;; ret tt) w = Ok (tt, w') -> exists a, m w = Ok (a, w').
Proof.
  unfold bind, ret. destruct (m w) as [[a w1]| |]; try discriminate.
  intros H. injection H as <-. eauto.
Qed.

Lemma list_update_out {A} (g : A -> A) l i :
  nth_error l i = None -> list_update i g l = l.
Proof.
  revert i. induction l as [|x t IH]; intros [|i] H; cbn in *;
    try discriminate; try reflexivity.
  f_equal. auto.
Qed.

Lemma perform_tree_ok a w w' :
  tree_ok w -> perform a w = Ok (tt, w') -> tree_ok w'.
Proof.
  intros Hok H. pose proof Hok as (Hwf & Hl & Hf & He & Hc).
  destruct a; cbn [perform] in H.
  - apply bind_ret_inv in H as [h H]. unfold new_FormState in H.
    apply construct_inv in H as (v & d & s & Ev & Ed & _ & _ & ->).
    apply append_tree_ok; auto.
    + apply blank_node_fresh.
    + constructor.
    + split; eapply memberCopy_container; eauto.
  - apply bind_ret_inv in H as [h H].
    apply new_ChildFormState_inv in H as (pn & v & d & s & Hp & Hv & Hd & _ & ->).
    apply (attach_tree_ok w p name _ pn); auto.
    + apply blank_node_fresh.
    + constructor.
    + split; assumption.
  - apply bind_ret_inv in H as [h H].
    destruct (nth_error (nodes w) f) as [me|] eqn:Hme.
    + rewrite (listen_eq f key w me Hme) in H. injection H as _ <-.
      apply (registered_as_tree_ok _ _ _ f w me Hok Hme).
      apply ids_fresh_listen. exact (Hf f me Hme).
    + unfold listen, bind, the_node in H. rewrite Hme in H. discriminate.
  - apply bind_ret_inv in H as [h H].
    destruct (nth_error (nodes w) f) as [me|] eqn:Hme.
    + rewrite (listenAny_eq f w me Hme) in H. injection H as _ <-.
      apply (registered_as_tree_ok _ _ _ f w me Hok Hme).
      apply ids_fresh_listenAny. exact (Hf f me Hme).
    + unfold listenAny, bind, the_node in H. rewrite Hme in H. discriminate.
  - destruct (nth_error (nodes w) f) as [me|] eqn:Hme.
    + rewrite (ignore_eq f key id w me Hme) in H. injection H as <-.
      destruct (assoc_get key (listeners me)) as [ids|] eqn:Hk; [|exact Hok].
      apply (registered_as_tree_ok _ _ _ f w me Hok Hme).
      apply ids_fresh_ignore; [exact Hk | exact (Hf f me Hme)].
    + unfold ignore, bind, the_node in H. rewrite Hme in H. discriminate.
  - destruct (nth_error (nodes w) f) as [me|] eqn:Hme.
    + rewrite (ignoreAny_eq f id w me Hme) in H. injection H as <-.
      apply (registered_as_tree_ok _ _ _ f w me Hok Hme).
      apply ids_fresh_ignoreAny. exact (Hf f me Hme).
    + unfold ignoreAny, update_node in H.
      rewrite (list_update_out _ _ _ Hme) in H. injection H as <-.
      destruct w. exact Hok.
  - apply bind_ret_inv in H as [r H]. exact (exec_tree_ok fuel c w r w' Hok H).
  - apply bind_ret_inv in H as [r H]. unfold reset, bind, the_node in H.
    destruct (nth_error (nodes w) f) as [me|]; [|discriminate].
    destruct (exec fuel _ w) as [[r0 w0]| |] eqn:E; try discriminate H.
    injection H as _ <-.
    exact (exec_tree_ok _ _ w r0 w0 Hok E).
  - apply bind_ret_inv in H as [r H]. unfold resetAll, bind, the_node in H.
    destruct (nth_error (nodes w) f) as [me|]; [|discriminate].
    exact (exec_tree_ok _ _ w r w' Hok H).
Qed.

Lemma empty_tree_ok : tree_ok empty_world.
Proof.
  split; [reflexivity|]. split; [|split; [|split]].
  - intros [|f] n k c H; discriminate H.
  - intros [|f] n H; discriminate H.
  - intros [|f] n H; discriminate H.
  - intros [|f] n H; discriminate H.
Qed.

(** X7: the invariants of a tree.  Whatever sequence of constructors,
    [listen]/[ignore] calls and completed method calls has built it,
    (1) a parent has an earlier handle than its children and a child map
    entry leads to a later node, (2) the node under [childMap[name]] has
    this node as [parent] and [name] as its name, (3) every registered
    observer identifier is below the node's counter, (4) [errorMap] holds
    truthy errors only, and (5) [values] and [defaultValues] are an array
    or an object. *)
Theorem X7_built_trees_are_sound acts w :
  for_each acts perform empty_world = Ok (tt, w) -> tree_ok w.
Proof.
  generalize empty_tree_ok. generalize empty_world as w0.
  induction acts as [|a acts IH]; intros w0 H0 H; cbn [for_each] in H.
  - injection H as <-. exact H0.
  - unfold bind in H. destruct (perform a w0) as [[[] w1]| |] eqn:E;
      try discriminate.
    exact (IH w1 (perform_tree_ok a w0 w1 H0 E) H).
Qed.

Definition family_script : list action :=
  [ NewForm (VObj 0 [("address", VObj 1 [("geo", VObj 2 [("lat", VNum 1)])])])
            (VObj 3 []) (VObj 4 []) None;
    Listen 0 "address";
    NewChild 0 "address";
    NewChild 1 "geo";
    ListenAny 2;
    Call 64 (SetValue 2 "lat" (VNum 2) true false true true true);
    Call 64 (SetError 1 "geo" (VStr "far away") true true true);
    Ignore 0 "address" 0;
    ResetAll 64 0 ].

Lemma X7_witness :
  tree_ok (after (for_each family_script perform) empty_world) /\
  List.length (nodes (after (for_each family_script perform) empty_world)) = 3.
Proof.
  split; [|vm_compute; reflexivity].
  apply (X7_built_trees_are_sound family_script).
  vm_compute. reflexivity.
Defined.

(** ** The error channel *)

Lemma runs_emit e (Q : unit -> world -> Prop) w :
  Q tt (add_event e w) -> runs (emit e) Q w.
Proof. exact (fun H => H). Qed.

Lemma runs_fresh (Q : nat -> world -> Prop) w :
  Q (nextRef w) (mkWorld (nodes w) (formCounter w) (S (nextRef w)) (trace w)) ->
  runs fresh Q w.
Proof. exact (fun H => H). Qed.

Lemma runs_when (b : bool) (m : M unit) (Q : unit -> world -> Prop) w :
  (b = true -> runs m Q w) -> (b = false -> Q tt w) -> runs (when b m) Q w.
Proof. destruct b; cbn; auto. Qed.

Lemma runs_for_each {A} (l : list A) (body : A -> M unit)
    (Inv : world -> Prop) w :
  Inv w ->
  (forall x w1, In x l -> Inv w1 -> runs (body x) (fun _ w2 => Inv w2) w1) ->
  runs (for_each l body) (fun _ w' => Inv w') w.
Proof.
  revert w. induction l as [|x t IH]; intros w Hw Hb; cbn [for_each].
  - exact Hw.
  - apply runs_bind. eapply runs_mono.
    + apply Hb; [now left | exact Hw].
    + cbv beta. intros _ w1 H1. apply IH; [exact H1|].
      intros y w2 Hy. apply Hb. now right.
Qed.

Lemma runs_keys_of v ks (Q : list string -> world -> Prop) w :
  object_keys v = Some ks -> Q ks w -> runs (keys_of v) Q w.
Proof. intros E H. unfold runs, keys_of. now rewrite E. Qed.

(** Every child map entry leads to a node of the tree. *)
Definition closed (w : world) : Prop :=
  forall f n k c,
    nth_error (nodes w) f = Some n -> assoc_get k (childMap n) = Some c ->
    c < List.length (nodes w).

Lemma child_links_closed w : child_links w -> closed w.
Proof.
  intros H f n k c Hn Hc. destruct (H f n k c Hn Hc) as (cn & Hcn & _).
  apply nth_error_Some. congruence.
Qed.

Lemma closed_shape w w' : shape w' = shape w -> closed w -> closed w'.
Proof.
  intros Hs H f n' k c Hn' Hc.
  destruct (nth_error_shape w w' f n' Hs Hn') as (n & Hn & E).
  rewrite (shape_length w w' Hs).
  apply (H f n k c Hn). pose proof (f_equal childMap E) as Ec. cbn in Ec.
  now rewrite Ec.
Qed.

Lemma object_keys_or_empty r e : exists ks, object_keys (or_empty r e) = Some ks.
Proof. destruct e; cbn; eauto. Qed.

(** The calls of the error channel, on nodes of the tree. *)
Definition error_call (c : call) (w : world) : Prop :=
  match c with
  | SetError f _ _ _ _ _ | UpdateParentErrors f => f < List.length (nodes w)
  | SetErrors f es _ _ =>
      f < List.length (nodes w) /\ object_keys es <> None
  | _ => False
  end.

Definition linked (w : world) : Prop := well_formed w = true /\ closed w.

Definition same_shape (w w' : world) : Prop := shape w' = shape w.

Lemma linked_shape w w' : linked w -> same_shape w w' -> linked w'.
Proof.
  intros [H1 H2] Hs. split; [eapply well_formed_shape | eapply closed_shape];
    eauto.
Qed.

Lemma same_shape_node w w' f :
  same_shape w w' -> f < List.length (nodes w) ->
  exists n', nth_error (nodes w') f = Some n'.
Proof.
  intros Hs Hf. destruct (nth_error (nodes w') f) as [n'|] eqn:E; eauto.
  apply nth_error_None in E. rewrite (shape_length w w' Hs) in E. lia.
Qed.

Lemma same_shape_trans w1 w2 w3 :
  same_shape w1 w2 -> same_shape w2 w3 -> same_shape w1 w3.
Proof. unfold same_shape. congruence. Qed.

Lemma same_shape_env w w' : nodes w' = nodes w -> same_shape w w'.
Proof. unfold same_shape, shape. now intros ->. Qed.

Lemma same_shape_update w f g :
  (forall n, skel (g n) = skel n) ->
  same_shape w (set_nodes (list_update f g (nodes w)) w).
Proof. intros H. now apply shape_update. Qed.

Section ErrorRuns.
Variable run : call -> M unit.
Hypothesis Hrun : forall c w, linked w -> error_call c w ->
  runs (run c) (fun _ w' => same_shape w w') w.

Lemma run_error c w0 w :
  linked w0 -> same_shape w0 w ->
  (List.length (nodes w0) = List.length (nodes w) -> error_call c w) ->
  runs (run c) (fun _ w' => same_shape w0 w') w.
Proof.
  intros HL Hs Hc. eapply runs_mono.
  - apply Hrun; [exact (linked_shape w0 w HL Hs)|].
    apply Hc. symmetry. now apply shape_length.
  - cbv beta. intros _ w' H. exact (same_shape_trans w0 w w' Hs H).
Qed.

Lemma updateParentErrors_runs f w :
  linked w -> f < List.length (nodes w) ->
  runs (updateParentErrors_body run f) (fun _ w' => same_shape w w') w.
Proof.
  intros HL Hf. pose proof HL as [Hwf _].
  destruct (nth_error (nodes w) f) as [me|] eqn:Hme;
    [|apply nth_error_None in Hme; lia].
  unfold updateParentErrors_body.
  apply runs_bind, (runs_the_node f me); [exact Hme|].
  destruct (parent me) as [[p name]|] eqn:Hp.
  - pose proof (parent_below w f me p name Hwf Hme Hp) as Hlt.
    apply runs_bind. destruct (error me).
    + apply runs_bind, runs_fresh. apply runs_ret.
      apply (run_error _ w); [exact HL | now apply same_shape_env|].
      cbn. intros _. lia.
    + apply runs_ret. apply (run_error _ w); [exact HL | reflexivity|].
      cbn. intros _. lia.
  - apply runs_ret. reflexivity.
Qed.

Lemma fire_and_notify f key np fa w0 w :
  linked w0 -> same_shape w0 w -> f < List.length (nodes w0) ->
  runs (fireListeners f key false ;;;
        when fa (when np (run (UpdateParentErrors f)) ;;;
                 fireAnyListeners f false))
    (fun _ w' => same_shape w0 w') w.
Proof.
  intros HL Hs Hf.
  destruct (same_shape_node w0 w f Hs Hf) as [n Hn].
  apply runs_bind, (runs_fireListeners f key false n); [exact Hn|].
  set (w1 := add_events _ w).
  assert (H1 : same_shape w0 w1) by exact Hs.
  apply runs_when; [intros _|intros _; exact H1].
  apply runs_bind.
  apply (runs_mono _ (fun _ w2 => same_shape w0 w2)).
  { apply runs_when; [intros _|intros _; exact H1].
    apply run_error; [exact HL | exact H1|]. cbn. intros <-. exact Hf. }
  cbv beta. intros _ w2 H2.
  destruct (same_shape_node w0 w2 f H2 Hf) as [n2 Hn2].
  apply (runs_fireAnyListeners f false n2); [exact Hn2|]. exact H2.
Qed.

Lemma setError_runs f key e nc np fa w :
  linked w -> f < List.length (nodes w) ->
  runs (setError_body run f key e nc np fa) (fun _ w' => same_shape w w') w.
Proof.
  intros HL Hf. pose proof HL as [Hwf Hcl].
  destruct (nth_error (nodes w) f) as [me|] eqn:Hme;
    [|apply nth_error_None in Hme; lia].
  unfold setError_body.
  apply runs_bind, (runs_the_node f me); [exact Hme|].
  destruct (strict_eq _ e); [apply runs_ret; reflexivity|].
  apply runs_bind, runs_update_node.
  set (w1 := set_nodes _ w).
  assert (H1 : same_shape w w1) by (apply same_shape_update; reflexivity).
  apply runs_bind.
  apply (runs_mono _ (fun _ w2 => same_shape w w2)).
  { apply runs_when; [intros _|intros _; exact H1].
    destruct (assoc_get key (childMap me)) as [child|] eqn:Hch;
      [|apply runs_ret; exact H1].
    apply runs_bind, runs_fresh.
    apply (run_error _ w); [exact HL | exact H1|].
    intros E. split; [rewrite <- E; exact (Hcl f me key child Hme Hch)|].
    destruct (object_keys_or_empty (nextRef w1) e) as [ks ->]. discriminate. }
  cbv beta. intros _ w2 H2.
  now apply fire_and_notify.
Qed.

Lemma setErrors_runs f es nc np w :
  linked w -> f < List.length (nodes w) -> object_keys es <> None ->
  runs (setErrors_body run f es nc np) (fun _ w' => same_shape w w') w.
Proof.
  intros HL Hf Hes.
  destruct (nth_error (nodes w) f) as [me|] eqn:Hme;
    [|apply nth_error_None in Hme; lia].
  destruct (object_keys es) as [ks|] eqn:Hks; [|congruence].
  unfold setErrors_body.
  apply runs_bind, runs_emit.
  apply runs_bind, (runs_the_node f me); [exact Hme|].
  apply runs_bind, (runs_keys_of es ks); [exact Hks|].
  set (w1 := add_event _ w).
  assert (H1 : same_shape w w1) by reflexivity.
  apply runs_bind.
  apply (runs_mono _ (fun _ w2 => same_shape w w2)).
  { apply runs_for_each; [exact H1|].
    intros x wk _ Hk. apply run_error; [exact HL | exact Hk|].
    cbn. intros <-. exact Hf. }
  cbv beta. intros _ w2 H2.
  apply runs_bind.
  apply (runs_mono _ (fun _ w3 => same_shape w w3)).
  { apply runs_when; [intros _|intros _; exact H2].
    apply run_error; [exact HL | exact H2|]. cbn. intros <-. exact Hf. }
  cbv beta. intros _ w3 H3.
  destruct (same_shape_node w w3 f H3 Hf) as [n3 Hn3].
  apply (runs_fireAnyListeners f false n3); [exact Hn3|]. exact H3.
Qed.

Lemma error_step c w :
  linked w -> error_call c w ->
  runs (body run c) (fun _ w' => same_shape w w') w.
Proof.
  intros HL Hc. destruct c; cbn [error_call] in Hc; try contradiction;
    cbn [body]; unfold void; apply runs_bind.
  - eapply runs_mono; [now apply setError_runs|].
    cbv beta. intros _ w' H. exact H.
  - destruct Hc as [Hf Hes]. eapply runs_mono; [now apply setErrors_runs|].
    cbv beta. intros _ w' H. exact H.
  - eapply runs_mono; [now apply updateParentErrors_runs|].
    cbv beta. intros _ w' H. exact H.
Qed.
End ErrorRuns.

Lemma error_calls_run fuel : forall c w,
  linked w -> error_call c w ->
  runs (exec fuel c) (fun _ w' => same_shape w w') w.
Proof.
  induction fuel as [|fuel IH]; intros c w HL Hc; [exact I|].
  cbn [exec]. apply (error_step (nested (exec fuel))); auto.
  intros c' w' HL' Hc'. unfold nested. apply runs_bind.
  eapply runs_mono; [apply IH; assumption|].
  cbv beta. intros r w2 H. exact H.
Qed.

(** [this.errorMap[key]] *)
Definition stored_error (m : list (string * value)) (key : string) : value :=
  match assoc_get key m with Some x => x | None => VUndef end.

(** What [setError(key, e)] makes of the error map. *)
Definition set_error (key : string) (e : value) (m : list (string * value))
  : list (string * value) :=
  if strict_eq (stored_error m key) e then m
  else if truthy e then assoc_set key e m else assoc_del key m.

Definition has_entry (name : string) (n : node) : bool :=
  match assoc_get name (errorMap n) with Some _ => true | None => false end.

Lemma strict_eq_truthy a b : strict_eq a b = true -> truthy a = truthy b.
Proof.
  destruct a, b; cbn; try discriminate; try reflexivity; intros H.
  - apply Bool.eqb_prop in H. now subst.
  - apply Z.eqb_eq in H. now subst.
  - apply String.eqb_eq in H. now subst.
Qed.

Lemma strict_eq_refl v : strict_eq v v = true.
Proof.
  destruct v; cbn; auto using Bool.eqb_reflx, Z.eqb_refl, String.eqb_refl,
    Nat.eqb_refl.
Qed.

Lemma assoc_get_truthy key (m : list (string * value)) x :
  Forall (fun kv => truthy (snd kv) = true) m ->
  assoc_get key m = Some x -> truthy x = true.
Proof.
  intros H Hx. apply assoc_get_In in Hx. rewrite Forall_forall in H.
  exact (H _ Hx).
Qed.

(** After [setError(key, e)] the entry is there exactly when [e] is
    truthy, and then it is [e]. *)
Lemma set_error_entry key e m :
  Forall (fun kv => truthy (snd kv) = true) m ->
  match assoc_get key (set_error key e m) with
  | Some x => truthy e = true /\ strict_eq x e = true
  | None => truthy e = false
  end.
Proof.
  intros Hm. unfold set_error, stored_error.
  destruct (assoc_get key m) as [x|] eqn:Hx.
  - destruct (strict_eq x e) eqn:Heq.
    + rewrite Hx. split; [|exact Heq].
      rewrite <- (strict_eq_truthy x e Heq). eapply assoc_get_truthy; eauto.
    + destruct (truthy e) eqn:Ht.
      * rewrite assoc_get_set_same. split; [reflexivity | apply strict_eq_refl].
      * now rewrite assoc_get_del_same.
  - destruct (strict_eq VUndef e) eqn:Heq.
    + rewrite Hx. now rewrite <- (strict_eq_truthy VUndef e Heq).
    + destruct (truthy e) eqn:Ht.
      * rewrite assoc_get_set_same. split; [reflexivity | apply strict_eq_refl].
      * now rewrite assoc_get_del_same.
Qed.

Lemma has_entry_set_error key e n n' :
  error_ok n -> errorMap n' = set_error key e (errorMap n) ->
  has_entry key n' = truthy e.
Proof.
  intros Hok E. unfold has_entry. rewrite E.
  pose proof (set_error_entry key e (errorMap n) Hok) as H.
  destruct (assoc_get key (set_error key e (errorMap n))).
  - now destruct H as [-> _].
  - now rewrite H.
Qed.

(** The calls of an error that goes up only. *)
Definition err_up (c : call) (w : world) : Prop :=
  match c with
  | SetError f key _ nc _ _ =>
      nc = false \/
      forall n, nth_error (nodes w) f = Some n ->
                assoc_get key (childMap n) = None
  | UpdateParentErrors _ => True
  | _ => False
  end.

Definition err_post (c : call) (w w' : world) : Prop :=
  shape w' = shape w /\ truthy_errors w' /\
  match c with
  | SetError f key e nc np fa =>
      (forall i, f < i -> nth_error (nodes w') i = nth_error (nodes w) i) /\
      forall n, nth_error (nodes w) f = Some n ->
        exists n', nth_error (nodes w') f = Some n' /\
          errorMap n' = set_error key e (errorMap n) /\
          data n' = data n /\
          (np = true -> fa = true ->
           strict_eq (stored_error (errorMap n) key) e = false ->
           forall p name, parent n = Some (p, name) ->
             exists pn', nth_error (nodes w') p = Some pn' /\
                         has_entry name pn' = error n')
  | UpdateParentErrors f =>
      (forall i, f <= i -> nth_error (nodes w') i = nth_error (nodes w) i) /\
      forall n p name,
        nth_error (nodes w) f = Some n -> parent n = Some (p, name) ->
        exists pn', nth_error (nodes w') p = Some pn' /\
                    has_entry name pn' = error n
  | _ => True
  end.

Lemma truthy_errors_env w w' :
  nodes w' = nodes w -> truthy_errors w -> truthy_errors w'.
Proof. unfold truthy_errors. now intros ->. Qed.

Lemma error_ok_set_error key e n :
  error_ok n ->
  error_ok (with_errorMap (if truthy e then assoc_set key e (errorMap n)
                           else assoc_del key (errorMap n)) n).
Proof.
  unfold error_ok. cbn [errorMap with_errorMap]. intros H.
  destruct (truthy e) eqn:Ht.
  - apply Forall_assoc_set; [intros ?; exact Ht | exact H].
  - apply Forall_assoc_del; exact H.
Qed.

Lemma well_formed_env w w' : nodes w' = nodes w -> well_formed w = true -> well_formed w' = true.
Proof. unfold well_formed. now intros ->. Qed.

Lemma shape_env w w' : nodes w' = nodes w -> shape w' = shape w.
Proof. unfold shape. now intros ->. Qed.

Definition error_written (key : string) (e : value) (n : node) : node :=
  with_errorMap (if truthy e then assoc_set key e (errorMap n)
                 else assoc_del key (errorMap n)) n.

(** The end of [setError] when the error is new. *)
Lemma setError_post_intro f key e nc np fa w me w' :
  nth_error (nodes w) f = Some me ->
  strict_eq (stored_error (errorMap me) key) e = false ->
  shape w' = shape w -> truthy_errors w' ->
  (forall i, nth_error (nodes w') i
             = if Nat.ltb i f then nth_error (nodes w') i
               else nth_error
                      (list_update f (error_written key e) (nodes w)) i) ->
  (np = true -> fa = true -> forall p name, parent me = Some (p, name) ->
     exists pn', nth_error (nodes w') p = Some pn' /\
                 has_entry name pn' = error (error_written key e me)) ->
  err_post (SetError f key e nc np fa) w w'.
Proof.
  intros Hme Heq Hs Ht Hfr Hup. split; [exact Hs|]. split; [exact Ht|].
  assert (Hge : forall i, f <= i ->
            nth_error (nodes w') i
            = nth_error (list_update f (error_written key e) (nodes w)) i).
  { intros i Hi. rewrite (Hfr i).
    destruct (Nat.ltb_spec i f); [lia | reflexivity]. }
  split.
  - intros i Hi. rewrite (Hge i) by lia. rewrite nth_error_list_update.
    destruct (Nat.eqb_spec f i); [lia | reflexivity].
  - intros n Hn. assert (n = me) by congruence. subst n.
    exists (error_written key e me). split.
    + rewrite (Hge f) by lia.
      now rewrite nth_error_list_update, Nat.eqb_refl, Hme.
    + split; [unfold set_error; now rewrite Heq|]. split; [reflexivity|].
      intros Hnp Hfa _. now apply Hup.
Qed.

Section ErrorUp.
Variable run : call -> M unit.
Hypothesis Hrun : forall c w,
  well_formed w = true -> truthy_errors w -> err_up c w ->
  wp True (run c) (fun _ w' => err_post c w w') w.

Lemma updateParentErrors_up f w :
  well_formed w = true -> truthy_errors w ->
  wp True (updateParentErrors_body run f)
    (fun _ w' => err_post (UpdateParentErrors f) w w') w.
Proof.
  intros Hwf He. unfold updateParentErrors_body.
  apply wp_bind, wp_the_node. intros me Hme.
  destruct (parent me) as [[p name]|] eqn:Hp.
  - pose proof (parent_below w f me p name Hwf Hme Hp) as Hlt.
    apply wp_bind.
    apply (wp_mono True _
             (fun e w1 => nodes w1 = nodes w /\ truthy e = error me)).
    { destruct (error me) eqn:Herr.
      - apply wp_bind, wp_fresh. apply wp_ret. split; reflexivity.
      - apply wp_ret. split; reflexivity. }
    cbv beta. intros e w1 [Hn1 Hte].
    eapply wp_mono.
    + apply Hrun; [now apply (well_formed_env w) | now apply (truthy_errors_env w)|].
      left. reflexivity.
    + cbv beta. intros _ w' (Hs & Ht & Hframe & Hnode).
      split; [rewrite Hs; now apply shape_env|]. split; [exact Ht|]. split.
      * intros i Hi. rewrite Hframe by lia. now rewrite Hn1.
      * intros n p0 name0 Hn Hpar. assert (n = me) by congruence. subst n.
        rewrite Hp in Hpar. injection Hpar as <- <-.
        destruct (nth_error (nodes w) p) as [pn|] eqn:Hpn.
        2:{ apply nth_error_None in Hpn.
            assert (f < List.length (nodes w)) by (apply nth_error_Some; congruence).
            lia. }
        destruct (Hnode pn) as (pn' & Hpn' & Em & _); [now rewrite Hn1|].
        exists pn'. split; [exact Hpn'|].
        rewrite (has_entry_set_error name e pn pn' (He p pn Hpn) Em).
        exact Hte.
  - apply wp_ret. split; [reflexivity|]. split; [exact He|].
    split; [reflexivity|]. intros n p name Hn Hpar. congruence.
Qed.

Lemma setError_up f key e nc np fa w :
  well_formed w = true -> truthy_errors w ->
  err_up (SetError f key e nc np fa) w ->
  wp True (setError_body run f key e nc np fa)
    (fun _ w' => err_post (SetError f key e nc np fa) w w') w.
Proof.
  intros Hwf He Hup. unfold setError_body.
  apply wp_bind, wp_the_node. intros me Hme.
  change (match assoc_get key (errorMap me) with
          | Some x => x | None => VUndef end)
    with (stored_error (errorMap me) key).
  destruct (strict_eq (stored_error (errorMap me) key) e) eqn:Heq.
  { apply wp_ret. split; [reflexivity|]. split; [exact He|].
    split; [reflexivity|]. intros n Hn. assert (n = me) by congruence. subst n.
    exists me. split; [exact Hme|].
    split; [unfold set_error; now rewrite Heq|]. split; [reflexivity|].
    intros _ _ H. congruence. }
  apply wp_bind, wp_update_node.
  change (fun n : node =>
            with_errorMap (if truthy e then assoc_set key e (errorMap n)
                           else assoc_del key (errorMap n)) n)
    with (error_written key e).
  set (w1 := set_nodes _ w).
  assert (S1 : shape w1 = shape w) by (apply shape_update; reflexivity).
  assert (T1 : truthy_errors w1).
  { unfold truthy_errors, w1. apply (nodewise_update error_ok); [|exact He].
    intros n _. apply error_ok_set_error. }
  assert (Hn1 : nth_error (nodes w1) f = Some (error_written key e me)).
  { unfold w1. cbn [nodes set_nodes].
    now rewrite nth_error_list_update, Nat.eqb_refl, Hme. }
  apply wp_bind.
  apply (wp_mono True _ (fun _ w2 => w2 = w1)).
  { apply wp_when; [intros Hnc | reflexivity].
    destruct Hup as [Hup|Hup]; [congruence|].
    rewrite (Hup me Hme). apply wp_ret. reflexivity. }
  cbv beta. intros _ w2 ->.
  apply wp_bind, wp_fireListeners. intros n1 _.
  set (w2 := add_events _ w1).
  assert (Hdone : forall w', shape w' = shape w2 -> truthy_errors w' ->
            (forall i, f <= i -> nth_error (nodes w') i = nth_error (nodes w2) i) ->
            (np = true -> fa = true -> forall p name,
               parent me = Some (p, name) ->
               exists pn', nth_error (nodes w') p = Some pn' /\
                 has_entry name pn' = error (error_written key e me)) ->
            err_post (SetError f key e nc np fa) w w').
  { intros w' Hs Ht Hfr Hpar.
    apply (setError_post_intro f key e nc np fa w me w' Hme Heq); auto.
    - now rewrite Hs.
    - intros i. destruct (Nat.ltb_spec i f); [reflexivity|]. now apply Hfr. }
  apply wp_when; intros Hfa.
  2:{ apply Hdone; auto. intros _ H. congruence. }
  apply wp_bind. destruct np; cbn [when].
  - eapply wp_mono.
    + apply Hrun; [now apply (well_formed_shape w) | exact T1 | exact I].
    + cbv beta. intros _ w3 (S3 & T3 & F3 & P3).
      apply wp_fireAnyListeners. intros n3 _.
      apply Hdone; auto.
  - apply wp_ret. apply wp_fireAnyListeners. intros n3 _.
    apply Hdone; auto. intros H. congruence.
Qed.

Lemma error_up_step c w :
  well_formed w = true -> truthy_errors w -> err_up c w ->
  wp True (body run c) (fun _ w' => err_post c w w') w.
Proof.
  intros Hwf He Hup. destruct c; cbn [err_up] in Hup; try contradiction;
    cbn [body]; apply wp_void.
  - now apply setError_up.
  - now apply updateParentErrors_up.
Qed.
End ErrorUp.

Lemma exec_error_up fuel : forall c w,
  well_formed w = true -> truthy_errors w -> err_up c w ->
  wp True (exec fuel c) (fun _ w' => err_post c w w') w.
Proof.
  induction fuel as [|fuel IH]; intros c w Hwf He Hup; [exact I|].
  cbn [exec]. apply (error_up_step (nested (exec fuel))); auto.
  intros c' w' Hwf' He' Hup'. unfold nested. apply wp_bind.
  eapply wp_mono; [apply IH; assumption|]. intros r w2 H2. apply wp_ret, H2.
Qed.

Lemma script_tree_ok acts : forall w0 w,
  tree_ok w0 -> for_each acts perform w0 = Ok (tt, w) -> tree_ok w.
Proof.
  induction acts as [|a acts IH]; intros w0 w H0 H; cbn [for_each] in H.
  - injection H as <-. exact H0.
  - unfold bind in H. destruct (perform a w0) as [[[] w1]| |] eqn:E;
      try discriminate.
    exact (IH w1 w (perform_tree_ok a w0 w1 H0 E) H).
Qed.

Lemma tree_ok_nil fc nr t : tree_ok (mkWorld [] fc nr t).
Proof.
  split; [reflexivity|]. split; [|split; [|split]].
  - intros [|f] n k c H; discriminate H.
  - intros [|f] n H; discriminate H.
  - intros [|f] n H; discriminate H.
  - intros [|f] n H; discriminate H.
Qed.

Lemma address_form_ok : tree_ok address_form.
Proof.
  apply (script_tree_ok
           [NewForm (VObj 0 [("address", VObj 1 [("city", VStr "Paris")])])
                    (VObj 2 []) (VObj 3 []) None;
            NewChild 0 "address"] initial).
  - apply tree_ok_nil.
  - vm_compute. reflexivity.
Qed.

(** X8: the error methods always complete on ordinary keys.  In a tree
    whose child map entries lead to nodes and whose keys are ordinary,
    [setError] and [setErrors], given ordinary keys and an object or an
    array of errors with ordinary keys (not [null] or [undefined]), and
    [updateParentErrors] raise no error, whatever the flags and however many
    children and ancestors are notified.  (At a key that names a member of
    [Object.prototype], [this.childMap[key]] is the inherited member, and
    calling its [setErrors] raises a [TypeError].) *)
Theorem X8_error_methods_complete fuel c w :
  well_formed w = true -> closed w ->
  ordinary_world w = true -> ordinary_call c = true ->
  enough (List.length (nodes w)) <= fuel ->
  error_call c w ->
  exists r w', exec fuel c w = Ok (r, w') /\ shape w' = shape w.
Proof.
  intros Hwf Hcl _ _ Hfuel Hc.
  destruct (runs_returns _ _ _ w
              (exec_sound fuel c w Hwf (enough_rank w c fuel Hfuel))
              (error_calls_run fuel c w (conj Hwf Hcl) Hc))
    as (r & w' & E & _ & Hs).
  exists r, w'. split; assumption.
Qed.

Lemma X8_witness :
  exists r w',
    exec 32 (SetErrors 0 (VObj 9 [("address", VObj 8 [("city", VStr "unknown")])])
                       true true) address_form = Ok (r, w') /\
    shape w' = shape address_form.
Proof.
  apply X8_error_methods_complete.
  - vm_compute. reflexivity.
  - apply child_links_closed, address_form_ok.
  - vm_compute. reflexivity.
  - vm_compute. reflexivity.
  - vm_compute. lia.
  - split; [vm_compute; lia | discriminate].
Defined.

(** X9: in a tree whose keys are ordinary, [setError(key, error)] at an
    ordinary key without child node (or with
    [notifyChild] false) completes and leaves [errorMap[key]] absent for a
    falsy error and equal to [error] for a truthy one; values, default
    values and dirty flags of the node and all later nodes are untouched.
    When the error is new and the parent is notified, the parent's
    [errorMap] has an entry under the child's name exactly when the child
    has an error. *)
Theorem X9_setError_effect fuel f key e nc np fa w :
  well_formed w = true -> closed w -> truthy_errors w ->
  ordinary_world w = true -> ordinary key = true ->
  enough (List.length (nodes w)) <= fuel ->
  f < List.length (nodes w) ->
  nc = false \/ assoc_get key (childMap (node_of w f)) = None ->
  exists r w',
    exec fuel (SetError f key e nc np fa) w = Ok (r, w') /\
    errorMap (node_of w' f) = set_error key e (errorMap (node_of w f)) /\
    has_entry key (node_of w' f) = truthy e /\
    (truthy e = true ->
     strict_eq (stored_error (errorMap (node_of w' f)) key) e = true) /\
    data (node_of w' f) = data (node_of w f) /\
    (forall i, f < i -> nth_error (nodes w') i = nth_error (nodes w) i) /\
    (np = true -> fa = true ->
     strict_eq (stored_error (errorMap (node_of w f)) key) e = false ->
     forall p name, parent (node_of w f) = Some (p, name) ->
       has_entry name (node_of w' p) = error (node_of w' f)).
Proof.
  intros Hwf Hcl He _ _ Hfuel Hf Hchild.
  pose proof (node_at_of w f Hf) as Hme. unfold node_at in Hme.
  assert (Hup : err_up (SetError f key e nc np fa) w).
  { destruct Hchild as [H|H]; [now left|]. right. intros n Hn.
    now rewrite <- (node_of_at w f n Hn). }
  destruct (runs_returns _ _ _ w
              (exec_sound fuel _ w Hwf (enough_rank w _ fuel Hfuel))
              (error_calls_run fuel (SetError f key e nc np fa) w
                 (conj Hwf Hcl) Hf))
    as (r & w' & E & _ & _).
  pose proof (wp_result _ _ _ _ _ _ (exec_error_up fuel _ w Hwf He Hup) E)
    as (_ & _ & Hfr & Hnode).
  destruct (Hnode _ Hme) as (n' & Hn' & Em & Ed & Hpar).
  exists r, w'. split; [exact E|].
  rewrite (node_of_at w' f n' Hn').
  split; [exact Em|].
  split; [exact (has_entry_set_error key e _ n' (He f _ Hme) Em)|].
  split.
  { intros Ht. unfold stored_error. rewrite Em.
    pose proof (set_error_entry key e _ (He f _ Hme)) as H.
    destruct (assoc_get key (set_error key e (errorMap (node_of w f)))).
    - apply H.
    - congruence. }
  split; [exact Ed|]. split; [exact Hfr|].
  intros Hnp Hfa Hnew p name Hp.
  destruct (Hpar Hnp Hfa Hnew p name Hp) as (pn' & Hpn' & Hent).
  now rewrite (node_of_at w' p pn' Hpn').
Qed.

Lemma X9_witness :
  exists r w',
    exec 32 (SetError 1 "city" (VStr "unknown") true true true) address_form
    = Ok (r, w') /\
    has_entry "city" (node_of w' 1) = true /\
    has_entry "address" (node_of w' 0) = error (node_of w' 1).
Proof.
  destruct (X9_setError_effect 32 1 "city" (VStr "unknown") true true true
              address_form) as (r & w' & E & _ & H1 & _ & _ & _ & H2).
  - vm_compute. reflexivity.
  - apply child_links_closed, address_form_ok.
  - apply address_form_ok.
  - vm_compute. reflexivity.
  - vm_compute. reflexivity.
  - vm_compute. lia.
  - vm_compute. lia.
  - right. reflexivity.
  - exists r, w'. split; [exact E|]. split; [exact H1|].
    apply (H2 eq_refl eq_refl); reflexivity.
Defined.

(** ** Writing values: one key, all keys, and back to the defaults *)

Lemma strict_eq_scalar_eq a v :
  typeof_object v = false -> strict_eq a v = true -> a = v.
Proof.
  destruct a, v; cbn; try discriminate; intros _ H; try reflexivity.
  - apply Bool.eqb_prop in H. now subst.
  - apply Z.eqb_eq in H. now subst.
  - apply String.eqb_eq in H. now subst.
Qed.

Lemma keyed_isArray m : keyed m = true -> isArray m = false.
Proof. destruct m; cbn; congruence. Qed.

Lemma written_keyed (m0 : value) key v m :
  match v with VUndef => remove m0 key | _ => set m0 key v end = Ok m ->
  keyed m0 = true -> keyed m = true.
Proof.
  destruct m0; try discriminate. intros H _.
  destruct v; cbn in H; injection H as <-; reflexivity.
Qed.

Lemma get_absent m ks k :
  keyed m = true -> object_keys m = Some ks -> ~ In k ks -> get m k = VUndef.
Proof.
  destruct m; try discriminate. cbn. intros _ H Hk. injection H as <-.
  unfold assoc_keys in Hk. rewrite In_key_order in Hk.
  apply assoc_get_None in Hk. now rewrite Hk.
Qed.

(** What the world looks like for node [f] after one [setValue]. *)
Definition key_written (f : nat) (isDefault : bool) (key : string) (v : value)
    (me : node) (w w' : world) : Prop :=
  shape w' = shape w /\
  exists me', nth_error (nodes w') f = Some me' /\
    keyed (side isDefault me') = true /\
    get (side isDefault me') key = v /\
    (forall k, k <> key -> get (side isDefault me') k = get (side isDefault me) k) /\
    side (negb isDefault) me' = side (negb isDefault) me.

Lemma svi_post_data extra f key v d isDefault nc np fa c w me w' :
  svi_post extra f key v d isDefault nc np fa c w me w' ->
  exists m me' D,
    match v with
    | VUndef => remove (side isDefault me) key
    | _ => set (side isDefault me) key v
    end = Ok m /\
    nth_error (nodes w') f = Some me' /\
    data me' = written isDefault m D me /\ shape w' = shape w.
Proof.
  intros (m & me' & t1 & t2 & t3 & Hm & Hme' & Hd & [Hs _] & _).
  destruct (if (nc && negb (strict_eq v VUndef))%bool
            then assoc_get key (childMap me) else None).
  - destruct Hd as [(chn & _ & Hd) _]. eauto 8.
  - destruct Hd as [Hd _]. eauto 8.
Qed.

Lemma written_sides isDefault m D me me' :
  data me' = written isDefault m D me ->
  side isDefault me' = m /\ side (negb isDefault) me' = side (negb isDefault) me.
Proof.
  unfold data, written. destruct isDefault; intros H; injection H as H1 H2 _;
    cbn; auto.
Qed.

Lemma setValue_key_written fuel f key v validate isDefault nc np fa w me :
  well_formed w = true ->
  rank (List.length (nodes w))
       (SetValue f key v validate isDefault nc np fa) <= fuel ->
  nth_error (nodes w) f = Some me ->
  keyed (side isDefault me) = true ->
  wp False (exec fuel (SetValue f key v validate isDefault nc np fa))
    (fun _ w' => key_written f isDefault key v me w w') w.
Proof.
  intros Hwf Hr Hme Hk. eapply wp_mono.
  { apply exec_setValue; eauto. }
  intros r w' H. cbv beta in H.
  destruct (short_circuit isDefault me key v) eqn:Hsc.
  - destruct H as [_ ->]. split; [reflexivity|]. exists me.
    split; [exact Hme|]. split; [exact Hk|].
    unfold short_circuit in Hsc. apply andb_true_iff in Hsc as [Hv Heq].
    apply negb_true_iff in Hv.
    split; [now apply strict_eq_scalar_eq|]. split; reflexivity.
  - destruct H as [_ H].
    destruct (svi_post_data _ _ _ _ _ _ _ _ _ _ _ _ _ H)
      as (m & me' & D & Hm & Hme' & Hd & Hs).
    destruct (written_sides _ _ _ _ _ Hd) as [E1 E2].
    split; [exact Hs|]. exists me'. split; [exact Hme'|]. rewrite E1.
    split; [eapply written_keyed; eauto|].
    split; [eapply get_written_key; eauto using keyed_isArray|].
    split; [|exact E2].
    intros k Hne.
    now destruct (written_other _ _ _ _ k Hm (keyed_isArray _ Hk) Hne) as [_ ->].
Qed.

(** X10: [reset(key)] on a keyed form puts the default back: when it
    completes, [values[key]] is [defaultValues[key]] (absent if the
    defaults have no such key), no other key of [values] and nothing of
    [defaultValues] has changed; and where a scalar default replaces a
    different value at a key without child node, [dirtyMap[key]] becomes
    [false] (numbers are integers here; a [NaN] default, which differs
    from itself, is not covered). *)
Theorem X10_reset_restores_default fuel f key w :
  well_formed w = true ->
  enough (List.length (nodes w)) <= fuel ->
  f < List.length (nodes w) ->
  keyed (values (node_of w f)) = true ->
  let v := get (defaultValues (node_of w f)) key in
  wp False (reset fuel f key)
    (fun _ w' =>
       get (values (node_of w' f)) key = v /\
       defaultValues (node_of w' f) = defaultValues (node_of w f) /\
       (forall k, k <> key ->
          get (values (node_of w' f)) k = get (values (node_of w f)) k) /\
       (typeof_object v = false ->
        assoc_get key (childMap (node_of w f)) = None ->
        strict_eq (get (values (node_of w f)) key) v = false ->
        assoc_get key (dirtyMap (node_of w' f)) = Some false)) w.
Proof.
  intros Hwf Hfuel Hf Hk v.
  pose proof (node_at_of w f Hf) as Hme. unfold node_at in Hme.
  unfold reset. apply wp_bind, wp_the_node. intros me Hme'.
  assert (me = node_of w f) by congruence. subst me. clear Hme'.
  fold v. apply wp_bind. eapply wp_mono.
  { apply wp_conj.
    - apply (setValue_key_written fuel f key v true false true true true w
               (node_of w f)); eauto using enough_rank.
    - apply wp_weaken.
      apply (exec_setValue fuel f key v true false true true true w
               (node_of w f)); eauto using enough_rank. }
  cbv beta. intros r w' [(_ & me' & Hme' & _ & Hget & Hother & Hdef) H].
  apply wp_ret.
  rewrite (node_of_at w' f me' Hme'). cbn [side negb] in *.
  split; [exact Hget|]. split; [exact Hdef|]. split; [exact Hother|].
  intros Hv Hch Hneq.
  unfold short_circuit in H. cbn [side] in H. rewrite Hv, Hneq in H.
  cbn [negb andb] in H. destruct H as [_ H].
  destruct (svi_post_side _ _ _ _ _ _ _ _ _ _ _ _ _ H)
    as (m & me2 & _ & Hme2 & _ & Hd).
  assert (me2 = me') by congruence. subst me2.
  rewrite Hch in Hd.
  replace (if (true && negb (strict_eq v VUndef))%bool then None else None)
    with (@None nat) in Hd by (destruct (negb (strict_eq v VUndef)); reflexivity).
  rewrite Hd. unfold dirty_of_write. rewrite Hv. cbn [base_dirty side negb].
  fold v. rewrite strict_eq_refl. cbn [negb]. apply assoc_get_set_same.
Qed.

Lemma X10_witness :
  result_of (exec 32 (SetValue 0 "a" (VNum 5) true false true true true)
               scalar_form) = Some (RBool true) /\
  wp False (reset 32 0 "a")
    (fun _ w' =>
       get (values (node_of w' 0)) "a" = VNum 1 /\
       assoc_get "a" (dirtyMap (node_of w' 0)) = Some false)
    (after (exec 32 (SetValue 0 "a" (VNum 5) true false true true true))
           scalar_form).
Proof.
  split; [vm_compute; reflexivity|].
  eapply wp_mono.
  - apply (X10_reset_restores_default 32 0 "a").
    + vm_compute. reflexivity.
    + vm_compute. lia.
    + vm_compute. lia.
    + vm_compute. reflexivity.
  - cbv beta. intros _ w' (H1 & _ & _ & H2). split.
    + exact H1.
    + apply H2; vm_compute; reflexivity.
Defined.

(** [Object.keys] of a container. *)
Definition keys (v : value) : list string :=
  match object_keys v with Some ks => ks | None => [] end.

Lemma keys_keyed v : keyed v = true -> object_keys v = Some (keys v).
Proof. destruct v; try discriminate. reflexivity. Qed.

(** The state of node [f] while [setValues] walks the keys. *)
Definition bulk_values (f : nat) (isDefault : bool) (me : node) (vs : value)
    (w : world) (done : list string) (w1 : world) : Prop :=
  shape w1 = shape w /\
  exists me1, nth_error (nodes w1) f = Some me1 /\
    keyed (side isDefault me1) = true /\
    (forall k, In k done -> get (side isDefault me1) k = get vs k) /\
    (forall k, ~ In k done ->
       get (side isDefault me1) k = get (side isDefault me) k) /\
    side (negb isDefault) me1 = side (negb isDefault) me.

Lemma bulk_values_step fuel f vs isDefault nc np w me d x w1 :
  well_formed w = true ->
  enough (List.length (nodes w)) <= S fuel ->
  bulk_values f isDefault me vs w d w1 ->
  wp False
    (nested (exec fuel)
       (SetValue f x (get vs x) false isDefault nc np false))
    (fun _ w2 => bulk_values f isDefault me vs w (d ++ [x]) w2) w1.
Proof.
  intros Hwf Hfuel (Hs & me1 & Hme1 & Hk1 & Hdone & Hrest & Hoth).
  assert (Hwf1 : well_formed w1 = true) by (apply (well_formed_shape w w1); auto).
  assert (HN : List.length (nodes w1) = List.length (nodes w))
    by (apply shape_length, Hs).
  unfold nested. apply wp_bind. eapply wp_mono.
  { apply (setValue_key_written fuel f x (get vs x) false isDefault nc np false
             w1 me1); auto.
    rewrite HN. unfold enough in Hfuel. cbn [rank]. unfold down, up.
    destruct nc; lia. }
  cbv beta. intros r w2 (Hs2 & me2 & Hme2 & Hk2 & Hx & Hnx & Ho2).
  apply wp_ret. split; [congruence|]. exists me2.
  split; [exact Hme2|]. split; [exact Hk2|]. split; [|split].
  - intros k Hin. destruct (String.eqb_spec k x) as [->|Hne]; [exact Hx|].
    rewrite (Hnx k Hne). apply Hdone.
    apply in_app_or in Hin as [Hin|[<-|[]]]; [exact Hin | congruence].
  - intros k Hk.
    assert (Hne : k <> x) by (intros ->; apply Hk, in_or_app; right; now left).
    rewrite (Hnx k Hne). apply Hrest. intros Hin. apply Hk, in_or_app. now left.
  - congruence.
Qed.

Lemma data_sides isDefault n n' :
  data n' = data n ->
  side isDefault n' = side isDefault n /\
  side (negb isDefault) n' = side (negb isDefault) n.
Proof.
  unfold data. intros H. injection H as H1 H2 _.
  destruct isDefault; cbn; auto.
Qed.

(** A bulk replace whose longer key list has every key is exact. *)
Lemma setValues_exact fuel f vs isDefault nc np w me :
  well_formed w = true ->
  enough (List.length (nodes w)) <= fuel ->
  nth_error (nodes w) f = Some me ->
  keyed (side isDefault me) = true -> keyed vs = true ->
  (forall k, In k (keys (side isDefault me)) \/ In k (keys vs) ->
             In k (mostKeys (keys (side isDefault me)) (keys vs))) ->
  wp False (exec fuel (SetValues f vs isDefault nc np))
    (fun _ w' => exists me',
       nth_error (nodes w') f = Some me' /\
       (forall k, get (side isDefault me') k = get vs k) /\
       side (negb isDefault) me' = side (negb isDefault) me) w.
Proof.
  intros Hwf Hfuel Hme Hkm Hkv Hcov.
  destruct fuel as [|fuel]; [unfold enough in Hfuel; lia|].
  cbn [exec body]. apply wp_void. unfold setValues_body.
  apply wp_bind, wp_emit.
  apply wp_bind, wp_the_node. intros n Hn. cbn [nodes add_event] in Hn.
  assert (n = me) by congruence. subst n. clear Hn.
  unfold keys_of at 1. rewrite (keys_keyed _ Hkm). apply wp_bind, wp_ret.
  unfold keys_of at 1. rewrite (keys_keyed _ Hkv). apply wp_bind, wp_ret.
  set (ks := mostKeys (keys (side isDefault me)) (keys vs)) in *.
  apply wp_bind. eapply wp_mono.
  { apply (wp_for_each_indexed False ks _
             (bulk_values f isDefault me vs w) []).
    - split; [reflexivity|]. exists me. split; [exact Hme|].
      split; [exact Hkm|]. split; [intros k []|]. split; reflexivity.
    - intros d x w1 _ Hinv.
      now apply (bulk_values_step fuel f vs isDefault nc np w me d x w1). }
  cbn [app]. intros [] w3 (Hs3 & me3 & Hme3 & Hk3 & Hdone & Hrest & Hoth).
  cbv beta.
  assert (Hwf3 : well_formed w3 = true) by (apply (well_formed_shape w w3); auto).
  assert (HN : List.length (nodes w3) = List.length (nodes w))
    by (apply shape_length, Hs3).
  assert (Hall : forall k, get (side isDefault me3) k = get vs k).
  { intros k. destruct (in_dec string_dec k ks) as [Hin|Hout]; [auto|].
    rewrite (Hrest k Hout).
    rewrite (get_absent _ _ k Hkm (keys_keyed _ Hkm)),
            (get_absent _ _ k Hkv (keys_keyed _ Hkv)); auto. }
  apply wp_bind.
  eapply wp_mono with
    (Q := fun _ w4 => shape w4 = shape w /\ data_at w4 f = data_at w3 f).
  { destruct np; cbn [when].
    - unfold nested. apply wp_bind. eapply wp_mono.
      { apply (exec_sound fuel (UpdateParentValues f isDefault) w3 Hwf3).
        rewrite HN. unfold enough in Hfuel. cbn [rank]. unfold up. lia. }
      intros r w4 (Hs4 & Hd4 & _). cbv beta. apply wp_ret.
      split; [congruence|]. apply Hd4. cbn [touch]. lia.
    - apply wp_ret. split; [exact Hs3 | reflexivity]. }
  intros [] w4 (Hs4 & Hd4). cbv beta.
  apply wp_bind, wp_fireAnyListeners. intros n4 Hn4.
  apply wp_bind, wp_the_node. intros n5 Hn5. cbn [nodes add_events] in Hn5.
  assert (n5 = n4) by congruence. subst n5.
  assert (E4 : data n4 = data me3).
  { rewrite (data_at_Some _ _ _ Hn4), (data_at_Some _ _ _ Hme3) in Hd4.
    congruence. }
  assert (Hend : forall w5 n5, nth_error (nodes w5) f = Some n5 ->
            data n5 = data n4 ->
            exists me', nth_error (nodes w5) f = Some me' /\
              (forall k, get (side isDefault me') k = get vs k) /\
              side (negb isDefault) me' = side (negb isDefault) me).
  { intros w5 n5 H5 E5. exists n5. split; [exact H5|].
    destruct (data_sides isDefault n4 n5 E5) as [A B].
    destruct (data_sides isDefault me3 n4 E4) as [A' B'].
    split; [intros k; rewrite A, A'; apply Hall | congruence]. }
  destruct (validator n4).
  - unfold nested. apply wp_bind. eapply wp_mono.
    { apply (exec_sound fuel (Validate f)).
      - apply (well_formed_shape w); auto.
      - cbn [nodes add_events]. rewrite (shape_length w w4 Hs4).
        unfold enough in Hfuel. cbn [rank]. lia. }
    intros r w5 (Hs5 & Hd5 & _). cbv beta. apply wp_ret.
    assert (D5 : data_at w5 f = Some (data n4)).
    { rewrite Hd5 by (cbn [touch]; tauto). now apply data_at_Some. }
    apply data_at_inv in D5 as (n5 & H5 & E5). eauto.
  - apply wp_ret. apply (Hend _ n4); [exact Hn4 | reflexivity].
Qed.

(** X11: [setValues(vs)] on a keyed form, with a keyed [vs], all keys
    ordinary, is an exact replacement whenever the longer of the two key
    lists has every key of both (as when one key set contains the other):
    when it completes, the side written has under every key what [vs] has
    there, keys that [vs] lacks are gone, and the other side (values or
    defaults) is as it was.  (At a key of the stored side that names a
    member of [Object.prototype] and that [vs] lacks, [vs[key]] is the
    inherited member.) *)
Theorem X11_setValues_is_exact fuel f vs isDefault nc np w :
  well_formed w = true ->
  ordinary_world w = true -> ordinary_value vs = true ->
  enough (List.length (nodes w)) <= fuel ->
  f < List.length (nodes w) ->
  keyed (side isDefault (node_of w f)) = true -> keyed vs = true ->
  (forall k, In k (keys (side isDefault (node_of w f))) \/ In k (keys vs) ->
             In k (mostKeys (keys (side isDefault (node_of w f))) (keys vs))) ->
  wp False (exec fuel (SetValues f vs isDefault nc np))
    (fun _ w' =>
       (forall k, get (side isDefault (node_of w' f)) k = get vs k) /\
       side (negb isDefault) (node_of w' f)
       = side (negb isDefault) (node_of w f)) w.
Proof.
  intros Hwf _ _ Hfuel Hf Hkm Hkv Hcov.
  pose proof (node_at_of w f Hf) as Hme. unfold node_at in Hme.
  eapply wp_mono.
  { apply (setValues_exact fuel f vs isDefault nc np w (node_of w f)); auto. }
  cbv beta. intros r w' (me' & Hme' & H1 & H2).
  rewrite (node_of_at w' f me' Hme'). auto.
Qed.

Lemma X11_witness :
  let vs := VObj 9 [("a", VNum 5); ("b", VNum 6); ("c", VNum 7)] in
  result_of (exec 32 (SetValues 0 vs false true true) two_field_form)
  = Some RVoid /\
  wp False (exec 32 (SetValues 0 vs false true true))
    (fun _ w' =>
       (forall k, get (values (node_of w' 0)) k = get vs k) /\
       defaultValues (node_of w' 0) = defaultValues (node_of two_field_form 0))
    two_field_form.
Proof.
  intros vs. split; [vm_compute; reflexivity|].
  apply (X11_setValues_is_exact 32 0 vs false true true two_field_form).
  - vm_compute. reflexivity.
  - vm_compute. reflexivity.
  - vm_compute. reflexivity.
  - vm_compute. lia.
  - vm_compute. lia.
  - reflexivity.
  - reflexivity.
  - intros k. cbn. tauto.
Defined.

(** X12: [resetAll()] on a keyed form whose longer key list (of [values]
    and [defaultValues]) has every key of both makes [values] agree with
    [defaultValues] on every key and leaves [defaultValues] as it was. *)
Theorem X12_resetAll_restores_defaults fuel f w :
  well_formed w = true ->
  enough (List.length (nodes w)) <= fuel ->
  f < List.length (nodes w) ->
  keyed (values (node_of w f)) = true ->
  keyed (defaultValues (node_of w f)) = true ->
  (forall k, In k (keys (values (node_of w f)))
             \/ In k (keys (defaultValues (node_of w f))) ->
             In k (mostKeys (keys (values (node_of w f)))
                            (keys (defaultValues (node_of w f))))) ->
  wp False (resetAll fuel f)
    (fun _ w' =>
       (forall k, get (values (node_of w' f)) k
                  = get (defaultValues (node_of w' f)) k) /\
       defaultValues (node_of w' f) = defaultValues (node_of w f)) w.
Proof.
  intros Hwf Hfuel Hf Hkm Hkv Hcov.
  pose proof (node_at_of w f Hf) as Hme. unfold node_at in Hme.
  unfold resetAll. apply wp_bind, wp_the_node. intros me Hme'.
  assert (me = node_of w f) by congruence. subst me. clear Hme'.
  eapply wp_mono.
  { apply (setValues_exact fuel f (defaultValues (node_of w f)) false true true
             w (node_of w f)); auto. }
  cbv beta. intros r w' (me' & Hme' & H1 & H2).
  rewrite (node_of_at w' f me' Hme'). cbn [side negb] in *.
  split; [|exact H2]. intros k. rewrite H2. apply H1.
Qed.

Definition edited_form : world := Eval vm_compute in
  after (root <- new_FormState (VObj 0 [("a", VNum 1); ("b", VNum 2)])
                   (VObj 1 [("a", VNum 0)]) (VObj 2 []) None ;;
         listen root "a") initial.

Lemma X12_witness :
  result_of (resetAll 32 0 edited_form) = Some RVoid /\
  wp False (resetAll 32 0)
    (fun _ w' =>
       (forall k, get (values (node_of w' 0)) k
                  = get (defaultValues (node_of w' 0)) k) /\
       defaultValues (node_of w' 0) = VObj 101 [("a", VNum 0)])
    edited_form.
Proof.
  split; [vm_compute; reflexivity|].
  apply (X12_resetAll_restores_defaults 32 0 edited_form).
  - vm_compute. reflexivity.
  - vm_compute. lia.
  - vm_compute. lia.
  - reflexivity.
  - reflexivity.
  - intros k. cbn. tauto.
Defined.

(** ** Who is notified by one write *)



(** ** Three separate channels *)

Definition state_method (c : call) : bool :=
  match c with
  | SetState _ _ _ _ | UpdateParentState _ => true
  | _ => false
  end.

Definition error_method (c : call) : bool :=
  match c with
  | SetError _ _ _ _ _ _ | SetErrors _ _ _ _ | UpdateParentErrors _ => true
  | _ => false
  end.

Definition same_states (w0 w : world) : Prop :=
  map state (nodes w) = map state (nodes w0).

Definition same_errors (w0 w : world) : Prop :=
  shape w = shape w0 /\ map errorMap (nodes w) = map errorMap (nodes w0).

Lemma same_states_update w0 w f g :
  (forall n, state (g n) = state n) ->
  same_states w0 w -> same_states w0 (set_nodes (list_update f g (nodes w)) w).
Proof.
  unfold same_states. intros Hg H. cbn [nodes set_nodes].
  rewrite map_list_update; auto.
Qed.

Lemma same_errors_update w0 w f g :
  (forall n, skel (g n) = skel n) -> (forall n, errorMap (g n) = errorMap n) ->
  same_errors w0 w -> same_errors w0 (set_nodes (list_update f g (nodes w)) w).
Proof.
  unfold same_errors. intros Hs Hg [H1 H2]. split.
  - rewrite shape_update; auto.
  - cbn [nodes set_nodes]. rewrite map_list_update; auto.
Qed.

Lemma state_with_values b m n : state (with_values b m n) = state n.
Proof. destruct b; reflexivity. Qed.

Lemma errorMap_with_values b m n : errorMap (with_values b m n) = errorMap n.
Proof. destruct b; reflexivity. Qed.

Section Channels.
Variable run : call -> M unit.
Hypothesis Hrun_state : forall c w, state_method c = false ->
  wp True (run c) (fun _ w' => same_states w w') w.
Hypothesis Hrun_error : forall c w,
  error_method c = false -> (value_call c = true -> no_validators w = true) ->
  wp True (run c) (fun _ w' => same_errors w w') w.

Lemma same_states_step w0 c w :
  state_method c = false -> same_states w0 w ->
  wp True (body run c) (fun _ w' => same_states w0 w') w.
Proof.
  intros Hc HI. destruct c; try discriminate Hc; cbn [body]; unfold_bodies.
  all: walk_with (same_states w0) run
         ltac:(intros ? ? Hn _; unfold same_states; rewrite Hn; auto)
         ltac:(apply same_states_update; [|assumption];
               intros ?; first [apply state_with_values | reflexivity])
         ltac:(assumption)
         ltac:(eapply wp_mono;
               [apply Hrun_state; reflexivity
               | cbv beta; unfold same_states in *; intros; congruence]).
Qed.

Lemma same_errors_step w0 c w :
  error_method c = false -> (value_call c = true -> no_validators w0 = true) ->
  same_errors w0 w ->
  wp True (body run c) (fun _ w' => same_errors w0 w') w.
Proof.
  intros Hc Hnv HI. destruct c; try discriminate Hc; cbn [body]; unfold_bodies.
  all: try specialize (Hnv eq_refl).
  all: walk_with (same_errors w0) run
         ltac:(intros ? ? Hn Ht; unfold same_errors, shape; rewrite Hn; auto)
         ltac:(apply same_errors_update; [| |assumption];
               intros ?; first [apply skel_with_values | apply errorMap_with_values
                               | reflexivity])
         ltac:(assumption)
         ltac:(first
           [ exfalso;
             match goal with
             | HI : same_errors ?w0 ?w, Hn : nth_error (nodes ?w) ?f = Some ?n,
               Hv : validator ?n = Some _ |- _ =>
                 rewrite (no_validators_at w f n) in Hv;
                 [discriminate Hv
                 | apply (no_validators_shape w0 w); [apply HI | assumption]
                 | exact Hn]
             end
           | eapply wp_mono;
             [apply Hrun_error;
              [reflexivity
              | first [ intros ?; discriminate
                      | intros _;
                        match goal with
                        | HI : same_errors ?w0 ?w |- no_validators ?w = true =>
                            apply (no_validators_shape w0 w);
                            [apply HI | assumption]
                        end ]]
             | cbv beta; unfold same_errors in *; intros ? ? [? ?];
               match goal with
               | HI : _ /\ _ |- _ => destruct HI
               end; split; congruence] ]).
Qed.
End Channels.

Lemma exec_same_states fuel : forall c w,
  state_method c = false ->
  wp True (exec fuel c) (fun _ w' => same_states w w') w.
Proof.
  induction fuel as [|fuel IH]; intros c w Hc; [exact I|].
  cbn [exec]. apply same_states_step; [|exact Hc|reflexivity].
  intros c' w' Hc'. unfold nested. apply wp_bind.
  eapply wp_mono; [apply IH; exact Hc'|]. intros r w2 H2. apply wp_ret, H2.
Qed.

Lemma exec_same_errors fuel : forall c w,
  error_method c = false -> (value_call c = true -> no_validators w = true) ->
  wp True (exec fuel c) (fun _ w' => same_errors w w') w.
Proof.
  induction fuel as [|fuel IH]; intros c w Hc Hnv; [exact I|].
  cbn [exec]. apply same_errors_step; [|exact Hc|exact Hnv|split; reflexivity].
  intros c' w' Hc' Hnv'. unfold nested. apply wp_bind.
  eapply wp_mono; [apply IH; assumption|]. intros r w2 H2. apply wp_ret, H2.
Qed.

(** X14: values, errors and state are three separate channels.  A call
    that is not [setState] (or its upward propagation) leaves the state of
    every node as it was; a call that is not one of the error methods
    leaves every [errorMap] as it was, for the value methods provided no
    node has a validator. *)
Theorem X14_channels_are_separate fuel c w r w' :
  exec fuel c w = Ok (r, w') ->
  (state_method c = false -> map state (nodes w') = map state (nodes w)) /\
  (error_method c = false ->
   (value_call c = true -> no_validators w = true) ->
   map errorMap (nodes w') = map errorMap (nodes w)).
Proof.
  intros E. split.
  - intros Hc.
    exact (wp_result _ _ _ _ _ _ (exec_same_states fuel c w Hc) E).
  - intros Hc Hnv.
    exact (proj2 (wp_result _ _ _ _ _ _ (exec_same_errors fuel c w Hc Hnv) E)).
Qed.

Lemma X14_witness :
  let c := SetValues 0 (VObj 9 [("address", VObj 8 [("geo", VObj 7 [])])])
             false true true in
  let d := SetState 2 submitting true true in
  exists r w' r2 w2,
    exec 64 c family_form = Ok (r, w') /\
    exec 64 d family_form = Ok (r2, w2) /\
    map state (nodes w') = map state (nodes family_form) /\
    map errorMap (nodes w') = map errorMap (nodes family_form) /\
    map errorMap (nodes w2) = map errorMap (nodes family_form).
Proof.
  intros c d.
  destruct (exec 64 c family_form) as [[r w']| |] eqn:E;
    [|vm_compute in E; discriminate E ..].
  destruct (exec 64 d family_form) as [[r2 w2]| |] eqn:E2;
    [|vm_compute in E2; discriminate E2 ..].
  exists r, w', r2, w2. split; [reflexivity|]. split; [reflexivity|].
  destruct (X14_channels_are_separate 64 c family_form r w' E) as [H1 H2].
  destruct (X14_channels_are_separate 64 d family_form r2 w2 E2) as [_ H3].
  split; [apply H1; reflexivity|]. split.
  - apply H2; [reflexivity|]. intros _. vm_compute. reflexivity.
  - apply H3; [reflexivity|]. intros H. discriminate H.
Defined.

(** ** When construction fails *)

(** What [a ?? {}] followed by [memberCopy] accepts: everything but a
    boolean, a number or a string. *)
Definition object_or_absent (v : value) : bool :=
  match v with
  | VBool _ | VNum _ | VStr _ => false
  | _ => true
  end.

Lemma memberCopy_scalar r v :
  typeof_object v = false -> memberCopy r v = Throw CopyError.
Proof. destruct v; try discriminate; reflexivity. Qed.

Lemma typeof_or_empty r v : typeof_object (or_empty r v) = object_or_absent v.
Proof. destruct v; reflexivity. Qed.

Lemma construct_throws vals defaults st check onChange up w :
  (typeof_object vals && typeof_object defaults && typeof_object st)%bool = false ->
  construct vals defaults st check onChange up w = Throw CopyError.
Proof.
  intros H. unfold construct, copy, bind, next_formId, fresh, lift, push_node.
  cbn.
  destruct (typeof_object vals) eqn:E1.
  - destruct (memberCopy_object vals (nextRef w) E1) as [v ->]. cbn.
    destruct (typeof_object defaults) eqn:E2.
    + destruct (memberCopy_object defaults (S (nextRef w)) E2) as [d ->]. cbn.
      cbn in H. now rewrite (memberCopy_scalar _ st H).
    + now rewrite (memberCopy_scalar _ defaults E2).
  - now rewrite (memberCopy_scalar _ vals E1).
Qed.

Lemma construct_succeeds vals defaults st check onChange up w :
  (typeof_object vals && typeof_object defaults && typeof_object st)%bool = true ->
  exists v d s,
    memberCopy (nextRef w) vals = Ok v /\
    memberCopy (S (nextRef w)) defaults = Ok d /\
    memberCopy (S (S (nextRef w))) st = Ok s /\
    construct vals defaults st check onChange up w
    = Ok (List.length (nodes w),
          mkWorld (nodes w ++ [blank_node (S (formCounter w)) check onChange
                                          v d s up])%list
                  (S (formCounter w)) (S (S (S (nextRef w)))) (trace w)).
Proof.
  intros H. apply andb_true_iff in H as [H E3].
  apply andb_true_iff in H as [E1 E2].
  destruct (memberCopy_object vals (nextRef w) E1) as [v Hv].
  destruct (memberCopy_object defaults (S (nextRef w)) E2) as [d Hd].
  destruct (memberCopy_object st (S (S (nextRef w))) E3) as [s Hs].
  exists v, d, s. repeat split; try assumption.
  unfold construct, copy, bind, next_formId, fresh, lift, push_node. cbn.
  rewrite Hv. cbn. rewrite Hd. cbn. rewrite Hs. reflexivity.
Qed.

(** X15: how construction ends.  [new FormState(values, defaults, state)]
    raises the [memberCopy] error exactly when one of the three is not
    object-typed; otherwise it returns a new node after the existing ones,
    which it leaves alone, and the node holds the entries of the three
    arguments, is neither dirty nor in error, and has no child, parent or
    observer.  [new ChildFormState(parent, name)] raises the same error
    when [parent.values[name]] or [parent.defaultValues[name]] is a
    boolean, a number or a string, or the parent's state is not
    object-typed. *)
Theorem X15_construction_outcome :
  (forall vals defaults st check w,
     ((typeof_object vals && typeof_object defaults && typeof_object st)%bool
      = false ->
      new_FormState vals defaults st check w = Throw CopyError) /\
     ((typeof_object vals && typeof_object defaults && typeof_object st)%bool
      = true ->
      exists n w',
        new_FormState vals defaults st check w
        = Ok (List.length (nodes w), w') /\
        nodes w' = (nodes w ++ [n])%list /\ trace w' = trace w /\
        same_props (values n) vals /\
        same_props (defaultValues n) defaults /\
        same_props (state n) st /\
        dirty n = false /\ error n = false /\
        childMap n = [] /\ parent n = None /\
        listeners n = [] /\ anyListeners n = [])) /\
  (forall p name w pn,
     node_at w p = Some pn ->
     (object_or_absent (get (values pn) name)
      && object_or_absent (get (defaultValues pn) name)
      && typeof_object (state pn))%bool = false ->
     new_ChildFormState p name w = Throw CopyError).
Proof.
  split.
  - intros vals defaults st check w. split.
    + apply construct_throws.
    + intros H.
      destruct (construct_succeeds vals defaults st check true None w H)
        as (v & d & s & Hv & Hd & Hs & E).
      eexists. eexists. split; [exact E|]. cbn.
      split; [reflexivity|]. split; [reflexivity|].
      split; [intros k; eapply get_memberCopy; eauto|].
      split; [intros k; eapply get_memberCopy; eauto|].
      split; [intros k; eapply get_memberCopy; eauto|].
      repeat split.
  - intros p name w pn Hp H. unfold node_at in Hp.
    unfold new_ChildFormState, bind, the_node. rewrite Hp.
    unfold fresh. cbn [nodes formCounter nextRef trace].
    rewrite construct_throws; [reflexivity|].
    now rewrite !typeof_or_empty.
Qed.

Lemma X15_witness :
  new_FormState (VObj 0 []) (VNum 1) (VObj 1 []) None initial = Throw CopyError /\
  (exists n w',
     new_FormState (VObj 0 [("a", VNum 1)]) VNull (VArr 1 []) None address_form
     = Ok (2, w') /\
     nodes w' = (nodes address_form ++ [n])%list /\
     get (values n) "a" = VNum 1 /\ dirty n = false /\ error n = false) /\
  new_ChildFormState 0 "a" scalar_form = Throw CopyError.
Proof.
  destruct X15_construction_outcome as [H1 H2]. split; [|split].
  - apply (proj1 (H1 (VObj 0 []) (VNum 1) (VObj 1 []) None initial)).
    reflexivity.
  - destruct (proj2 (H1 (VObj 0 [("a", VNum 1)]) VNull (VArr 1 []) None
                        address_form) eq_refl)
      as (n & w' & E & Hn & _ & Hv & _ & _ & Hd & He & _).
    exists n, w'. split; [exact E|]. split; [exact Hn|].
    split; [exact (Hv "a")|]. split; assumption.
  - apply (H2 0 "a" scalar_form (node_of scalar_form 0)); reflexivity.
Defined.

(** ** Replacing all errors *)

(** [errorMap[k]] is what [setError(k, es[k])] leaves. *)
Definition error_set (es : value) (k : string) (n : node) : Prop :=
  has_entry k n = truthy (get es k) /\
  (truthy (get es k) = true ->
   strict_eq (stored_error (errorMap n) k) (get es k) = true).

(** The state of node [f] while [setErrors] walks the keys. *)
Definition bulk_errors (f : nat) (me : node) (es : value) (w : world)
    (done : list string) (w1 : world) : Prop :=
  shape w1 = shape w /\ truthy_errors w1 /\
  exists me1, nth_error (nodes w1) f = Some me1 /\
    data me1 = data me /\
    (forall k, In k done -> error_set es k me1) /\
    (forall k, ~ In k done ->
       assoc_get k (errorMap me1) = assoc_get k (errorMap me)).

Lemma assoc_get_set_error_other key e m k :
  k <> key -> assoc_get k (set_error key e m) = assoc_get k m.
Proof.
  intros Hne. unfold set_error.
  destruct (strict_eq (stored_error m key) e); [reflexivity|].
  destruct (truthy e);
    [now apply assoc_get_set_other | now apply assoc_get_del_other].
Qed.

Lemma links_shape w w' f n n' :
  shape w' = shape w -> nth_error (nodes w) f = Some n ->
  nth_error (nodes w') f = Some n' ->
  childMap n' = childMap n /\ parent n' = parent n.
Proof.
  intros Hs Hn Hn'. pose proof (skel_eq_at w w' f n n' Hs Hn Hn') as E.
  split; [exact (f_equal childMap E) | exact (f_equal parent E)].
Qed.

Lemma bulk_errors_step fuel f es nc np w me d x w1 :
  well_formed w = true -> nth_error (nodes w) f = Some me ->
  nc = false \/ childMap me = [] ->
  bulk_errors f me es w d w1 ->
  wp True (nested (exec fuel) (SetError f x (get es x) nc np false))
    (fun _ w2 => bulk_errors f me es w (d ++ [x]) w2) w1.
Proof.
  intros Hwf Hme Hch (Hs & He & me1 & Hme1 & Hd & Hdone & Hrest).
  unfold nested. apply wp_bind. eapply wp_mono.
  { apply (exec_error_up fuel (SetError f x (get es x) nc np false) w1).
    - eapply well_formed_shape; eauto.
    - exact He.
    - cbn. destruct Hch as [->|Hc]; [now left|right]. intros n Hn.
      assert (n = me1) by congruence. subst n.
      rewrite (proj1 (links_shape w w1 f me me1 Hs Hme Hme1)), Hc.
      reflexivity. }
  cbv beta. intros r w2 (Hs2 & He2 & Hfr & Hnode). apply wp_ret.
  destruct (Hnode me1 Hme1) as (n' & Hn' & Em & Ed & _).
  split; [congruence|]. split; [exact He2|]. exists n'.
  split; [exact Hn'|]. split; [congruence|]. split.
  - intros k Hin. destruct (string_dec k x) as [->|Hne].
    + split.
      * eapply has_entry_set_error; [apply (He f me1 Hme1) | exact Em].
      * intros Ht. unfold stored_error. rewrite Em.
        pose proof (set_error_entry x (get es x) _ (He f me1 Hme1)) as H.
        destruct (assoc_get x (set_error x (get es x) (errorMap me1)));
          [apply H | congruence].
    + apply in_app_or in Hin as [Hin|[<-|[]]]; [|congruence].
      destruct (Hdone k Hin) as [A B].
      unfold error_set, has_entry, stored_error in *.
      rewrite Em, assoc_get_set_error_other by exact Hne. split; assumption.
  - intros k Hk.
    assert (Hne : k <> x) by (intros ->; apply Hk, in_or_app; right; now left).
    rewrite Em, assoc_get_set_error_other by exact Hne.
    apply Hrest. intros Hin. apply Hk, in_or_app. now left.
Qed.

(** A bulk replace of the errors whose longer key list has every key is
    exact. *)
Lemma setErrors_exact fuel f es nc np w me :
  well_formed w = true -> truthy_errors w ->
  nth_error (nodes w) f = Some me ->
  nc = false \/ childMap me = [] ->
  keyed es = true ->
  (forall k, In k (assoc_keys (errorMap me)) \/ In k (keys es) ->
             In k (mostKeys (keys es) (assoc_keys (errorMap me)))) ->
  wp True (exec fuel (SetErrors f es nc np))
    (fun _ w' => exists me',
       nth_error (nodes w') f = Some me' /\
       (forall k, error_set es k me') /\
       data me' = data me /\
       (np = true -> forall p name, parent me = Some (p, name) ->
          exists pn', nth_error (nodes w') p = Some pn' /\
                      has_entry name pn' = error me')) w.
Proof.
  intros Hwf He Hme Hch Hk Hcov.
  destruct fuel as [|fuel]; [exact I|].
  cbn [exec body]. apply wp_void. unfold setErrors_body.
  apply wp_bind, wp_emit.
  apply wp_bind, wp_the_node. intros n Hn. cbn [nodes add_event] in Hn.
  assert (n = me) by congruence. subst n. clear Hn.
  unfold keys_of. rewrite (keys_keyed _ Hk). apply wp_bind, wp_ret.
  set (ks := mostKeys (keys es) (assoc_keys (errorMap me))) in *.
  apply wp_bind. eapply wp_mono.
  { apply (wp_for_each_indexed True ks _ (bulk_errors f me es w) []).
    - split; [reflexivity|]. split; [exact He|]. exists me.
      split; [exact Hme|]. split; [reflexivity|].
      split; [intros k []|reflexivity].
    - intros d x w1 _ Hinv.
      now apply (bulk_errors_step fuel f es nc np w me d x w1). }
  cbn [app]. intros [] w3 (Hs3 & He3 & me3 & Hme3 & Hd3 & Hdone & Hrest).
  cbv beta.
  assert (Hwf3 : well_formed w3 = true) by (apply (well_formed_shape w w3); auto).
  assert (Hall : forall k, error_set es k me3).
  { intros k. destruct (in_dec string_dec k ks) as [Hin|Hout]; [auto|].
    assert (Hno : ~ In k (assoc_keys (errorMap me)) /\ ~ In k (keys es))
      by (split; intros H; apply Hout, Hcov; auto).
    destruct Hno as [H1 H2].
    assert (Hg : get es k = VUndef)
      by (apply (get_absent es (keys es) k Hk (keys_keyed _ Hk) H2)).
    assert (Ha : assoc_get k (errorMap me3) = None).
    { rewrite (Hrest k Hout). apply assoc_get_None. intros Hin. apply H1.
      unfold assoc_keys. now apply In_key_order. }
    unfold error_set, has_entry, stored_error. rewrite Ha, Hg. cbn.
    split; [reflexivity | discriminate]. }
  apply wp_bind.
  eapply wp_mono with
    (Q := fun _ w4 =>
       nth_error (nodes w4) f = Some me3 /\
       (np = true -> forall p name, parent me = Some (p, name) ->
          exists pn', nth_error (nodes w4) p = Some pn' /\
                      has_entry name pn' = error me3)).
  { destruct np; cbn [when].
    - unfold nested. apply wp_bind. eapply wp_mono.
      { apply (exec_error_up fuel (UpdateParentErrors f) w3 Hwf3 He3). exact I. }
      cbv beta. intros r w4 (Hs4 & He4 & Hfr & Hpar). apply wp_ret.
      split; [rewrite Hfr by lia; exact Hme3|].
      intros _ p name Hp. apply (Hpar me3 p name Hme3).
      rewrite (proj2 (links_shape w w3 f me me3 Hs3 Hme Hme3)). exact Hp.
    - apply wp_ret. split; [exact Hme3 | discriminate]. }
  cbv beta. intros [] w4 (Hme4 & Hup).
  apply wp_fireAnyListeners. intros n4 Hn4. cbn [nodes add_events].
  exists me3. split; [exact Hme4|]. split; [exact Hall|].
  split; [exact Hd3 | exact Hup].
Qed.

Lemma no_entries_no_error n :
  (forall k, has_entry k n = false) -> error n = false.
Proof.
  unfold has_entry, error. intros H.
  destruct (errorMap n) as [|[k v] t]; [reflexivity|].
  specialize (H k). cbn in H. now rewrite String.eqb_refl in H.
Qed.

(** X16: in a tree whose keys are ordinary, [setErrors(es)] with a keyed
    [es] whose keys are ordinary, at a node without child nodes (or with
    [notifyChild] false), is an exact replacement whenever the longer of
    the two key lists has every key of both: it completes, and then
    [errorMap] has an entry exactly at the keys of [es] that hold a truthy
    error, the error of [es], and none at any other key; values, default
    values and dirty flags are as they were.  In particular an [es] without
    truthy errors, such as [{}], clears the node.  With [notifyParent] the
    parent has an entry under the node's name exactly when the node has an
    error. *)
Theorem X16_setErrors_is_exact fuel f es nc np w :
  well_formed w = true -> closed w -> truthy_errors w ->
  ordinary_world w = true -> ordinary_value es = true ->
  enough (List.length (nodes w)) <= fuel ->
  f < List.length (nodes w) ->
  nc = false \/ childMap (node_of w f) = [] ->
  keyed es = true ->
  (forall k, In k (assoc_keys (errorMap (node_of w f))) \/ In k (keys es) ->
             In k (mostKeys (keys es) (assoc_keys (errorMap (node_of w f))))) ->
  exists r w',
    exec fuel (SetErrors f es nc np) w = Ok (r, w') /\
    (forall k, In k (keys es) ->
       has_entry k (node_of w' f) = truthy (get es k)) /\
    (forall k, ~ In k (keys es) -> has_entry k (node_of w' f) = false) /\
    (forall k, In k (keys es) -> truthy (get es k) = true ->
       strict_eq (stored_error (errorMap (node_of w' f)) k) (get es k) = true) /\
    data (node_of w' f) = data (node_of w f) /\
    ((forall k, In k (keys es) -> truthy (get es k) = false) ->
     error (node_of w' f) = false) /\
    (np = true -> forall p name, parent (node_of w f) = Some (p, name) ->
       has_entry name (node_of w' p) = error (node_of w' f)).
Proof.
  intros Hwf Hcl He _ _ Hfuel Hf Hch Hk Hcov.
  pose proof (node_at_of w f Hf) as Hme. unfold node_at in Hme.
  assert (Hout : forall k, ~ In k (keys es) -> truthy (get es k) = false).
  { intros k Hnin. now rewrite (get_absent es (keys es) k Hk (keys_keyed _ Hk)). }
  assert (Hc : error_call (SetErrors f es nc np) w).
  { split; [exact Hf|]. rewrite (keys_keyed _ Hk). discriminate. }
  destruct (runs_returns _ _ _ w
              (exec_sound fuel _ w Hwf (enough_rank w _ fuel Hfuel))
              (error_calls_run fuel (SetErrors f es nc np) w
                 (conj Hwf Hcl) Hc))
    as (r & w' & E & _ & _).
  destruct (wp_result _ _ _ _ _ _
              (setErrors_exact fuel f es nc np w _ Hwf He Hme Hch Hk Hcov) E)
    as (me' & Hme' & Hall & Hd & Hup).
  exists r, w'. split; [exact E|].
  rewrite (node_of_at w' f me' Hme').
  split; [intros k _; apply Hall|].
  split; [intros k Hnin; rewrite (proj1 (Hall k)); now apply Hout|].
  split; [intros k _; apply Hall|].
  split; [exact Hd|]. split.
  - intros Hno. apply no_entries_no_error. intros k.
    rewrite (proj1 (Hall k)).
    destruct (in_dec string_dec k (keys es)) as [Hin|Hnin];
      [now apply Hno | now apply Hout].
  - intros Hnp p name Hp. destruct (Hup Hnp p name Hp) as (pn' & Hpn' & H).
    now rewrite (node_of_at w' p pn' Hpn').
Qed.

Definition flagged_form : world := Eval vm_compute in
  after (exec 32 (SetErrors 1 (VObj 9 [("city", VStr "unknown");
                                        ("zip", VStr "missing")]) true true))
        address_form.

Lemma flagged_form_ok : tree_ok flagged_form.
Proof.
  apply (script_tree_ok
           [NewForm (VObj 0 [("address", VObj 1 [("city", VStr "Paris")])])
                    (VObj 2 []) (VObj 3 []) None;
            NewChild 0 "address";
            Call 32 (SetErrors 1 (VObj 9 [("city", VStr "unknown");
                                          ("zip", VStr "missing")]) true true)]
           initial).
  - apply tree_ok_nil.
  - vm_compute. reflexivity.
Qed.

Lemma X16_witness :
  error (node_of flagged_form 1) = true /\
  has_entry "address" (node_of flagged_form 0) = true /\
  exists r w',
    exec 32 (SetErrors 1 (VObj 9 []) true true) flagged_form = Ok (r, w') /\
    has_entry "city" (node_of w' 1) = false /\
    error (node_of w' 1) = false /\
    has_entry "address" (node_of w' 0) = false.
Proof.
  split; [reflexivity|]. split; [reflexivity|].
  destruct (X16_setErrors_is_exact 32 1 (VObj 9 []) true true flagged_form)
    as (r & w' & E & _ & H1 & _ & _ & H2 & H3).
  - vm_compute. reflexivity.
  - apply child_links_closed, flagged_form_ok.
  - apply flagged_form_ok.
  - vm_compute. reflexivity.
  - vm_compute. reflexivity.
  - vm_compute. lia.
  - vm_compute. lia.
  - right. reflexivity.
  - reflexivity.
  - intros k. cbn. tauto.
  - exists r, w'. split; [exact E|].
    split; [apply (H1 "city"); intros []|].
    assert (He : error (node_of w' 1) = false) by (apply H2; intros k []).
    split; [exact He|].
    rewrite (H3 eq_refl 0 "address" eq_refl). exact He.
Defined.

(** ** Validation *)

Lemma runs_reserve_refs v (Q : unit -> world -> Prop) w :
  Q tt (mkWorld (nodes w) (formCounter w)
                (Nat.max (nextRef w) (S (max_ref v))) (trace w)) ->
  runs (reserve_refs v) Q w.
Proof. exact (fun H => H). Qed.

(** [validate()] hands the validator's verdict to [setErrors]. *)
Lemma validate_exact fuel f w me check :
  well_formed w = true -> truthy_errors w ->
  nth_error (nodes w) f = Some me ->
  validator me = Some check -> childMap me = [] ->
  let es := check (nextRef w) (values me) in
  keyed es = true ->
  (forall k, In k (assoc_keys (errorMap me)) \/ In k (keys es) ->
             In k (mostKeys (keys es) (assoc_keys (errorMap me)))) ->
  wp True (exec fuel (Validate f))
    (fun _ w' => exists me',
       nth_error (nodes w') f = Some me' /\
       (forall k, error_set es k me') /\
       data me' = data me /\
       (forall p name, parent me = Some (p, name) ->
          exists pn', nth_error (nodes w') p = Some pn' /\
                      has_entry name pn' = error me')) w.
Proof.
  intros Hwf He Hme Hv Hch es Hk Hcov.
  destruct fuel as [|fuel]; [exact I|].
  cbn [exec body]. apply wp_void. unfold validate_body.
  apply wp_bind, wp_the_node. intros n Hn.
  assert (n = me) by congruence. subst n. rewrite Hv.
  apply wp_bind, wp_fresh. fold es.
  apply wp_bind, wp_reserve_refs.
  unfold nested. apply wp_bind. eapply wp_mono.
  { apply (setErrors_exact fuel f es true true _ me); auto. }
  cbv beta. intros r w' (me' & Hme' & Hall & Hd & Hup). apply wp_ret.
  exists me'. split; [exact Hme'|]. split; [exact Hall|].
  split; [exact Hd|]. intros p name Hp. now apply Hup.
Qed.

Lemma validate_runs fuel f w me check :
  linked w -> nth_error (nodes w) f = Some me ->
  validator me = Some check ->
  keyed (check (nextRef w) (values me)) = true ->
  runs (exec fuel (Validate f)) (fun _ _ => True) w.
Proof.
  intros HL Hme Hv Hk.
  destruct fuel as [|fuel]; [exact I|].
  cbn [exec body]. unfold void, validate_body.
  apply runs_bind, runs_bind. eapply runs_the_node; [exact Hme|].
  rewrite Hv. apply runs_bind, runs_fresh.
  apply runs_bind, runs_reserve_refs.
  unfold nested. apply runs_bind. eapply runs_mono.
  { apply (error_calls_run fuel
             (SetErrors f (check (nextRef w) (values me)) true true)).
    - exact HL.
    - split.
      + cbn [nodes]. apply nth_error_Some. congruence.
      + rewrite (keys_keyed _ Hk). discriminate. }
  cbv beta. intros r w' _. apply runs_ret, runs_ret. exact I.
Qed.

(** X17: in a tree whose keys are ordinary, [validate()] at a node
    without child nodes stores the validator's verdict on the current
    values: when the verdict is a keyed object with ordinary keys and the
    longer of the two key lists (of the verdict and of [errorMap]) has
    every key of both, the call completes and [errorMap] has an entry
    exactly at the keys of the verdict that hold a truthy error, and none
    at any other key, the values are untouched, and the parent has an
    entry under the node's name exactly when the node has an error.
    Without a validator [validate()] changes nothing. *)
Theorem X17_validate_stores_verdict fuel f w :
  well_formed w = true -> closed w -> truthy_errors w ->
  ordinary_world w = true ->
  enough (List.length (nodes w)) <= fuel ->
  f < List.length (nodes w) ->
  (validator (node_of w f) = None ->
   exec fuel (Validate f) w = Ok (RVoid, w)) /\
  (forall check, validator (node_of w f) = Some check ->
     let es := check (nextRef w) (values (node_of w f)) in
     childMap (node_of w f) = [] ->
     keyed es = true -> ordinary_value es = true ->
     (forall k, In k (assoc_keys (errorMap (node_of w f))) \/ In k (keys es) ->
        In k (mostKeys (keys es) (assoc_keys (errorMap (node_of w f))))) ->
     exists r w',
       exec fuel (Validate f) w = Ok (r, w') /\
       (forall k, In k (keys es) ->
          has_entry k (node_of w' f) = truthy (get es k)) /\
       (forall k, ~ In k (keys es) -> has_entry k (node_of w' f) = false) /\
       (forall k, In k (keys es) -> truthy (get es k) = true ->
          strict_eq (stored_error (errorMap (node_of w' f)) k) (get es k)
          = true) /\
       data (node_of w' f) = data (node_of w f) /\
       (forall p name, parent (node_of w f) = Some (p, name) ->
          has_entry name (node_of w' p) = error (node_of w' f))).
Proof.
  intros Hwf Hcl He _ Hfuel Hf.
  pose proof (node_at_of w f Hf) as Hme. unfold node_at in Hme.
  split.
  - intros Hv.
    destruct fuel as [|fuel]; [unfold enough in Hfuel; lia|].
    cbn [exec body]. unfold void, validate_body, bind, the_node.
    rewrite Hme, Hv. reflexivity.
  - intros check Hv es Hch Hk _ Hcov.
    destruct (runs_returns _ _ _ w
                (exec_sound fuel _ w Hwf (enough_rank w _ fuel Hfuel))
                (validate_runs fuel f w _ check (conj Hwf Hcl) Hme Hv Hk))
      as (r & w' & E & _ & _).
    destruct (wp_result _ _ _ _ _ _
                (validate_exact fuel f w _ check Hwf He Hme Hv Hch Hk Hcov) E)
      as (me' & Hme' & Hall & Hd & Hup).
    exists r, w'. split; [exact E|].
    rewrite (node_of_at w' f me' Hme').
    split; [intros k _; apply Hall|].
    split.
    { intros k Hnin. rewrite (proj1 (Hall k)).
      change (truthy (get es k) = false).
      now rewrite (get_absent es (keys es) k Hk (keys_keyed _ Hk)). }
    split; [intros k _; apply Hall|].
    split; [exact Hd|].
    intros p name Hp. destruct (Hup p name Hp) as (pn' & Hpn' & H).
    now rewrite (node_of_at w' p pn' Hpn').
Qed.

(** A validator that wants a non-empty [name]. *)
Definition name_required (r : nat) (vs : value) : value :=
  if truthy (get vs "name") then VObj r []
  else VObj r [("name", VStr "required")].

Definition signup_form : world := Eval vm_compute in
  after (new_FormState (VObj 0 [("name", VStr "")]) (VObj 1 [("name", VStr "")])
                       (VObj 2 []) (Some name_required)) initial.

Lemma signup_form_ok : tree_ok signup_form.
Proof.
  apply (script_tree_ok
           [NewForm (VObj 0 [("name", VStr "")]) (VObj 1 [("name", VStr "")])
                    (VObj 2 []) (Some name_required)] initial).
  - apply tree_ok_nil.
  - vm_compute. reflexivity.
Qed.

Lemma X17_witness :
  exec 32 (Validate 1) address_form = Ok (RVoid, address_form) /\
  exists r w',
    exec 32 (Validate 0) signup_form = Ok (r, w') /\
    has_entry "name" (node_of w' 0) = true /\
    values (node_of w' 0) = values (node_of signup_form 0).
Proof.
  split.
  - apply (X17_validate_stores_verdict 32 1 address_form).
    + vm_compute. reflexivity.
    + apply child_links_closed, address_form_ok.
    + apply address_form_ok.
    + vm_compute. reflexivity.
    + vm_compute. lia.
    + vm_compute. lia.
    + reflexivity.
  - destruct (X17_validate_stores_verdict 32 0 signup_form) as [_ H].
    + vm_compute. reflexivity.
    + apply child_links_closed, signup_form_ok.
    + apply signup_form_ok.
    + vm_compute. reflexivity.
    + vm_compute. lia.
    + vm_compute. lia.
    + destruct (H name_required) as (r & w' & E & H1 & _ & _ & Hd & _).
      * reflexivity.
      * reflexivity.
      * reflexivity.
      * reflexivity.
      * intros k. cbn. tauto.
      * exists r, w'. split; [exact E|].
        split; [apply (H1 "name"); cbn; auto|].
        exact (f_equal (fun d => fst (fst d)) Hd).
Defined.

(** ** A validating write is a write, then a validation *)

Lemma bind_assoc_at {A B C} (m : M A) (k : A -> M B) (k' : B -> M C) w :
  bind (bind m k) k' w = bind m (fun a => bind (k a) k') w.
Proof. unfold bind. destruct (m w) as [[a w']| |]; reflexivity. Qed.

Lemma bind_congr {A B} (m : M A) (k k' : A -> M B) w :
  (forall a w', k a w' = k' a w') -> bind m k w = bind m k' w.
Proof. intros H. unfold bind. destruct (m w) as [[a w']| |]; auto. Qed.

(** The end of [setValueInternal]: [if (this.validator) this.validate()]. *)
Definition validate_if_any (run : call -> M unit) (f : nat) : M unit :=
  me <- the_node f ;;
  match validator me with
  | Some _ => run (Validate f)
  | None => ret tt
  end.

Lemma validate_tail_split run f w :
  bind (the_node f)
       (fun me => match validator me with
                  | Some _ => when true (run (Validate f))
                  | None => ret tt
                  end) w
  = bind (bind (the_node f)
               (fun me => match validator me with
                          | Some _ => when false (run (Validate f))
                          | None => ret tt
                          end))
         (fun _ => validate_if_any run f) w.
Proof.
  unfold validate_if_any, bind, the_node.
  destruct (nth_error (nodes w) f) as [n|] eqn:Hn; [|reflexivity].
  destruct (validator n) eqn:Hv; cbn [when ret]; rewrite Hn, Hv; reflexivity.
Qed.

Lemma svi_body_split run f key v d isDefault nc np fa w :
  setValueInternal_body run f key v d true isDefault nc np fa w
  = bind (setValueInternal_body run f key v d false isDefault nc np fa)
         (fun _ => validate_if_any run f) w.
Proof.
  unfold setValueInternal_body.
  do 7 (rewrite bind_assoc_at; apply bind_congr; intros ? ?).
  apply validate_tail_split.
Qed.

Lemma setValue_body_split run run' f key v isDefault nc np fa w :
  (forall d w1,
     run (SetValueInternal f key v d true isDefault nc np fa) w1
     = bind (run (SetValueInternal f key v d false isDefault nc np fa))
            (fun _ => validate_if_any run' f) w1) ->
  setValue_body run f key v true isDefault nc np fa w
  = bind (setValue_body run f key v false isDefault nc np fa)
         (fun b => if b then validate_if_any run' f ;;; ret b else ret b) w.
Proof.
  intros Hrun. unfold setValue_body.
  rewrite bind_assoc_at. apply bind_congr. intros me w1.
  destruct (typeof_object v).
  - rewrite bind_assoc_at. unfold bind at 1. rewrite Hrun.
    unfold bind, ret.
    destruct (run _ w1) as [[[] w2]| |]; try reflexivity.
    all: destruct (validate_if_any run' f w2) as [[[] w3]| |]; reflexivity.
  - destruct (strict_eq (get (side isDefault me) key) v); [reflexivity|].
    rewrite bind_assoc_at. unfold bind at 1. rewrite Hrun.
    unfold bind, ret.
    destruct (run _ w1) as [[[] w2]| |]; try reflexivity.
    all: destruct (validate_if_any run' f w2) as [[[] w3]| |]; reflexivity.
Qed.

Lemma nested_svi_split fuel f key v d isDefault nc np fa w :
  nested (exec (S fuel))
    (SetValueInternal f key v d true isDefault nc np fa) w
  = bind (nested (exec (S fuel))
            (SetValueInternal f key v d false isDefault nc np fa))
         (fun _ => validate_if_any (nested (exec fuel)) f) w.
Proof.
  unfold nested. cbn [exec body]. unfold void.
  rewrite !bind_assoc_at. unfold bind at 1. rewrite svi_body_split.
  unfold bind, ret.
  destruct (setValueInternal_body _ f key v d false isDefault nc np fa w)
    as [[[] w2]| |]; try reflexivity.
  all: destruct (validate_if_any _ f w2) as [[[] w3]| |]; reflexivity.
Qed.

Lemma validate_if_any_fuel fuel fuel' f w :
  well_formed w = true ->
  rank (List.length (nodes w)) (Validate f) <= fuel -> fuel <= fuel' ->
  validate_if_any (nested (exec fuel)) f w
  = validate_if_any (nested (exec fuel')) f w.
Proof.
  intros Hwf Hr Hle. unfold validate_if_any, bind, the_node.
  destruct (nth_error (nodes w) f) as [n|]; [|reflexivity].
  destruct (validator n); [|reflexivity].
  unfold nested, bind.
  rewrite (exec_fuel_le fuel fuel' (Validate f) Hle w); [reflexivity|].
  exact (wp_False_not_OutOfFuel _ _ _ (exec_sound fuel _ w Hwf Hr)).
Qed.

(** X18: a validating write is the same write without validation,
    followed by [validate()] when the write was applied and the node has a
    validator: [setValue(key, v, true, ...)] and [setValue(key, v, false,
    ...)] then [validate()] end with the same result, the same tree and
    the same observer calls, or raise the same error.  A short-circuited
    write validates nothing. *)
Theorem X18_validating_write fuel f key v isDefault nc np fa w :
  well_formed w = true ->
  enough (List.length (nodes w)) <= fuel ->
  exec fuel (SetValue f key v true isDefault nc np fa) w
  = (r <- exec fuel (SetValue f key v false isDefault nc np fa) ;;
     match r with
     | RBool true => validate_if_any (nested (exec fuel)) f ;;; ret r
     | _ => ret r
     end) w.
Proof.
  intros Hwf Hfuel.
  destruct fuel as [|[|fuel]]; try (unfold enough in Hfuel; lia).
  set (R := nested (exec (S fuel))).
  assert (Hs : forall b w1,
            setValue_body R f key v false isDefault nc np fa w = Ok (b, w1) ->
            shape w1 = shape w).
  { intros b w1 E.
    pose proof (exec_sound (S (S fuel))
                  (SetValue f key v false isDefault nc np fa) w Hwf
                  (enough_rank w _ _ Hfuel)) as H.
    unfold wp in H.
    change (exec (S (S fuel)) (SetValue f key v false isDefault nc np fa) w)
      with (bind (setValue_body R f key v false isDefault nc np fa)
                 (fun b => ret (RBool b)) w) in H.
    unfold bind in H. rewrite E in H. apply H. }
  change (exec (S (S fuel)) (SetValue f key v true isDefault nc np fa) w)
    with (bind (setValue_body R f key v true isDefault nc np fa)
               (fun b => ret (RBool b)) w).
  change (exec (S (S fuel)) (SetValue f key v false isDefault nc np fa))
    with (bind (setValue_body R f key v false isDefault nc np fa)
               (fun b => ret (RBool b))).
  unfold bind at 1.
  rewrite (setValue_body_split R (nested (exec fuel)))
    by (intros d w1; apply nested_svi_split).
  unfold bind.
  destruct (setValue_body R f key v false isDefault nc np fa w)
    as [[b w1]| |] eqn:E; try reflexivity.
  cbn [ret]. destruct b; [|reflexivity].
  rewrite (validate_if_any_fuel fuel (S (S fuel)) f w1).
  - destruct (validate_if_any _ f w1) as [[[] w2]| |]; reflexivity.
  - apply (well_formed_shape w w1 (Hs _ _ eq_refl) Hwf).
  - rewrite (shape_length w w1 (Hs _ _ eq_refl)). unfold enough in Hfuel.
    cbn [rank]. lia.
  - lia.
Qed.

Lemma X18_witness :
  let after_write :=
    exec 32 (SetValue 0 "name" (VStr "Ann") false false true true true) in
  exec 32 (SetValue 0 "name" (VStr "Ann") true false true true true) signup_form
  = (r <- after_write ;;
     match r with
     | RBool true => validate_if_any (nested (exec 32)) 0 ;;; ret r
     | _ => ret r
     end) signup_form /\
  result_of (after_write signup_form) = Some (RBool true).
Proof.
  split.
  - apply (X18_validating_write 32 0 "name" (VStr "Ann") false true true true
             signup_form).
    + vm_compute. reflexivity.
    + vm_compute. lia.
  - vm_compute. reflexivity.
Defined.

(** ** The order of the notifications of one write *)

Definition is_call_entry (e : event) : bool :=
  match e with Enter _ _ => true | _ => false end.

Lemma segment_allowed c w t :
  well_formed w = true -> no_validators w = true ->
  local_call c = true ->
  segment c1_extra c w t -> Forall (allowed c) t.
Proof.
  intros Hwf Hnv Hlc (wa & wb & [E _] & Hs & Ht).
  destruct E as (_ & t' & Ht' & Hall).
  - apply (well_formed_shape w wa); auto.
  - intros _. apply (no_validators_shape w wa); auto.
  - exact Hlc.
  - rewrite Ht in Ht'. apply app_inv_head in Ht'. now subst t'.
Qed.

(** X19: the order in which one write notifies.  In a tree without
    validators a [setValue(key, v)] that is applied first makes calls at
    nodes created after this one only (its child under [key] and the
    nodes below it), then calls the observers of [key] in the order of
    their subscription, then makes calls at nodes created before this one
    only (its ancestors are among them), none of them entering
    [setValues], and calls the node's own "any" observers last, in the
    order of their subscription. *)
Theorem X19_setValue_notification_order fuel f key v validate isDefault nc np
    fa w :
  well_formed w = true -> no_validators w = true ->
  enough (List.length (nodes w)) <= fuel ->
  f < List.length (nodes w) ->
  short_circuit isDefault (node_of w f) key v = false ->
  wp False (exec fuel (SetValue f key v validate isDefault nc np fa))
    (fun _ w' => exists below above,
       trace w' = (trace w ++ below
                   ++ field_events f key false (node_of w f)
                   ++ above
                   ++ (if fa then any_events f false (node_of w f) else []))%list /\
       Forall (fun e => f < ev_node e) below /\
       Forall (fun e => ev_node e < f /\ is_call_entry e = false) above) w.
Proof.
  intros Hwf Hnv Hfuel Hf Hsc.
  pose proof (node_at_of w f Hf) as Hme. unfold node_at in Hme.
  set (me := node_of w f) in *.
  eapply wp_mono.
  { apply (exec_setValue_with c1_extra exec_c1 fuel f key v validate
             isDefault nc np fa w me); eauto using enough_rank. }
  intros r w' H. cbv beta in H. rewrite Hsc in H. destruct H as [_ H].
  destruct H as (m0 & me0 & t1 & t2 & t3 & _ & _ & Hd & Hrel & Htr & S2 & S3 & _).
  assert (H1 : Forall (fun e => f < ev_node e) t1).
  { destruct (if (nc && negb (strict_eq v VUndef))%bool
              then assoc_get key (childMap me) else None) as [ch|] eqn:Hch.
    - destruct Hd as [_ Hseg].
      assert (Hlt : f < ch).
      { destruct (nc && negb (strict_eq v VUndef))%bool; [|discriminate].
        eapply child_above; eauto. }
      eapply Forall_impl;
        [|exact (segment_allowed (SetValues ch v isDefault true false) w t1
                  Hwf Hnv eq_refl Hseg)].
      intros [i k id fl|i id fl|i m]; cbn; lia.
    - destruct Hd as [_ ->]. constructor. }
  assert (H2 : Forall (fun e => ev_node e < f /\ is_call_entry e = false) t2).
  { destruct (fa && np)%bool; [|subst t2; constructor].
    eapply Forall_impl;
      [|exact (segment_allowed (UpdateParentValues f isDefault) w t2
                  Hwf Hnv eq_refl S2)].
    intros [i k id fl|i id fl|i m]; cbn; intros H;
      first [contradiction | split; [lia | reflexivity]]. }
  assert (H3 : t3 = []).
  { destruct S3 as [S3| ->]; [|reflexivity].
    pose proof (segment_allowed (Validate f) w t3 Hwf Hnv eq_refl S3) as Hall.
    destruct t3 as [|e t3]; [reflexivity|].
    inversion Hall as [|? ? He _]. destruct e; cbn in He; contradiction. }
  subst t3. exists t1, t2. split; [|split; assumption].
  rewrite Htr. now rewrite app_nil_r.
Qed.

Lemma X19_witness :
  wp False (exec 64 (SetValue 1 "geo" (VObj 9 [("lat", VNum 2)]) true false
                       true true true))
    (fun _ w' => exists below above,
       trace w' = (trace family_form ++ below ++ [] ++ above ++ [])%list /\
       Forall (fun e => 1 < ev_node e) below /\
       Forall (fun e => ev_node e < 1 /\ is_call_entry e = false) above)
    family_form /\
  option_map trace
    (world_of (exec 64 (SetValue 1 "geo" (VObj 9 [("lat", VNum 2)]) true false
                          true true true) family_form))
  = Some [Enter 2 MSetValues; FieldListener 0 "address" 0 false].
Proof.
  split; [|vm_compute; reflexivity].
  apply (X19_setValue_notification_order 64 1 "geo" (VObj 9 [("lat", VNum 2)])
           true false true true true family_form).
  - vm_compute. reflexivity.
  - vm_compute. reflexivity.
  - vm_compute. lia.
  - vm_compute. lia.
  - reflexivity.
Defined.

(** ** When [setState] completes *)

(** Every state is object-typed and every [values] a container. *)
Definition settled_node (n : node) : Prop :=
  typeof_object (state n) = true /\ container (values n) = true.

Definition settled (w : world) : Prop :=
  forall i n, nth_error (nodes w) i = Some n -> settled_node n.

Definition state_call (c : call) (w : world) : Prop :=
  match c with
  | SetState f s _ _ => f < List.length (nodes w) /\ typeof_object s = true
  | UpdateParentState f => f < List.length (nodes w)
  | _ => False
  end.

Definition steady (w0 w : world) : Prop := same_shape w0 w /\ settled w.

Lemma steady_env w0 w w' : nodes w' = nodes w -> steady w0 w -> steady w0 w'.
Proof.
  intros E [Hs Hst]. split.
  - unfold same_shape, shape in *. now rewrite E.
  - unfold settled. now rewrite E.
Qed.

Lemma steady_with_state w0 w f s :
  typeof_object s = true -> steady w0 w ->
  steady w0 (set_nodes (list_update f (with_state s) (nodes w)) w).
Proof.
  intros Hs [Hsh Hst]. split.
  - eapply same_shape_trans; [exact Hsh|].
    apply same_shape_update. reflexivity.
  - unfold settled. apply (nodewise_update settled_node); [|exact Hst].
    intros n _ [_ Hv]. split; [exact Hs | exact Hv].
Qed.

Lemma container_keys v : container v = true -> exists ks, object_keys v = Some ks.
Proof. destruct v; try discriminate; cbn; eauto. Qed.

Lemma memberCopy_typeof r v c : memberCopy r v = Ok c -> typeof_object c = true.
Proof. destruct v; cbn; try discriminate; intros H; now injection H as <-. Qed.

Section StateRuns.
Variable run : call -> M unit.
Hypothesis Hrun : forall c w, linked w -> settled w -> state_call c w ->
  runs (run c) (fun _ w' => steady w w') w.

Lemma run_state c w0 w :
  linked w0 -> steady w0 w ->
  (List.length (nodes w0) = List.length (nodes w) -> state_call c w) ->
  runs (run c) (fun _ w' => steady w0 w') w.
Proof.
  intros HL [Hs Hst] Hc. eapply runs_mono.
  - apply Hrun; [exact (linked_shape w0 w HL Hs) | exact Hst|].
    apply Hc. symmetry. now apply shape_length.
  - cbv beta. intros _ w' [H1 H2].
    split; [exact (same_shape_trans w0 w w' Hs H1) | exact H2].
Qed.

Lemma updateParentState_runs f w :
  linked w -> settled w -> f < List.length (nodes w) ->
  runs (updateParentState_body run f) (fun _ w' => steady w w') w.
Proof.
  intros HL Hst Hf. pose proof HL as [Hwf _].
  destruct (nth_error (nodes w) f) as [me|] eqn:Hme;
    [|apply nth_error_None in Hme; lia].
  unfold updateParentState_body.
  apply runs_bind, (runs_the_node f me); [exact Hme|].
  destruct (parent me) as [[p name]|] eqn:Hp.
  - pose proof (parent_below w f me p name Hwf Hme Hp) as Hlt.
    destruct (memberCopy_object (state me) (nextRef w)
                (proj1 (Hst f me Hme))) as [c Hc].
    apply runs_bind, (runs_copy _ c); [exact Hc|].
    apply (run_state _ w); [exact HL| |].
    + apply (steady_env w w); [reflexivity|]. split; [reflexivity | exact Hst].
    + cbn. intros _. split; [lia|]. eapply memberCopy_typeof; eauto.
  - apply runs_ret. split; [reflexivity | exact Hst].
Qed.

Lemma setState_runs f s nc np w :
  linked w -> settled w -> f < List.length (nodes w) ->
  typeof_object s = true ->
  runs (setState_body run f s nc np) (fun _ w' => steady w w') w.
Proof.
  intros HL Hst Hf Hs. pose proof HL as [Hwf Hcl].
  assert (Hnode : forall w1, steady w w1 ->
            exists n, nth_error (nodes w1) f = Some n).
  { intros w1 [H1 _]. exact (same_shape_node w w1 f H1 Hf). }
  unfold setState_body.
  apply runs_bind, runs_emit.
  apply runs_bind, runs_update_node.
  set (w1 := set_nodes _ _).
  assert (H1 : steady w w1).
  { apply steady_with_state; [exact Hs|].
    apply (steady_env w w); [reflexivity|]. split; [reflexivity | exact Hst]. }
  destruct (Hnode w1 H1) as [me Hme].
  apply runs_bind, (runs_the_node f me); [exact Hme|].
  destruct (container_keys _ (proj2 (proj2 H1 f me Hme))) as [ks Hks].
  apply runs_bind, (runs_keys_of _ ks); [exact Hks|].
  apply runs_bind.
  apply (runs_mono _ (fun _ w2 => steady w w2)).
  { apply runs_when; [intros _|intros _; exact H1].
    apply runs_for_each; [exact H1|].
    intros x wk _ Hk. destruct (Hnode wk Hk) as [nk Hnk].
    apply runs_bind, (runs_the_node f nk); [exact Hnk|].
    destruct (assoc_get x (childMap nk)) as [child|] eqn:Hch;
      [|apply runs_ret; exact Hk].
    apply (run_state _ w); [exact HL | exact Hk|].
    intros E. split; [|exact Hs]. rewrite <- E.
    pose proof (closed_shape w wk (proj1 Hk) Hcl) as Hclk.
    rewrite (shape_length w wk (proj1 Hk)) in E.
    rewrite <- (shape_length w wk (proj1 Hk)).
    exact (Hclk f nk x child Hnk Hch). }
  cbv beta. intros _ w2 H2.
  apply runs_bind.
  apply (runs_mono _ (fun _ w3 => steady w w3)).
  { apply runs_for_each; [exact H2|].
    intros x wk _ Hk. destruct (Hnode wk Hk) as [nk Hnk].
    apply (runs_fireListeners f x false nk); [exact Hnk|].
    apply (steady_env w wk); [reflexivity | exact Hk]. }
  cbv beta. intros _ w3 H3.
  apply runs_bind.
  apply (runs_mono _ (fun _ w4 => steady w w4)).
  { apply runs_when; [intros _|intros _; exact H3].
    apply (run_state _ w); [exact HL | exact H3|]. cbn. intros <-. exact Hf. }
  cbv beta. intros _ w4 H4.
  destruct (Hnode w4 H4) as [n4 Hn4].
  apply (runs_fireAnyListeners f false n4); [exact Hn4|].
  apply (steady_env w w4); [reflexivity | exact H4].
Qed.

Lemma state_runs_step c w :
  linked w -> settled w -> state_call c w ->
  runs (body run c) (fun _ w' => steady w w') w.
Proof.
  intros HL Hst Hc. destruct c; cbn [state_call] in Hc; try contradiction;
    cbn [body]; unfold void; apply runs_bind.
  - destruct Hc as [Hf Hs]. eapply runs_mono; [now apply setState_runs|].
    cbv beta. intros _ w' H. exact H.
  - eapply runs_mono; [now apply updateParentState_runs|].
    cbv beta. intros _ w' H. exact H.
Qed.
End StateRuns.

Lemma state_calls_run fuel : forall c w,
  linked w -> settled w -> state_call c w ->
  runs (exec fuel c) (fun _ w' => steady w w') w.
Proof.
  induction fuel as [|fuel IH]; intros c w HL Hst Hc; [exact I|].
  cbn [exec]. apply (state_runs_step (nested (exec fuel))); auto.
  intros c' w' HL' Hst' Hc'. unfold nested. apply runs_bind.
  eapply runs_mono; [apply IH; assumption|].
  cbv beta. intros r w2 H. exact H.
Qed.

(** X20: [setState] and [updateParentState] complete in a tree whose
    keys are ordinary and where every state is object-typed (as
    [memberCopy] leaves it at construction): called with an object-typed
    state they raise no error, however many children and ancestors are
    notified, and every state in the tree is object-typed again
    afterwards.  (At a key of [values] that names a member of
    [Object.prototype], [this.childMap[e]] is the inherited member, and
    calling its [setState] raises a [TypeError].) *)
Theorem X20_setState_completes fuel c w :
  well_formed w = true -> closed w -> settled w ->
  ordinary_world w = true ->
  enough (List.length (nodes w)) <= fuel ->
  state_call c w ->
  exists r w', exec fuel c w = Ok (r, w') /\ shape w' = shape w /\ settled w'.
Proof.
  intros Hwf Hcl Hst _ Hfuel Hc.
  destruct (runs_returns _ _ _ w
              (exec_sound fuel c w Hwf (enough_rank w c fuel Hfuel))
              (state_calls_run fuel c w (conj Hwf Hcl) Hst Hc))
    as (r & w' & E & _ & Hs & Hst').
  exists r, w'. split; [exact E|]. split; [exact Hs | exact Hst'].
Qed.

Lemma family_form_settled : settled family_form.
Proof.
  intros [|[|[|i]]] n H; cbn in H; try discriminate H;
    try (injection H as <-; split; reflexivity).
  destruct i; discriminate H.
Qed.

Lemma family_form_ok : tree_ok family_form.
Proof.
  apply (script_tree_ok
           [NewForm (VObj 0 [("address", VObj 1 [("geo", VObj 2 [("lat", VNum 1)])])])
                    (VObj 3 []) (VObj 4 [("isSubmitting", VBool false)]) None;
            Listen 0 "address";
            NewChild 0 "address";
            NewChild 1 "geo"] initial).
  - apply tree_ok_nil.
  - vm_compute. reflexivity.
Qed.

Lemma X20_witness :
  exists r w',
    exec 64 (SetState 1 submitting true true) family_form = Ok (r, w') /\
    shape w' = shape family_form /\ settled w'.
Proof.
  apply (X20_setState_completes 64 (SetState 1 submitting true true)
           family_form).
  - vm_compute. reflexivity.
  - apply child_links_closed, family_form_ok.
  - apply family_form_settled.
  - vm_compute. reflexivity.
  - vm_compute. lia.
  - split; [vm_compute; lia | reflexivity].
Defined.

(** ** When [setState] fails *)

(** The call raises the [memberCopy] error, unless it runs out of fuel. *)
Definition fails {A} (m : M A) (w : world) : Prop :=
  match m w with
  | Throw CopyError => True
  | OutOfFuel => True
  | _ => False
  end.

Lemma fails_bind {A B} (m : M A) (k : A -> M B) w :
  fails m w -> fails (bind m k) w.
Proof.
  unfold fails, bind. destruct (m w) as [[a w']|e|]; [contradiction|auto ..].
Qed.

Lemma fails_bind_ok {A B} (m : M A) (k : A -> M B) w a w' :
  m w = Ok (a, w') -> fails (k a) w' -> fails (bind m k) w.
Proof. unfold fails, bind. now intros ->. Qed.

Lemma loop_fails_or_skips {A} (l : list A) (body : A -> M unit) w :
  (forall x, In x l -> fails (body x) w \/ body x w = Ok (tt, w)) ->
  fails (for_each l body) w \/ for_each l body w = Ok (tt, w).
Proof.
  induction l as [|x t IH]; intros H; cbn [for_each]; [now right|].
  destruct (H x (or_introl eq_refl)) as [Hx|Hx].
  - left. now apply fails_bind.
  - destruct IH as [Ht|Ht]; [intros y Hy; apply H; now right| |].
    + left. eapply fails_bind_ok; eauto.
    + right. unfold bind. now rewrite Hx.
Qed.

Lemma fire_keys_eq f me ks : forall w,
  nth_error (nodes w) f = Some me ->
  exists t, for_each ks (fun e => fireListeners f e false) w
            = Ok (tt, add_events t w).
Proof.
  induction ks as [|x ks IH]; intros w Hme; cbn [for_each].
  - exists []. now rewrite add_events_nil.
  - unfold bind. rewrite (fireListeners_eq f x false w me Hme).
    destruct (IH (add_events (field_events f x false me) w) Hme) as [t ->].
    exists (field_events f x false me ++ t)%list.
    unfold add_events. cbn. now rewrite app_assoc.
Qed.

(** What the failure needs of the tree: parents before children, child
    map entries that lead to nodes with that parent, and containers for
    values. *)
Definition grown (w : world) : Prop :=
  well_formed w = true /\ child_links w /\ containers w.

Lemma grown_with_state w f s e :
  grown w ->
  grown (set_nodes (list_update f (with_state s) (nodes (add_event e w)))
                   (add_event e w)).
Proof.
  intros (Hwf & Hl & Hc).
  assert (Hs : shape (set_nodes (list_update f (with_state s)
                                   (nodes (add_event e w))) (add_event e w))
               = shape w).
  { rewrite shape_update; reflexivity. }
  split; [exact (well_formed_shape _ _ Hs Hwf)|]. split.
  - eapply child_links_same; [apply shape_links; exact Hs | exact Hl].
  - unfold containers. apply (nodewise_update holder); [|exact Hc].
    intros n _ H. exact H.
Qed.

Lemma setState_scalar_fails s fuel : forall f nc w me p name,
  grown w -> nth_error (nodes w) f = Some me ->
  parent me = Some (p, name) -> typeof_object s = false ->
  fails (exec fuel (SetState f s nc true)) w.
Proof.
  induction fuel as [|fuel IH]; intros f nc w me p name Hg Hme Hp Hs;
    [exact I|].
  cbn [exec body]. unfold void, setState_body.
  apply fails_bind.
  eapply fails_bind_ok; [reflexivity|].
  eapply fails_bind_ok; [reflexivity|].
  set (w1 := set_nodes _ _).
  pose proof (grown_with_state w f s (Enter f MSetState) Hg) as Hg1.
  fold w1 in Hg1.
  assert (Hme1 : nth_error (nodes w1) f = Some (with_state s me)).
  { unfold w1. cbn [nodes set_nodes add_event].
    now rewrite nth_error_list_update, Nat.eqb_refl, Hme. }
  eapply fails_bind_ok; [unfold the_node; rewrite Hme1; reflexivity|].
  destruct Hg1 as (Hwf1 & Hl1 & Hc1).
  destruct (container_keys _ (proj1 (Hc1 f _ Hme1))) as [ks Hks].
  eapply fails_bind_ok; [unfold keys_of; rewrite Hks; reflexivity|].
  assert (Hloop : fails (when nc (for_each ks (fun e =>
                     me0 <- the_node f ;;
                     match assoc_get e (childMap me0) with
                     | Some child =>
                         nested (exec fuel) (SetState child s nc true)
                     | None => ret tt
                     end))) w1
                  \/ when nc (for_each ks (fun e =>
                     me0 <- the_node f ;;
                     match assoc_get e (childMap me0) with
                     | Some child =>
                         nested (exec fuel) (SetState child s nc true)
                     | None => ret tt
                     end)) w1 = Ok (tt, w1)).
  { destruct nc; cbn [when]; [|now right].
    apply loop_fails_or_skips. intros x _.
    destruct (assoc_get x (childMap (with_state s me))) as [child|] eqn:Hch.
    - left.
      eapply fails_bind_ok; [unfold the_node; rewrite Hme1; reflexivity|].
      rewrite Hch. unfold nested. apply fails_bind.
      destruct (Hl1 f _ x child Hme1 Hch) as (cn & Hcn & Hcp).
      apply (IH child true w1 cn f x); auto. split; auto.
    - right. unfold bind, the_node. rewrite Hme1, Hch. reflexivity. }
  destruct Hloop as [Hloop|Hloop]; [now apply fails_bind|].
  eapply fails_bind_ok; [exact Hloop|].
  destruct (fire_keys_eq f _ ks w1 Hme1) as [t Ht].
  eapply fails_bind_ok; [exact Ht|].
  apply fails_bind. cbn [when]. unfold nested. apply fails_bind.
  destruct fuel as [|fuel]; [exact I|].
  cbn [exec body]. unfold void, updateParentState_body.
  apply fails_bind.
  eapply fails_bind_ok;
    [unfold the_node; cbn [nodes add_events]; rewrite Hme1; reflexivity|].
  cbn [parent with_state]. rewrite Hp.
  apply fails_bind. unfold fails, copy, bind, fresh, lift.
  cbn [state with_state]. now rewrite (memberCopy_scalar _ s Hs).
Qed.

(** X21: in a tree whose keys are ordinary, [setState(s)] with a state
    that is not object-typed (a boolean, number, string or [undefined])
    raises the [memberCopy] error when it is called with [notifyParent] on
    a node that has a parent: [updateParentState] copies the state for the
    parent, at the node itself or, with [notifyChild], at the first child
    node reached. *)
Theorem X21_scalar_state_throws fuel f s nc w :
  tree_ok w -> ordinary_world w = true ->
  enough (List.length (nodes w)) <= fuel ->
  f < List.length (nodes w) ->
  parent (node_of w f) <> None ->
  typeof_object s = false ->
  exec fuel (SetState f s nc true) w = Throw CopyError.
Proof.
  intros (Hwf & Hl & _ & _ & Hc) _ Hfuel Hf Hp Hs.
  pose proof (node_at_of w f Hf) as Hme. unfold node_at in Hme.
  destruct (parent (node_of w f)) as [[p name]|] eqn:Hpar; [|congruence].
  pose proof (setState_scalar_fails s fuel f nc w _ p name
                (conj Hwf (conj Hl Hc)) Hme Hpar Hs) as H.
  pose proof (wp_False_not_OutOfFuel _ _ _
                (exec_sound fuel (SetState f s nc true) w Hwf
                   (enough_rank w _ fuel Hfuel))) as Hno.
  unfold fails in H.
  destruct (exec fuel (SetState f s nc true) w) as [[r w']|[]|];
    first [contradiction | reflexivity | congruence].
Qed.

Lemma X21_witness :
  exec 64 (SetState 1 (VNum 5) true true) family_form = Throw CopyError /\
  result_of (exec 64 (SetState 0 (VNum 5) false true) family_form)
  = Some RVoid.
Proof.
  split; [|vm_compute; reflexivity].
  apply (X21_scalar_state_throws 64 1 (VNum 5) true family_form).
  - apply family_form_ok.
  - vm_compute. reflexivity.
  - vm_compute. lia.
  - vm_compute. lia.
  - discriminate.
  - reflexivity.
Defined.

(** ** Writes that complete *)

(** Value calls that enter no child node: the upward calls, and a bulk
    replace at a node without child nodes (or with [notifyChild] false),
    given something [Object.keys] accepts. *)
Definition flat_call (c : call) (w : world) : Prop :=
  match c with
  | SetValues f vs _ nc _ =>
      f < List.length (nodes w) /\ object_keys vs <> None /\
      (nc = false \/
       forall n, nth_error (nodes w) f = Some n -> childMap n = [])
  | _ => upward c w
  end.

Lemma setValues_runs fuel f vs isDefault nc np w :
  sane w -> flat_call (SetValues f vs isDefault nc np) w ->
  runs (exec fuel (SetValues f vs isDefault nc np)) (fun _ w' => kept w w') w.
Proof.
  intros Hs (Hf & Hvs & Hch). pose proof Hs as (Hwf & Hnv & Hpl).
  destruct fuel as [|fuel]; [exact I|].
  cbn [exec body]. unfold void, setValues_body.
  destruct (nth_error (nodes w) f) as [me|] eqn:Hme;
    [|apply nth_error_None in Hme; lia].
  destruct (object_keys vs) as [ks|] eqn:Hks; [|congruence].
  apply runs_bind, runs_bind, runs_emit.
  apply runs_bind, (runs_the_node f me); [exact Hme|].
  apply runs_bind,
    (runs_keys_of _ (keys (side isDefault me)));
    [apply keys_keyed, (plain_at w f me isDefault Hpl Hme)|].
  apply runs_bind, (runs_keys_of _ ks); [exact Hks|].
  set (w1 := add_event _ w).
  assert (H1 : kept w w1) by (now apply kept_env).
  assert (Hup : forall c wk, kept w wk -> upward c wk ->
            runs (nested (exec fuel) c) (fun _ w2 => kept w w2) wk).
  { intros c wk Hk Hc. unfold nested. apply runs_bind. eapply runs_mono.
    - apply upward_runs; [exact (sane_kept w wk Hs Hk) | exact Hc].
    - cbv beta. intros r w2 K. apply runs_ret. exact (kept_trans w wk w2 Hk K). }
  apply runs_bind.
  apply (runs_mono _ (fun _ w2 => kept w w2)).
  { apply runs_for_each; [exact H1|].
    intros x wk _ Hk. apply Hup; [exact Hk|].
    split; [rewrite (kept_length w wk Hk); exact Hf|].
    destruct Hch as [->|Hc]; [now left|]. right. right.
    intros n Hn. rewrite (kept_childMap w wk f me n Hk Hme Hn), (Hc me eq_refl).
    reflexivity. }
  cbv beta. intros _ w2 H2.
  apply runs_bind.
  apply (runs_mono _ (fun _ w3 => kept w w3)).
  { apply runs_when; [intros _|intros _; exact H2].
    apply Hup; [exact H2|]. cbn. rewrite (kept_length w w2 H2). exact Hf. }
  cbv beta. intros _ w3 H3.
  destruct (kept_node w w3 f H3 Hf) as [n3 Hn3].
  apply runs_bind, (runs_fireAnyListeners f true n3); [exact Hn3|].
  apply runs_bind, (runs_the_node f n3); [exact Hn3|].
  assert (H4 : kept w (add_events (any_events f true n3) w3)).
  { eapply kept_trans; [exact H3|]. apply kept_events. apply H3. }
  rewrite (no_validators_at w3 f n3); [|apply (sane_kept w w3 Hs H3)|exact Hn3].
  apply runs_ret, runs_ret. exact H4.
Qed.

(** X22: in a tree of keyed forms without validators, all keys ordinary,
    a write with ordinary keys that enters no child node always completes:
    [setValue] (at a key without child node, or with [notifyChild] false,
    or of [undefined]), [setValues] (at a node without child nodes or with
    [notifyChild] false, given anything but [null] or [undefined]) and the
    upward propagation raise no error, whatever the values and however
    many ancestors are notified; the forms are keyed afterwards as well.
    (At a key that names a member of [Object.prototype],
    [this.childMap[key]] is the inherited member.) *)
Theorem X22_flat_writes_complete fuel c w :
  sane w -> ordinary_world w = true -> ordinary_call c = true ->
  enough (List.length (nodes w)) <= fuel ->
  flat_call c w ->
  exists r w', exec fuel c w = Ok (r, w') /\ shape w' = shape w /\
               plain w' = true.
Proof.
  intros Hs _ _ Hfuel Hc. pose proof Hs as (Hwf & _).
  assert (Hr : runs (exec fuel c) (fun _ w' => kept w w') w).
  { destruct c; try (now apply upward_runs). now apply setValues_runs. }
  destruct (runs_returns _ _ _ w
              (exec_sound fuel c w Hwf (enough_rank w c fuel Hfuel)) Hr)
    as (r & w' & E & _ & K).
  exists r, w'. split; [exact E | exact K].
Qed.

Lemma X22_witness :
  (exists r w',
     exec 32 (SetValues 1 (VObj 9 [("city", VStr "Lyon"); ("zip", VNum 69)])
                false true true) address_form = Ok (r, w') /\
     shape w' = shape address_form /\ plain w' = true) /\
  (exists r w',
     exec 32 (SetValue 0 "address" (VNum 3) true false false true true)
       address_form = Ok (r, w') /\
     shape w' = shape address_form /\ plain w' = true).
Proof.
  split.
  - apply (X22_flat_writes_complete 32
             (SetValues 1 (VObj 9 [("city", VStr "Lyon"); ("zip", VNum 69)])
                false true true) address_form).
    + repeat split; vm_compute; reflexivity.
    + vm_compute. reflexivity.
    + vm_compute. reflexivity.
    + vm_compute. lia.
    + split; [vm_compute; lia|]. split; [discriminate|]. right.
      intros n Hn. injection Hn as <-. reflexivity.
  - apply (X22_flat_writes_complete 32
             (SetValue 0 "address" (VNum 3) true false false true true)
             address_form).
    + repeat split; vm_compute; reflexivity.
    + vm_compute. reflexivity.
    + vm_compute. reflexivity.
    + vm_compute. lia.
    + split; [vm_compute; lia | now left].
Defined.
